(** * A red-black tree map on a pointer heap (rbtree.h, per-tree sentinel)

    The nodes of the C++ container live on a heap and are linked by raw
    pointers ([parent], [left], [right]); every tree owns one sentinel
    node [nil] that stands for "no child" and "no parent".  The
    development below embeds the container as it is written: a heap of
    node records addressed by pointers, a state-and-error monad for the
    pointer programs, the loops of the source as fuelled fixpoints. *)

From stdpp Require Import gmap list strings sorting.
From Stdlib Require Import ZArith.

Open Scope N_scope.

(** ** Results of pointer programs *)

(** A pointer program either returns, or dereferences a pointer that
    does not designate a live object ([Fault], undefined behaviour in
    C++), or is still inside one of its loops when the fuel is
    exhausted ([Timeout]). *)
Inductive result (A : Type) : Type :=
  | Done (a : A)
  | Fault
  | Timeout.
Arguments Done {A} a.
Arguments Fault {A}.
Arguments Timeout {A}.

Definition M (S A : Type) : Type := S -> result (A * S).

Definition ret {S A} (a : A) : M S A := fun s => Done (a, s).
Definition bind {S A B} (m : M S A) (k : A -> M S B) : M S B :=
  fun s => match m s with
           | Done (a, s') => k a s'
           | Fault => Fault
           | Timeout => Timeout
           end.
Definition fault {S A} : M S A := fun _ => Fault.
Definition timeout {S A} : M S A := fun _ => Timeout.

Declare Scope prog_scope.
Delimit Scope prog_scope with prog.
Notation "x <- m ;; k" := (bind m (fun x => k))
  (at level 20, m at level 99, k at level 200, only parsing) : prog_scope.
Notation "' pat <- m ;; k" := (bind m (fun x => match x with pat => k end))
  (at level 20, pat pattern, m at level 99, k at level 200, only parsing) : prog_scope.
Open Scope prog_scope.

(** ** Pointers, nodes and the heap *)

Definition ptr : Type := N.
Definition nullptr : ptr := 0.

(** [enum class Color : uint8_t { Red, Black }] *)
Inductive Color : Type := Red | Black.

Definition Color_eqb (a b : Color) : bool :=
  match a, b with
  | Red, Red | Black, Black => true
  | _, _ => false
  end.

(** [struct TreeBase { NodeBase * nil; NodeBase * root; }] *)
Record TreeBase : Type := mkTreeBase { nil : ptr; root : ptr }.

(** [counting_allocator]: two pointers to [unsigned] counters, either of
    which may be null.  The default [std::allocator] keeps no state and
    all its instances are equal; it is the allocator with two null
    pointers. *)
Record Allocator : Type := mkAllocator { m_allocations : ptr; m_deallocations : ptr }.

Definition std_allocator : Allocator := mkAllocator nullptr nullptr.

Definition Allocator_eqb (lhs rhs : Allocator) : bool :=
  (m_allocations lhs =? m_allocations rhs) && (m_deallocations lhs =? m_deallocations rhs).

(** Iterators: [m_tree] tells whether the iterator is bound to a tree
    (a default-constructed iterator is not), [m_node] is the node. *)
Record IteratorTemplate : Type := mkIterator { m_tree : bool; m_node : ptr }.

(** [operator==] on iterators compares the nodes only. *)
Definition Iterator_eqb (lhs rhs : IteratorTemplate) : bool := m_node lhs =? m_node rhs.

Definition size_t_max : N := 2 ^ 64.
Definition unsigned_max : N := 2 ^ 32.

Section RBTree.

(** Key and mapped types, with the operations the container uses on
    them: the comparator, [operator==] on keys, [operator==] on mapped
    values and the value-initialised [T{}]. *)
Context {K T : Type}.
Variable cmp : K -> K -> bool.
Variable key_eq : K -> K -> bool.
Variable val_eq : T -> T -> bool.
Variable T_default : T.

(** [struct NodeBase] and [struct Node : NodeBase], in one record: the
    sentinel is constructed as a bare [NodeBase] and carries no
    payload. *)
Record Node : Type := mkNode {
  parent : ptr;
  left : ptr;
  right : ptr;
  color : Color;
  value : option (K * T)
}.

Definition with_parent (n : Node) (p : ptr) : Node :=
  mkNode p (left n) (right n) (color n) (value n).
Definition with_left (n : Node) (p : ptr) : Node :=
  mkNode (parent n) p (right n) (color n) (value n).
Definition with_right (n : Node) (p : ptr) : Node :=
  mkNode (parent n) (left n) p (color n) (value n).
Definition with_color (n : Node) (c : Color) : Node :=
  mkNode (parent n) (left n) (right n) c (value n).
Definition with_second (n : Node) (v : T) : Node :=
  mkNode (parent n) (left n) (right n) (color n)
         (match value n with Some (k, _) => Some (k, v) | None => None end).

(** The world: the node heap, the next address [operator new] hands
    out, and the [unsigned] counters the counting allocators point to. *)
Record World : Type := mkWorld {
  heap : gmap N Node;
  brk : N;
  cells : gmap N N
}.

Definition set_heap (f : gmap N Node -> gmap N Node) (w : World) : World :=
  mkWorld (f (heap w)) (brk w) (cells w).

Definition empty_world : World := mkWorld ∅ 1 ∅.

Definition load (p : ptr) : M World Node :=
  fun w => match heap w !! p with
           | Some n => Done (n, w)
           | None => Fault
           end.

Definition store (p : ptr) (n : Node) : M World unit :=
  fun w => match heap w !! p with
           | Some _ => Done (tt, set_heap (<[p:=n]>) w)
           | None => Fault
           end.

Definition get_parent (p : ptr) : M World ptr := n <- load p ;; ret (parent n).
Definition get_left (p : ptr) : M World ptr := n <- load p ;; ret (left n).
Definition get_right (p : ptr) : M World ptr := n <- load p ;; ret (right n).
Definition get_color (p : ptr) : M World Color := n <- load p ;; ret (color n).
(** Reading the payload of a node that has none (the sentinel) is a fault. *)
Definition get_value (p : ptr) : M World (K * T) :=
  n <- load p ;;
  match value n with
  | Some kv => ret kv
  | None => fault
  end.

Definition set_parent (p v : ptr) : M World unit := n <- load p ;; store p (with_parent n v).
Definition set_left (p v : ptr) : M World unit := n <- load p ;; store p (with_left n v).
Definition set_right (p v : ptr) : M World unit := n <- load p ;; store p (with_right n v).
Definition set_color (p : ptr) (c : Color) : M World unit := n <- load p ;; store p (with_color n c).
Definition set_second (p : ptr) (v : T) : M World unit := n <- load p ;; store p (with_second n v).

(** ** detail: type-erased node manipulation *)

Definition isLeftChild (node : ptr) : M World bool :=
  p <- get_parent node ;; l <- get_left p ;; ret (node =? l).

Definition isRightChild (node : ptr) : M World bool :=
  p <- get_parent node ;; r <- get_right p ;; ret (node =? r).

(** [linkTo] returns a reference to the pointer that designates
    [node]: a child field of its parent, or the root field of the tree. *)
Inductive Link : Type :=
  | LinkLeft (p : ptr)
  | LinkRight (p : ptr)
  | LinkRoot.

Definition linkTo (node : ptr) : M World Link :=
  il <- isLeftChild node ;;
  if il then p <- get_parent node ;; ret (LinkLeft p)
  else
    ir <- isRightChild node ;;
    if ir then p <- get_parent node ;; ret (LinkRight p)
    else ret LinkRoot.

Definition assign (tree : TreeBase) (l : Link) (v : ptr) : M World TreeBase :=
  match l with
  | LinkLeft p => _ <- set_left p v ;; ret tree
  | LinkRight p => _ <- set_right p v ;; ret tree
  | LinkRoot => ret (mkTreeBase (nil tree) v)
  end.

(** [while (node->left != node->left->left) { node = node->left; }] *)
Fixpoint allLeft (fuel : nat) (node : ptr) : M World ptr :=
  match fuel with
  | O => timeout
  | S fuel =>
      l <- get_left node ;;
      ll <- get_left l ;;
      if l =? ll then ret node else allLeft fuel l
  end.

Fixpoint allRight (fuel : nat) (node : ptr) : M World ptr :=
  match fuel with
  | O => timeout
  | S fuel =>
      r <- get_right node ;;
      rr <- get_right r ;;
      if r =? rr then ret node else allRight fuel r
  end.

(** The climbing loops of [predecessor] and [successor]. *)
Fixpoint predecessor_climb (fuel : nat) (tree : TreeBase) (node : ptr) : M World ptr :=
  match fuel with
  | O => timeout
  | S fuel =>
      if node =? nil tree then ret nullptr
      else
        p <- get_parent node ;;
        r <- get_right p ;;
        if node =? r then ret p else predecessor_climb fuel tree p
  end.

Definition predecessor (fuel : nat) (tree : TreeBase) (node : ptr) : M World ptr :=
  if node =? nil tree then allRight fuel (root tree)
  else
    l <- get_left node ;;
    if negb (l =? nil tree) then allRight fuel l
    else predecessor_climb fuel tree node.

Fixpoint successor_climb (fuel : nat) (tree : TreeBase) (node : ptr) : M World ptr :=
  match fuel with
  | O => timeout
  | S fuel =>
      if node =? nil tree then ret nullptr
      else
        p <- get_parent node ;;
        l <- get_left p ;;
        if node =? l then ret p else successor_climb fuel tree p
  end.

Definition successor (fuel : nat) (tree : TreeBase) (node : ptr) : M World ptr :=
  if node =? nil tree then allLeft fuel (root tree)
  else
    r <- get_right node ;;
    if negb (r =? nil tree) then allLeft fuel r
    else successor_climb fuel tree node.

Definition leftRotate (tree : TreeBase) (x : ptr) : M World TreeBase :=
  y <- get_right x ;;
  yl <- get_left y ;;
  _ <- set_right x yl ;;
  xr <- get_right x ;;
  _ <- set_parent xr x ;;
  _ <- set_left y x ;;
  xp <- get_parent x ;;
  _ <- set_parent y xp ;;
  l <- linkTo x ;;
  tree <- assign tree l y ;;
  _ <- set_parent x y ;;
  ret tree.

Definition rightRotate (tree : TreeBase) (y : ptr) : M World TreeBase :=
  x <- get_left y ;;
  xr <- get_right x ;;
  _ <- set_left y xr ;;
  yl <- get_left y ;;
  _ <- set_parent yl y ;;
  _ <- set_right x y ;;
  yp <- get_parent y ;;
  _ <- set_parent x yp ;;
  l <- linkTo y ;;
  tree <- assign tree l x ;;
  _ <- set_parent y x ;;
  ret tree.

Fixpoint insertFixup (fuel : nat) (tree : TreeBase) (node : ptr) : M World TreeBase :=
  match fuel with
  | O => timeout
  | S fuel =>
      parent <- get_parent node ;;
      pc <- get_color parent ;;
      match pc with
      | Black => _ <- set_color (root tree) Black ;; ret tree
      | Red =>
          il <- isLeftChild parent ;;
          pp <- get_parent parent ;;
          uncle <- (if il then get_right pp else get_left pp) ;;
          uc <- get_color uncle ;;
          match uc with
          | Red =>
              _ <- set_color parent Black ;;
              _ <- set_color uncle Black ;;
              pp <- get_parent parent ;;
              _ <- set_color pp Red ;;
              pp <- get_parent parent ;;
              insertFixup fuel tree pp
          | Black =>
              il <- isLeftChild parent ;;
              if il then
                ir <- isRightChild node ;;
                '(tree, node, parent) <-
                  (if ir then
                     tree <- leftRotate tree parent ;;
                     p <- get_parent parent ;;
                     ret (tree, parent, p)
                   else ret (tree, node, parent)) ;;
                _ <- set_color parent Black ;;
                pp <- get_parent parent ;;
                _ <- set_color pp Red ;;
                pp <- get_parent parent ;;
                tree <- rightRotate tree pp ;;
                insertFixup fuel tree node
              else
                il <- isLeftChild node ;;
                '(tree, node, parent) <-
                  (if il then
                     tree <- rightRotate tree parent ;;
                     p <- get_parent parent ;;
                     ret (tree, parent, p)
                   else ret (tree, node, parent)) ;;
                _ <- set_color parent Black ;;
                pp <- get_parent parent ;;
                _ <- set_color pp Red ;;
                pp <- get_parent parent ;;
                tree <- leftRotate tree pp ;;
                insertFixup fuel tree node
          end
      end
  end.

Fixpoint extractFixup (fuel : nat) (tree : TreeBase) (node : ptr) : M World TreeBase :=
  match fuel with
  | O => timeout
  | S fuel =>
      parent <- get_parent node ;;
      continue <- (if negb (node =? root tree)
                   then c <- get_color node ;; ret (Color_eqb c Black)
                   else ret false) ;;
      if continue then
        il <- isLeftChild node ;;
        if il then
          sibling <- get_right parent ;;
          sc <- get_color sibling ;;
          '(tree, sibling) <-
            (if Color_eqb sc Red then
               _ <- set_color sibling Black ;;
               _ <- set_color parent Red ;;
               tree <- leftRotate tree parent ;;
               s <- get_right parent ;;
               ret (tree, s)
             else ret (tree, sibling)) ;;
          sl <- get_left sibling ;;
          slc <- get_color sl ;;
          both <- (if Color_eqb slc Black
                   then sr <- get_right sibling ;; src <- get_color sr ;; ret (Color_eqb src Black)
                   else ret false) ;;
          if both then
            _ <- set_color sibling Red ;;
            extractFixup fuel tree parent
          else
            sr <- get_right sibling ;;
            src <- get_color sr ;;
            '(tree, sibling) <-
              (if Color_eqb src Black then
                 sl <- get_left sibling ;;
                 _ <- set_color sl Black ;;
                 _ <- set_color sibling Red ;;
                 tree <- rightRotate tree sibling ;;
                 s <- get_right parent ;;
                 ret (tree, s)
               else ret (tree, sibling)) ;;
            c <- get_color parent ;;
            _ <- set_color sibling c ;;
            _ <- set_color parent Black ;;
            sr <- get_right sibling ;;
            _ <- set_color sr Black ;;
            tree <- leftRotate tree parent ;;
            extractFixup fuel tree (root tree)
        else
          sibling <- get_left parent ;;
          sc <- get_color sibling ;;
          '(tree, sibling) <-
            (if Color_eqb sc Red then
               _ <- set_color sibling Black ;;
               _ <- set_color parent Red ;;
               tree <- rightRotate tree parent ;;
               s <- get_left parent ;;
               ret (tree, s)
             else ret (tree, sibling)) ;;
          sr <- get_right sibling ;;
          src <- get_color sr ;;
          both <- (if Color_eqb src Black
                   then sl <- get_left sibling ;; slc <- get_color sl ;; ret (Color_eqb slc Black)
                   else ret false) ;;
          if both then
            _ <- set_color sibling Red ;;
            extractFixup fuel tree parent
          else
            sl <- get_left sibling ;;
            slc <- get_color sl ;;
            '(tree, sibling) <-
              (if Color_eqb slc Black then
                 sr <- get_right sibling ;;
                 _ <- set_color sr Black ;;
                 _ <- set_color sibling Red ;;
                 tree <- leftRotate tree sibling ;;
                 s <- get_left parent ;;
                 ret (tree, s)
               else ret (tree, sibling)) ;;
            c <- get_color parent ;;
            _ <- set_color sibling c ;;
            _ <- set_color parent Black ;;
            sl <- get_left sibling ;;
            _ <- set_color sl Black ;;
            tree <- rightRotate tree parent ;;
            extractFixup fuel tree (root tree)
      else
        _ <- set_color node Black ;; ret tree
  end.

(** [extractNode]: [replacement] takes the place of [node]; [fixupRoot]
    is a nullable pointer. *)
Definition extractNode (fuel : nat) (tree : TreeBase) (node : ptr) : M World TreeBase :=
  l <- get_left node ;;
  two <- (if negb (l =? nil tree)
          then r <- get_right node ;; ret (negb (r =? nil tree))
          else ret false) ;;
  '(replacement, fixupRoot) <-
    (if two then
       r <- get_right node ;;
       replacement <- allLeft fuel r ;;
       nr <- get_right node ;;
       _ <- (if replacement =? nr then
               rr <- get_right replacement ;;
               _ <- set_right node rr ;;
               nr <- get_right node ;;
               set_parent nr node
             else
               rr <- get_right replacement ;;
               rp <- get_parent replacement ;;
               _ <- set_left rp rr ;;
               rp <- get_parent replacement ;;
               rp' <- get_parent replacement ;;
               rpl <- get_left rp' ;;
               set_parent rpl rp) ;;
       rc <- get_color replacement ;;
       fixupRoot <- (if Color_eqb rc Black then get_right replacement else ret nullptr) ;;
       nl <- get_left node ;;
       _ <- set_left replacement nl ;;
       nr <- get_right node ;;
       _ <- set_right replacement nr ;;
       rr <- get_right replacement ;;
       _ <- set_parent rr replacement ;;
       rl <- get_left replacement ;;
       _ <- set_parent rl replacement ;;
       ret (replacement, fixupRoot)
     else
       l <- get_left node ;;
       if negb (l =? nil tree) then
         replacement <- get_left node ;;
         c <- get_color node ;;
         ret (replacement, if Color_eqb c Black then replacement else nullptr)
       else
         r <- get_right node ;;
         if negb (r =? nil tree) then
           replacement <- get_right node ;;
           c <- get_color node ;;
           ret (replacement, if Color_eqb c Black then replacement else nullptr)
         else
           c <- get_color node ;;
           ret (nil tree, if Color_eqb c Black then nil tree else nullptr)) ;;
  lk <- linkTo node ;;
  tree <- assign tree lk replacement ;;
  np <- get_parent node ;;
  _ <- set_parent replacement np ;;
  nc <- get_color node ;;
  _ <- set_color replacement nc ;;
  if negb (fixupRoot =? nullptr) then extractFixup fuel tree fixupRoot else ret tree.

(** ** detail: lookup *)

(** The loop of [findNode], entered with [node] and [next]. *)
Fixpoint findNode_loop (fuel : nat) (tree : TreeBase) (key : K) (node next : ptr) : M World ptr :=
  match fuel with
  | O => timeout
  | S fuel =>
      if next =? nil tree then ret node
      else
        kv <- get_value next ;;
        if cmp key (fst kv) then
          l <- get_left next ;; findNode_loop fuel tree key next l
        else
          kv <- get_value next ;;
          if cmp (fst kv) key then
            r <- get_right next ;; findNode_loop fuel tree key next r
          else findNode_loop fuel tree key next (nil tree)
  end.

Definition findNode (fuel : nat) (tree : TreeBase) (key : K) : M World ptr :=
  findNode_loop fuel tree key (root tree) (root tree).

(** ** Allocation *)

Definition bump (cell : ptr) : M World unit :=
  fun w => match cells w !! cell with
           | Some v => Done (tt, mkWorld (heap w) (brk w) (<[cell := (v + 1) mod unsigned_max]> (cells w)))
           | None => Fault
           end.

(** [counting_allocator::allocate]: count, then [::operator new]. *)
Definition allocate (a : Allocator) : M World ptr :=
  _ <- (if m_allocations a =? nullptr then ret tt else bump (m_allocations a)) ;;
  fun w => Done (brk w, mkWorld (heap w) (brk w + 1) (cells w)).

(** Placement new: the object starts to live in the storage. *)
Definition construct (storage : ptr) (n : Node) : M World unit :=
  fun w => Done (tt, set_heap (<[storage:=n]>) w).

(** The destructor call: the object must be live, and is no more. *)
Definition destruct_at (p : ptr) : M World unit :=
  _ <- load p ;;
  fun w => Done (tt, set_heap (delete p) w).

(** [counting_allocator::deallocate]: count, then [::operator delete]. *)
Definition deallocate (a : Allocator) (p : ptr) : M World unit :=
  if m_deallocations a =? nullptr then ret tt else bump (m_deallocations a).

(** ** The container *)

(** [RBTreeData] (comparator, allocator, [TreeBase]) and [m_size]; the
    comparator type is stateless and is the section's [cmp]. *)
Record RBTree : Type := mkRBTree {
  m_data : TreeBase;
  m_allocator : Allocator;
  m_size : N
}.

Definition set_nil (t : RBTree) (p : ptr) : RBTree :=
  mkRBTree (mkTreeBase p (root (m_data t))) (m_allocator t) (m_size t).
Definition set_root (t : RBTree) (p : ptr) : RBTree :=
  mkRBTree (mkTreeBase (nil (m_data t)) p) (m_allocator t) (m_size t).
Definition set_data (t : RBTree) (d : TreeBase) : RBTree :=
  mkRBTree d (m_allocator t) (m_size t).
Definition set_size (t : RBTree) (n : N) : RBTree :=
  mkRBTree (m_data t) (m_allocator t) n.

(** [RBTreeData(alloc)]: null [nil], null [root]; [m_size = 0]. *)
Definition RBTreeData_init (a : Allocator) : RBTree :=
  mkRBTree (mkTreeBase nullptr nullptr) a 0.

Definition createNil (t : RBTree) : M World (ptr * RBTree) :=
  storage <- allocate (m_allocator t) ;;
  _ <- construct storage (mkNode nullptr nullptr nullptr Red None) ;;
  _ <- set_right storage storage ;;
  _ <- set_left storage storage ;;
  _ <- set_color storage Black ;;
  ret (storage, set_nil t storage).

Definition destroyNil (t : RBTree) : M World unit :=
  if negb (nil (m_data t) =? nullptr) then
    _ <- destruct_at (nil (m_data t)) ;;
    deallocate (m_allocator t) (nil (m_data t))
  else ret tt.

Definition buildNode (t : RBTree) (kv : K * T) : M World ptr :=
  storage <- allocate (m_allocator t) ;;
  _ <- construct storage (mkNode nullptr nullptr nullptr Red (Some kv)) ;;
  _ <- set_right storage (nil (m_data t)) ;;
  _ <- set_left storage (nil (m_data t)) ;;
  ret storage.

Definition destroyNode (t : RBTree) (node : ptr) : M World unit :=
  _ <- destruct_at node ;;
  deallocate (m_allocator t) node.

(** [RBTree()], [RBTree(const Allocator &)] *)
Definition RBTree_new (a : Allocator) : M World RBTree :=
  '(p, t) <- createNil (RBTreeData_init a) ;;
  ret (set_root t p).

Definition size (t : RBTree) : N := m_size t.
Definition empty (t : RBTree) : bool := m_size t =? 0.

Definition begin_ (fuel : nat) (t : RBTree) : M World IteratorTemplate :=
  p <- allLeft fuel (root (m_data t)) ;; ret (mkIterator true p).
Definition end_ (t : RBTree) : IteratorTemplate := mkIterator true nullptr.

(** [operator*] and [operator++] of an iterator of the tree [tree]. *)
Definition Iterator_deref (it : IteratorTemplate) : M World (K * T) := get_value (m_node it).
Definition Iterator_next (fuel : nat) (tree : TreeBase) (it : IteratorTemplate) : M World IteratorTemplate :=
  if m_tree it then p <- successor fuel tree (m_node it) ;; ret (mkIterator true p)
  else fault.
Definition Iterator_prev (fuel : nat) (tree : TreeBase) (it : IteratorTemplate) : M World IteratorTemplate :=
  if m_tree it then p <- predecessor fuel tree (m_node it) ;; ret (mkIterator true p)
  else fault.

(** [at] either returns a reference to the mapped value (the node that
    holds it) or throws [std::out_of_range]. *)
Inductive exception : Type := out_of_range.

Definition at_ (fuel : nat) (t : RBTree) (key : K) : M World (exception + ptr) :=
  node <- findNode fuel (m_data t) key ;;
  hit <- (if negb (node =? nil (m_data t))
          then kv <- get_value node ;; ret (key_eq key (fst kv))
          else ret false) ;;
  if hit then ret (inr node) else ret (inl out_of_range).

(** Reading and assigning through a reference to a mapped value. *)
Definition read_ref (r : ptr) : M World T := kv <- get_value r ;; ret (snd kv).
Definition write_ref (r : ptr) (v : T) : M World unit := set_second r v.

(** What [operator[]] and [insert] do alike after the lookup has
    missed: the new node is linked below [node] ... *)
Definition link_node (t : RBTree) (node newNode : ptr) (key : K) : M World RBTree :=
  _ <- set_parent newNode node ;;
  if node =? nil (m_data t) then ret (set_root t newNode)
  else
    kv <- get_value node ;;
    if cmp key (fst kv)
    then _ <- set_left node newNode ;; ret t
    else _ <- set_right node newNode ;; ret t.

(** ... and the tree is rebalanced and counts one more. *)
Definition attach (fuel : nat) (t : RBTree) (node newNode : ptr) (key : K) : M World RBTree :=
  t <- link_node t node newNode key ;;
  d <- insertFixup fuel (m_data t) newNode ;;
  ret (set_size (set_data t d) ((m_size t + 1) mod size_t_max)).

(** [operator[]] *)
Definition index (fuel : nat) (t : RBTree) (key : K) : M World (ptr * RBTree) :=
  node <- findNode fuel (m_data t) key ;;
  hit <- (if negb (node =? nil (m_data t))
          then kv <- get_value node ;; ret (key_eq key (fst kv))
          else ret false) ;;
  if hit then ret (node, t)
  else
    newNode <- buildNode t (key, T_default) ;;
    t <- attach fuel t node newNode key ;;
    ret (newNode, t).

(** [t.at(key) = v] and [t[key] = v]: the reference that is
    returned is assigned through; [at] may throw instead. *)
Definition assign_at (fuel : nat) (t : RBTree) (key : K) (v : T)
  : M World (exception + unit) :=
  r <- at_ fuel t key ;;
  match r with
  | inr p => _ <- write_ref p v ;; ret (inr tt)
  | inl e => ret (inl e)
  end.

Definition assign_index (fuel : nat) (t : RBTree) (key : K) (v : T) : M World RBTree :=
  '(p, t) <- index fuel t key ;;
  _ <- write_ref p v ;;
  ret t.

(** [insert(value_type &&)] *)
Definition insert (fuel : nat) (t : RBTree) (kv : K * T)
  : M World (IteratorTemplate * bool * RBTree) :=
  node <- findNode fuel (m_data t) (fst kv) ;;
  hit <- (if negb (node =? nil (m_data t))
          then kv' <- get_value node ;; ret (key_eq (fst kv) (fst kv'))
          else ret false) ;;
  if hit then ret (mkIterator true node, false, t)
  else
    newNode <- buildNode t kv ;;
    t <- attach fuel t node newNode (fst kv) ;;
    ret (mkIterator true newNode, true, t).

(** [insert(Iterator first, Iterator last)] over a range of the tree
    [other]. *)
Fixpoint insert_range (fuel fuel' : nat) (t : RBTree) (other : TreeBase)
    (first last : IteratorTemplate) : M World RBTree :=
  match fuel with
  | O => timeout
  | S fuel =>
      if Iterator_eqb first last then ret t
      else
        kv <- Iterator_deref first ;;
        '(_, _, t) <- insert fuel' t kv ;;
        first <- Iterator_next fuel' other first ;;
        insert_range fuel fuel' t other first last
  end.



(** [RBTree(const RBTree &)] *)
Definition RBTree_copy (fuel : nat) (other : RBTree) : M World RBTree :=
  t <- RBTree_new (m_allocator other) ;;
  first <- begin_ fuel other ;;
  insert_range fuel fuel t (m_data other) first (end_ other).

(** [RBTree(RBTree &&)]: the new tree and what is left of [other]. *)
Definition RBTree_move (other : RBTree) : RBTree * RBTree :=
  let this := RBTreeData_init (m_allocator other) in
  (mkRBTree (m_data other) (m_allocator this) (m_size other),
   mkRBTree (m_data this) (m_allocator other) (m_size this)).

(** [clear]: the inner [while], the [do ... while], the outer [while]. *)
Fixpoint clear_descend (fuel fuel' : nat) (t : RBTree) (node : ptr) : M World ptr :=
  match fuel with
  | O => timeout
  | S fuel =>
      r <- get_right node ;;
      if negb (r =? nil (m_data t)) then
        r <- get_right node ;;
        node <- allLeft fuel' r ;;
        clear_descend fuel fuel' t node
      else ret node
  end.

Fixpoint clear_ascend (fuel : nat) (t : RBTree) (node : ptr) : M World ptr :=
  match fuel with
  | O => timeout
  | S fuel =>
      let leaf := node in
      node <- get_parent node ;;
      _ <- destroyNode t leaf ;;
      r <- get_right node ;;
      if leaf =? r then clear_ascend fuel t node else ret node
  end.

Fixpoint clear_loop (fuel fuel' : nat) (t : RBTree) (node : ptr) : M World unit :=
  match fuel with
  | O => timeout
  | S fuel =>
      if negb (node =? nil (m_data t)) then
        node <- clear_descend fuel' fuel' t node ;;
        node <- clear_ascend fuel' t node ;;
        clear_loop fuel fuel' t node
      else ret tt
  end.

Definition clear (fuel : nat) (t : RBTree) : M World RBTree :=
  node <- allLeft fuel (root (m_data t)) ;;
  _ <- clear_loop fuel fuel t node ;;
  ret (set_size (set_root t (nil (m_data t))) 0).

(** [~RBTree()] *)
Definition RBTree_destroy (fuel : nat) (t : RBTree) : M World unit :=
  t <- (if negb (root (m_data t) =? nullptr) then clear fuel t else ret t) ;;
  destroyNil t.

(** [find(const K &) const] *)
Definition find (fuel : nat) (t : RBTree) (key : K) : M World IteratorTemplate :=
  if root (m_data t) =? nil (m_data t) then ret (mkIterator false nullptr)
  else
    node <- findNode fuel (m_data t) key ;;
    miss <- (if node =? nil (m_data t) then ret true
             else kv <- get_value node ;; ret (negb (key_eq key (fst kv)))) ;;
    if miss then ret (mkIterator true nullptr)
    else ret (mkIterator true node).

(** [erase(iterator)] *)
Definition erase_at (fuel : nat) (t : RBTree) (it : IteratorTemplate) : M World RBTree :=
  let node := m_node it in
  d <- extractNode fuel (m_data t) node ;;
  let t := set_data t d in
  _ <- destroyNode t node ;;
  ret (set_size t ((m_size t + size_t_max - 1) mod size_t_max)).

(** [erase(const K &)] *)
Definition erase (fuel : nat) (t : RBTree) (key : K) : M World RBTree :=
  it <- find fuel t key ;;
  if negb (Iterator_eqb it (end_ t)) then erase_at fuel t it else ret t.

(** [std::equal(first1, last1, first2)] over iterators of two trees. *)
Fixpoint std_equal (fuel fuel' : nat) (lhs rhs : TreeBase)
    (first1 last1 first2 : IteratorTemplate) : M World bool :=
  match fuel with
  | O => timeout
  | S fuel =>
      if Iterator_eqb first1 last1 then ret true
      else
        a <- Iterator_deref first1 ;;
        b <- Iterator_deref first2 ;;
        if negb (key_eq (fst a) (fst b) && val_eq (snd a) (snd b)) then ret false
        else
          first1 <- Iterator_next fuel' lhs first1 ;;
          first2 <- Iterator_next fuel' rhs first2 ;;
          std_equal fuel fuel' lhs rhs first1 last1 first2
  end.

(** [operator==] on trees *)
Definition RBTree_eq (fuel : nat) (lhs rhs : RBTree) : M World bool :=
  if Allocator_eqb (m_allocator lhs) (m_allocator rhs) then
    if m_size lhs =? m_size rhs then
      first1 <- begin_ fuel lhs ;;
      first2 <- begin_ fuel rhs ;;
      std_equal fuel fuel (m_data lhs) (m_data rhs) first1 (end_ lhs) first2
    else ret false
  else ret false.

(** Walking [begin() .. end()]: the entries met, and their number. *)
Fixpoint walk (fuel fuel' : nat) (tree : TreeBase) (first last : IteratorTemplate)
  : M World (list (K * T)) :=
  match fuel with
  | O => timeout
  | S fuel =>
      if Iterator_eqb first last then ret []
      else
        kv <- Iterator_deref first ;;
        first <- Iterator_next fuel' tree first ;;
        rest <- walk fuel fuel' tree first last ;;
        ret (kv :: rest)
  end.

Definition entries (fuel : nat) (t : RBTree) : M World (list (K * T)) :=
  first <- begin_ fuel t ;;
  walk fuel fuel (m_data t) first (end_ t).

(** [std::distance(first, last)] *)
Fixpoint distance (fuel fuel' : nat) (tree : TreeBase) (first last : IteratorTemplate)
  : M World N :=
  match fuel with
  | O => timeout
  | S fuel =>
      if Iterator_eqb first last then ret 0
      else
        first <- Iterator_next fuel' tree first ;;
        n <- distance fuel fuel' tree first last ;;
        ret (n + 1)
  end.

End RBTree.

(** * Verification *)

(** ** Stepping through pointer programs *)

Section Steps.
Context {K T : Type}.
Local Abbreviation Node := (@Node K T).
Local Abbreviation World := (@World K T).

Lemma bind_done {S A B} (m : M S A) (k : A -> M S B) s a s' :
  m s = Done (a, s') -> bind m k s = k a s'.
Proof. unfold bind. by intros ->. Qed.

Lemma load_done (w : World) p n :
  heap w !! p = Some n -> load p w = Done (n, w).
Proof. unfold load. by intros ->. Qed.

Lemma get_parent_done (w : World) p n :
  heap w !! p = Some n -> get_parent p w = Done (parent n, w).
Proof. intros H. unfold get_parent. by rewrite (bind_done _ _ _ _ _ (load_done _ _ _ H)). Qed.

Lemma get_left_done (w : World) p n :
  heap w !! p = Some n -> get_left p w = Done (left n, w).
Proof. intros H. unfold get_left. by rewrite (bind_done _ _ _ _ _ (load_done _ _ _ H)). Qed.

Lemma get_right_done (w : World) p n :
  heap w !! p = Some n -> get_right p w = Done (right n, w).
Proof. intros H. unfold get_right. by rewrite (bind_done _ _ _ _ _ (load_done _ _ _ H)). Qed.

Lemma get_color_done (w : World) p n :
  heap w !! p = Some n -> get_color p w = Done (color n, w).
Proof. intros H. unfold get_color. by rewrite (bind_done _ _ _ _ _ (load_done _ _ _ H)). Qed.

Lemma get_value_done (w : World) p n kv :
  heap w !! p = Some n -> value n = Some kv -> get_value p w = Done (kv, w).
Proof.
  intros H Hv. unfold get_value.
  rewrite (bind_done _ _ _ _ _ (load_done _ _ _ H)). by rewrite Hv.
Qed.

Lemma store_done (w : World) p n n' :
  heap w !! p = Some n -> store p n' w = Done (tt, set_heap (<[p:=n']>) w).
Proof. unfold store. by intros ->. Qed.

Lemma set_parent_done (w : World) p n v :
  heap w !! p = Some n ->
  set_parent p v w = Done (tt, set_heap (<[p:=with_parent n v]>) w).
Proof.
  intros H. unfold set_parent.
  rewrite (bind_done _ _ _ _ _ (load_done _ _ _ H)). by apply store_done with n.
Qed.

Lemma set_left_done (w : World) p n v :
  heap w !! p = Some n ->
  set_left p v w = Done (tt, set_heap (<[p:=with_left n v]>) w).
Proof.
  intros H. unfold set_left.
  rewrite (bind_done _ _ _ _ _ (load_done _ _ _ H)). by apply store_done with n.
Qed.

Lemma set_right_done (w : World) p n v :
  heap w !! p = Some n ->
  set_right p v w = Done (tt, set_heap (<[p:=with_right n v]>) w).
Proof.
  intros H. unfold set_right.
  rewrite (bind_done _ _ _ _ _ (load_done _ _ _ H)). by apply store_done with n.
Qed.

Lemma set_color_done (w : World) p n c :
  heap w !! p = Some n ->
  set_color p c w = Done (tt, set_heap (<[p:=with_color n c]>) w).
Proof.
  intros H. unfold set_color.
  rewrite (bind_done _ _ _ _ _ (load_done _ _ _ H)). by apply store_done with n.
Qed.

End Steps.

(** ** Abstract trees and their representation on the heap *)

Section Rep.
Context {K T : Type}.
Local Abbreviation Node := (@Node K T).
Local Abbreviation World := (@World K T).

(** A binary tree of coloured nodes; every node remembers the address
    it lives at. *)
Inductive tree : Type :=
  | Lf
  | Nd (c : Color) (l : tree) (a : ptr) (kv : K * T) (r : tree).

(** A one-hole context, innermost frame first. *)
Inductive frame : Type :=
  | FL (c : Color) (a : ptr) (kv : K * T) (r : tree)
  | FR (c : Color) (l : tree) (a : ptr) (kv : K * T).

Definition fill (f : frame) (t : tree) : tree :=
  match f with
  | FL c a kv r => Nd c t a kv r
  | FR c l a kv => Nd c l a kv t
  end.

Fixpoint plug (ctx : list frame) (t : tree) : tree :=
  match ctx with
  | [] => t
  | f :: ctx => plug ctx (fill f t)
  end.

Fixpoint inorder (t : tree) : list (K * T) :=
  match t with
  | Lf => []
  | Nd _ l _ kv r => inorder l ++ kv :: inorder r
  end.

Fixpoint addrs (t : tree) : list ptr :=
  match t with
  | Lf => []
  | Nd _ l a _ r => addrs l ++ a :: addrs r
  end.

Fixpoint height (t : tree) : nat :=
  match t with
  | Lf => O
  | Nd _ l _ _ r => S (height l `max` height r)
  end.

Definition frame_addr (f : frame) : ptr :=
  match f with FL _ a _ _ | FR _ _ a _ => a end.

Definition frame_color (f : frame) : Color :=
  match f with FL c _ _ _ | FR c _ _ _ => c end.

Definition frame_sibling (f : frame) : tree :=
  match f with FL _ _ _ r => r | FR _ l _ _ => l end.

Definition frame_addrs (f : frame) : list ptr :=
  frame_addr f :: addrs (frame_sibling f).

Definition ctx_addrs (ctx : list frame) : list ptr :=
  concat (map frame_addrs ctx).

Section WithNil.
Variable nl : ptr.

Definition ptr_of (t : tree) : ptr :=
  match t with Lf => nl | Nd _ _ a _ _ => a end.

Definition ctx_par (ctx : list frame) : ptr :=
  match ctx with [] => nl | f :: _ => frame_addr f end.

Variable h : gmap N Node.

(** [rep par t]: the nodes of [t] are on the heap, linked as in [t],
    the root of [t] pointing back to [par]. *)
Fixpoint rep (par : ptr) (t : tree) : Prop :=
  match t with
  | Lf => True
  | Nd c l a kv r =>
      h !! a = Some (mkNode par (ptr_of l) (ptr_of r) c (Some kv)) /\
      rep a l /\ rep a r
  end.

Definition rep_frame (f : frame) (p par : ptr) : Prop :=
  match f with
  | FL c a kv r =>
      h !! a = Some (mkNode par p (ptr_of r) c (Some kv)) /\ rep a r
  | FR c l a kv =>
      h !! a = Some (mkNode par (ptr_of l) p c (Some kv)) /\ rep a l
  end.

(** [rep_ctx rt ctx p]: the frames of [ctx] are on the heap, the
    innermost one designating [p] as the child in the hole, the
    outermost one being designated by [rt]. *)
Fixpoint rep_ctx (rt : ptr) (ctx : list frame) (p : ptr) : Prop :=
  match ctx with
  | [] => rt = p
  | f :: ctx => rep_frame f p (ctx_par ctx) /\ rep_ctx rt ctx (frame_addr f)
  end.

Lemma ptr_of_fill f t : ptr_of (fill f t) = frame_addr f.
Proof. by destruct f. Qed.

Lemma rep_fill f par t :
  rep par (fill f t) <-> rep_frame f (ptr_of t) par /\ rep (frame_addr f) t.
Proof. destruct f; simpl; tauto. Qed.

Lemma rep_plug rt ctx t :
  rt = ptr_of (plug ctx t) /\ rep nl (plug ctx t) <->
  rep_ctx rt ctx (ptr_of t) /\ rep (ctx_par ctx) t.
Proof.
  revert t. induction ctx as [|f ctx IH]; intros t; simpl; [done|].
  rewrite IH, rep_fill, ptr_of_fill. tauto.
Qed.

End WithNil.

Lemma addrs_fill f t : addrs (fill f t) ≡ₚ addrs t ++ frame_addrs f.
Proof.
  destruct f; simpl; unfold frame_addrs; simpl.
  - done.
  - rewrite (Permutation_app_comm (addrs l)). simpl.
    by rewrite Permutation_middle.
Qed.

Lemma addrs_plug ctx t : addrs (plug ctx t) ≡ₚ addrs t ++ ctx_addrs ctx.
Proof.
  revert t. induction ctx as [|f ctx IH]; intros t; simpl.
  - by rewrite app_nil_r.
  - rewrite IH, addrs_fill. unfold ctx_addrs. simpl. by rewrite <-(assoc_L (++)).
Qed.

Lemma inorder_length_addrs t : length (inorder t) = length (addrs t).
Proof. induction t; simpl; [done|]. rewrite !length_app. simpl. lia. Qed.

(** Heaps that agree on the addresses of a tree represent it alike. *)
Lemma rep_agree nl (h h' : gmap N Node) par t :
  (forall a, a ∈ addrs t -> h' !! a = h !! a) ->
  rep nl h par t -> rep nl h' par t.
Proof.
  revert par. induction t as [|c l IHl a kv r IHr]; intros par Hag; simpl; [done|].
  intros (Ha & Hl & Hr). split_and!.
  - rewrite Hag; [done|]. simpl. set_solver.
  - apply IHl; [|done]. intros b Hb. apply Hag. simpl. set_solver.
  - apply IHr; [|done]. intros b Hb. apply Hag. simpl. set_solver.
Qed.

Lemma rep_frame_agree nl (h h' : gmap N Node) f p par :
  (forall a, a ∈ frame_addrs f -> h' !! a = h !! a) ->
  rep_frame nl h f p par -> rep_frame nl h' f p par.
Proof.
  intros Hag. destruct f; simpl; intros [Ha Hs]; unfold frame_addrs in Hag; simpl in Hag.
  - split; [rewrite Hag; [done|set_solver]|].
    eapply rep_agree; [|done]. intros b Hb. apply Hag. set_solver.
  - split; [rewrite Hag; [done|set_solver]|].
    eapply rep_agree; [|done]. intros b Hb. apply Hag. set_solver.
Qed.

Lemma rep_ctx_agree nl (h h' : gmap N Node) rt ctx p :
  (forall a, a ∈ ctx_addrs ctx -> h' !! a = h !! a) ->
  rep_ctx nl h rt ctx p -> rep_ctx nl h' rt ctx p.
Proof.
  revert p. induction ctx as [|f ctx IH]; intros p Hag; simpl; [done|].
  intros [Hf Hc]. unfold ctx_addrs in Hag. simpl in Hag. split.
  - eapply rep_frame_agree; [|done]. intros b Hb. apply Hag. set_solver.
  - apply IH; [|done]. intros b Hb. apply Hag. unfold ctx_addrs. set_solver.
Qed.

End Rep.

Section Wf.
Context {K T : Type}.
Local Abbreviation Node := (@Node K T).
Local Abbreviation World := (@World K T).
Local Abbreviation tree := (@tree K T).
Local Abbreviation frame := (@frame K T).

(** The sentinel of a tree: [left] and [right] point to itself, there
    is no payload; [np] is whatever its [parent] field holds and [nc]
    its colour. *)
Definition sentinel (tb : TreeBase) (np : ptr) (nc : Color) : Node :=
  mkNode np (nil tb) (nil tb) nc None.

(** [wf w tb np nc t]: in the world [w] the tree [tb] is the abstract
    tree [t]. *)
Record wf (w : World) (tb : TreeBase) (np : ptr) (nc : Color) (t : tree) : Prop := mkWf {
  wf_nil : heap w !! nil tb = Some (sentinel tb np nc);
  wf_root : root tb = ptr_of (nil tb) t;
  wf_rep : rep (nil tb) (heap w) (nil tb) t;
  wf_nodup : NoDup (addrs t)
}.

Lemma rep_live nl (h : gmap N Node) par t a :
  rep nl h par t -> a ∈ addrs t ->
  exists n kv, h !! a = Some n /\ value n = Some kv.
Proof.
  revert par. induction t as [|c l IHl b kv r IHr]; intros par; simpl.
  - intros _ H. by apply elem_of_nil in H.
  - intros (Hb & Hl & Hr) Ha.
    apply elem_of_app in Ha as [Ha|Ha]; [by eapply IHl|].
    apply elem_of_cons in Ha as [->|Ha]; [|by eapply IHr].
    eexists _, _. split; [done|]. done.
Qed.

Lemma wf_nil_fresh w tb np nc t : wf w tb np nc t -> nil tb ∉ addrs t.
Proof.
  intros [Hn _ Hr _] Hin.
  destruct (rep_live _ _ _ _ _ Hr Hin) as (n & kv & Hl & Hv).
  rewrite Hn in Hl. by injection Hl as <-.
Qed.

(** Taking a well-formed tree apart at a focus, and putting it
    together again. *)
Lemma wf_plug_elim w tb np nc ctx t :
  wf w tb np nc (plug ctx t) ->
  heap w !! nil tb = Some (sentinel tb np nc) /\
  rep_ctx (nil tb) (heap w) (root tb) ctx (ptr_of (nil tb) t) /\
  rep (nil tb) (heap w) (ctx_par (nil tb) ctx) t /\
  NoDup (nil tb :: addrs t ++ ctx_addrs ctx) /\
  NoDup (addrs (plug ctx t)).
Proof.
  intros Hwf. pose proof (wf_nil_fresh _ _ _ _ _ Hwf) as Hfresh.
  destruct Hwf as [Hn Hrt Hr Hnd].
  apply (conj Hrt), rep_plug in Hr as [Hc Hr].
  split_and!; try done.
  rewrite addrs_plug in Hnd, Hfresh. by apply NoDup_cons.
Qed.

Lemma wf_plug_intro w tb np nc ctx t :
  heap w !! nil tb = Some (sentinel tb np nc) ->
  rep_ctx (nil tb) (heap w) (root tb) ctx (ptr_of (nil tb) t) ->
  rep (nil tb) (heap w) (ctx_par (nil tb) ctx) t ->
  NoDup (addrs (plug ctx t)) ->
  wf w tb np nc (plug ctx t).
Proof.
  intros Hn Hc Hr Hnd.
  destruct (proj2 (rep_plug _ _ _ _ _) (conj Hc Hr)) as [Hrt Hrep].
  by split.
Qed.

Lemma addrs_plug_congr ctx (t t' : tree) :
  addrs t = addrs t' -> addrs (plug ctx t) = addrs (plug ctx t').
Proof.
  revert t t'. induction ctx as [|f ctx IH]; intros t t' Heq; simpl; [done|].
  apply IH. destruct f; simpl; by rewrite Heq.
Qed.

Lemma inorder_plug_congr ctx (t t' : tree) :
  inorder t = inorder t' -> inorder (plug ctx t) = inorder (plug ctx t').
Proof.
  revert t t'. induction ctx as [|f ctx IH]; intros t t' Heq; simpl; [done|].
  apply IH. destruct f; simpl; by rewrite Heq.
Qed.

Lemma wf_focus w tb np nc ctx c l a kv r :
  wf w tb np nc (plug ctx (Nd c l a kv r)) ->
  heap w !! a =
    Some (mkNode (ctx_par (nil tb) ctx) (ptr_of (nil tb) l) (ptr_of (nil tb) r) c (Some kv)).
Proof. intros H. apply wf_plug_elim in H as (_ & _ & (H & _) & _ & _). done. Qed.

Lemma wf_focus_neq_nil w tb np nc ctx c l a kv r :
  wf w tb np nc (plug ctx (Nd c l a kv r)) -> a ≠ nil tb.
Proof.
  intros H Heq. pose proof (wf_focus _ _ _ _ _ _ _ _ _ _ H) as Ha.
  destruct H as [Hn _ _ _]. rewrite Heq, Hn in Ha. done.
Qed.

(** The colour of the node a pointer of the tree designates. *)
Definition color_of (nc : Color) (t : tree) : Color :=
  match t with Lf => nc | Nd c _ _ _ _ => c end.

Lemma wf_color_of w tb np nc ctx t :
  wf w tb np nc (plug ctx t) ->
  get_color (ptr_of (nil tb) t) w = Done (color_of nc t, w).
Proof.
  intros H. destruct t as [|c l a kv r]; simpl.
  - destruct H as [Hn _ _ _]. by rewrite (get_color_done _ _ _ Hn).
  - by rewrite (get_color_done _ _ _ (wf_focus _ _ _ _ _ _ _ _ _ _ H)).
Qed.

End Wf.

(** Decomposing [NoDup] and disjointness facts over explicit lists into
    atomic facts: [a ≠ b], [a ∉ l] and [forall x, x ∈ l -> x ∉ k]. *)
Section Disjoint.
Context {A : Type}.
Implicit Types l k : list A.

Lemma disjoint_nil_r l : (forall x, x ∈ l -> x ∉ []) <-> True.
Proof. split; [done|]. intros _ x _ H. by apply elem_of_nil in H. Qed.
Lemma disjoint_nil_l k : (forall x, x ∈ [] -> x ∉ k) <-> True.
Proof. split; [done|]. intros _ x H. by apply elem_of_nil in H. Qed.
Lemma disjoint_cons_r l a k :
  (forall x, x ∈ l -> x ∉ (a :: k)) <-> (a ∉ l) /\ (forall x, x ∈ l -> x ∉ k).
Proof. set_solver. Qed.
Lemma disjoint_cons_l a l k :
  (forall x, x ∈ (a :: l) -> x ∉ k) <-> (a ∉ k) /\ (forall x, x ∈ l -> x ∉ k).
Proof. set_solver. Qed.
Lemma disjoint_app_r l k1 k2 :
  (forall x, x ∈ l -> x ∉ (k1 ++ k2)) <->
  (forall x, x ∈ l -> x ∉ k1) /\ (forall x, x ∈ l -> x ∉ k2).
Proof. set_solver. Qed.
Lemma disjoint_app_l l1 l2 k :
  (forall x, x ∈ (l1 ++ l2) -> x ∉ k) <->
  (forall x, x ∈ l1 -> x ∉ k) /\ (forall x, x ∈ l2 -> x ∉ k).
Proof. set_solver. Qed.
End Disjoint.

Ltac nodup_split :=
  repeat match goal with
  | H : NoDup [] |- _ => clear H
  | H : NoDup (_ :: _) |- _ => apply NoDup_cons in H as [? ?]
  | H : NoDup (_ ++ _) |- _ => apply NoDup_app in H as (? & ? & ?)
  | H : _ ∉ [] |- _ => clear H
  | H : _ ∉ _ :: _ |- _ => apply not_elem_of_cons in H as [? ?]
  | H : _ ∉ _ ++ _ |- _ => apply not_elem_of_app in H as [? ?]
  | H : forall x, x ∈ _ -> x ∉ [] |- _ => clear H
  | H : forall x, x ∈ [] -> x ∉ _ |- _ => clear H
  | H : forall x, x ∈ _ -> x ∉ (_ :: _) |- _ => apply disjoint_cons_r in H as [? ?]
  | H : forall x, x ∈ _ -> x ∉ (_ ++ _) |- _ => apply disjoint_app_r in H as [? ?]
  | H : forall x, x ∈ (_ :: _) -> x ∉ _ |- _ => apply disjoint_cons_l in H as [? ?]
  | H : forall x, x ∈ (_ ++ _) -> x ∉ _ |- _ => apply disjoint_app_l in H as [? ?]
  end.

Arguments bind : simpl never.
Arguments ret : simpl never.
Arguments load : simpl never.
Arguments store : simpl never.
Arguments get_parent : simpl never.
Arguments get_left : simpl never.
Arguments get_right : simpl never.
Arguments get_color : simpl never.
Arguments get_value : simpl never.
Arguments set_parent : simpl never.
Arguments set_left : simpl never.
Arguments set_right : simpl never.
Arguments set_color : simpl never.

Ltac neq_tac := first [ done | congruence ].

Ltac lookup_tac :=
  simpl;
  repeat first
    [ rewrite lookup_insert_eq
    | rewrite lookup_insert_ne by neq_tac ];
  first [ eassumption | reflexivity ].

Ltac prim :=
  first
    [ eapply get_parent_done; lookup_tac
    | eapply get_left_done; lookup_tac
    | eapply get_right_done; lookup_tac
    | eapply get_color_done; lookup_tac
    | eapply get_value_done; [lookup_tac | reflexivity]
    | eapply set_parent_done; lookup_tac
    | eapply set_left_done; lookup_tac
    | eapply set_right_done; lookup_tac
    | eapply set_color_done; lookup_tac ].

Lemma bind_assoc {S A B C} (m : M S A) (f : A -> M S B) (g : B -> M S C) s :
  bind (bind m f) g s = bind m (fun x => bind (f x) g) s.
Proof. unfold bind. by destruct (m s) as [[a s']| |]. Qed.

Lemma bind_ret {S A B} (a : A) (k : A -> M S B) s : bind (ret a) k s = k a s.
Proof. done. Qed.

Ltac step :=
  first
    [ rewrite bind_assoc
    | rewrite bind_ret
    | erewrite bind_done by prim
    | rewrite N.eqb_refl
    | match goal with
      | |- context [?a =? ?b] => rewrite (proj2 (N.eqb_neq a b)) by neq_tac
      end ];
  cbv beta; simpl.

Section Rotations.
Context {K T : Type}.
Local Abbreviation Node := (@Node K T).
Local Abbreviation World := (@World K T).
Local Abbreviation tree := (@tree K T).
Local Abbreviation frame := (@frame K T).

(** Programs that only rewrite live nodes leave the rest of the world
    as it is. *)
Definition same_domain (w w' : World) : Prop :=
  brk w' = brk w /\ cells w' = cells w /\ dom (heap w') = dom (heap w).

Lemma same_domain_refl w : same_domain w w.
Proof. done. Qed.

Lemma same_domain_trans w1 w2 w3 :
  same_domain w1 w2 -> same_domain w2 w3 -> same_domain w1 w3.
Proof. unfold same_domain. intros (-> & -> & ->) (-> & -> & ->). done. Qed.

Lemma same_domain_store (w : World) p n :
  is_Some (heap w !! p) -> same_domain w (set_heap (<[p:=n]>) w).
Proof.
  intros Hp. split_and!; try done. simpl.
  rewrite dom_insert_L. apply elem_of_dom in Hp. set_solver.
Qed.

(** The link that designates the focus. *)
Definition ctx_link (ctx : list frame) : Link :=
  match ctx with
  | [] => LinkRoot
  | FL _ a _ _ :: _ => LinkLeft a
  | FR _ _ a _ :: _ => LinkRight a
  end.

Lemma linkTo_spec w tb np nc ctx c l a kv r :
  wf w tb np nc (plug ctx (Nd c l a kv r)) ->
  linkTo a w = Done (ctx_link ctx, w).
Proof.
  intros Hwf.
  pose proof (wf_focus _ _ _ _ _ _ _ _ _ _ Hwf) as Ha.
  pose proof (wf_focus_neq_nil _ _ _ _ _ _ _ _ _ _ Hwf) as Hne.
  destruct ctx as [|[cp p kvp rp|cp lp p kvp] ctx].
  - destruct Hwf as [Hn _ _ _]. simpl in *.
    unfold linkTo, isLeftChild, isRightChild. unfold sentinel in Hn.
    repeat step.
    by repeat step.
  - pose proof (wf_focus _ _ _ _ _ _ _ _ _ _ (Hwf : wf _ _ _ _ (plug ctx (Nd cp (Nd c l a kv r) p kvp rp)))) as Hp.
    simpl in *. unfold linkTo, isLeftChild.
    by repeat step.
  - pose proof (wf_focus _ _ _ _ _ _ _ _ _ _ (Hwf : wf _ _ _ _ (plug ctx (Nd cp lp p kvp (Nd c l a kv r))))) as Hp.
    simpl in *. unfold linkTo, isLeftChild, isRightChild.
    assert (a ≠ ptr_of (nil tb) lp) as Hl.
    { apply wf_plug_elim in Hwf as (_ & _ & _ & Hnd & _). simpl in Hnd.
      unfold ctx_addrs, frame_addrs in Hnd. simpl in Hnd.
      destruct lp; simpl; [done|]. simpl in Hnd.
      nodup_split. done. }
    by repeat step.
Qed.

End Rotations.

Ltac absurd_elem :=
  match goal with
  | H : ?a ∉ ?l, H' : ?a ∈ ?l |- _ => exact (H H')
  | H : forall x, x ∈ ?l -> x ∉ ?k, H1 : ?a ∈ ?l, H2 : ?a ∈ ?k |- _ => exact (H a H1 H2)
  end.

Ltac agree_tac :=
  let b := fresh "b" in
  let Hb := fresh "Hb" in
  intros b Hb; simpl;
  repeat (rewrite lookup_insert_ne;
          [|let Heq := fresh in intros Heq; first [subst b|rewrite Heq in *]; absurd_elem]);
  done.

Ltac unfold_with := unfold with_parent, with_left, with_right, with_color; simpl.

Lemma same_domain_step {K T} (w w1 : @World K T) p n :
  same_domain w w1 -> is_Some (heap w1 !! p) ->
  same_domain w (set_heap (<[p:=n]>) w1).
Proof. intros H1 H2. eapply same_domain_trans; [done|]. by apply same_domain_store. Qed.

(** Closing [same_domain w w'] where [w'] is [w] after stores to live nodes. *)
Ltac dom_tac :=
  repeat (apply same_domain_step; [|eexists; lookup_tac]);
  apply same_domain_refl.

Ltac rep_agree_tac :=
  first
    [ eapply rep_agree; [agree_tac|eassumption]
    | eapply rep_ctx_agree; [agree_tac|eassumption] ].

(** Closing the conjuncts of a representation goal after a program has
    been stepped through: lookups in the rewritten heap, and subtrees and
    frames the program did not touch. *)
Ltac rep_tac :=
  simpl; unfold sentinel;
  repeat split;
  first [ done | lookup_tac | rep_agree_tac ].

Ltac run_tac := eexists _, _; split; [repeat step; reflexivity|].

Section Rotations2.
Context {K T : Type}.
Local Abbreviation Node := (@Node K T).
Local Abbreviation World := (@World K T).
Local Abbreviation tree := (@tree K T).
Local Abbreviation frame := (@frame K T).

Lemma leftRotate_spec (w : World) tb np nc ctx cx l x kvx cy m y kvy r :
  wf w tb np nc (plug ctx (Nd cx l x kvx (Nd cy m y kvy r))) ->
  exists w' tb',
    leftRotate tb x w = Done (tb', w') /\
    nil tb' = nil tb /\
    same_domain w w' /\
    wf w' tb' (match m with Lf => x | Nd _ _ _ _ _ => np end) nc
       (plug ctx (Nd cy (Nd cx l x kvx m) y kvy r)).
Proof.
  intros Hwf.
  apply wf_plug_elim in Hwf as (Hn & Hctx & Hrep & Hnd & Hnd').
  simpl in Hrep. destruct Hrep as (Hx & Hl & (Hy & Hm & Hr)).
  assert (addrs (plug ctx (Nd cy (Nd cx l x kvx m) y kvy r)) =
          addrs (plug ctx (Nd cx l x kvx (Nd cy m y kvy r)))) as Hperm.
  { apply addrs_plug_congr. simpl. by rewrite <-app_assoc. }
  rewrite <-Hperm in Hnd'. clear Hperm.
  unfold leftRotate, linkTo, isLeftChild, isRightChild, assign.
  unfold sentinel in Hn.
  destruct m as [|cm ml b kvb mr];
    destruct ctx as [|[cp p kvp rp|cp lp p kvp] ctx];
    simpl in *; unfold ctx_addrs, frame_addrs in Hnd; simpl in Hnd;
    revert Hnd'; nodup_split; intros Hnd';
    repeat match goal with H : _ /\ _ |- _ => destruct H end.
  - run_tac. split; [done|]. split; [dom_tac|].
    apply (wf_plug_intro _ _ _ _ [] (Nd cy (Nd cx l x kvx Lf) y kvy r)); rep_tac.
  - run_tac. split; [done|]. split; [dom_tac|].
    apply (wf_plug_intro _ _ _ _ (FL cp p kvp rp :: ctx) (Nd cy (Nd cx l x kvx Lf) y kvy r)); rep_tac.
  - assert (x ≠ ptr_of (nil tb) lp) by (destruct lp; simpl in *; nodup_split; done).
    run_tac. split; [done|]. split; [dom_tac|].
    apply (wf_plug_intro _ _ _ _ (FR cp lp p kvp :: ctx) (Nd cy (Nd cx l x kvx Lf) y kvy r)); rep_tac.
  - run_tac. split; [done|]. split; [dom_tac|].
    apply (wf_plug_intro _ _ _ _ [] (Nd cy (Nd cx l x kvx (Nd cm ml b kvb mr)) y kvy r)); rep_tac.
  - run_tac. split; [done|]. split; [dom_tac|].
    apply (wf_plug_intro _ _ _ _ (FL cp p kvp rp :: ctx) (Nd cy (Nd cx l x kvx (Nd cm ml b kvb mr)) y kvy r)); rep_tac.
  - assert (x ≠ ptr_of (nil tb) lp) by (destruct lp; simpl in *; nodup_split; done).
    run_tac. split; [done|]. split; [dom_tac|].
    apply (wf_plug_intro _ _ _ _ (FR cp lp p kvp :: ctx) (Nd cy (Nd cx l x kvx (Nd cm ml b kvb mr)) y kvy r)); rep_tac.
Qed.
End Rotations2.

Section Lookup.
Context {K T : Type}.
Variable cmp : K -> K -> bool.
Variable key_eq : K -> K -> bool.
Local Abbreviation Node := (@Node K T).
Local Abbreviation World := (@World K T).
Local Abbreviation tree := (@tree K T).
Local Abbreviation frame := (@frame K T).

(** The descent of [findNode] on the abstract tree: it stops at the
    first node that the comparator orders neither before nor after the
    key, or at a leaf. *)
Fixpoint descend (key : K) (ctx : list frame) (t : tree) : list frame * tree :=
  match t with
  | Lf => (ctx, Lf)
  | Nd c l a kv r =>
      if cmp key (fst kv) then descend key (FL c a kv r :: ctx) l
      else if cmp (fst kv) key then descend key (FR c l a kv :: ctx) r
      else (ctx, t)
  end.

Definition frame_kv (f : frame) : K * T :=
  match f with FL _ _ kv _ | FR _ _ _ kv => kv end.

(** The node at which the descent stops: the match, or else the last
    node visited; none in an empty tree. *)
Definition stop_node (z : list frame * tree) : option (ptr * (K * T)) :=
  match z.2 with
  | Nd _ _ a kv _ => Some (a, kv)
  | Lf => match z.1 with
          | f :: _ => Some (frame_addr f, frame_kv f)
          | [] => None
          end
  end.

Definition stop_ptr (nl : ptr) (z : list frame * tree) : ptr :=
  match stop_node z with Some (a, _) => a | None => nl end.

Lemma descend_plug key ctx t :
  plug (descend key ctx t).1 (descend key ctx t).2 = plug ctx t.
Proof.
  revert ctx. induction t as [|c l IHl a kv r IHr]; intros ctx; simpl; [done|].
  destruct (cmp key kv.1); [by rewrite IHl|].
  destruct (cmp kv.1 key); [by rewrite IHr|]. done.
Qed.

Lemma stop_ptr_leaf nl ctx : stop_ptr nl (ctx, Lf) = ctx_par nl ctx.
Proof. by destruct ctx. Qed.

Lemma findNode_loop_spec (w : World) tb np nc key fuel ctx t node :
  wf w tb np nc (plug ctx t) ->
  (t = Lf -> node = ctx_par (nil tb) ctx) ->
  (height t < fuel)%nat ->
  findNode_loop cmp fuel tb key node (ptr_of (nil tb) t) w =
    Done (stop_ptr (nil tb) (descend key ctx t), w).
Proof.
  revert fuel ctx node. induction t as [|c l IHl a kv r IHr]; intros fuel ctx node Hwf Hnode Hfuel.
  - destruct fuel as [|fuel]; [lia|]. simpl.
    rewrite N.eqb_refl, Hnode by done. rewrite stop_ptr_leaf. reflexivity.
  - destruct fuel as [|fuel]; [simpl in Hfuel; lia|].
    pose proof (wf_focus _ _ _ _ _ _ _ _ _ _ Hwf) as Ha.
    pose proof (wf_focus_neq_nil _ _ _ _ _ _ _ _ _ _ Hwf) as Hne.
    simpl in Hfuel. simpl.
    repeat step.
    destruct (cmp key kv.1).
    + repeat step. apply (IHl fuel (FL c a kv r :: ctx)); [done| |lia].
      done.
    + repeat step. destruct (cmp kv.1 key).
      * repeat step. apply (IHr fuel (FR c l a kv :: ctx)); [done| |lia].
        done.
      * destruct fuel as [|fuel]; [lia|]. simpl. by rewrite N.eqb_refl.
Qed.

Lemma findNode_spec (w : World) tb np nc key fuel t :
  wf w tb np nc t ->
  (height t < fuel)%nat ->
  findNode cmp fuel tb key w = Done (stop_ptr (nil tb) (descend key [] t), w).
Proof.
  intros Hwf Hfuel. unfold findNode.
  rewrite (wf_root _ _ _ _ _ Hwf).
  apply (findNode_loop_spec w tb np nc key fuel [] t); try done.
  intros ->. simpl. done.
Qed.

(** Where the descent stops there is a live node with that payload. *)
Lemma stop_node_live (w : World) tb np nc key t a kv :
  wf w tb np nc t ->
  stop_node (descend key [] t) = Some (a, kv) ->
  a ≠ nil tb /\ exists n, heap w !! a = Some n /\ value n = Some kv.
Proof.
  intros Hwf Hs.
  pose proof (descend_plug key [] t) as Hp. simpl in Hp.
  destruct (descend key [] t) as [ctx' t']. simpl in *.
  rewrite <-Hp in Hwf. clear Hp.
  destruct t' as [|c l b kvb r].
  - destruct ctx' as [|f ctx']; [done|]. injection Hs as <- <-.
    destruct f; simpl in *.
    + split; [by eapply wf_focus_neq_nil|]. eexists. split; [by eapply wf_focus|done].
    + split; [by eapply wf_focus_neq_nil|]. eexists. split; [by eapply wf_focus|done].
  - injection Hs as <- <-.
    split; [by eapply wf_focus_neq_nil|]. eexists. split; [by eapply wf_focus|done].
Qed.

(** What the lookup at the head of [at], [operator[]], [find] and
    [insert] decides: [operator==] at the node where the descent stops. *)
Definition hit (key : K) (t : tree) : option ptr :=
  match stop_node (descend key [] t) with
  | Some (a, kv) => if key_eq key (fst kv) then Some a else None
  | None => None
  end.

Lemma at_spec (w : World) tr np nc key fuel t :
  wf w (m_data tr) np nc t ->
  (height t < fuel)%nat ->
  at_ cmp key_eq fuel tr key w =
    Done (match hit key t with Some a => inr a | None => inl out_of_range end, w).
Proof.
  intros Hwf Hfuel. unfold at_, hit.
  rewrite (bind_done _ _ _ _ _ (findNode_spec _ _ _ _ key _ _ Hwf Hfuel)).
  unfold stop_ptr.
  destruct (stop_node (descend key [] t)) as [[a kv]|] eqn:Hs.
  - destruct (stop_node_live _ _ _ _ _ _ _ _ Hwf Hs) as (Hne & n & Hn & Hv).
    repeat step. rewrite (bind_done _ _ _ _ _ (get_value_done _ _ _ _ Hn Hv)).
    repeat step. by destruct (key_eq key kv.1).
  - by repeat step.
Qed.

Lemma find_spec (w : World) tr np nc key fuel t :
  wf w (m_data tr) np nc t ->
  (height t < fuel)%nat ->
  exists it, find cmp key_eq fuel tr key w = Done (it, w) /\
    m_node it = match hit key t with Some a => a | None => nullptr end.
Proof.
  intros Hwf Hfuel. unfold find, hit.
  destruct t as [|c l a kv r].
  - rewrite (wf_root _ _ _ _ _ Hwf). simpl. rewrite N.eqb_refl. by eexists.
  - assert (root (m_data tr) ≠ nil (m_data tr)) as Hne.
    { rewrite (wf_root _ _ _ _ _ Hwf). simpl.
      apply (wf_focus_neq_nil w _ np nc [] c l a kv r). done. }
    apply N.eqb_neq in Hne. rewrite Hne.
    rewrite (bind_done _ _ _ _ _ (findNode_spec _ _ _ _ key _ _ Hwf Hfuel)).
    unfold stop_ptr.
    destruct (stop_node (descend key [] (Nd c l a kv r))) as [[b kvb]|] eqn:Hs.
    + destruct (stop_node_live _ _ _ _ _ _ _ _ Hwf Hs) as (Hneb & n & Hn & Hv).
      repeat step. rewrite (bind_done _ _ _ _ _ (get_value_done _ _ _ _ Hn Hv)).
      repeat step. destruct (key_eq key kvb.1); simpl; by eexists.
    + repeat step. by eexists.
Qed.

End Lookup.

Section Order.
Context {K T : Type}.
Variable cmp : K -> K -> bool.
Variable key_eq : K -> K -> bool.
Local Abbreviation Node := (@Node K T).
Local Abbreviation World := (@World K T).
Local Abbreviation tree := (@tree K T).
Local Abbreviation frame := (@frame K T).

(** I1: the keys of a left subtree compare less than the key of the
    node, those of a right subtree greater. *)
Fixpoint bst (t : tree) : Prop :=
  match t with
  | Lf => True
  | Nd _ l _ kv r =>
      bst l /\ bst r /\
      Forall (fun x => cmp (fst x) (fst kv) = true) (inorder l) /\
      Forall (fun x => cmp (fst kv) (fst x) = true) (inorder r)
  end.

(** The nodes of a tree, in order, each with its address. *)
Fixpoint nodes (t : tree) : list (ptr * (K * T)) :=
  match t with
  | Lf => []
  | Nd _ l a kv r => nodes l ++ (a, kv) :: nodes r
  end.

Lemma nodes_inorder t : (nodes t).*2 = inorder t.
Proof.
  induction t as [|c l IHl a kv r IHr]; simpl; [done|].
  by rewrite fmap_app, fmap_cons, IHl, IHr.
Qed.

Lemma nodes_addrs t : (nodes t).*1 = addrs t.
Proof.
  induction t as [|c l IHl a kv r IHr]; simpl; [done|].
  by rewrite fmap_app, fmap_cons, IHl, IHr.
Qed.

Lemma rep_node_live nl (h : gmap N Node) par t a kv :
  rep nl h par t -> (a, kv) ∈ nodes t ->
  exists n, h !! a = Some n /\ value n = Some kv.
Proof.
  revert par. induction t as [|c l IHl b kvb r IHr]; intros par; simpl.
  - intros _ H. by apply elem_of_nil in H.
  - intros (Hb & Hl & Hr) Ha.
    apply elem_of_app in Ha as [Ha|Ha]; [by eapply IHl|].
    apply elem_of_cons in Ha as [Ha|Ha]; [|by eapply IHr].
    injection Ha as -> ->. by eexists.
Qed.

End Order.

Section Toolkit.
Context {K T : Type}.
Local Abbreviation Node := (@Node K T).
Local Abbreviation World := (@World K T).
Local Abbreviation tree := (@tree K T).
Local Abbreviation frame := (@frame K T).

Lemma rightRotate_spec (w : World) tb np nc ctx cx l x kvx cy m y kvy r :
  wf w tb np nc (plug ctx (Nd cy (Nd cx l x kvx m) y kvy r)) ->
  exists w' tb',
    rightRotate tb y w = Done (tb', w') /\
    nil tb' = nil tb /\
    same_domain w w' /\
    wf w' tb' (match m with Lf => y | Nd _ _ _ _ _ => np end) nc
       (plug ctx (Nd cx l x kvx (Nd cy m y kvy r))).
Proof.
  intros Hwf.
  apply wf_plug_elim in Hwf as (Hn & Hctx & Hrep & Hnd & Hnd').
  simpl in Hrep. destruct Hrep as (Hy & (Hx & Hl & Hm) & Hr).
  assert (addrs (plug ctx (Nd cx l x kvx (Nd cy m y kvy r))) =
          addrs (plug ctx (Nd cy (Nd cx l x kvx m) y kvy r))) as Hperm.
  { apply addrs_plug_congr. simpl. by rewrite <-app_assoc. }
  rewrite <-Hperm in Hnd'. clear Hperm.
  unfold rightRotate, linkTo, isLeftChild, isRightChild, assign.
  unfold sentinel in Hn.
  destruct m as [|cm ml b kvb mr];
    destruct ctx as [|[cp p kvp rp|cp lp p kvp] ctx];
    simpl in *; unfold ctx_addrs, frame_addrs in Hnd; simpl in Hnd;
    revert Hnd'; nodup_split; intros Hnd';
    repeat match goal with H : _ /\ _ |- _ => destruct H end.
  - run_tac. split; [done|]. split; [dom_tac|].
    apply (wf_plug_intro _ _ _ _ [] (Nd cx l x kvx (Nd cy Lf y kvy r))); rep_tac.
  - run_tac. split; [done|]. split; [dom_tac|].
    apply (wf_plug_intro _ _ _ _ (FL cp p kvp rp :: ctx) (Nd cx l x kvx (Nd cy Lf y kvy r))); rep_tac.
  - assert (y ≠ ptr_of (nil tb) lp) by (destruct lp; simpl in *; nodup_split; done).
    run_tac. split; [done|]. split; [dom_tac|].
    apply (wf_plug_intro _ _ _ _ (FR cp lp p kvp :: ctx) (Nd cx l x kvx (Nd cy Lf y kvy r))); rep_tac.
  - run_tac. split; [done|]. split; [dom_tac|].
    apply (wf_plug_intro _ _ _ _ [] (Nd cx l x kvx (Nd cy (Nd cm ml b kvb mr) y kvy r))); rep_tac.
  - run_tac. split; [done|]. split; [dom_tac|].
    apply (wf_plug_intro _ _ _ _ (FL cp p kvp rp :: ctx) (Nd cx l x kvx (Nd cy (Nd cm ml b kvb mr) y kvy r))); rep_tac.
  - assert (y ≠ ptr_of (nil tb) lp) by (destruct lp; simpl in *; nodup_split; done).
    run_tac. split; [done|]. split; [dom_tac|].
    apply (wf_plug_intro _ _ _ _ (FR cp lp p kvp :: ctx) (Nd cx l x kvx (Nd cy (Nd cm ml b kvb mr) y kvy r))); rep_tac.
Qed.

(** Recolouring the node in focus. *)
Lemma set_color_focus (w : World) tb np nc ctx c l a kv r c' :
  wf w tb np nc (plug ctx (Nd c l a kv r)) ->
  exists w',
    set_color a c' w = Done (tt, w') /\
    same_domain w w' /\
    wf w' tb np nc (plug ctx (Nd c' l a kv r)).
Proof.
  intros Hwf.
  apply wf_plug_elim in Hwf as (Hn & Hctx & Hrep & Hnd & Hnd').
  simpl in Hrep. destruct Hrep as (Ha & Hl & Hr).
  assert (addrs (plug ctx (Nd c' l a kv r)) = addrs (plug ctx (Nd c l a kv r))) as Hperm
    by by apply addrs_plug_congr.
  rewrite <-Hperm in Hnd'. clear Hperm.
  simpl in Hnd. revert Hnd'; nodup_split; intros Hnd'.
  eexists. split; [by apply set_color_done|].
  split; [dom_tac|].
  apply wf_plug_intro; rep_tac.
Qed.

(** Recolouring the sentinel. *)
Lemma set_color_nil (w : World) tb np nc t c' :
  wf w tb np nc t ->
  exists w',
    set_color (nil tb) c' w = Done (tt, w') /\
    same_domain w w' /\
    wf w' tb np c' t.
Proof.
  intros Hwf.
  apply (wf_plug_elim _ _ _ _ []) in Hwf as (Hn & Hctx & Hrep & Hnd & Hnd').
  simpl in *. rewrite app_nil_r in Hnd. nodup_split.
  eexists. split; [by apply set_color_done|].
  split; [dom_tac|].
  apply (wf_plug_intro _ _ _ _ [] t); rep_tac.
Qed.

(** A node differs from its children, and the nodes of one subtree
    from the root of the other. *)
Lemma wf_neq_children (w : World) tb np nc ctx c l a kv r :
  wf w tb np nc (plug ctx (Nd c l a kv r)) ->
  a <> ptr_of (nil tb) l /\ a <> ptr_of (nil tb) r /\
  (forall x, x ∈ addrs l -> x <> ptr_of (nil tb) r) /\
  (forall x, x ∈ addrs r -> x <> ptr_of (nil tb) l).
Proof.
  intros Hwf.
  apply wf_plug_elim in Hwf as (_ & _ & _ & Hnd & _).
  simpl in Hnd. nodup_split.
  split_and!.
  - destruct l; simpl in *; nodup_split; done.
  - destruct r; simpl in *; nodup_split; done.
  - intros x Hx. destruct r; simpl in *; nodup_split; intros ->; absurd_elem.
  - intros x Hx. destruct l; simpl in *; nodup_split; intros ->; absurd_elem.
Qed.

Lemma nodes_plug_congr ctx (t t' : tree) :
  nodes t = nodes t' -> nodes (plug ctx t) = nodes (plug ctx t').
Proof.
  revert t t'. induction ctx as [|f ctx IH]; intros t t' Heq; simpl; [done|].
  apply IH. destruct f; simpl; by rewrite Heq.
Qed.

End Toolkit.

(** Reads only: stepping that leaves the world as it is. *)
Ltac rprim :=
  first
    [ eapply get_parent_done; eassumption
    | eapply get_left_done; eassumption
    | eapply get_right_done; eassumption
    | eapply get_color_done; eassumption
    | eapply get_value_done; [eassumption | reflexivity] ].

Ltac rstep :=
  first
    [ rewrite bind_assoc
    | rewrite bind_ret
    | erewrite bind_done by rprim
    | rewrite N.eqb_refl
    | match goal with
      | |- context [?a =? ?b] => rewrite (proj2 (N.eqb_neq a b)) by neq_tac
      end ];
  cbv beta; simpl.

(** The lookups a well-formed tree grants for the explicit nodes of the
    focus [plug C _]. *)
Ltac wf_facts H C :=
  let Hn := fresh "Hn" in
  let Hr := fresh "Hrep" in
  pose proof (wf_plug_elim _ _ _ _ C _ H) as (Hn & _ & Hr & _ & _);
  unfold sentinel in Hn; simpl in Hr; destruct_and?.

Section InsertFixup.
Context {K T : Type}.
Local Abbreviation Node := (@Node K T).
Local Abbreviation World := (@World K T).
Local Abbreviation tree := (@tree K T).
Local Abbreviation frame := (@frame K T).

Definition root_black (t : tree) : Prop := color_of Black t = Black.

Definition blacken (t : tree) : tree :=
  match t with Lf => Lf | Nd _ l a kv r => Nd Black l a kv r end.

Lemma nodes_blacken t : nodes (blacken t) = nodes t.
Proof. by destruct t. Qed.

Lemma root_black_blacken t : root_black (blacken t).
Proof. by destruct t. Qed.

Lemma plug_Nd ctx c l a kv (r : tree) :
  exists c0 l0 a0 kv0 r0, plug ctx (Nd c l a kv r) = Nd c0 l0 a0 kv0 r0.
Proof.
  revert c l a kv r. induction ctx as [|f ctx IH]; intros c l a kv r; simpl.
  - by eexists _, _, _, _, _.
  - destruct f; simpl; apply IH.
Qed.

Lemma color_of_plug nc f ctx (t t' : tree) :
  color_of nc (plug (f :: ctx) t) = color_of nc (plug (f :: ctx) t').
Proof.
  revert f t t'. induction ctx as [|g ctx IH]; intros f t t'.
  - by destruct f.
  - simpl. apply (IH g).
Qed.

(** When the parent of the node is black the loop is left at once, and
    the root is painted black. *)
Lemma insertFixup_exit (w : World) tb np fuel ctx c l a kv r :
  wf w tb np Black (plug ctx (Nd c l a kv r)) ->
  match ctx with [] => True | f :: _ => frame_color f = Black end ->
  exists w',
    insertFixup (S fuel) tb a w = Done (tb, w') /\
    same_domain w w' /\
    wf w' tb np Black (blacken (plug ctx (Nd c l a kv r))).
Proof.
  intros Hwf Hpar.
  assert (get_parent a w = Done (ctx_par (nil tb) ctx, w) /\
          get_color (ctx_par (nil tb) ctx) w = Done (Black, w)) as (Hgp & Hgc).
  { split.
    - by rewrite (get_parent_done _ _ _ (wf_focus _ _ _ _ _ _ _ _ _ _ Hwf)).
    - destruct ctx as [|f ctx]; simpl.
      + by rewrite (get_color_done _ _ _ (wf_nil _ _ _ _ _ Hwf)).
      + destruct f; simpl in *; subst;
          by rewrite (get_color_done _ _ _ (wf_focus _ _ _ _ ctx _ _ _ _ _ Hwf)). }
  cbn [insertFixup].
  rewrite (bind_done _ _ _ _ _ Hgp), (bind_done _ _ _ _ _ Hgc).
  destruct (plug_Nd ctx c l a kv r) as (c0 & l0 & a0 & kv0 & r0 & Heq).
  rewrite Heq in *.
  destruct (set_color_focus _ _ _ _ [] _ _ _ _ _ Black Hwf) as (w' & Hrun & Hdom & Hwf').
  rewrite (wf_root _ _ _ _ _ Hwf). simpl.
  rewrite (bind_done _ _ _ _ _ Hrun). by exists w'.
Qed.

Lemma insertFixup_spec fuel :
  forall (w : World) tb np ctx l a kv r,
  wf w tb np Black (plug ctx (Nd Red l a kv r)) ->
  (ctx <> [] -> root_black (plug ctx (Nd Red l a kv r))) ->
  (length ctx < fuel)%nat ->
  exists w' tb' np' t',
    insertFixup fuel tb a w = Done (tb', w') /\
    nil tb' = nil tb /\
    same_domain w w' /\
    wf w' tb' np' Black t' /\
    nodes t' = nodes (plug ctx (Nd Red l a kv r)) /\
    root_black t'.
Proof.
  induction fuel as [|fuel IH]; intros w tb np ctx l a kv r Hwf Hroot Hfuel; [lia|].
  destruct ctx as [|f1 ctx].
  { destruct (insertFixup_exit w tb np fuel [] Red l a kv r Hwf I) as (w' & Hrun & Hdom & Hwf').
    exists w', tb, np, (Nd Black l a kv r). done. }
  destruct (frame_color f1) eqn:Hc1; cycle 1.
  { destruct (insertFixup_exit w tb np fuel (f1 :: ctx) Red l a kv r Hwf Hc1)
      as (w' & Hrun & Hdom & Hwf').
    eexists w', tb, np, _. split_and!; try done.
    - apply nodes_blacken.
    - apply root_black_blacken. }
  destruct ctx as [|f2 rest].
  { specialize (Hroot ltac:(done)). destruct f1; simpl in *; unfold root_black in Hroot;
      simpl in Hroot; congruence. }
  assert (rest <> [] -> forall t', root_black (plug rest t')) as Hroot'.
  { intros Hne t'. destruct rest as [|f3 rest]; [done|].
    unfold root_black. rewrite (color_of_plug _ f3 rest t' (fill f2 (fill f1 (Nd Red l a kv r)))).
    apply Hroot. done. }
  simpl in Hfuel.
  destruct f1 as [cp p kvp rp|cp lp p kvp], f2 as [cg g kvg U|cg U g kvg];
    simpl in Hc1; subst cp; simpl in Hwf; destruct U as [|[|] lu u kvu ru].
  - (* node L, parent L, no uncle *)
    destruct (wf_neq_children _ _ _ _ rest _ _ g _ _ Hwf) as (_ & _ & Hg1 & Hg2).
    destruct (wf_neq_children _ _ _ _ (FL cg g kvg _ :: rest) _ _ p _ _ Hwf) as (_ & _ & Hp1 & Hp2).
    try (pose proof (Hg1 p ltac:(clear; simpl; set_solver))).
    try (pose proof (Hg2 p ltac:(clear; simpl; set_solver))).
    try (pose proof (Hp1 a ltac:(clear; simpl; set_solver))).
    try (pose proof (Hp2 a ltac:(clear; simpl; set_solver))).
    clear Hg1 Hg2 Hp1 Hp2.
    wf_facts Hwf rest. cbn [insertFixup]. unfold isLeftChild, isRightChild.
    repeat rstep.
    destruct (set_color_focus _ _ _ _ (FL cg g kvg _ :: rest) _ _ p _ _ Black Hwf)
      as (w1 & Hrun1 & Hdom1 & Hwf1).
    rewrite (bind_done _ _ _ _ _ Hrun1). clear Hrun1.
    wf_facts Hwf1 rest. repeat rstep.
    destruct (set_color_focus _ _ _ _ rest _ _ g _ _ Red Hwf1)
      as (w2 & Hrun2 & Hdom2 & Hwf2).
    rewrite (bind_done _ _ _ _ _ Hrun2). clear Hrun2.
    wf_facts Hwf2 rest. repeat rstep.
    destruct (rightRotate_spec _ _ _ _ rest _ _ _ _ _ _ _ _ _ Hwf2)
      as (w3 & tb3 & Hrun3 & Hnil3 & Hdom3 & HwfZ).
    rewrite (bind_done _ _ _ _ _ Hrun3). clear Hrun3.
    destruct fuel as [|fuel]; [lia|].
    destruct (insertFixup_exit _ _ _ fuel (FL Black p kvp _ :: rest) _ _ a _ _ HwfZ eq_refl)
      as (w' & Hrun' & Hdom' & Hwf').
    eexists w', tb3, _, _. split_and!; [exact Hrun'|done| |exact Hwf'| |apply root_black_blacken].
    + by repeat (eapply same_domain_trans; [eassumption|]).
    + rewrite nodes_blacken. apply (nodes_plug_congr rest). simpl.
      by repeat (rewrite <-app_assoc; simpl).
  - (* node L, parent L, red uncle *)
    destruct (wf_neq_children _ _ _ _ rest _ _ g _ _ Hwf) as (_ & _ & Hg1 & Hg2).
    destruct (wf_neq_children _ _ _ _ (FL cg g kvg _ :: rest) _ _ p _ _ Hwf) as (_ & _ & Hp1 & Hp2).
    try (pose proof (Hg1 p ltac:(clear; simpl; set_solver))).
    try (pose proof (Hg2 p ltac:(clear; simpl; set_solver))).
    try (pose proof (Hp1 a ltac:(clear; simpl; set_solver))).
    try (pose proof (Hp2 a ltac:(clear; simpl; set_solver))).
    clear Hg1 Hg2 Hp1 Hp2.
    wf_facts Hwf rest. cbn [insertFixup]. unfold isLeftChild, isRightChild.
    repeat rstep.
    destruct (set_color_focus _ _ _ _ (FL cg g kvg _ :: rest) _ _ p _ _ Black Hwf)
      as (w1 & Hrun1 & Hdom1 & Hwf1).
    rewrite (bind_done _ _ _ _ _ Hrun1). clear Hrun1.
    destruct (set_color_focus _ _ _ _ (FR cg _ g kvg :: rest) _ _ u _ _ Black Hwf1)
      as (w2 & Hrun2 & Hdom2 & Hwf2).
    rewrite (bind_done _ _ _ _ _ Hrun2). clear Hrun2.
    wf_facts Hwf2 rest. repeat rstep.
    destruct (set_color_focus _ _ _ _ rest _ _ g _ _ Red Hwf2)
      as (w3 & Hrun3 & Hdom3 & Hwf3).
    rewrite (bind_done _ _ _ _ _ Hrun3). clear Hrun3.
    wf_facts Hwf3 rest. repeat rstep.
    destruct (IH _ _ _ _ _ _ _ _ Hwf3) as (w' & tb' & np' & t' & Hrun & Hnil & Hdom & Hwf' & Hnodes & Hrb).
    { intros Hne. by apply Hroot'. }
    { lia. }
    exists w', tb', np', t'. split_and!; try done.
    + by repeat (eapply same_domain_trans; [eassumption|]).
    + rewrite Hnodes. by apply (nodes_plug_congr rest).
  - (* node L, parent L, black uncle *)
    destruct (wf_neq_children _ _ _ _ rest _ _ g _ _ Hwf) as (_ & _ & Hg1 & Hg2).
    destruct (wf_neq_children _ _ _ _ (FL cg g kvg _ :: rest) _ _ p _ _ Hwf) as (_ & _ & Hp1 & Hp2).
    try (pose proof (Hg1 p ltac:(clear; simpl; set_solver))).
    try (pose proof (Hg2 p ltac:(clear; simpl; set_solver))).
    try (pose proof (Hp1 a ltac:(clear; simpl; set_solver))).
    try (pose proof (Hp2 a ltac:(clear; simpl; set_solver))).
    clear Hg1 Hg2 Hp1 Hp2.
    wf_facts Hwf rest. cbn [insertFixup]. unfold isLeftChild, isRightChild.
    repeat rstep.
    destruct (set_color_focus _ _ _ _ (FL cg g kvg _ :: rest) _ _ p _ _ Black Hwf)
      as (w1 & Hrun1 & Hdom1 & Hwf1).
    rewrite (bind_done _ _ _ _ _ Hrun1). clear Hrun1.
    wf_facts Hwf1 rest. repeat rstep.
    destruct (set_color_focus _ _ _ _ rest _ _ g _ _ Red Hwf1)
      as (w2 & Hrun2 & Hdom2 & Hwf2).
    rewrite (bind_done _ _ _ _ _ Hrun2). clear Hrun2.
    wf_facts Hwf2 rest. repeat rstep.
    destruct (rightRotate_spec _ _ _ _ rest _ _ _ _ _ _ _ _ _ Hwf2)
      as (w3 & tb3 & Hrun3 & Hnil3 & Hdom3 & HwfZ).
    rewrite (bind_done _ _ _ _ _ Hrun3). clear Hrun3.
    destruct fuel as [|fuel]; [lia|].
    destruct (insertFixup_exit _ _ _ fuel (FL Black p kvp _ :: rest) _ _ a _ _ HwfZ eq_refl)
      as (w' & Hrun' & Hdom' & Hwf').
    eexists w', tb3, _, _. split_and!; [exact Hrun'|done| |exact Hwf'| |apply root_black_blacken].
    + by repeat (eapply same_domain_trans; [eassumption|]).
    + rewrite nodes_blacken. apply (nodes_plug_congr rest). simpl.
      by repeat (rewrite <-app_assoc; simpl).
  - (* node L, parent R, no uncle *)
    destruct (wf_neq_children _ _ _ _ rest _ _ g _ _ Hwf) as (_ & _ & Hg1 & Hg2).
    destruct (wf_neq_children _ _ _ _ (FR cg _ g kvg :: rest) _ _ p _ _ Hwf) as (_ & _ & Hp1 & Hp2).
    try (pose proof (Hg1 p ltac:(clear; simpl; set_solver))).
    try (pose proof (Hg2 p ltac:(clear; simpl; set_solver))).
    try (pose proof (Hp1 a ltac:(clear; simpl; set_solver))).
    try (pose proof (Hp2 a ltac:(clear; simpl; set_solver))).
    clear Hg1 Hg2 Hp1 Hp2.
    wf_facts Hwf rest. cbn [insertFixup]. unfold isLeftChild, isRightChild.
    repeat rstep.
    destruct (rightRotate_spec _ _ _ _ (FR cg _ g kvg :: rest) _ _ _ _ _ _ _ _ _ Hwf)
      as (w1 & tb1 & Hrun1 & Hnil1 & Hdom1 & Hwf1).
    rewrite (bind_done _ _ _ _ _ Hrun1). clear Hrun1.
    wf_facts Hwf1 rest. rewrite Hnil1 in *. repeat rstep.
    destruct (set_color_focus _ _ _ _ (FR cg _ g kvg :: rest) _ _ a _ _ Black Hwf1)
      as (w2 & Hrun2 & Hdom2 & Hwf2).
    rewrite (bind_done _ _ _ _ _ Hrun2). clear Hrun2.
    wf_facts Hwf2 rest. rewrite ?Hnil1 in *. repeat rstep.
    destruct (set_color_focus _ _ _ _ rest _ _ g _ _ Red Hwf2)
      as (w3 & Hrun3 & Hdom3 & Hwf3).
    rewrite (bind_done _ _ _ _ _ Hrun3). clear Hrun3.
    wf_facts Hwf3 rest. rewrite ?Hnil1 in *. repeat rstep.
    destruct (leftRotate_spec _ _ _ _ rest _ _ _ _ _ _ _ _ _ Hwf3)
      as (w4 & tb4 & Hrun4 & Hnil4 & Hdom4 & HwfZ).
    rewrite (bind_done _ _ _ _ _ Hrun4). clear Hrun4.
    destruct fuel as [|fuel]; [lia|].
    destruct (insertFixup_exit _ _ _ fuel (FR Black _ a kv :: rest) _ _ p _ _ HwfZ eq_refl)
      as (w' & Hrun' & Hdom' & Hwf').
    eexists w', tb4, _, _. split_and!; [exact Hrun'|congruence| |exact Hwf'| |apply root_black_blacken].
    + by repeat (eapply same_domain_trans; [eassumption|]).
    + rewrite nodes_blacken. apply (nodes_plug_congr rest). simpl.
      by repeat (rewrite <-app_assoc; simpl).
  - (* node L, parent R, red uncle *)
    destruct (wf_neq_children _ _ _ _ rest _ _ g _ _ Hwf) as (_ & _ & Hg1 & Hg2).
    destruct (wf_neq_children _ _ _ _ (FR cg _ g kvg :: rest) _ _ p _ _ Hwf) as (_ & _ & Hp1 & Hp2).
    try (pose proof (Hg1 p ltac:(clear; simpl; set_solver))).
    try (pose proof (Hg2 p ltac:(clear; simpl; set_solver))).
    try (pose proof (Hp1 a ltac:(clear; simpl; set_solver))).
    try (pose proof (Hp2 a ltac:(clear; simpl; set_solver))).
    clear Hg1 Hg2 Hp1 Hp2.
    wf_facts Hwf rest. cbn [insertFixup]. unfold isLeftChild, isRightChild.
    repeat rstep.
    destruct (set_color_focus _ _ _ _ (FR cg _ g kvg :: rest) _ _ p _ _ Black Hwf)
      as (w1 & Hrun1 & Hdom1 & Hwf1).
    rewrite (bind_done _ _ _ _ _ Hrun1). clear Hrun1.
    destruct (set_color_focus _ _ _ _ (FL cg g kvg _ :: rest) _ _ u _ _ Black Hwf1)
      as (w2 & Hrun2 & Hdom2 & Hwf2).
    rewrite (bind_done _ _ _ _ _ Hrun2). clear Hrun2.
    wf_facts Hwf2 rest. repeat rstep.
    destruct (set_color_focus _ _ _ _ rest _ _ g _ _ Red Hwf2)
      as (w3 & Hrun3 & Hdom3 & Hwf3).
    rewrite (bind_done _ _ _ _ _ Hrun3). clear Hrun3.
    wf_facts Hwf3 rest. repeat rstep.
    destruct (IH _ _ _ _ _ _ _ _ Hwf3) as (w' & tb' & np' & t' & Hrun & Hnil & Hdom & Hwf' & Hnodes & Hrb).
    { intros Hne. by apply Hroot'. }
    { lia. }
    exists w', tb', np', t'. split_and!; try done.
    + by repeat (eapply same_domain_trans; [eassumption|]).
    + rewrite Hnodes. by apply (nodes_plug_congr rest).
  - (* node L, parent R, black uncle *)
    destruct (wf_neq_children _ _ _ _ rest _ _ g _ _ Hwf) as (_ & _ & Hg1 & Hg2).
    destruct (wf_neq_children _ _ _ _ (FR cg _ g kvg :: rest) _ _ p _ _ Hwf) as (_ & _ & Hp1 & Hp2).
    try (pose proof (Hg1 p ltac:(clear; simpl; set_solver))).
    try (pose proof (Hg2 p ltac:(clear; simpl; set_solver))).
    try (pose proof (Hp1 a ltac:(clear; simpl; set_solver))).
    try (pose proof (Hp2 a ltac:(clear; simpl; set_solver))).
    clear Hg1 Hg2 Hp1 Hp2.
    wf_facts Hwf rest. cbn [insertFixup]. unfold isLeftChild, isRightChild.
    repeat rstep.
    destruct (rightRotate_spec _ _ _ _ (FR cg _ g kvg :: rest) _ _ _ _ _ _ _ _ _ Hwf)
      as (w1 & tb1 & Hrun1 & Hnil1 & Hdom1 & Hwf1).
    rewrite (bind_done _ _ _ _ _ Hrun1). clear Hrun1.
    wf_facts Hwf1 rest. rewrite Hnil1 in *. repeat rstep.
    destruct (set_color_focus _ _ _ _ (FR cg _ g kvg :: rest) _ _ a _ _ Black Hwf1)
      as (w2 & Hrun2 & Hdom2 & Hwf2).
    rewrite (bind_done _ _ _ _ _ Hrun2). clear Hrun2.
    wf_facts Hwf2 rest. rewrite ?Hnil1 in *. repeat rstep.
    destruct (set_color_focus _ _ _ _ rest _ _ g _ _ Red Hwf2)
      as (w3 & Hrun3 & Hdom3 & Hwf3).
    rewrite (bind_done _ _ _ _ _ Hrun3). clear Hrun3.
    wf_facts Hwf3 rest. rewrite ?Hnil1 in *. repeat rstep.
    destruct (leftRotate_spec _ _ _ _ rest _ _ _ _ _ _ _ _ _ Hwf3)
      as (w4 & tb4 & Hrun4 & Hnil4 & Hdom4 & HwfZ).
    rewrite (bind_done _ _ _ _ _ Hrun4). clear Hrun4.
    destruct fuel as [|fuel]; [lia|].
    destruct (insertFixup_exit _ _ _ fuel (FR Black _ a kv :: rest) _ _ p _ _ HwfZ eq_refl)
      as (w' & Hrun' & Hdom' & Hwf').
    eexists w', tb4, _, _. split_and!; [exact Hrun'|congruence| |exact Hwf'| |apply root_black_blacken].
    + by repeat (eapply same_domain_trans; [eassumption|]).
    + rewrite nodes_blacken. apply (nodes_plug_congr rest). simpl.
      by repeat (rewrite <-app_assoc; simpl).
  - (* node R, parent L, no uncle *)
    destruct (wf_neq_children _ _ _ _ rest _ _ g _ _ Hwf) as (_ & _ & Hg1 & Hg2).
    destruct (wf_neq_children _ _ _ _ (FL cg g kvg _ :: rest) _ _ p _ _ Hwf) as (_ & _ & Hp1 & Hp2).
    try (pose proof (Hg1 p ltac:(clear; simpl; set_solver))).
    try (pose proof (Hg2 p ltac:(clear; simpl; set_solver))).
    try (pose proof (Hp1 a ltac:(clear; simpl; set_solver))).
    try (pose proof (Hp2 a ltac:(clear; simpl; set_solver))).
    clear Hg1 Hg2 Hp1 Hp2.
    wf_facts Hwf rest. cbn [insertFixup]. unfold isLeftChild, isRightChild.
    repeat rstep.
    destruct (leftRotate_spec _ _ _ _ (FL cg g kvg _ :: rest) _ _ _ _ _ _ _ _ _ Hwf)
      as (w1 & tb1 & Hrun1 & Hnil1 & Hdom1 & Hwf1).
    rewrite (bind_done _ _ _ _ _ Hrun1). clear Hrun1.
    wf_facts Hwf1 rest. rewrite Hnil1 in *. repeat rstep.
    destruct (set_color_focus _ _ _ _ (FL cg g kvg _ :: rest) _ _ a _ _ Black Hwf1)
      as (w2 & Hrun2 & Hdom2 & Hwf2).
    rewrite (bind_done _ _ _ _ _ Hrun2). clear Hrun2.
    wf_facts Hwf2 rest. rewrite ?Hnil1 in *. repeat rstep.
    destruct (set_color_focus _ _ _ _ rest _ _ g _ _ Red Hwf2)
      as (w3 & Hrun3 & Hdom3 & Hwf3).
    rewrite (bind_done _ _ _ _ _ Hrun3). clear Hrun3.
    wf_facts Hwf3 rest. rewrite ?Hnil1 in *. repeat rstep.
    destruct (rightRotate_spec _ _ _ _ rest _ _ _ _ _ _ _ _ _ Hwf3)
      as (w4 & tb4 & Hrun4 & Hnil4 & Hdom4 & HwfZ).
    rewrite (bind_done _ _ _ _ _ Hrun4). clear Hrun4.
    destruct fuel as [|fuel]; [lia|].
    destruct (insertFixup_exit _ _ _ fuel (FL Black a kv _ :: rest) _ _ p _ _ HwfZ eq_refl)
      as (w' & Hrun' & Hdom' & Hwf').
    eexists w', tb4, _, _. split_and!; [exact Hrun'|congruence| |exact Hwf'| |apply root_black_blacken].
    + by repeat (eapply same_domain_trans; [eassumption|]).
    + rewrite nodes_blacken. apply (nodes_plug_congr rest). simpl.
      by repeat (rewrite <-app_assoc; simpl).
  - (* node R, parent L, red uncle *)
    destruct (wf_neq_children _ _ _ _ rest _ _ g _ _ Hwf) as (_ & _ & Hg1 & Hg2).
    destruct (wf_neq_children _ _ _ _ (FL cg g kvg _ :: rest) _ _ p _ _ Hwf) as (_ & _ & Hp1 & Hp2).
    try (pose proof (Hg1 p ltac:(clear; simpl; set_solver))).
    try (pose proof (Hg2 p ltac:(clear; simpl; set_solver))).
    try (pose proof (Hp1 a ltac:(clear; simpl; set_solver))).
    try (pose proof (Hp2 a ltac:(clear; simpl; set_solver))).
    clear Hg1 Hg2 Hp1 Hp2.
    wf_facts Hwf rest. cbn [insertFixup]. unfold isLeftChild, isRightChild.
    repeat rstep.
    destruct (set_color_focus _ _ _ _ (FL cg g kvg _ :: rest) _ _ p _ _ Black Hwf)
      as (w1 & Hrun1 & Hdom1 & Hwf1).
    rewrite (bind_done _ _ _ _ _ Hrun1). clear Hrun1.
    destruct (set_color_focus _ _ _ _ (FR cg _ g kvg :: rest) _ _ u _ _ Black Hwf1)
      as (w2 & Hrun2 & Hdom2 & Hwf2).
    rewrite (bind_done _ _ _ _ _ Hrun2). clear Hrun2.
    wf_facts Hwf2 rest. repeat rstep.
    destruct (set_color_focus _ _ _ _ rest _ _ g _ _ Red Hwf2)
      as (w3 & Hrun3 & Hdom3 & Hwf3).
    rewrite (bind_done _ _ _ _ _ Hrun3). clear Hrun3.
    wf_facts Hwf3 rest. repeat rstep.
    destruct (IH _ _ _ _ _ _ _ _ Hwf3) as (w' & tb' & np' & t' & Hrun & Hnil & Hdom & Hwf' & Hnodes & Hrb).
    { intros Hne. by apply Hroot'. }
    { lia. }
    exists w', tb', np', t'. split_and!; try done.
    + by repeat (eapply same_domain_trans; [eassumption|]).
    + rewrite Hnodes. by apply (nodes_plug_congr rest).
  - (* node R, parent L, black uncle *)
    destruct (wf_neq_children _ _ _ _ rest _ _ g _ _ Hwf) as (_ & _ & Hg1 & Hg2).
    destruct (wf_neq_children _ _ _ _ (FL cg g kvg _ :: rest) _ _ p _ _ Hwf) as (_ & _ & Hp1 & Hp2).
    try (pose proof (Hg1 p ltac:(clear; simpl; set_solver))).
    try (pose proof (Hg2 p ltac:(clear; simpl; set_solver))).
    try (pose proof (Hp1 a ltac:(clear; simpl; set_solver))).
    try (pose proof (Hp2 a ltac:(clear; simpl; set_solver))).
    clear Hg1 Hg2 Hp1 Hp2.
    wf_facts Hwf rest. cbn [insertFixup]. unfold isLeftChild, isRightChild.
    repeat rstep.
    destruct (leftRotate_spec _ _ _ _ (FL cg g kvg _ :: rest) _ _ _ _ _ _ _ _ _ Hwf)
      as (w1 & tb1 & Hrun1 & Hnil1 & Hdom1 & Hwf1).
    rewrite (bind_done _ _ _ _ _ Hrun1). clear Hrun1.
    wf_facts Hwf1 rest. rewrite Hnil1 in *. repeat rstep.
    destruct (set_color_focus _ _ _ _ (FL cg g kvg _ :: rest) _ _ a _ _ Black Hwf1)
      as (w2 & Hrun2 & Hdom2 & Hwf2).
    rewrite (bind_done _ _ _ _ _ Hrun2). clear Hrun2.
    wf_facts Hwf2 rest. rewrite ?Hnil1 in *. repeat rstep.
    destruct (set_color_focus _ _ _ _ rest _ _ g _ _ Red Hwf2)
      as (w3 & Hrun3 & Hdom3 & Hwf3).
    rewrite (bind_done _ _ _ _ _ Hrun3). clear Hrun3.
    wf_facts Hwf3 rest. rewrite ?Hnil1 in *. repeat rstep.
    destruct (rightRotate_spec _ _ _ _ rest _ _ _ _ _ _ _ _ _ Hwf3)
      as (w4 & tb4 & Hrun4 & Hnil4 & Hdom4 & HwfZ).
    rewrite (bind_done _ _ _ _ _ Hrun4). clear Hrun4.
    destruct fuel as [|fuel]; [lia|].
    destruct (insertFixup_exit _ _ _ fuel (FL Black a kv _ :: rest) _ _ p _ _ HwfZ eq_refl)
      as (w' & Hrun' & Hdom' & Hwf').
    eexists w', tb4, _, _. split_and!; [exact Hrun'|congruence| |exact Hwf'| |apply root_black_blacken].
    + by repeat (eapply same_domain_trans; [eassumption|]).
    + rewrite nodes_blacken. apply (nodes_plug_congr rest). simpl.
      by repeat (rewrite <-app_assoc; simpl).
  - (* node R, parent R, no uncle *)
    destruct (wf_neq_children _ _ _ _ rest _ _ g _ _ Hwf) as (_ & _ & Hg1 & Hg2).
    destruct (wf_neq_children _ _ _ _ (FR cg _ g kvg :: rest) _ _ p _ _ Hwf) as (_ & _ & Hp1 & Hp2).
    try (pose proof (Hg1 p ltac:(clear; simpl; set_solver))).
    try (pose proof (Hg2 p ltac:(clear; simpl; set_solver))).
    try (pose proof (Hp1 a ltac:(clear; simpl; set_solver))).
    try (pose proof (Hp2 a ltac:(clear; simpl; set_solver))).
    clear Hg1 Hg2 Hp1 Hp2.
    wf_facts Hwf rest. cbn [insertFixup]. unfold isLeftChild, isRightChild.
    repeat rstep.
    destruct (set_color_focus _ _ _ _ (FR cg _ g kvg :: rest) _ _ p _ _ Black Hwf)
      as (w1 & Hrun1 & Hdom1 & Hwf1).
    rewrite (bind_done _ _ _ _ _ Hrun1). clear Hrun1.
    wf_facts Hwf1 rest. repeat rstep.
    destruct (set_color_focus _ _ _ _ rest _ _ g _ _ Red Hwf1)
      as (w2 & Hrun2 & Hdom2 & Hwf2).
    rewrite (bind_done _ _ _ _ _ Hrun2). clear Hrun2.
    wf_facts Hwf2 rest. repeat rstep.
    destruct (leftRotate_spec _ _ _ _ rest _ _ _ _ _ _ _ _ _ Hwf2)
      as (w3 & tb3 & Hrun3 & Hnil3 & Hdom3 & HwfZ).
    rewrite (bind_done _ _ _ _ _ Hrun3). clear Hrun3.
    destruct fuel as [|fuel]; [lia|].
    destruct (insertFixup_exit _ _ _ fuel (FR Black _ p kvp :: rest) _ _ a _ _ HwfZ eq_refl)
      as (w' & Hrun' & Hdom' & Hwf').
    eexists w', tb3, _, _. split_and!; [exact Hrun'|done| |exact Hwf'| |apply root_black_blacken].
    + by repeat (eapply same_domain_trans; [eassumption|]).
    + rewrite nodes_blacken. apply (nodes_plug_congr rest). simpl.
      by repeat (rewrite <-app_assoc; simpl).
  - (* node R, parent R, red uncle *)
    destruct (wf_neq_children _ _ _ _ rest _ _ g _ _ Hwf) as (_ & _ & Hg1 & Hg2).
    destruct (wf_neq_children _ _ _ _ (FR cg _ g kvg :: rest) _ _ p _ _ Hwf) as (_ & _ & Hp1 & Hp2).
    try (pose proof (Hg1 p ltac:(clear; simpl; set_solver))).
    try (pose proof (Hg2 p ltac:(clear; simpl; set_solver))).
    try (pose proof (Hp1 a ltac:(clear; simpl; set_solver))).
    try (pose proof (Hp2 a ltac:(clear; simpl; set_solver))).
    clear Hg1 Hg2 Hp1 Hp2.
    wf_facts Hwf rest. cbn [insertFixup]. unfold isLeftChild, isRightChild.
    repeat rstep.
    destruct (set_color_focus _ _ _ _ (FR cg _ g kvg :: rest) _ _ p _ _ Black Hwf)
      as (w1 & Hrun1 & Hdom1 & Hwf1).
    rewrite (bind_done _ _ _ _ _ Hrun1). clear Hrun1.
    destruct (set_color_focus _ _ _ _ (FL cg g kvg _ :: rest) _ _ u _ _ Black Hwf1)
      as (w2 & Hrun2 & Hdom2 & Hwf2).
    rewrite (bind_done _ _ _ _ _ Hrun2). clear Hrun2.
    wf_facts Hwf2 rest. repeat rstep.
    destruct (set_color_focus _ _ _ _ rest _ _ g _ _ Red Hwf2)
      as (w3 & Hrun3 & Hdom3 & Hwf3).
    rewrite (bind_done _ _ _ _ _ Hrun3). clear Hrun3.
    wf_facts Hwf3 rest. repeat rstep.
    destruct (IH _ _ _ _ _ _ _ _ Hwf3) as (w' & tb' & np' & t' & Hrun & Hnil & Hdom & Hwf' & Hnodes & Hrb).
    { intros Hne. by apply Hroot'. }
    { lia. }
    exists w', tb', np', t'. split_and!; try done.
    + by repeat (eapply same_domain_trans; [eassumption|]).
    + rewrite Hnodes. by apply (nodes_plug_congr rest).
  - (* node R, parent R, black uncle *)
    destruct (wf_neq_children _ _ _ _ rest _ _ g _ _ Hwf) as (_ & _ & Hg1 & Hg2).
    destruct (wf_neq_children _ _ _ _ (FR cg _ g kvg :: rest) _ _ p _ _ Hwf) as (_ & _ & Hp1 & Hp2).
    try (pose proof (Hg1 p ltac:(clear; simpl; set_solver))).
    try (pose proof (Hg2 p ltac:(clear; simpl; set_solver))).
    try (pose proof (Hp1 a ltac:(clear; simpl; set_solver))).
    try (pose proof (Hp2 a ltac:(clear; simpl; set_solver))).
    clear Hg1 Hg2 Hp1 Hp2.
    wf_facts Hwf rest. cbn [insertFixup]. unfold isLeftChild, isRightChild.
    repeat rstep.
    destruct (set_color_focus _ _ _ _ (FR cg _ g kvg :: rest) _ _ p _ _ Black Hwf)
      as (w1 & Hrun1 & Hdom1 & Hwf1).
    rewrite (bind_done _ _ _ _ _ Hrun1). clear Hrun1.
    wf_facts Hwf1 rest. repeat rstep.
    destruct (set_color_focus _ _ _ _ rest _ _ g _ _ Red Hwf1)
      as (w2 & Hrun2 & Hdom2 & Hwf2).
    rewrite (bind_done _ _ _ _ _ Hrun2). clear Hrun2.
    wf_facts Hwf2 rest. repeat rstep.
    destruct (leftRotate_spec _ _ _ _ rest _ _ _ _ _ _ _ _ _ Hwf2)
      as (w3 & tb3 & Hrun3 & Hnil3 & Hdom3 & HwfZ).
    rewrite (bind_done _ _ _ _ _ Hrun3). clear Hrun3.
    destruct fuel as [|fuel]; [lia|].
    destruct (insertFixup_exit _ _ _ fuel (FR Black _ p kvp :: rest) _ _ a _ _ HwfZ eq_refl)
      as (w' & Hrun' & Hdom' & Hwf').
    eexists w', tb3, _, _. split_and!; [exact Hrun'|done| |exact Hwf'| |apply root_black_blacken].
    + by repeat (eapply same_domain_trans; [eassumption|]).
    + rewrite nodes_blacken. apply (nodes_plug_congr rest). simpl.
      by repeat (rewrite <-app_assoc; simpl).
Qed.

End InsertFixup.

Section Insert.
Context {K T : Type}.
Variable cmp : K -> K -> bool.
Variable key_eq : K -> K -> bool.
Local Abbreviation Node := (@Node K T).
Local Abbreviation World := (@World K T).
Local Abbreviation RBTree := (@RBTree).
Local Abbreviation tree := (@tree K T).
Local Abbreviation frame := (@frame K T).

(** Addresses handed out later are above all live ones. *)
Definition fresh_ok (w : World) : Prop :=
  forall a, a ∈ dom (heap w) -> a < brk w.

(** The allocator can count: it has no counter, or its counter is live. *)
Definition can_allocate (w : World) (al : Allocator) : Prop :=
  m_allocations al = nullptr \/ is_Some (cells w !! m_allocations al).

Lemma allocate_spec (w : World) al :
  can_allocate w al ->
  exists cs,
    allocate al w = Done (brk w, mkWorld (heap w) (brk w + 1) cs) /\
    dom cs = dom (cells w).
Proof.
  intros [Hnull|[v Hv]]; unfold allocate.
  - rewrite Hnull. simpl. rewrite bind_ret. by eexists.
  - destruct (m_allocations al =? nullptr) eqn:E.
    + rewrite bind_ret. by eexists.
    + unfold bind at 1. unfold bump. rewrite Hv. simpl.
      eexists. split; [done|]. simpl.
      rewrite dom_insert_L. apply elem_of_dom_2 in Hv. set_solver.
Qed.

(** [buildNode]: a fresh red node with both children at the sentinel. *)
Lemma buildNode_spec (w : World) (tr : RBTree) kv :
  can_allocate w (m_allocator tr) ->
  exists cs,
    buildNode tr kv w =
      Done (brk w,
            mkWorld (<[brk w := mkNode nullptr (nil (m_data tr)) (nil (m_data tr)) Red (Some kv)]>
                       (<[brk w := mkNode nullptr nullptr (nil (m_data tr)) Red (Some kv)]>
                          (<[brk w := mkNode nullptr nullptr nullptr Red (Some kv)]> (heap w))))
                    (brk w + 1) cs) /\
    dom cs = dom (cells w).
Proof.
  intros Hal. destruct (allocate_spec w _ Hal) as (cs & Hrun & Hcs).
  exists cs. split; [|done]. unfold buildNode.
  rewrite (bind_done _ _ _ _ _ Hrun).
  unfold construct at 1. unfold bind at 1. unfold set_heap. simpl.
  erewrite bind_done; cycle 1.
  { eapply set_right_done. simpl. apply lookup_insert_eq. }
  erewrite bind_done; cycle 1.
  { eapply set_left_done. simpl. apply lookup_insert_eq. }
  reflexivity.
Qed.

(** The abstract insertion at the leaf the descent reaches. *)
Fixpoint ins (a : ptr) (kv : K * T) (t : tree) : tree :=
  match t with
  | Lf => Nd Red Lf a kv Lf
  | Nd c l b kvb r =>
      if cmp (fst kv) (fst kvb) then Nd c (ins a kv l) b kvb r
      else if cmp (fst kvb) (fst kv) then Nd c l b kvb (ins a kv r)
      else t
  end.

Lemma descend_ins a kv ctx t :
  (descend cmp (fst kv) ctx t).2 = Lf ->
  plug (descend cmp (fst kv) ctx t).1 (Nd Red Lf a kv Lf) = plug ctx (ins a kv t).
Proof.
  revert ctx. induction t as [|c l IHl b kvb r IHr]; intros ctx; simpl; [done|].
  destruct (cmp kv.1 kvb.1); [by intros H; rewrite IHl|].
  destruct (cmp kvb.1 kv.1); [by intros H; rewrite IHr|]. done.
Qed.

(** The frame on top of the context agrees with the side on which
    [attach] links the new node. *)
Definition side_ok (key : K) (f : frame) : Prop :=
  match f with
  | FL _ _ kv _ => cmp key (fst kv) = true
  | FR _ _ _ kv => cmp key (fst kv) = false
  end.

Lemma descend_sides key ctx t :
  Forall (side_ok key) ctx -> Forall (side_ok key) (descend cmp key ctx t).1.
Proof.
  revert ctx. induction t as [|c l IHl a kv r IHr]; intros ctx Hctx; simpl; [done|].
  destruct (cmp key kv.1) eqn:E1; [|destruct (cmp kv.1 key) eqn:E2].
  - apply IHl. by apply Forall_cons.
  - apply IHr. by apply Forall_cons.
  - done.
Qed.

Lemma descend_length key ctx (t : tree) :
  (length (descend cmp key ctx t).1 <= length ctx + height t)%nat.
Proof.
  revert ctx. induction t as [|c l IHl a kv r IHr]; intros ctx; simpl; [lia|].
  destruct (cmp key kv.1); [|destruct (cmp kv.1 key)].
  - specialize (IHl (FL c a kv r :: ctx)). simpl in IHl. lia.
  - specialize (IHr (FR c l a kv :: ctx)). simpl in IHr. lia.
  - simpl. lia.
Qed.

Lemma height_le_nodes (t : tree) : (height t <= length (nodes t))%nat.
Proof.
  induction t as [|c l IHl a kv r IHr]; simpl; [lia|].
  rewrite length_app. simpl. lia.
Qed.

Lemma wf_live (w : World) tb np nc t a :
  wf w tb np nc t -> a ∈ addrs t -> a ∈ dom (heap w).
Proof.
  intros Hwf Ha. destruct (rep_live _ _ _ _ _ (wf_rep _ _ _ _ _ Hwf) Ha) as (n & kv & Hn & _).
  by apply elem_of_dom_2 in Hn.
Qed.

(** Linking a freshly built node into the hole of the context. *)
Lemma link_spec (w : World) (tr : RBTree) np nc ctx a kv (h' : gmap N Node) br cs :
  wf w (m_data tr) np nc (plug ctx Lf) ->
  a ∉ dom (heap w) ->
  h' = <[a := mkNode nullptr (nil (m_data tr)) (nil (m_data tr)) Red (Some kv)]> (heap w) ->
  Forall (side_ok (fst kv)) ctx ->
  exists w' tb',
    link_node cmp tr (stop_ptr (nil (m_data tr)) (ctx, Lf)) a (fst kv) (mkWorld h' br cs) =
      Done (set_data tr tb', w') /\
    nil tb' = nil (m_data tr) /\
    brk w' = br /\ cells w' = cs /\
    dom (heap w') = {[a]} ∪ dom (heap w) /\
    wf w' tb' np nc (plug ctx (Nd Red Lf a kv Lf)).
Proof.
  intros Hwf Hfresh -> Hsides. unfold link_node.
  destruct tr as [tb al sz]. simpl in *.
  assert (a ∉ addrs (plug ctx Lf)) as Hnew by (intros Hin; by apply Hfresh, (wf_live _ _ _ _ _ _ Hwf)).
  assert (a <> nil tb) as Hnil.
  { intros ->. apply Hfresh. eapply elem_of_dom_2, wf_nil. done. }
  assert (NoDup (addrs (plug ctx (Nd Red Lf a kv Lf)))) as Hnd2.
  { rewrite addrs_plug in *. simpl. apply NoDup_cons. split; [done|].
    by apply (wf_plug_elim _ _ _ _ ctx Lf) in Hwf as (_ & _ & _ & Hnd & _); nodup_split. }
  apply wf_plug_elim in Hwf as (Hn & Hctx & _ & Hnd & _).
  simpl in Hnd. rewrite addrs_plug in Hnew. simpl in Hnew.
  unfold sentinel in Hn.
  destruct ctx as [|[cp p kvp rp|cp lp p kvp] ctx]; simpl in *;
    unfold ctx_addrs, frame_addrs in *; simpl in *; revert Hnd2; nodup_split; intros Hnd2;
    try (apply Forall_cons in Hsides as [Hside _]; simpl in Hside);
    repeat match goal with H : _ /\ _ |- _ => destruct H end.
  - eexists _, _. split; [unfold stop_ptr; simpl; repeat step; reflexivity|].
    split_and!; try done.
    + simpl. rewrite !dom_insert_L. set_solver.
    + apply (wf_plug_intro _ _ _ _ [] (Nd Red Lf a kv Lf)); [rep_tac.. | done].
  - eexists _, _. split; [unfold stop_ptr; simpl; repeat step; rewrite Hside; repeat step; reflexivity|].
    split_and!; try done.
    + simpl. rewrite !dom_insert_L.
      repeat match goal with Hx : heap w !! _ = Some _ |- _ => apply elem_of_dom_2 in Hx end.
      set_solver.
    + apply (wf_plug_intro _ _ _ _ (FL cp p kvp rp :: ctx) (Nd Red Lf a kv Lf)); [rep_tac.. | done].
  - eexists _, _. split; [unfold stop_ptr; simpl; repeat step; rewrite Hside; repeat step; reflexivity|].
    split_and!; try done.
    + simpl. rewrite !dom_insert_L.
      repeat match goal with Hx : heap w !! _ = Some _ |- _ => apply elem_of_dom_2 in Hx end.
      set_solver.
    + apply (wf_plug_intro _ _ _ _ (FR cp lp p kvp :: ctx) (Nd Red Lf a kv Lf)); [rep_tac.. | done].
Qed.

End Insert.

Section InsertSpec.
Context {K T : Type}.
Variable cmp : K -> K -> bool.
Variable key_eq : K -> K -> bool.
Local Abbreviation Node := (@Node K T).
Local Abbreviation World := (@World K T).
Local Abbreviation tree := (@tree K T).
Local Abbreviation frame := (@frame K T).

Lemma same_domain_fresh (w w' : World) :
  same_domain w w' -> fresh_ok w -> fresh_ok w'.
Proof. intros (Hb & _ & Hd) Hf a. rewrite Hd, Hb. apply Hf. Qed.

Lemma insert_miss_spec (w : World) tr np t kv fuel :
  wf w (m_data tr) np Black t ->
  root_black t ->
  fresh_ok w ->
  can_allocate w (m_allocator tr) ->
  hit cmp key_eq (fst kv) t = None ->
  (descend cmp (fst kv) [] t).2 = Lf ->
  (length (nodes t) + 1 < fuel)%nat ->
  exists w' tr' np' t',
    insert cmp key_eq fuel tr kv w = Done ((mkIterator true (brk w), true, tr'), w') /\
    wf w' (m_data tr') np' Black t' /\
    root_black t' /\
    nodes t' = nodes (ins cmp (brk w) kv t) /\
    fresh_ok w' /\
    dom (cells w') = dom (cells w) /\
    m_allocator tr' = m_allocator tr /\
    m_size tr' = (m_size tr + 1) mod size_t_max.
Proof.
  intros Hwf Hrb Hfresh Hal Hhit Hleaf Hfuel.
  pose proof (height_le_nodes t) as Hh.
  unfold insert.
  rewrite (bind_done _ _ _ _ _ (findNode_spec cmp _ _ _ _ (fst kv) fuel _ Hwf ltac:(lia))).
  pose proof (descend_plug cmp (fst kv) [] t) as Hplug.
  pose proof (descend_ins cmp (brk w) kv [] t Hleaf) as Hins.
  pose proof (descend_sides cmp (fst kv) [] t (Forall_nil_2 _)) as Hsides.
  pose proof (descend_length cmp (fst kv) [] t) as Hlen.
  unfold hit in Hhit.
  destruct (descend cmp (fst kv) [] t) as [ctx t0] eqn:Hd. simpl in *. subst t0.
  (* the lookup misses *)
  assert ((if negb (stop_ptr (nil (m_data tr)) (ctx, Lf) =? nil (m_data tr))
           then kv' <- get_value (stop_ptr (nil (m_data tr)) (ctx, Lf)) ;;
                ret (key_eq (fst kv) (fst kv'))
           else ret false) w = Done (false, w)) as Hmiss.
  { unfold stop_ptr.
    destruct (stop_node (ctx, Lf)) as [[b kvb]|] eqn:Hs.
    - rewrite <-Hd in Hs.
      destruct (stop_node_live cmp _ _ _ _ _ _ _ _ Hwf Hs) as (Hne & n & Hn & Hv).
      apply N.eqb_neq in Hne. rewrite Hne. simpl.
      rewrite (bind_done _ _ _ _ _ (get_value_done _ _ _ _ Hn Hv)).
      simpl in Hhit. by destruct (key_eq kv.1 kvb.1).
    - by rewrite N.eqb_refl. }
  rewrite (bind_done _ _ _ _ _ Hmiss). clear Hmiss.
  destruct (buildNode_spec w tr kv Hal) as (cs & Hbuild & Hcs).
  rewrite (bind_done _ _ _ _ _ Hbuild). clear Hbuild.
  rewrite !insert_insert_eq.
  assert (brk w ∉ dom (heap w)) as Hnew.
  { intros Hin. apply Hfresh in Hin. lia. }
  rewrite <-Hplug in Hwf.
  destruct (link_spec cmp w tr np Black ctx (brk w) kv _ (brk w + 1) cs Hwf Hnew eq_refl Hsides)
    as (w1 & tb1 & Hlink & Hnil1 & Hbrk1 & Hcells1 & Hdom1 & Hwf1).
  unfold attach.
  rewrite bind_assoc, (bind_done _ _ _ _ _ Hlink). clear Hlink.
  destruct (insertFixup_spec fuel w1 tb1 np ctx Lf (brk w) kv Lf Hwf1)
    as (w2 & tb2 & np2 & t2 & Hfix & Hnil2 & Hdom2 & Hwf2 & Hnodes2 & Hrb2).
  { intros Hne. destruct ctx as [|f ctx]; [done|].
    unfold root_black in *. rewrite <-Hplug in Hrb.
    by rewrite (color_of_plug _ f ctx _ Lf). }
  { lia. }
  simpl. rewrite bind_assoc, (bind_done _ _ _ _ _ Hfix). clear Hfix.
  eexists w2, _, np2, t2. split; [reflexivity|]. simpl.
  split_and!; try done.
  - by rewrite Hnodes2, Hins.
  - destruct Hdom2 as (Hb2 & Hc2 & Hd2). intros a.
    rewrite Hd2, Hb2, Hdom1, Hbrk1. intros [Ha|Ha]%elem_of_union.
    + apply elem_of_singleton in Ha. lia.
    + apply Hfresh in Ha. lia.
  - destruct Hdom2 as (Hb2 & Hc2 & Hd2). by rewrite Hc2, Hcells1.
Qed.

Lemma insert_hit_spec (w : World) tr np nc t key v fuel a :
  wf w (m_data tr) np nc t ->
  hit cmp key_eq key t = Some a ->
  (height t < fuel)%nat ->
  insert cmp key_eq fuel tr (key, v) w = Done ((mkIterator true a, false, tr), w).
Proof.
  intros Hwf Hhit Hfuel. unfold insert. simpl.
  rewrite (bind_done _ _ _ _ _ (findNode_spec cmp _ _ _ _ key fuel _ Hwf Hfuel)).
  unfold hit in Hhit. unfold stop_ptr.
  destruct (stop_node (descend cmp key [] t)) as [[b kvb]|] eqn:Hs; [|done].
  destruct (stop_node_live cmp _ _ _ _ _ _ _ _ Hwf Hs) as (Hne & n & Hn & Hv).
  apply N.eqb_neq in Hne. rewrite Hne. simpl.
  rewrite bind_assoc, (bind_done _ _ _ _ _ (get_value_done _ _ _ _ Hn Hv)).
  rewrite bind_ret.
  destruct (key_eq key kvb.1); [|done]. by injection Hhit as ->.
Qed.

End InsertSpec.

Section Traversal.
Context {K T : Type}.
Local Abbreviation Node := (@Node K T).
Local Abbreviation World := (@World K T).
Local Abbreviation tree := (@tree K T).
Local Abbreviation frame := (@frame K T).

(** The leftmost node of a tree, the nearest ancestor that has the
    hole in its left subtree. *)
Fixpoint leftmost (d : ptr) (t : tree) : ptr :=
  match t with
  | Lf => d
  | Nd _ l a _ _ => leftmost a l
  end.

Fixpoint left_ancestor (ctx : list frame) : ptr :=
  match ctx with
  | [] => nullptr
  | FL _ p _ _ :: _ => p
  | FR _ _ _ _ :: ctx => left_ancestor ctx
  end.

(** The nodes before and after the hole of a context. *)
Fixpoint before_ctx (ctx : list frame) : list (ptr * (K * T)) :=
  match ctx with
  | [] => []
  | FL _ _ _ _ :: ctx => before_ctx ctx
  | FR _ l p kv :: ctx => before_ctx ctx ++ nodes l ++ [(p, kv)]
  end.

Fixpoint after_ctx (ctx : list frame) : list (ptr * (K * T)) :=
  match ctx with
  | [] => []
  | FL _ p kv r :: ctx => (p, kv) :: nodes r ++ after_ctx ctx
  | FR _ _ _ _ :: ctx => after_ctx ctx
  end.

Lemma nodes_plug ctx (t : tree) :
  nodes (plug ctx t) = before_ctx ctx ++ nodes t ++ after_ctx ctx.
Proof.
  revert t. induction ctx as [|[c p kv r|c l p kv] ctx IH]; intros t; simpl.
  - by rewrite app_nil_r.
  - rewrite IH. simpl. by rewrite <-!app_assoc.
  - rewrite IH. simpl. by repeat (rewrite <-app_assoc; simpl).
Qed.

Lemma plug_app ctx1 ctx2 (t : tree) : plug (ctx1 ++ ctx2) t = plug ctx2 (plug ctx1 t).
Proof. revert t. induction ctx1 as [|f ctx1 IH]; intros t; simpl; [done|]. apply IH. Qed.

(** Every node of a tree can be brought into focus. *)
Lemma focus_exists (t : tree) a :
  a ∈ addrs t -> exists ctx c l kv r, t = plug ctx (Nd c l a kv r).
Proof.
  induction t as [|c l IHl b kvb r IHr]; simpl.
  - intros H. by apply elem_of_nil in H.
  - rewrite elem_of_app, elem_of_cons. intros [H|[->|H]].
    + destruct (IHl H) as (ctx & c' & l' & kv' & r' & ->).
      exists (ctx ++ [FL c b kvb r]), c', l', kv', r'. by rewrite plug_app.
    + by exists [], c, l, kvb, r.
    + destruct (IHr H) as (ctx & c' & l' & kv' & r' & ->).
      exists (ctx ++ [FR c l b kvb]), c', l', kv', r'. by rewrite plug_app.
Qed.

Lemma split_unique {A B} (l1 l1' l2 l2' : list (A * B)) a x x' :
  NoDup ((l1 ++ (a, x) :: l2).*1) ->
  l1 ++ (a, x) :: l2 = l1' ++ (a, x') :: l2' ->
  l1 = l1' /\ x = x' /\ l2 = l2'.
Proof.
  revert l1'. induction l1 as [|y l1 IH]; intros l1' Hnd Heq.
  - destruct l1' as [|y' l1']; csimpl in *.
    + by injection Heq as -> ->.
    + injection Heq as <- ->. exfalso.
      apply NoDup_cons in Hnd as [Hnd _]. apply Hnd.
      rewrite fmap_app, fmap_cons. apply elem_of_app. right. by left.
  - destruct l1' as [|y' l1']; csimpl in *.
    + injection Heq as Hy Hl. subst y. exfalso.
      apply NoDup_cons in Hnd as [Hnd _]. apply Hnd. simpl.
      rewrite fmap_app, fmap_cons. apply elem_of_app. right. by left.
    + injection Heq as -> Heq.
      apply NoDup_cons in Hnd as [_ Hnd].
      destruct (IH _ Hnd Heq) as (-> & -> & ->). done.
Qed.

Lemma focus_split (t : tree) pre a kv post :
  NoDup (addrs t) ->
  nodes t = pre ++ (a, kv) :: post ->
  exists ctx c l r,
    t = plug ctx (Nd c l a kv r) /\
    pre = before_ctx ctx ++ nodes l /\
    post = nodes r ++ after_ctx ctx.
Proof.
  intros Hnd Heq.
  assert (a ∈ addrs t) as Hin.
  { rewrite <-nodes_addrs, Heq, fmap_app, fmap_cons. apply elem_of_app. right. by left. }
  destruct (focus_exists t a Hin) as (ctx & c & l & kv' & r & ->).
  rewrite nodes_plug in Heq. simpl in Heq.
  rewrite <-nodes_addrs, nodes_plug in Hnd. simpl in Hnd.
  rewrite <-app_assoc in Heq. simpl in Heq.
  rewrite (app_assoc (before_ctx ctx)) in Heq.
  rewrite <-app_assoc in Hnd. simpl in Hnd. rewrite (app_assoc (before_ctx ctx)) in Hnd.
  destruct (split_unique _ _ _ _ _ _ _ Hnd Heq) as (<- & <- & <-).
  by exists ctx, c, l, r.
Qed.

Lemma leftmost_hd d (t : tree) : leftmost d t = hd d (addrs t).
Proof.
  revert d. induction t as [|c l IHl a kv r _]; intros d; simpl; [done|].
  rewrite IHl. by destruct (addrs l).
Qed.

Lemma left_ancestor_hd ctx : left_ancestor ctx = hd nullptr (after_ctx ctx).*1.
Proof. induction ctx as [|[c p kv r|c l p kv] ctx IH]; simpl; done. Qed.

(** [allLeft] on the root of a subtree that is not empty. *)
Lemma allLeft_spec (w : World) tb np nc fuel ctx c l a kv r :
  wf w tb np nc (plug ctx (Nd c l a kv r)) ->
  (height l < fuel)%nat ->
  allLeft fuel a w = Done (leftmost a l, w).
Proof.
  revert ctx c a kv r fuel. induction l as [|cl ll IHl b kvb lr _]; intros ctx c a kv r fuel Hwf Hfuel.
  - destruct fuel as [|fuel]; [lia|].
    wf_facts Hwf ctx. cbn [allLeft]. by repeat rstep.
  - destruct fuel as [|fuel]; [simpl in Hfuel; lia|].
    destruct (wf_neq_children _ _ _ _ (FL c a kv r :: ctx) _ _ _ _ _ Hwf) as (Hne & _).
    wf_facts Hwf ctx. cbn [allLeft]. repeat rstep.
    apply (IHl (FL c a kv r :: ctx) cl b kvb lr); [done|]. simpl in Hfuel. lia.
Qed.

(** [allLeft] on the sentinel stays there. *)
Lemma allLeft_nil (w : World) tb np nc fuel t :
  wf w tb np nc t -> allLeft (S fuel) (nil tb) w = Done (nil tb, w).
Proof.
  intros Hwf. pose proof (wf_nil _ _ _ _ _ Hwf) as Hn. unfold sentinel in Hn.
  cbn [allLeft]. by repeat rstep.
Qed.

Lemma successor_climb_spec (w : World) tb np nc fuel ctx c l a kv r :
  wf w tb np nc (plug ctx (Nd c l a kv r)) ->
  (length ctx + 1 < fuel)%nat ->
  successor_climb fuel tb a w = Done (left_ancestor ctx, w).
Proof.
  revert c l a kv r fuel.
  induction ctx as [|[cp p kvp rp|cp lp p kvp] ctx IH]; intros c l a kv r fuel Hwf Hfuel.
  - do 2 (destruct fuel as [|fuel]; [simpl in Hfuel; lia|]).
    pose proof (wf_focus_neq_nil _ _ _ _ _ _ _ _ _ _ Hwf).
    wf_facts Hwf ([] : list frame). simpl in *.
    cbn [successor_climb]. by repeat rstep.
  - destruct fuel as [|fuel]; [lia|].
    pose proof (wf_focus_neq_nil _ _ _ _ _ _ _ _ _ _ Hwf).
    simpl in Hwf. wf_facts Hwf ctx.
    cbn [successor_climb]. by repeat rstep.
  - destruct fuel as [|fuel]; [lia|].
    pose proof (wf_focus_neq_nil _ _ _ _ _ _ _ _ _ _ Hwf).
    destruct (wf_neq_children _ _ _ _ ctx _ _ _ _ _ Hwf) as (_ & _ & _ & Hne).
    specialize (Hne a ltac:(clear; simpl; set_solver)).
    simpl in Hwf. wf_facts Hwf ctx.
    cbn [successor_climb]. repeat rstep.
    apply (IH _ _ _ _ _ _ Hwf). simpl in Hfuel. lia.
Qed.

(** [successor] of the node in focus. *)
Lemma successor_focus (w : World) tb np nc fuel ctx c l a kv r :
  wf w tb np nc (plug ctx (Nd c l a kv r)) ->
  (length ctx + height r + 1 < fuel)%nat ->
  successor fuel tb a w =
    Done (match r with
          | Lf => left_ancestor ctx
          | Nd _ rl b _ _ => leftmost b rl
          end, w).
Proof.
  intros Hwf Hfuel.
  pose proof (wf_focus_neq_nil _ _ _ _ _ _ _ _ _ _ Hwf).
  unfold successor. wf_facts Hwf ctx. repeat rstep.
  destruct r as [|cr rl b kvb rr]; simpl.
  - repeat rstep. apply (successor_climb_spec w tb np nc fuel ctx c l a kv Lf); [done|].
    simpl in Hfuel. lia.
  - pose proof (wf_focus_neq_nil _ _ _ _ (FR c l a kv :: ctx) _ _ _ _ _ Hwf).
    repeat rstep.
    apply (allLeft_spec w tb np nc fuel (FR c l a kv :: ctx) cr rl b kvb rr); [done|].
    simpl in Hfuel. lia.
Qed.

End Traversal.

Section Walk.
Context {K T : Type}.
Local Abbreviation Node := (@Node K T).
Local Abbreviation World := (@World K T).
Local Abbreviation tree := (@tree K T).
Local Abbreviation frame := (@frame K T).

Lemma height_plug ctx (t : tree) : (length ctx + height t <= height (plug ctx t))%nat.
Proof.
  revert t. induction ctx as [|f ctx IH]; intros t; simpl; [lia|].
  specialize (IH (fill f t)). destruct f; simpl in *; lia.
Qed.

Lemma hd_app_cons {A} (d x : A) l1 l2 : hd d (l1 ++ x :: l2) = hd x l1.
Proof. by destruct l1. Qed.

(** [successor] steps to the next node in order, and from the last
    one to the null pointer. *)
Lemma successor_next (w : World) tb np nc fuel t pre a kv post :
  wf w tb np nc t ->
  nodes t = pre ++ (a, kv) :: post ->
  (length (nodes t) + 1 < fuel)%nat ->
  successor fuel tb a w = Done (hd nullptr post.*1, w).
Proof.
  intros Hwf Heq Hfuel.
  destruct (focus_split t pre a kv post (wf_nodup _ _ _ _ _ Hwf) Heq)
    as (ctx & c & l & r & -> & _ & ->).
  pose proof (height_plug ctx (Nd c l a kv r)) as Hh.
  pose proof (height_le_nodes (plug ctx (Nd c l a kv r))) as Hn.
  simpl in Hh.
  rewrite (successor_focus w tb np nc fuel ctx c l a kv r Hwf) by lia.
  f_equal. f_equal.
  destruct r as [|cr rl b kvb rr].
  - apply left_ancestor_hd.
  - cbn [nodes].
    rewrite leftmost_hd, <-app_assoc, <-app_comm_cons, fmap_app, fmap_cons, nodes_addrs.
    by rewrite hd_app_cons.
Qed.

Lemma walk_spec (w : World) tb np nc fuel' t post :
  wf w tb np nc t ->
  heap w !! nullptr = None ->
  (length (nodes t) + 1 < fuel')%nat ->
  forall fuel pre,
  nodes t = pre ++ post ->
  (length post < fuel)%nat ->
  walk fuel fuel' tb (mkIterator true (hd nullptr post.*1)) (mkIterator true nullptr) w =
    Done (post.*2, w).
Proof.
  intros Hwf Hnull Hfuel'.
  induction post as [|[a kv] post IH]; intros fuel pre Heq Hfuel.
  - destruct fuel as [|fuel]; [simpl in Hfuel; lia|]. done.
  - destruct fuel as [|fuel]; [simpl in Hfuel; lia|].
    assert ((a, kv) ∈ nodes t) as Hin by (rewrite Heq; set_solver).
    destruct (rep_node_live _ _ _ _ _ _ (wf_rep _ _ _ _ _ Hwf) Hin) as (n & Hn & Hv).
    assert (a <> nullptr) as Hne by (intros ->; congruence).
    cbn [walk]. unfold Iterator_eqb, Iterator_deref, Iterator_next. simpl.
    apply N.eqb_neq in Hne. rewrite Hne.
    rewrite (bind_done _ _ _ _ _ (get_value_done _ _ _ _ Hn Hv)).
    rewrite bind_assoc.
    rewrite (bind_done _ _ _ _ _ (successor_next _ _ _ _ _ _ _ _ _ _ Hwf Heq Hfuel')).
    rewrite bind_ret.
    rewrite (bind_done _ _ _ _ _ (IH fuel (pre ++ [(a, kv)]) ltac:(by rewrite <-app_assoc) ltac:(simpl in Hfuel; lia))).
    done.
Qed.

(** Walking a tree that is not empty from [begin()] to [end()] meets
    its entries in order. *)
Lemma entries_spec (w : World) (tr : RBTree) np nc fuel t :
  wf w (m_data tr) np nc t ->
  heap w !! nullptr = None ->
  t <> Lf ->
  (length (nodes t) + 1 < fuel)%nat ->
  entries fuel tr w = Done (inorder t, w).
Proof.
  intros Hwf Hnull Hne Hfuel.
  destruct t as [|c l a kv r]; [done|].
  pose proof (height_le_nodes (Nd c l a kv r)) as Hh. cbn [height] in Hh.
  unfold entries, begin_.
  rewrite (wf_root _ _ _ _ _ Hwf). simpl ptr_of.
  rewrite bind_assoc.
  rewrite (bind_done _ _ _ _ _ (allLeft_spec w _ np nc fuel [] c l a kv r Hwf ltac:(lia))).
  rewrite bind_ret.
  pose proof (walk_spec w _ np nc fuel _ (nodes (Nd c l a kv r)) Hwf Hnull Hfuel fuel [] eq_refl ltac:(lia)) as Hwalk.
  rewrite nodes_inorder in Hwalk.
  rewrite <-Hwalk. unfold end_. f_equal. f_equal.
  cbn [nodes]. rewrite leftmost_hd, fmap_app, fmap_cons, nodes_addrs.
  by rewrite hd_app_cons.
Qed.

End Walk.

(** Recolouring the node [a], in focus under the context [C], in the
    tree of the hypothesis [H]; [H] then speaks of the new world. *)
Ltac paint H C a c :=
  let w' := fresh "w" in
  let Hr := fresh "Hrun" in
  let Hd := fresh "Hdom" in
  let H' := fresh "Hwf" in
  destruct (set_color_focus _ _ _ _ C _ _ a _ _ c H) as (w' & Hr & Hd & H');
  rewrite ?bind_assoc, (bind_done _ _ _ _ _ Hr); cbv beta; clear Hr H; rename H' into H.

Ltac rotate_left H C :=
  let w' := fresh "w" in
  let tb' := fresh "tb" in
  let Hr := fresh "Hrun" in
  let Hn := fresh "Hnil" in
  let Hd := fresh "Hdom" in
  let H' := fresh "Hwf" in
  destruct (leftRotate_spec _ _ _ _ C _ _ _ _ _ _ _ _ _ H) as (w' & tb' & Hr & Hn & Hd & H');
  rewrite ?bind_assoc, (bind_done _ _ _ _ _ Hr); cbv beta; clear Hr H; rename H' into H.

Ltac rotate_right H C :=
  let w' := fresh "w" in
  let tb' := fresh "tb" in
  let Hr := fresh "Hrun" in
  let Hn := fresh "Hnil" in
  let Hd := fresh "Hdom" in
  let H' := fresh "Hwf" in
  destruct (rightRotate_spec _ _ _ _ C _ _ _ _ _ _ _ _ _ H) as (w' & tb' & Hr & Hn & Hd & H');
  rewrite ?bind_assoc, (bind_done _ _ _ _ _ Hr); cbv beta; clear Hr H; rename H' into H.

Ltac dom_chain := repeat (eapply same_domain_trans; [eassumption|]); try apply same_domain_refl; try eassumption.

Section ExtractFixup.
Context {K T : Type}.
Local Abbreviation Node := (@Node K T).
Local Abbreviation World := (@World K T).
Local Abbreviation tree := (@tree K T).
Local Abbreviation frame := (@frame K T).

(** I3: the number of black nodes on every path from the root of [t]
    to a leaf, when it is the same on all of them. *)
Fixpoint bh (t : tree) : option nat :=
  match t with
  | Lf => Some O
  | Nd c l _ _ r =>
      match bh l, bh r with
      | Some n, Some m =>
          if (n =? m)%nat then Some (match c with Black => S n | Red => n end) else None
      | _, _ => None
      end
  end.

(** The subtrees that hang off a context agree with a hole of black
    height [n]. *)
Fixpoint hole_bh (ctx : list frame) (n : nat) : Prop :=
  match ctx with
  | [] => True
  | f :: ctx =>
      bh (frame_sibling f) = Some n /\
      hole_bh ctx (match frame_color f with Black => S n | Red => n end)
  end.

Lemma bh_Nd c l a kv r (n : nat) :
  bh (Nd c l a kv r) = Some n ->
  exists m, bh l = Some m /\ bh r = Some m /\ n = match c with Black => S m | Red => m end.
Proof.
  simpl. destruct (bh l) as [x|], (bh r) as [y|]; try done.
  destruct (x =? y)%nat eqn:E; [|done].
  apply Nat.eqb_eq in E as ->. intros [= <-]. by exists y.
Qed.

Lemma bh_plug ctx (t : tree) n :
  bh (plug ctx t) = Some n -> exists m, bh t = Some m /\ hole_bh ctx m.
Proof.
  revert t. induction ctx as [|f ctx IH]; intros t H; simpl in *.
  - by exists n.
  - destruct (IH _ H) as (m & Hm & Hh). destruct f as [c a kv r|c l a kv]; simpl in *.
    + apply (bh_Nd c t a kv r) in Hm as (k & Hl & Hr & ->). by exists k.
    + apply (bh_Nd c l a kv t) in Hm as (k & Hl & Hr & ->). by exists k.
Qed.

Lemma bh_pos_Nd (t : tree) n :
  bh t = Some (S n) -> exists c l a kv r, t = Nd c l a kv r.
Proof. destruct t; [done|]. intros _. by eexists _, _, _, _, _. Qed.

Lemma red_Nd (t : tree) :
  color_of Black t = Red -> exists l a kv r, t = Nd Red l a kv r.
Proof. destruct t as [|[] l a kv r]; try done. intros _. by eexists _, _, _, _. Qed.

(** The node in focus: its parent, and that it is not the root nor its
    own sibling. *)
Lemma focus_parent (w : World) tb np nc ctx (x : tree) :
  wf w tb np nc (plug ctx x) ->
  (x = Lf -> np = ctx_par (nil tb) ctx) ->
  get_parent (ptr_of (nil tb) x) w = Done (ctx_par (nil tb) ctx, w).
Proof.
  intros Hwf Hnp. destruct x as [|c l a kv r]; simpl.
  - destruct Hwf as [Hn _ _ _]. rewrite (get_parent_done _ _ _ Hn). simpl.
    by rewrite Hnp.
  - by rewrite (get_parent_done _ _ _ (wf_focus _ _ _ _ _ _ _ _ _ _ Hwf)).
Qed.

Lemma focus_live (w : World) tb np nc ctx (x : tree) :
  wf w tb np nc (plug ctx x) ->
  exists p, get_parent (ptr_of (nil tb) x) w = Done (p, w).
Proof.
  intros Hwf. destruct x as [|c l a kv r]; simpl.
  - destruct Hwf as [Hn _ _ _]. rewrite (get_parent_done _ _ _ Hn). by eexists.
  - rewrite (get_parent_done _ _ _ (wf_focus _ _ _ _ _ _ _ _ _ _ Hwf)). by eexists.
Qed.

Lemma root_in_ctx nl f ctx (x : tree) :
  ptr_of nl (plug (f :: ctx) x) ∈ ctx_addrs (f :: ctx).
Proof.
  revert f x. induction ctx as [|g ctx IH]; intros f x.
  - simpl. rewrite ptr_of_fill. unfold ctx_addrs, frame_addrs. simpl. by left.
  - change (plug (f :: g :: ctx) x) with (plug (g :: ctx) (fill f x)).
    specialize (IH g (fill f x)). unfold ctx_addrs in *.
    rewrite map_cons, concat_cons. apply elem_of_app. by right.
Qed.

Lemma focus_not_root (w : World) tb np nc f ctx (x : tree) :
  wf w tb np nc (plug (f :: ctx) x) -> ptr_of (nil tb) x <> root tb.
Proof.
  intros Hwf. rewrite (wf_root _ _ _ _ _ Hwf).
  pose proof (root_in_ctx (nil tb) f ctx x) as Hin.
  apply wf_plug_elim in Hwf as (_ & _ & _ & Hnd & _).
  apply NoDup_cons in Hnd as [Hnil Hnd]. apply NoDup_app in Hnd as (_ & Hdis & _).
  intros Heq. rewrite <-Heq in Hin. destruct x as [|c l a kv r]; simpl in *.
  - apply Hnil. by apply elem_of_app; right.
  - apply (Hdis a); [|done]. apply elem_of_app. right. by left.
Qed.

Lemma children_differ (w : World) tb np nc ctx c (l : tree) a kv (r : tree) :
  wf w tb np nc (plug ctx (Nd c l a kv r)) ->
  l <> Lf \/ r <> Lf ->
  ptr_of (nil tb) l <> ptr_of (nil tb) r.
Proof.
  intros Hwf Hne.
  destruct (wf_neq_children _ _ _ _ _ _ _ _ _ _ Hwf) as (_ & _ & H1 & H2).
  destruct l as [|cl ll b kvb lr], r as [|cr rl d kvd rr]; simpl in *.
  - by destruct Hne.
  - intros Heq. symmetry in Heq. revert Heq.
    apply (wf_focus_neq_nil _ _ _ _ (FR c Lf a kv :: ctx) _ _ _ _ _ Hwf).
  - apply (wf_focus_neq_nil _ _ _ _ (FL c a kv Lf :: ctx) _ _ _ _ _ Hwf).
  - apply H1. apply elem_of_app. right. by left.
Qed.

(** The loop is left at the root and at a red node, which is painted
    black. *)
Lemma extractFixup_exit (w : World) tb np fuel ctx (x : tree) :
  wf w tb np Black (plug ctx x) ->
  ctx = [] \/ color_of Black x = Red ->
  exists w',
    extractFixup (S fuel) tb (ptr_of (nil tb) x) w = Done (tb, w') /\
    same_domain w w' /\
    wf w' tb np Black (plug ctx (blacken x)).
Proof.
  intros Hwf Hex. cbn [extractFixup].
  destruct (focus_live _ _ _ _ _ _ Hwf) as (p & Hp).
  rewrite (bind_done _ _ _ _ _ Hp).
  assert (forall B (k : bool -> M World B),
    bind (if negb (ptr_of (nil tb) x =? root tb)
          then bind (get_color (ptr_of (nil tb) x)) (fun c => ret (Color_eqb c Black))
          else ret false) k w = k false w) as Hcont.
  { intros B k. destruct Hex as [->|Hred].
    - pose proof (wf_root _ _ _ _ _ Hwf) as Hrt. simpl in Hrt.
      rewrite <-Hrt, N.eqb_refl. simpl. by rewrite bind_ret.
    - destruct ctx as [|f ctx].
      + pose proof (wf_root _ _ _ _ _ Hwf) as Hrt. simpl in Hrt.
        rewrite <-Hrt, N.eqb_refl. simpl. by rewrite bind_ret.
      + rewrite (proj2 (N.eqb_neq _ _) (focus_not_root _ _ _ _ _ _ _ Hwf)). simpl.
        rewrite bind_assoc, (bind_done _ _ _ _ _ (wf_color_of _ _ _ _ _ _ Hwf)).
        rewrite Hred. by rewrite bind_ret. }
  rewrite Hcont. simpl.
  destruct x as [|c l a kv r]; simpl.
  - destruct Hex as [->|Hred]; [|done]. simpl in *.
    destruct (set_color_nil _ _ _ _ _ Black Hwf) as (w' & Hrun & Hdom & Hwf').
    rewrite (bind_done _ _ _ _ _ Hrun). by exists w'.
  - destruct (set_color_focus _ _ _ _ ctx _ _ _ _ _ Black Hwf) as (w' & Hrun & Hdom & Hwf').
    rewrite (bind_done _ _ _ _ _ Hrun). by exists w'.
Qed.

(** The head of an iteration that is not left. *)
Lemma extractFixup_enter (w : World) tb np fuel f ctx (x : tree) :
  wf w tb np Black (plug (f :: ctx) x) ->
  (x = Lf -> np = frame_addr f) ->
  color_of Black x = Black ->
  frame_sibling f <> Lf ->
  extractFixup (S fuel) tb (ptr_of (nil tb) x) w =
  match f with
  | FL _ parent _ _ =>
          (sibling <- get_right parent ;;
          sc <- get_color sibling ;;
          '(tree, sibling) <-
            (if Color_eqb sc Red then
               _ <- set_color sibling Black ;;
               _ <- set_color parent Red ;;
               tree <- leftRotate tb parent ;;
               s <- get_right parent ;;
               ret (tree, s)
             else ret (tb, sibling)) ;;
          sl <- get_left sibling ;;
          slc <- get_color sl ;;
          both <- (if Color_eqb slc Black
                   then sr <- get_right sibling ;; src <- get_color sr ;; ret (Color_eqb src Black)
                   else ret false) ;;
          if both then
            _ <- set_color sibling Red ;;
            extractFixup fuel tree parent
          else
            sr <- get_right sibling ;;
            src <- get_color sr ;;
            '(tree, sibling) <-
              (if Color_eqb src Black then
                 sl <- get_left sibling ;;
                 _ <- set_color sl Black ;;
                 _ <- set_color sibling Red ;;
                 tree <- rightRotate tree sibling ;;
                 s <- get_right parent ;;
                 ret (tree, s)
               else ret (tree, sibling)) ;;
            c <- get_color parent ;;
            _ <- set_color sibling c ;;
            _ <- set_color parent Black ;;
            sr <- get_right sibling ;;
            _ <- set_color sr Black ;;
            tree <- leftRotate tree parent ;;
            extractFixup fuel tree (root tree)) w
  | FR _ _ parent _ =>
          (sibling <- get_left parent ;;
          sc <- get_color sibling ;;
          '(tree, sibling) <-
            (if Color_eqb sc Red then
               _ <- set_color sibling Black ;;
               _ <- set_color parent Red ;;
               tree <- rightRotate tb parent ;;
               s <- get_left parent ;;
               ret (tree, s)
             else ret (tb, sibling)) ;;
          sr <- get_right sibling ;;
          src <- get_color sr ;;
          both <- (if Color_eqb src Black
                   then sl <- get_left sibling ;; slc <- get_color sl ;; ret (Color_eqb slc Black)
                   else ret false) ;;
          if both then
            _ <- set_color sibling Red ;;
            extractFixup fuel tree parent
          else
            sl <- get_left sibling ;;
            slc <- get_color sl ;;
            '(tree, sibling) <-
              (if Color_eqb slc Black then
                 sr <- get_right sibling ;;
                 _ <- set_color sr Black ;;
                 _ <- set_color sibling Red ;;
                 tree <- leftRotate tree sibling ;;
                 s <- get_left parent ;;
                 ret (tree, s)
               else ret (tree, sibling)) ;;
            c <- get_color parent ;;
            _ <- set_color sibling c ;;
            _ <- set_color parent Black ;;
            sl <- get_left sibling ;;
            _ <- set_color sl Black ;;
            tree <- rightRotate tree parent ;;
            extractFixup fuel tree (root tree)) w
  end.
Proof.
  intros Hwf Hnp Hcx Hsib. cbn [extractFixup].
  rewrite (bind_done _ _ _ _ _ (focus_parent _ _ _ _ _ _ Hwf Hnp)).
  rewrite (proj2 (N.eqb_neq _ _) (focus_not_root _ _ _ _ _ _ _ Hwf)). cbn [negb].
  rewrite bind_assoc, (bind_done _ _ _ _ _ (wf_color_of _ _ _ _ _ _ Hwf)).
  rewrite Hcx, bind_ret. cbn [Color_eqb].
  unfold isLeftChild.
  rewrite bind_assoc, (bind_done _ _ _ _ _ (focus_parent _ _ _ _ _ _ Hwf Hnp)).
  destruct f as [cp p kvp s|cp s p kvp]; cbn [ctx_par frame_addr frame_sibling] in *.
  - pose proof (wf_focus _ _ _ _ ctx _ _ _ _ _ Hwf) as Hp.
    rewrite bind_assoc, (bind_done _ _ _ _ _ (get_left_done _ _ _ Hp)).
    cbn [left]. by rewrite bind_ret, N.eqb_refl.
  - pose proof (wf_focus _ _ _ _ ctx _ _ _ _ _ Hwf) as Hp.
    rewrite bind_assoc, (bind_done _ _ _ _ _ (get_left_done _ _ _ Hp)).
    cbn [left]. rewrite bind_ret.
    rewrite (proj2 (N.eqb_neq _ _)); [done|].
    intros Heq. symmetry in Heq. revert Heq.
    apply (children_differ _ _ _ _ ctx _ _ _ _ _ Hwf). by left.
Qed.

End ExtractFixup.

Section ExtractFixupSpec.
Context {K T : Type}.
Local Abbreviation Node := (@Node K T).
Local Abbreviation World := (@World K T).
Local Abbreviation tree := (@tree K T).
Local Abbreviation frame := (@frame K T).

(** [extractFixup] at a node [x] whose siblings, up to the root, have
    the black height of a hole that is one black node short: the
    fix-up returns, and the tree has the same nodes in the same
    order. *)
Lemma extractFixup_spec fuel :
  forall (w : World) tb np ctx (x : tree) n,
  wf w tb np Black (plug ctx x) ->
  (x = Lf -> np = ctx_par (nil tb) ctx) ->
  hole_bh ctx (S n) ->
  (length ctx < fuel)%nat ->
  exists w' tb' np' t',
    extractFixup fuel tb (ptr_of (nil tb) x) w = Done (tb', w') /\
    nil tb' = nil tb /\
    same_domain w w' /\
    wf w' tb' np' Black t' /\
    nodes t' = nodes (plug ctx x).
Proof.
  induction fuel as [|fuel IH]; intros w tb np ctx x n Hwf Hnp Hbh Hfuel; [lia|].
  destruct ctx as [|f rest].
  { destruct (extractFixup_exit w tb np fuel [] x Hwf (or_introl eq_refl)) as (w' & Hrun & Hdom & Hwf').
    exists w', tb, np, (blacken x). split_and!; try done. apply nodes_blacken. }
  destruct (color_of Black x) eqn:Hcx.
  { destruct (extractFixup_exit w tb np fuel (f :: rest) x Hwf (or_intror Hcx)) as (w' & Hrun & Hdom & Hwf').
    eexists w', tb, np, _. split_and!; try done.
    apply nodes_plug_congr, nodes_blacken. }
  destruct Hbh as [Hsib Hbh]. cbn [length] in Hfuel.
  rewrite (extractFixup_enter w tb np fuel f rest x Hwf Hnp Hcx)
    by (destruct (bh_pos_Nd _ _ Hsib) as (? & ? & ? & ? & ? & ->); done).
  destruct f as [cp p kvp S0|cp S0 p kvp]; cbn [frame_sibling frame_color] in *.
  - (* the node is a left child *)
    destruct (bh_pos_Nd _ _ Hsib) as (cs & sn & s & kvs & sf & ->).
    apply bh_Nd in Hsib as (m & Hsn & Hsf & Hm).
    wf_facts Hwf rest. repeat rstep.
    destruct cs; cbn [Color_eqb].
    + (* red sibling *)
      subst m. destruct (bh_pos_Nd _ _ Hsn) as (cn & nn & e & kve & nf & ->).
      repeat rstep.
      paint Hwf (FR cp x p kvp :: rest) s Black.
      paint Hwf rest p Red.
      rotate_left Hwf rest.
      wf_facts Hwf rest. repeat rstep.
      rewrite (bind_done _ _ _ _ _ (wf_color_of _ _ _ _
        (FL cn e kve nf :: FR Red x p kvp :: FL Black s kvs sf :: rest) nn Hwf)).
      pose proof (wf_color_of _ _ _ _
        (FR cn nn e kve :: FR Red x p kvp :: FL Black s kvs sf :: rest) nf Hwf) as Hfar.
      destruct (color_of Black nf) eqn:Hcf.
      * (* the far nephew is red *)
        apply red_Nd in Hcf as (fn & d & kvd & ff & ->).
        cbn [ptr_of] in *. wf_facts Hwf rest.
        match type of Hwf with wf ?w0 _ _ _ _ =>
          assert (forall B (k : bool -> M World B),
            bind (if Color_eqb (color_of Black nn) Black
                  then bind (get_right e) (fun q => bind (get_color q) (fun c => ret (Color_eqb c Black)))
                  else ret false) k w0 = k false w0) as Hboth
        end.
        { intros B k. destruct (color_of Black nn); cbn [Color_eqb]; [by rewrite bind_ret|].
          by repeat rstep. }
        rewrite Hboth. clear Hboth. repeat rstep.
        paint Hwf (FR Red x p kvp :: FL Black s kvs sf :: rest) e Red.
        paint Hwf (FL Black s kvs sf :: rest) p Black.
        wf_facts Hwf rest. repeat rstep.
        paint Hwf (FR Red nn e kve :: FR Black x p kvp :: FL Black s kvs sf :: rest) d Black.
        rotate_left Hwf (FL Black s kvs sf :: rest).
        destruct fuel as [|fuel']; [lia|].
        rewrite (wf_root _ _ _ _ _ Hwf).
        destruct (extractFixup_exit _ _ _ fuel' [] _ Hwf (or_introl eq_refl)) as (w' & Hrun & Hdom' & Hwf').
        eexists w', _, _, _. split_and!; [exact Hrun|congruence|dom_chain|exact Hwf'|].
        cbn [plug fill blacken]. rewrite nodes_blacken. apply (nodes_plug_congr rest). simpl.
        by repeat (rewrite <-app_assoc; simpl).
      * destruct (color_of Black nn) eqn:Hcn; cbn [Color_eqb].
        -- (* the near nephew is red, the far one black *)
          apply red_Nd in Hcn as (nnn & g & kvg & nnf & ->).
          cbn [ptr_of] in *. wf_facts Hwf rest. repeat rstep.
          rewrite (bind_done _ _ _ _ _ Hfar). cbn [Color_eqb]. repeat rstep.
          paint Hwf (FL cn e kve nf :: FR Red x p kvp :: FL Black s kvs sf :: rest) g Black.
          paint Hwf (FR Red x p kvp :: FL Black s kvs sf :: rest) e Red.
          rotate_right Hwf (FR Red x p kvp :: FL Black s kvs sf :: rest).
          wf_facts Hwf rest. repeat rstep.
          paint Hwf (FR Red x p kvp :: FL Black s kvs sf :: rest) g Red.
          paint Hwf (FL Black s kvs sf :: rest) p Black.
          wf_facts Hwf rest. repeat rstep.
          paint Hwf (FR Red nnn g kvg :: FR Black x p kvp :: FL Black s kvs sf :: rest) e Black.
          rotate_left Hwf (FL Black s kvs sf :: rest).
          destruct fuel as [|fuel']; [lia|].
          rewrite (wf_root _ _ _ _ _ Hwf).
          destruct (extractFixup_exit _ _ _ fuel' [] _ Hwf (or_introl eq_refl)) as (w' & Hrun & Hdom' & Hwf').
          eexists w', _, _, _. split_and!; [exact Hrun|congruence|dom_chain|exact Hwf'|].
          cbn [plug fill blacken]. rewrite nodes_blacken. apply (nodes_plug_congr rest). simpl.
          by repeat (rewrite <-app_assoc; simpl).
        -- (* both nephews are black *)
          repeat rstep. rewrite (bind_done _ _ _ _ _ Hfar). cbn [Color_eqb]. repeat rstep.
          paint Hwf (FR Red x p kvp :: FL Black s kvs sf :: rest) e Red.
          destruct fuel as [|fuel']; [lia|].
          destruct (extractFixup_exit _ _ _ fuel' (FL Black s kvs sf :: rest)
                      (Nd Red x p kvp (Nd Red nn e kve nf)) Hwf (or_intror eq_refl))
            as (w' & Hrun & Hdom' & Hwf').
          eexists w', _, _, _. split_and!; [exact Hrun|congruence|dom_chain|exact Hwf'|].
          cbn [plug fill blacken]. apply (nodes_plug_congr rest). simpl.
          by repeat (rewrite <-app_assoc; simpl).
    + (* black sibling *)
      repeat rstep.
      rewrite (bind_done _ _ _ _ _ (wf_color_of _ _ _ _
        (FL Black s kvs sf :: FR cp x p kvp :: rest) sn Hwf)).
      pose proof (wf_color_of _ _ _ _
        (FR Black sn s kvs :: FR cp x p kvp :: rest) sf Hwf) as Hfar.
      destruct (color_of Black sf) eqn:Hcf.
      * (* the far nephew is red *)
        apply red_Nd in Hcf as (fn & d & kvd & ff & ->).
        cbn [ptr_of] in *. wf_facts Hwf rest.
        match type of Hwf with wf ?w0 _ _ _ _ =>
          assert (forall B (k : bool -> M World B),
            bind (if Color_eqb (color_of Black sn) Black
                  then bind (get_right s) (fun q => bind (get_color q) (fun c => ret (Color_eqb c Black)))
                  else ret false) k w0 = k false w0) as Hboth
        end.
        { intros B k. destruct (color_of Black sn); cbn [Color_eqb]; [by rewrite bind_ret|].
          by repeat rstep. }
        rewrite Hboth. clear Hboth. repeat rstep.
        paint Hwf (FR cp x p kvp :: rest) s cp.
        paint Hwf rest p Black.
        wf_facts Hwf rest. repeat rstep.
        paint Hwf (FR cp sn s kvs :: FR Black x p kvp :: rest) d Black.
        rotate_left Hwf rest.
        destruct fuel as [|fuel']; [lia|].
        rewrite (wf_root _ _ _ _ _ Hwf).
        destruct (extractFixup_exit _ _ _ fuel' [] _ Hwf (or_introl eq_refl)) as (w' & Hrun & Hdom' & Hwf').
        eexists w', _, _, _. split_and!; [exact Hrun|congruence|dom_chain|exact Hwf'|].
        cbn [plug fill blacken]. rewrite nodes_blacken. apply (nodes_plug_congr rest). simpl.
        by repeat (rewrite <-app_assoc; simpl).
      * destruct (color_of Black sn) eqn:Hcn; cbn [Color_eqb].
        -- (* the near nephew is red, the far one black *)
          apply red_Nd in Hcn as (nn & e & kve & nf & ->).
          cbn [ptr_of] in *. wf_facts Hwf rest. repeat rstep.
          rewrite (bind_done _ _ _ _ _ Hfar). cbn [Color_eqb]. repeat rstep.
          paint Hwf (FL Black s kvs sf :: FR cp x p kvp :: rest) e Black.
          paint Hwf (FR cp x p kvp :: rest) s Red.
          rotate_right Hwf (FR cp x p kvp :: rest).
          wf_facts Hwf rest. repeat rstep.
          paint Hwf (FR cp x p kvp :: rest) e cp.
          paint Hwf rest p Black.
          wf_facts Hwf rest. repeat rstep.
          paint Hwf (FR cp nn e kve :: FR Black x p kvp :: rest) s Black.
          rotate_left Hwf rest.
          destruct fuel as [|fuel']; [lia|].
          rewrite (wf_root _ _ _ _ _ Hwf).
          destruct (extractFixup_exit _ _ _ fuel' [] _ Hwf (or_introl eq_refl)) as (w' & Hrun & Hdom' & Hwf').
          eexists w', _, _, _. split_and!; [exact Hrun|congruence|dom_chain|exact Hwf'|].
          cbn [plug fill blacken]. rewrite nodes_blacken. apply (nodes_plug_congr rest). simpl.
          by repeat (rewrite <-app_assoc; simpl).
        -- (* both nephews are black *)
          repeat rstep. rewrite (bind_done _ _ _ _ _ Hfar). cbn [Color_eqb]. repeat rstep.
          paint Hwf (FR cp x p kvp :: rest) s Red.
          destruct (IH _ _ _ rest (Nd cp x p kvp (Nd Red sn s kvs sf))
                      (match cp with Red => n | Black => S n end) Hwf)
            as (w' & tb' & np' & t' & Hrun & Hnil & Hdom' & Hwf' & Hnodes);
            [done|by destruct cp|lia|].
          exists w', tb', np', t'. split_and!; [exact Hrun|done|dom_chain|exact Hwf'|].
          rewrite Hnodes. by apply nodes_plug_congr.
  - (* the node is a right child *)
    destruct (bh_pos_Nd _ _ Hsib) as (cs & sf & s & kvs & sn & ->).
    apply bh_Nd in Hsib as (m & Hsf & Hsn & Hm).
    wf_facts Hwf rest. repeat rstep.
    destruct cs; cbn [Color_eqb].
    + (* red sibling *)
      subst m. destruct (bh_pos_Nd _ _ Hsn) as (cn & nf & e & kve & nn & ->).
      repeat rstep.
      paint Hwf (FL cp p kvp x :: rest) s Black.
      paint Hwf rest p Red.
      rotate_right Hwf rest.
      wf_facts Hwf rest. repeat rstep.
      rewrite (bind_done _ _ _ _ _ (wf_color_of _ _ _ _
        (FR cn nf e kve :: FL Red p kvp x :: FR Black sf s kvs :: rest) nn Hwf)).
      pose proof (wf_color_of _ _ _ _
        (FL cn e kve nn :: FL Red p kvp x :: FR Black sf s kvs :: rest) nf Hwf) as Hfar.
      destruct (color_of Black nf) eqn:Hcf.
      * (* the far nephew is red *)
        apply red_Nd in Hcf as (ff & d & kvd & fn & ->).
        cbn [ptr_of] in *. wf_facts Hwf rest.
        match type of Hwf with wf ?w0 _ _ _ _ =>
          assert (forall B (k : bool -> M World B),
            bind (if Color_eqb (color_of Black nn) Black
                  then bind (get_left e) (fun q => bind (get_color q) (fun c => ret (Color_eqb c Black)))
                  else ret false) k w0 = k false w0) as Hboth
        end.
        { intros B k. destruct (color_of Black nn); cbn [Color_eqb]; [by rewrite bind_ret|].
          by repeat rstep. }
        rewrite Hboth. clear Hboth. repeat rstep.
        paint Hwf (FL Red p kvp x :: FR Black sf s kvs :: rest) e Red.
        paint Hwf (FR Black sf s kvs :: rest) p Black.
        wf_facts Hwf rest. repeat rstep.
        paint Hwf (FL Red e kve nn :: FL Black p kvp x :: FR Black sf s kvs :: rest) d Black.
        rotate_right Hwf (FR Black sf s kvs :: rest).
        destruct fuel as [|fuel']; [lia|].
        rewrite (wf_root _ _ _ _ _ Hwf).
        destruct (extractFixup_exit _ _ _ fuel' [] _ Hwf (or_introl eq_refl)) as (w' & Hrun & Hdom' & Hwf').
        eexists w', _, _, _. split_and!; [exact Hrun|congruence|dom_chain|exact Hwf'|].
        cbn [plug fill blacken]. rewrite nodes_blacken. apply (nodes_plug_congr rest). simpl.
        by repeat (rewrite <-app_assoc; simpl).
      * destruct (color_of Black nn) eqn:Hcn; cbn [Color_eqb].
        -- (* the near nephew is red, the far one black *)
          apply red_Nd in Hcn as (nnf & g & kvg & nnn & ->).
          cbn [ptr_of] in *. wf_facts Hwf rest. repeat rstep.
          rewrite (bind_done _ _ _ _ _ Hfar). cbn [Color_eqb]. repeat rstep.
          paint Hwf (FR cn nf e kve :: FL Red p kvp x :: FR Black sf s kvs :: rest) g Black.
          paint Hwf (FL Red p kvp x :: FR Black sf s kvs :: rest) e Red.
          rotate_left Hwf (FL Red p kvp x :: FR Black sf s kvs :: rest).
          wf_facts Hwf rest. repeat rstep.
          paint Hwf (FL Red p kvp x :: FR Black sf s kvs :: rest) g Red.
          paint Hwf (FR Black sf s kvs :: rest) p Black.
          wf_facts Hwf rest. repeat rstep.
          paint Hwf (FL Red g kvg nnn :: FL Black p kvp x :: FR Black sf s kvs :: rest) e Black.
          rotate_right Hwf (FR Black sf s kvs :: rest).
          destruct fuel as [|fuel']; [lia|].
          rewrite (wf_root _ _ _ _ _ Hwf).
          destruct (extractFixup_exit _ _ _ fuel' [] _ Hwf (or_introl eq_refl)) as (w' & Hrun & Hdom' & Hwf').
          eexists w', _, _, _. split_and!; [exact Hrun|congruence|dom_chain|exact Hwf'|].
          cbn [plug fill blacken]. rewrite nodes_blacken. apply (nodes_plug_congr rest). simpl.
          by repeat (rewrite <-app_assoc; simpl).
        -- (* both nephews are black *)
          repeat rstep. rewrite (bind_done _ _ _ _ _ Hfar). cbn [Color_eqb]. repeat rstep.
          paint Hwf (FL Red p kvp x :: FR Black sf s kvs :: rest) e Red.
          destruct fuel as [|fuel']; [lia|].
          destruct (extractFixup_exit _ _ _ fuel' (FR Black sf s kvs :: rest)
                      (Nd Red (Nd Red nf e kve nn) p kvp x) Hwf (or_intror eq_refl))
            as (w' & Hrun & Hdom' & Hwf').
          eexists w', _, _, _. split_and!; [exact Hrun|congruence|dom_chain|exact Hwf'|].
          cbn [plug fill blacken]. apply (nodes_plug_congr rest). simpl.
          by repeat (rewrite <-app_assoc; simpl).
    + (* black sibling *)
      repeat rstep.
      rewrite (bind_done _ _ _ _ _ (wf_color_of _ _ _ _
        (FR Black sf s kvs :: FL cp p kvp x :: rest) sn Hwf)).
      pose proof (wf_color_of _ _ _ _
        (FL Black s kvs sn :: FL cp p kvp x :: rest) sf Hwf) as Hfar.
      destruct (color_of Black sf) eqn:Hcf.
      * (* the far nephew is red *)
        apply red_Nd in Hcf as (ff & d & kvd & fn & ->).
        cbn [ptr_of] in *. wf_facts Hwf rest.
        match type of Hwf with wf ?w0 _ _ _ _ =>
          assert (forall B (k : bool -> M World B),
            bind (if Color_eqb (color_of Black sn) Black
                  then bind (get_left s) (fun q => bind (get_color q) (fun c => ret (Color_eqb c Black)))
                  else ret false) k w0 = k false w0) as Hboth
        end.
        { intros B k. destruct (color_of Black sn); cbn [Color_eqb]; [by rewrite bind_ret|].
          by repeat rstep. }
        rewrite Hboth. clear Hboth. repeat rstep.
        paint Hwf (FL cp p kvp x :: rest) s cp.
        paint Hwf rest p Black.
        wf_facts Hwf rest. repeat rstep.
        paint Hwf (FL cp s kvs sn :: FL Black p kvp x :: rest) d Black.
        rotate_right Hwf rest.
        destruct fuel as [|fuel']; [lia|].
        rewrite (wf_root _ _ _ _ _ Hwf).
        destruct (extractFixup_exit _ _ _ fuel' [] _ Hwf (or_introl eq_refl)) as (w' & Hrun & Hdom' & Hwf').
        eexists w', _, _, _. split_and!; [exact Hrun|congruence|dom_chain|exact Hwf'|].
        cbn [plug fill blacken]. rewrite nodes_blacken. apply (nodes_plug_congr rest). simpl.
        by repeat (rewrite <-app_assoc; simpl).
      * destruct (color_of Black sn) eqn:Hcn; cbn [Color_eqb].
        -- (* the near nephew is red, the far one black *)
          apply red_Nd in Hcn as (nf & e & kve & nn & ->).
          cbn [ptr_of] in *. wf_facts Hwf rest. repeat rstep.
          rewrite (bind_done _ _ _ _ _ Hfar). cbn [Color_eqb]. repeat rstep.
          paint Hwf (FR Black sf s kvs :: FL cp p kvp x :: rest) e Black.
          paint Hwf (FL cp p kvp x :: rest) s Red.
          rotate_left Hwf (FL cp p kvp x :: rest).
          wf_facts Hwf rest. repeat rstep.
          paint Hwf (FL cp p kvp x :: rest) e cp.
          paint Hwf rest p Black.
          wf_facts Hwf rest. repeat rstep.
          paint Hwf (FL cp e kve nn :: FL Black p kvp x :: rest) s Black.
          rotate_right Hwf rest.
          destruct fuel as [|fuel']; [lia|].
          rewrite (wf_root _ _ _ _ _ Hwf).
          destruct (extractFixup_exit _ _ _ fuel' [] _ Hwf (or_introl eq_refl)) as (w' & Hrun & Hdom' & Hwf').
          eexists w', _, _, _. split_and!; [exact Hrun|congruence|dom_chain|exact Hwf'|].
          cbn [plug fill blacken]. rewrite nodes_blacken. apply (nodes_plug_congr rest). simpl.
          by repeat (rewrite <-app_assoc; simpl).
        -- (* both nephews are black *)
          repeat rstep. rewrite (bind_done _ _ _ _ _ Hfar). cbn [Color_eqb]. repeat rstep.
          paint Hwf (FL cp p kvp x :: rest) s Red.
          destruct (IH _ _ _ rest (Nd cp (Nd Red sf s kvs sn) p kvp x)
                      (match cp with Red => n | Black => S n end) Hwf)
            as (w' & tb' & np' & t' & Hrun & Hnil & Hdom' & Hwf' & Hnodes);
            [done|by destruct cp|lia|].
          exists w', tb', np', t'. split_and!; [exact Hrun|done|dom_chain|exact Hwf'|].
          rewrite Hnodes. by apply nodes_plug_congr.
Qed.

End ExtractFixupSpec.

Section Splice.
Context {K T : Type}.
Local Abbreviation Node := (@Node K T).
Local Abbreviation World := (@World K T).
Local Abbreviation tree := (@tree K T).
Local Abbreviation frame := (@frame K T).

(** A subtree whose root has taken the colour [c]. *)
Definition recolor (c : Color) (t : tree) : tree :=
  match t with Lf => Lf | Nd _ l a kv r => Nd c l a kv r end.

Lemma nodes_recolor c (t : tree) : nodes (recolor c t) = nodes t.
Proof. by destruct t. Qed.

Lemma addrs_recolor c (t : tree) : addrs (recolor c t) = addrs t.
Proof. by destruct t. Qed.

Lemma nodup_replace {A} (l1 l2 : list A) z y :
  NoDup (l1 ++ z :: l2) -> y ∉ l1 ++ z :: l2 -> NoDup (l1 ++ y :: l2).
Proof.
  rewrite <-!Permutation_middle, !NoDup_cons, not_elem_of_cons. tauto.
Qed.

Lemma nodup_plug ctx (t : tree) :
  NoDup (addrs t ++ ctx_addrs ctx) -> NoDup (addrs (plug ctx t)).
Proof. by rewrite addrs_plug. Qed.

(** The end of [extractNode] for a node without a right child: its
    left child, or the sentinel, takes its place and its colour. *)
Lemma transplant_left (w : World) tb np nc ctx cz (l : tree) z kvz :
  wf w tb np nc (plug ctx (Nd cz l z kvz Lf)) ->
  exists w' tb',
    (forall B (k : TreeBase -> M World B),
       (lk <- linkTo z ;;
        tree <- assign tb lk (ptr_of (nil tb) l) ;;
        p <- get_parent z ;;
        _ <- set_parent (ptr_of (nil tb) l) p ;;
        c <- get_color z ;;
        _ <- set_color (ptr_of (nil tb) l) c ;;
        k tree) w = k tb' w') /\
    nil tb' = nil tb /\
    same_domain w w' /\
    wf w' tb'
       (match l with Lf => ctx_par (nil tb) ctx | Nd _ _ _ _ _ => np end)
       (match l with Lf => cz | Nd _ _ _ _ _ => nc end)
       (plug ctx (recolor cz l)).
Proof.
  intros Hwf. pose proof (linkTo_spec _ _ _ _ _ _ _ _ _ _ Hwf) as Hlk.
  apply wf_plug_elim in Hwf as (Hn & Hctx & Hrep & Hnd & _).
  simpl in Hrep. destruct Hrep as (Hz & Hl & _).
  assert (NoDup (addrs (plug ctx (recolor cz l)))) as Hnd'.
  { apply nodup_plug. rewrite addrs_recolor. simpl in Hnd. nodup_split.
    apply NoDup_app. by split_and!. }
  unfold sentinel in Hn. unfold assign.
  destruct l as [|cl ll b kvb lr];
    destruct ctx as [|[cp p kvp rp|cp lp p kvp] ctx];
    simpl in *; unfold ctx_addrs, frame_addrs in Hnd; simpl in Hnd;
    revert Hnd'; nodup_split; intros Hnd';
    repeat match goal with H : _ /\ _ |- _ => destruct H end.
  all: eexists _, _; split;
    [intros B k; rewrite (bind_done _ _ _ _ _ Hlk); cbv beta; simpl; repeat step; reflexivity|].
  all: split; [done|]; split; [dom_tac|].
  - apply (wf_plug_intro _ _ _ _ [] Lf); rep_tac.
  - apply (wf_plug_intro _ _ _ _ (FL cp p kvp rp :: ctx) Lf); rep_tac.
  - apply (wf_plug_intro _ _ _ _ (FR cp lp p kvp :: ctx) Lf); rep_tac.
  - apply (wf_plug_intro _ _ _ _ [] (Nd cz ll b kvb lr)); rep_tac.
  - apply (wf_plug_intro _ _ _ _ (FL cp p kvp rp :: ctx) (Nd cz ll b kvb lr)); rep_tac.
  - apply (wf_plug_intro _ _ _ _ (FR cp lp p kvp :: ctx) (Nd cz ll b kvb lr)); rep_tac.
Qed.

(** The same for a node without a left child. *)
Lemma transplant_right (w : World) tb np nc ctx cz (r : tree) z kvz :
  wf w tb np nc (plug ctx (Nd cz Lf z kvz r)) ->
  exists w' tb',
    (forall B (k : TreeBase -> M World B),
       (lk <- linkTo z ;;
        tree <- assign tb lk (ptr_of (nil tb) r) ;;
        p <- get_parent z ;;
        _ <- set_parent (ptr_of (nil tb) r) p ;;
        c <- get_color z ;;
        _ <- set_color (ptr_of (nil tb) r) c ;;
        k tree) w = k tb' w') /\
    nil tb' = nil tb /\
    same_domain w w' /\
    wf w' tb'
       (match r with Lf => ctx_par (nil tb) ctx | Nd _ _ _ _ _ => np end)
       (match r with Lf => cz | Nd _ _ _ _ _ => nc end)
       (plug ctx (recolor cz r)).
Proof.
  intros Hwf. pose proof (linkTo_spec _ _ _ _ _ _ _ _ _ _ Hwf) as Hlk.
  apply wf_plug_elim in Hwf as (Hn & Hctx & Hrep & Hnd & _).
  simpl in Hrep. destruct Hrep as (Hz & _ & Hr).
  assert (NoDup (addrs (plug ctx (recolor cz r)))) as Hnd'.
  { apply nodup_plug. rewrite addrs_recolor. simpl in Hnd. nodup_split.
    apply NoDup_app. by split_and!. }
  unfold sentinel in Hn. unfold assign.
  destruct r as [|cr rl b kvb rr];
    destruct ctx as [|[cp p kvp rp|cp lp p kvp] ctx];
    simpl in *; unfold ctx_addrs, frame_addrs in Hnd; simpl in Hnd;
    revert Hnd'; nodup_split; intros Hnd';
    repeat match goal with H : _ /\ _ |- _ => destruct H end.
  all: eexists _, _; split;
    [intros B k; rewrite (bind_done _ _ _ _ _ Hlk); cbv beta; simpl; repeat step; reflexivity|].
  all: split; [done|]; split; [dom_tac|].
  - apply (wf_plug_intro _ _ _ _ [] Lf); rep_tac.
  - apply (wf_plug_intro _ _ _ _ (FL cp p kvp rp :: ctx) Lf); rep_tac.
  - apply (wf_plug_intro _ _ _ _ (FR cp lp p kvp :: ctx) Lf); rep_tac.
  - apply (wf_plug_intro _ _ _ _ [] (Nd cz rl b kvb rr)); rep_tac.
  - apply (wf_plug_intro _ _ _ _ (FL cp p kvp rp :: ctx) (Nd cz rl b kvb rr)); rep_tac.
  - apply (wf_plug_intro _ _ _ _ (FR cp lp p kvp :: ctx) (Nd cz rl b kvb rr)); rep_tac.
Qed.

(** Taking the successor [y] of [z] out of the tree when it is the
    right child of [z]: its right child takes its place. *)
Lemma splice_right_child (w : World) tb np nc ctx cz (l : tree) z kvz cy y kvy (ry : tree) :
  wf w tb np nc (plug (FR cz l z kvz :: ctx) (Nd cy Lf y kvy ry)) ->
  exists w',
    (rr <- get_right y ;;
     _ <- set_right z rr ;;
     nr <- get_right z ;;
     set_parent nr z) w = Done (tt, w') /\
    same_domain w w' /\
    heap w' !! y = Some (mkNode z (nil tb) (ptr_of (nil tb) ry) cy (Some kvy)) /\
    wf w' tb (match ry with Lf => z | Nd _ _ _ _ _ => np end) nc
       (plug (FR cz l z kvz :: ctx) ry).
Proof.
  intros Hwf.
  apply wf_plug_elim in Hwf as (Hn & Hctx & Hrep & Hnd & _).
  simpl in Hrep. destruct Hrep as (Hy & _ & Hr).
  assert (NoDup (addrs (plug (FR cz l z kvz :: ctx) ry))) as Hnd'.
  { apply nodup_plug. simpl in Hnd. nodup_split. apply NoDup_app. by split_and!. }
  unfold sentinel in Hn.
  destruct ry as [|cr rl b kvb rr];
    simpl in *; unfold ctx_addrs, frame_addrs in Hnd; simpl in Hnd;
    revert Hnd'; nodup_split; intros Hnd';
    repeat match goal with H : _ /\ _ |- _ => destruct H end.
  all: eexists; split; [repeat step; prim|].
  all: split; [dom_tac|]; split; [lookup_tac|].
  - apply (wf_plug_intro _ _ _ _ (FR cz l z kvz :: ctx) Lf); rep_tac.
  - apply (wf_plug_intro _ _ _ _ (FR cz l z kvz :: ctx) (Nd cr rl b kvb rr)); rep_tac.
Qed.

(** Taking the successor [y] out when it lies deeper, as a left child. *)
Lemma splice_left_child (w : World) tb np nc ctx cp p kvp (rp : tree) cy y kvy (ry : tree) :
  wf w tb np nc (plug (FL cp p kvp rp :: ctx) (Nd cy Lf y kvy ry)) ->
  exists w',
    (rr <- get_right y ;;
     q <- get_parent y ;;
     _ <- set_left q rr ;;
     q <- get_parent y ;;
     q' <- get_parent y ;;
     ql <- get_left q' ;;
     set_parent ql q) w = Done (tt, w') /\
    same_domain w w' /\
    heap w' !! y = Some (mkNode p (nil tb) (ptr_of (nil tb) ry) cy (Some kvy)) /\
    wf w' tb (match ry with Lf => p | Nd _ _ _ _ _ => np end) nc
       (plug (FL cp p kvp rp :: ctx) ry).
Proof.
  intros Hwf.
  apply wf_plug_elim in Hwf as (Hn & Hctx & Hrep & Hnd & _).
  simpl in Hrep. destruct Hrep as (Hy & _ & Hr).
  assert (NoDup (addrs (plug (FL cp p kvp rp :: ctx) ry))) as Hnd'.
  { apply nodup_plug. simpl in Hnd. nodup_split. apply NoDup_app. by split_and!. }
  unfold sentinel in Hn.
  destruct ry as [|cr rl b kvb rr];
    simpl in *; unfold ctx_addrs, frame_addrs in Hnd; simpl in Hnd;
    revert Hnd'; nodup_split; intros Hnd';
    repeat match goal with H : _ /\ _ |- _ => destruct H end.
  all: eexists; split; [repeat step; prim|].
  all: split; [dom_tac|]; split; [lookup_tac|].
  - apply (wf_plug_intro _ _ _ _ (FL cp p kvp rp :: ctx) Lf); rep_tac.
  - apply (wf_plug_intro _ _ _ _ (FL cp p kvp rp :: ctx) (Nd cr rl b kvb rr)); rep_tac.
Qed.

(** The node [y], taken out of the tree, takes the place, the children
    and the colour of [z]. *)
Lemma replace_node (w : World) tb np nc ctx cz cl ll b kvb lr z kvz (r : tree) y ny kvy :
  wf w tb np nc (plug ctx (Nd cz (Nd cl ll b kvb lr) z kvz r)) ->
  y ∉ nil tb :: addrs (Nd cz (Nd cl ll b kvb lr) z kvz r) ++ ctx_addrs ctx ->
  heap w !! y = Some ny ->
  value ny = Some kvy ->
  exists w' tb',
    (forall (fx : ptr) B (k : ptr -> TreeBase -> M World B),
       ('(replacement, fixupRoot) <-
          (nl <- get_left z ;;
           _ <- set_left y nl ;;
           nr <- get_right z ;;
           _ <- set_right y nr ;;
           rr <- get_right y ;;
           _ <- set_parent rr y ;;
           rl <- get_left y ;;
           _ <- set_parent rl y ;;
           ret (y, fx)) ;;
        lk <- linkTo z ;;
        tree <- assign tb lk replacement ;;
        p <- get_parent z ;;
        _ <- set_parent replacement p ;;
        c <- get_color z ;;
        _ <- set_color replacement c ;;
        k fixupRoot tree) w = k fx tb' w') /\
    nil tb' = nil tb /\
    same_domain w w' /\
    wf w' tb' (match r with Lf => y | Nd _ _ _ _ _ => np end) nc
       (plug ctx (Nd cz (Nd cl ll b kvb lr) y kvy r)).
Proof.
  intros Hwf Hfresh Hy Hv.
  apply wf_plug_elim in Hwf as (Hn & Hctx & Hrep & Hnd & _).
  simpl in Hrep. destruct Hrep as (Hz & (Hb & Hll & Hlr) & Hr).
  destruct ny as [py ly ry cy vy]. simpl in Hv. subst vy.
  assert (NoDup (addrs (plug ctx (Nd cz (Nd cl ll b kvb lr) y kvy r)))) as Hnd'.
  { apply nodup_plug. apply not_elem_of_cons in Hfresh as [_ Hfresh].
    apply NoDup_cons in Hnd as [_ Hnd]. cbn [addrs] in *.
    rewrite <-(app_assoc _ (z :: _)) in Hnd, Hfresh.
    rewrite <-(app_assoc _ (y :: _)).
    by apply (nodup_replace _ _ z y). }
  unfold sentinel in Hn. unfold linkTo, isLeftChild, isRightChild, assign.
  destruct r as [|cr rl d kvd rr];
    destruct ctx as [|[cp p kvp rp|cp lp p kvp] ctx];
    simpl in *; unfold ctx_addrs, frame_addrs in Hnd, Hfresh; simpl in Hnd, Hfresh;
    revert Hnd'; nodup_split; intros Hnd';
    repeat match goal with H : _ /\ _ |- _ => destruct H end.
  all: try assert (z ≠ ptr_of (nil tb) lp) by (destruct lp; simpl in *; nodup_split; done).
  all: eexists _, _; split; [intros fx B k; repeat step; reflexivity|].
  all: split; [done|]; split; [dom_tac|].
  - apply (wf_plug_intro _ _ _ _ [] (Nd cz (Nd cl ll b kvb lr) y kvy Lf)); rep_tac.
  - apply (wf_plug_intro _ _ _ _ (FL cp p kvp rp :: ctx) (Nd cz (Nd cl ll b kvb lr) y kvy Lf)); rep_tac.
  - apply (wf_plug_intro _ _ _ _ (FR cp lp p kvp :: ctx) (Nd cz (Nd cl ll b kvb lr) y kvy Lf)); rep_tac.
  - apply (wf_plug_intro _ _ _ _ [] (Nd cz (Nd cl ll b kvb lr) y kvy (Nd cr rl d kvd rr))); rep_tac.
  - apply (wf_plug_intro _ _ _ _ (FL cp p kvp rp :: ctx) (Nd cz (Nd cl ll b kvb lr) y kvy (Nd cr rl d kvd rr))); rep_tac.
  - apply (wf_plug_intro _ _ _ _ (FR cp lp p kvp :: ctx) (Nd cz (Nd cl ll b kvb lr) y kvy (Nd cr rl d kvd rr))); rep_tac.
Qed.

End Splice.

Section ExtractNode.
Context {K T : Type}.
Local Abbreviation Node := (@Node K T).
Local Abbreviation World := (@World K T).
Local Abbreviation tree := (@tree K T).
Local Abbreviation frame := (@frame K T).

Definition is_FL (f : frame) : Prop :=
  match f with FL _ _ _ _ => True | FR _ _ _ _ => False end.

(** The leftmost node of a tree has no left child, and is reached by
    left turns only. *)
Lemma leftmost_focus c (l : tree) a kv (r : tree) :
  exists ctx cy kvy ry,
    Nd c l a kv r = plug ctx (Nd cy Lf (leftmost a l) kvy ry) /\
    Forall is_FL ctx.
Proof.
  revert c a kv r. induction l as [|cl ll IH b kvb lr _]; intros c a kv r.
  - by exists [], c, kv, r.
  - destruct (IH cl b kvb lr) as (ctx & cy & kvy & ry & Heq & Hfl).
    exists (ctx ++ [FL c a kv r]), cy, kvy, ry. split.
    + rewrite plug_app. simpl. by rewrite <-Heq.
    + apply Forall_app. split; [done|]. by apply Forall_singleton.
Qed.

Lemma before_ctx_FL (ctx : list frame) : Forall is_FL ctx -> before_ctx ctx = [].
Proof.
  induction ctx as [|[c p kv r|c l p kv] ctx IH]; intros H; [done| |].
  - apply Forall_cons in H as [_ H]. simpl. by apply IH.
  - by apply Forall_cons in H as [[] _].
Qed.

Lemma hole_bh_frame ctx1 (f g : frame) ctx2 n :
  frame_color f = frame_color g -> frame_sibling f = frame_sibling g ->
  hole_bh (ctx1 ++ f :: ctx2) n -> hole_bh (ctx1 ++ g :: ctx2) n.
Proof.
  intros Hc Hs. revert n. induction ctx1 as [|h ctx1 IH]; intros n; simpl.
  - by rewrite Hc, Hs.
  - intros [H1 H2]. split; [done|]. by apply IH.
Qed.

Lemma before_ctx_app (ctx1 ctx2 : list frame) :
  before_ctx (ctx1 ++ ctx2) = before_ctx ctx2 ++ before_ctx ctx1.
Proof.
  induction ctx1 as [|[c p kv r|c l p kv] ctx1 IH]; simpl.
  - by rewrite app_nil_r.
  - done.
  - by rewrite IH, <-app_assoc.
Qed.

Lemma after_ctx_app (ctx1 ctx2 : list frame) :
  after_ctx (ctx1 ++ ctx2) = after_ctx ctx1 ++ after_ctx ctx2.
Proof.
  induction ctx1 as [|[c p kv r|c l p kv] ctx1 IH]; simpl.
  - done.
  - rewrite IH. simpl. by rewrite <-app_assoc.
  - done.
Qed.

Lemma length_ctx_nodes ctx (t : tree) : (length ctx <= length (nodes (plug ctx t)))%nat.
Proof.
  pose proof (height_plug ctx t). pose proof (height_le_nodes (plug ctx t)). lia.
Qed.

Lemma live_not_null (w : World) a n :
  heap w !! nullptr = None -> heap w !! a = Some n -> a <> nullptr.
Proof. intros H0 Ha ->. congruence. Qed.

Lemma same_domain_null (w w' : World) :
  same_domain w w' -> heap w !! nullptr = None -> heap w' !! nullptr = None.
Proof.
  intros (_ & _ & Hd) H0. apply not_elem_of_dom. rewrite Hd. by apply not_elem_of_dom.
Qed.

Lemma focus_not_null (w : World) tb np nc ctx (x : tree) :
  wf w tb np nc (plug ctx x) -> heap w !! nullptr = None -> ptr_of (nil tb) x <> nullptr.
Proof.
  intros Hwf H0. destruct x as [|c l a kv r]; simpl.
  - eapply live_not_null; [done|]. apply (wf_nil _ _ _ _ _ Hwf).
  - eapply live_not_null; [done|]. apply (wf_focus _ _ _ _ _ _ _ _ _ _ Hwf).
Qed.

Lemma ctx_addrs_app (ctx1 ctx2 : list frame) :
  ctx_addrs (ctx1 ++ ctx2) = ctx_addrs ctx1 ++ ctx_addrs ctx2.
Proof. unfold ctx_addrs. by rewrite map_app, concat_app. Qed.

Lemma nodes_successor ctx cy y kvy (ry : tree) :
  Forall is_FL ctx ->
  nodes (plug ctx (Nd cy Lf y kvy ry)) = (y, kvy) :: nodes (plug ctx ry).
Proof. intros H. rewrite !nodes_plug, (before_ctx_FL _ H). done. Qed.

Lemma successor_fresh (w : World) tb np nc ctx cy y kvy (ry : tree) :
  wf w tb np nc (plug ctx (Nd cy Lf y kvy ry)) ->
  y ∉ nil tb :: addrs (plug ctx ry).
Proof.
  intros Hwf. apply wf_plug_elim in Hwf as (_ & _ & _ & Hnd & _).
  rewrite addrs_plug. simpl in Hnd. nodup_split.
  apply not_elem_of_cons. split; [done|]. by apply not_elem_of_app.
Qed.

(** [extractNode] on a tree of uniform black height and with a black
    sentinel: the call returns, and the tree has the other nodes, in
    the same order. *)
Lemma extractNode_spec (w : World) tb np ctx cz (l : tree) z kvz (r : tree) N fuel :
  wf w tb np Black (plug ctx (Nd cz l z kvz r)) ->
  bh (plug ctx (Nd cz l z kvz r)) = Some N ->
  heap w !! nullptr = None ->
  (length (nodes (plug ctx (Nd cz l z kvz r))) < fuel)%nat ->
  exists w' tb' np' nc' t',
    extractNode fuel tb z w = Done (tb', w') /\
    nil tb' = nil tb /\
    same_domain w w' /\
    wf w' tb' np' nc' t' /\
    nodes t' = before_ctx ctx ++ nodes l ++ nodes r ++ after_ctx ctx.
Proof.
  intros Hwf Hbh Hnull Hfuel.
  destruct (bh_plug _ _ _ Hbh) as (m & Hm & Hhole).
  apply bh_Nd in Hm as (k & Hkl & Hkr & ->).
  pose proof (length_ctx_nodes ctx (Nd cz l z kvz r)) as Hlen.
  pose proof (wf_focus_neq_nil _ _ _ _ _ _ _ _ _ _ Hwf) as Hz.
  unfold extractNode.
  destruct r as [|cr rl d kvd rr].
  - (* no right child *)
    destruct (transplant_left _ _ _ _ _ _ _ _ _ Hwf) as (w1 & tb1 & Hrun & Hnil & Hdom & Hwf1).
    wf_facts Hwf ctx.
    assert (nodes (plug ctx (recolor cz l)) = before_ctx ctx ++ nodes l ++ nodes Lf ++ after_ctx ctx)
      as Hnodes by (by rewrite nodes_plug, nodes_recolor).
    destruct cz.
    + (* a red node: nothing to repair *)
      eexists w1, tb1, _, _, _. split; [|by split_and!].
      destruct l as [|cl ll b kvb lr]; simpl in *.
      * repeat rstep. by rewrite Hrun.
      * pose proof (wf_focus_neq_nil _ _ _ _ (FL Red z kvz Lf :: ctx) _ _ _ _ _ Hwf).
        repeat rstep. by rewrite Hrun.
    + (* a black node: its place is one black node short *)
      assert (wf w1 tb1 (match l with Lf => ctx_par (nil tb) ctx | Nd _ _ _ _ _ => np end) Black
                (plug ctx (recolor Black l))) as Hwf1' by (by destruct l).
      destruct (extractFixup_spec fuel w1 tb1 _ ctx (recolor Black l) k Hwf1')
        as (w2 & tb2 & np2 & t2 & Hrun2 & Hnil2 & Hdom2 & Hwf2 & Hnodes2);
        [destruct l; [by rewrite Hnil|done]|done|lia|].
      pose proof (focus_not_null _ _ _ _ _ _ Hwf1' (same_domain_null _ _ Hdom Hnull)) as Hnn.
      exists w2, tb2, np2, Black, t2. split; [|split_and!; try done; try congruence].
      * destruct l as [|cl ll b kvb lr]; simpl in *.
        -- repeat rstep. rewrite Hrun. rewrite ?Hnil in *.
           rewrite ?(proj2 (N.eqb_neq _ _) Hnn). exact Hrun2.
        -- pose proof (wf_focus_neq_nil _ _ _ _ (FL Black z kvz Lf :: ctx) _ _ _ _ _ Hwf).
           repeat rstep. rewrite Hrun. rewrite ?Hnil in *.
           rewrite ?(proj2 (N.eqb_neq _ _) Hnn). exact Hrun2.
      * by eapply same_domain_trans.
  - destruct l as [|cl ll b kvb lr].
    + (* no left child *)
      destruct (transplant_right _ _ _ _ _ _ _ _ _ Hwf) as (w1 & tb1 & Hrun & Hnil & Hdom & Hwf1).
      pose proof (wf_focus_neq_nil _ _ _ _ (FR cz Lf z kvz :: ctx) _ _ _ _ _ Hwf).
      wf_facts Hwf ctx. cbn [recolor] in *.
      assert (nodes (plug ctx (Nd cz rl d kvd rr)) =
              before_ctx ctx ++ nodes Lf ++ nodes (Nd cr rl d kvd rr) ++ after_ctx ctx)
        as Hnodes by (by rewrite nodes_plug).
      destruct cz.
      * eexists w1, tb1, _, _, _. split; [|by split_and!].
        repeat rstep. by rewrite Hrun.
      * destruct (extractFixup_spec fuel w1 tb1 _ ctx (Nd Black rl d kvd rr) k Hwf1)
          as (w2 & tb2 & np2 & t2 & Hrun2 & Hnil2 & Hdom2 & Hwf2 & Hnodes2);
          [done|done|lia|].
        pose proof (focus_not_null _ _ _ _ _ _ Hwf1 (same_domain_null _ _ Hdom Hnull)) as Hnn.
        exists w2, tb2, np2, Black, t2. split; [|split_and!; try done; try congruence].
        -- repeat rstep. rewrite Hrun. simpl in Hnn.
           rewrite ?(proj2 (N.eqb_neq _ _) Hnn). exact Hrun2.
        -- by eapply same_domain_trans.
    + (* two children: the successor [y] of [z] takes its place *)
      destruct (leftmost_focus cr rl d kvd rr) as (ctxr & cy & kvy & ry & Heq & Hfl).
      assert (allLeft fuel d w = Done (leftmost d rl, w)) as Hall.
      { apply (allLeft_spec w tb np Black fuel (FR cz (Nd cl ll b kvb lr) z kvz :: ctx) cr rl d kvd rr Hwf).
        pose proof (height_plug ctx (Nd cz (Nd cl ll b kvb lr) z kvz (Nd cr rl d kvd rr))) as Hh.
        pose proof (height_le_nodes (plug ctx (Nd cz (Nd cl ll b kvb lr) z kvz (Nd cr rl d kvd rr)))).
        cbn [height] in Hh. lia. }
      pose proof (wf_focus_neq_nil _ _ _ _ (FR cz _ z kvz :: ctx) _ _ _ _ _ Hwf) as Hd.
      pose proof (wf_focus_neq_nil _ _ _ _ (FL cz z kvz _ :: ctx) _ _ _ _ _ Hwf) as Hb.
      remember (leftmost d rl) as y eqn:Hy.
      assert (wf w tb np Black
                (plug (ctxr ++ FR cz (Nd cl ll b kvb lr) z kvz :: ctx) (Nd cy Lf y kvy ry))) as Hwfy.
      { rewrite plug_app. simpl. rewrite <-Heq. exact Hwf. }
      assert (hole_bh (ctxr ++ FR cz (Nd cl ll b kvb lr) y kvy :: ctx)
                (match cy with Black => 1 | Red => 0 end)%nat) as Hholey.
      { apply (hole_bh_frame _ (FR cz (Nd cl ll b kvb lr) z kvz)); [done|done|].
        rewrite Heq in Hbh.
        change (plug ctx (Nd cz (Nd cl ll b kvb lr) z kvz (plug ctxr (Nd cy Lf y kvy ry))))
          with (plug (FR cz (Nd cl ll b kvb lr) z kvz :: ctx) (plug ctxr (Nd cy Lf y kvy ry))) in Hbh.
        rewrite <-plug_app in Hbh.
        destruct (bh_plug _ _ _ Hbh) as (m' & Hm' & Hh').
        apply bh_Nd in Hm' as (k' & Hk' & _ & ->). injection Hk' as <-. done. }
      pose proof (successor_fresh _ _ _ _ _ _ _ _ _ Hwfy) as Hfresh.
      assert (length (ctxr ++ FR cz (Nd cl ll b kvb lr) y kvy :: ctx) < fuel)%nat as Hfuel'.
      { pose proof (length_ctx_nodes (ctxr ++ FR cz (Nd cl ll b kvb lr) z kvz :: ctx) (Nd cy Lf y kvy ry)) as Hl.
        rewrite plug_app in Hl. simpl in Hl. rewrite <-Heq in Hl.
        rewrite length_app in *. simpl in *. lia. }
      assert (exists w1,
        (if y =? d
         then rr <- get_right y ;; _ <- set_right z rr ;; nr <- get_right z ;; set_parent nr z
         else rr <- get_right y ;; rp <- get_parent y ;; _ <- set_left rp rr ;;
              rp <- get_parent y ;; rp' <- get_parent y ;; rpl <- get_left rp' ;;
              set_parent rpl rp) w = Done (tt, w1) /\
        same_domain w w1 /\
        (exists py, heap w1 !! y = Some (mkNode py (nil tb) (ptr_of (nil tb) ry) cy (Some kvy))) /\
        wf w1 tb (match ry with
                  | Lf => ctx_par (nil tb) (ctxr ++ FR cz (Nd cl ll b kvb lr) z kvz :: ctx)
                  | Nd _ _ _ _ _ => np
                  end) Black
           (plug (ctxr ++ FR cz (Nd cl ll b kvb lr) z kvz :: ctx) ry)) as (w1 & Hrun1 & Hdom1 & (py & Hy1) & Hwf1).
      { destruct ctxr as [|[cp p kvp rp|] ctxr'].
        - simpl in Heq. injection Heq as -> -> -> -> ->. clear Hy.
          destruct (splice_right_child _ _ _ _ _ _ _ _ _ _ _ _ _ Hwfy) as (w1 & Hrun1 & Hdom1 & Hy1 & Hwf1).
          exists w1. rewrite N.eqb_refl.
          split; [done|]. split; [done|]. split; [by eexists|]. by destruct ry.
        - assert (y <> d) as Hne.
          { pose proof (root_in_ctx (nil tb) (FL cp p kvp rp) ctxr' (Nd cy Lf y kvy ry)) as Hin.
            rewrite <-Heq in Hin. simpl in Hin.
            apply wf_plug_elim in Hwfy as (_ & _ & _ & Hnd & _).
            simpl in Hnd. nodup_split. intros ->.
            match goal with H : d ∉ ctx_addrs _ |- _ => apply H end.
            rewrite app_comm_cons, ctx_addrs_app. apply elem_of_app. by left. }
          destruct (splice_left_child _ _ _ _ _ _ _ _ _ _ _ _ _ Hwfy) as (w1 & Hrun1 & Hdom1 & Hy1 & Hwf1).
          exists w1. rewrite (proj2 (N.eqb_neq _ _) Hne).
          split; [done|]. split; [done|]. split; [by eexists|]. by destruct ry.
        - by apply Forall_cons in Hfl as [[] _]. }
      assert (wf w1 tb (match ry with
                  | Lf => ctx_par (nil tb) (ctxr ++ FR cz (Nd cl ll b kvb lr) z kvz :: ctx)
                  | Nd _ _ _ _ _ => np
                  end) Black
                (plug ctx (Nd cz (Nd cl ll b kvb lr) z kvz (plug ctxr ry)))) as Hwf1'.
      { rewrite plug_app in Hwf1. exact Hwf1. }
      assert (y ∉ nil tb :: addrs (Nd cz (Nd cl ll b kvb lr) z kvz (plug ctxr ry)) ++ ctx_addrs ctx) as Hfr.
      { rewrite <-addrs_plug. rewrite plug_app in Hfresh. exact Hfresh. }
      destruct (replace_node _ _ _ _ _ _ _ _ _ _ _ _ _ _ y _ kvy Hwf1' Hfr Hy1 eq_refl)
        as (w2 & tb2 & Hrun2 & Hnil2 & Hdom2 & Hwf2).
      assert (wf w2 tb2 (match ry with
                  | Lf => ctx_par (nil tb) (ctxr ++ FR cz (Nd cl ll b kvb lr) y kvy :: ctx)
                  | Nd _ _ _ _ _ => match plug ctxr ry with Lf => y | Nd _ _ _ _ _ => np end
                  end) Black
                (plug (ctxr ++ FR cz (Nd cl ll b kvb lr) y kvy :: ctx) ry)) as Hwf2'.
      { rewrite plug_app. simpl. destruct ry; [|exact Hwf2].
        destruct ctxr as [|f ctxr']; [exact Hwf2|].
        destruct f as [c a kv t|c t a kv]; simpl in *.
        - destruct (plug_Nd ctxr' c Lf a kv t) as (? & ? & ? & ? & ? & E).
          rewrite E in Hwf2 at 1. exact Hwf2.
        - destruct (plug_Nd ctxr' c t a kv Lf) as (? & ? & ? & ? & ? & E).
          rewrite E in Hwf2 at 1. exact Hwf2. }
      assert (nodes (plug ctx (Nd cz (Nd cl ll b kvb lr) y kvy (plug ctxr ry))) =
              before_ctx ctx ++ nodes (Nd cl ll b kvb lr) ++ nodes (Nd cr rl d kvd rr) ++ after_ctx ctx)
        as Hnodes.
      { rewrite nodes_plug, Heq, (nodes_successor _ _ _ _ _ Hfl). cbn [nodes].
        by repeat (rewrite <-app_assoc; simpl). }
      wf_facts Hwf ctx.
      destruct cy.
      * (* a red successor: nothing to repair *)
        eexists w2, tb2, _, Black, _.
        split; [|split_and!; [done|exact (same_domain_trans _ _ _ Hdom1 Hdom2)|exact Hwf2|exact Hnodes]].
        repeat rstep. rewrite (bind_done _ _ _ _ _ Hall). cbv beta.
        repeat rstep. rewrite (bind_done _ _ _ _ _ Hrun1). cbv beta.
        rewrite bind_assoc, (bind_done _ _ _ _ _ (get_color_done _ _ _ Hy1)). cbn [color Color_eqb].
        rewrite bind_assoc, bind_ret.
        by rewrite Hrun2.
      * (* a black successor: its place is one black node short *)
        destruct (extractFixup_spec fuel w2 tb2 _ _ ry 0%nat Hwf2')
          as (w3 & tb3 & np3 & t3 & Hrun3 & Hnil3 & Hdom3 & Hwf3 & Hnodes3);
          [by intros ->; rewrite Hnil2|exact Hholey|exact Hfuel'|].
        assert (heap w2 !! nullptr = None) as Hnull2.
        { apply (same_domain_null w w2); [|exact Hnull]. exact (same_domain_trans _ _ _ Hdom1 Hdom2). }
        pose proof (focus_not_null _ _ _ _ _ _ Hwf2' Hnull2) as Hnn.
        rewrite Hnil2 in Hrun3, Hnn.
        exists w3, tb3, np3, Black, t3.
        split; [|split_and!; [congruence|exact (same_domain_trans _ _ _ Hdom1 (same_domain_trans _ _ _ Hdom2 Hdom3))|exact Hwf3|]].
        -- repeat rstep. rewrite (bind_done _ _ _ _ _ Hall). cbv beta.
           repeat rstep. rewrite (bind_done _ _ _ _ _ Hrun1). cbv beta.
           rewrite bind_assoc, (bind_done _ _ _ _ _ (get_color_done _ _ _ Hy1)). cbn [color Color_eqb].
           rewrite bind_assoc, (bind_done _ _ _ _ _ (get_right_done _ _ _ Hy1)). cbn [right].
           rewrite Hrun2.
           by rewrite (proj2 (N.eqb_neq _ _) Hnn).
        -- rewrite Hnodes3, plug_app. exact Hnodes.
Qed.

End ExtractNode.

Section Erase.
Context {K T : Type}.
Variable cmp : K -> K -> bool.
Variable key_eq : K -> K -> bool.
Local Abbreviation Node := (@Node K T).
Local Abbreviation World := (@World K T).
Local Abbreviation tree := (@tree K T).
Local Abbreviation frame := (@frame K T).

(** The allocator can count a deallocation. *)
Definition can_deallocate (w : World) (al : Allocator) : Prop :=
  m_deallocations al = nullptr \/ is_Some (cells w !! m_deallocations al).

Lemma destroyNode_spec (w : World) tr a n :
  heap w !! a = Some n ->
  can_deallocate w (m_allocator tr) ->
  exists cs, destroyNode tr a w = Done (tt, mkWorld (delete a (heap w)) (brk w) cs).
Proof.
  intros Ha Hal. unfold destroyNode, destruct_at.
  rewrite bind_assoc, (bind_done _ _ _ _ _ (load_done _ _ _ Ha)).
  unfold bind at 1. unfold deallocate, set_heap.
  destruct Hal as [->|[v Hv]].
  - simpl. by eexists.
  - destruct (m_deallocations (m_allocator tr) =? nullptr); [by eexists|].
    unfold bump. simpl. rewrite Hv. by eexists.
Qed.

(** Freeing a node that is not in the tree. *)
Lemma wf_delete (w : World) tb np nc t a br cs :
  wf w tb np nc t -> a ∉ addrs t -> a <> nil tb ->
  wf (mkWorld (delete a (heap w)) br cs) tb np nc t.
Proof.
  intros [Hn Hrt Hrep Hnd] Ha Hne. split; simpl; try done.
  - by rewrite lookup_delete_ne.
  - eapply rep_agree; [|exact Hrep]. intros x Hx.
    rewrite lookup_delete_ne; [done|]. by intros ->.
Qed.

Lemma removed_fresh (t t' : tree) pre a kv post :
  NoDup (addrs t) ->
  nodes t = pre ++ (a, kv) :: post ->
  nodes t' = pre ++ post ->
  (a ∉ addrs t') /\ NoDup (addrs t').
Proof.
  intros Hnd Ht Ht'. rewrite <-nodes_addrs in *. rewrite Ht in Hnd. rewrite Ht'.
  rewrite fmap_app, fmap_cons in Hnd. rewrite fmap_app. simpl in Hnd.
  apply NoDup_app in Hnd as (H1 & H2 & H3). apply NoDup_cons in H3 as [H3 H4].
  split.
  - apply not_elem_of_app. split; [|done]. intros Hin. apply (H2 _ Hin). by left.
  - apply NoDup_app. split_and!; try done. intros x Hx Hx'. apply (H2 _ Hx). by right.
Qed.

(** [erase] of a key the lookup does not find changes nothing. *)
Lemma erase_miss_spec (w : World) tr np nc t key fuel :
  wf w (m_data tr) np nc t ->
  hit cmp key_eq key t = None ->
  (height t < fuel)%nat ->
  erase cmp key_eq fuel tr key w = Done (tr, w).
Proof.
  intros Hwf Hhit Hfuel. unfold erase.
  destruct (find_spec cmp key_eq _ _ _ _ key _ _ Hwf Hfuel) as (it & Hrun & Hit).
  rewrite (bind_done _ _ _ _ _ Hrun). rewrite Hhit in Hit.
  unfold Iterator_eqb, end_. simpl. by rewrite Hit.
Qed.

(** [erase] of a key the lookup finds at the node in focus. *)
Lemma erase_hit_spec (w : World) tr np ctx c (l : tree) a kv (r : tree) key fuel N :
  wf w (m_data tr) np Black (plug ctx (Nd c l a kv r)) ->
  bh (plug ctx (Nd c l a kv r)) = Some N ->
  heap w !! nullptr = None ->
  can_deallocate w (m_allocator tr) ->
  hit cmp key_eq key (plug ctx (Nd c l a kv r)) = Some a ->
  (length (nodes (plug ctx (Nd c l a kv r))) < fuel)%nat ->
  exists w' tr' np' nc' t',
    erase cmp key_eq fuel tr key w = Done (tr', w') /\
    wf w' (m_data tr') np' nc' t' /\
    nodes t' = before_ctx ctx ++ nodes l ++ nodes r ++ after_ctx ctx /\
    m_size tr' = (m_size tr + size_t_max - 1) mod size_t_max /\
    m_allocator tr' = m_allocator tr /\
    nil (m_data tr') = nil (m_data tr) /\
    heap w' !! a = None /\
    dom (heap w') = dom (heap w) ∖ {[a]}.
Proof.
  intros Hwf Hbh Hnull Hal Hhit Hfuel. unfold erase.
  pose proof (height_le_nodes (plug ctx (Nd c l a kv r))) as Hh.
  destruct (find_spec cmp key_eq _ _ _ _ key fuel _ Hwf ltac:(lia)) as (it & Hrun & Hit).
  rewrite (bind_done _ _ _ _ _ Hrun). rewrite Hhit in Hit.
  pose proof (live_not_null _ _ _ Hnull (wf_focus _ _ _ _ _ _ _ _ _ _ Hwf)) as Hne.
  unfold Iterator_eqb, end_. simpl. rewrite Hit.
  rewrite (proj2 (N.eqb_neq _ _) Hne). simpl.
  unfold erase_at. rewrite Hit.
  destruct (extractNode_spec _ _ _ _ _ _ _ _ _ _ fuel Hwf Hbh Hnull Hfuel)
    as (w1 & tb1 & np1 & nc1 & t1 & Hrun1 & Hnil1 & Hdom1 & Hwf1 & Hnodes1).
  rewrite (bind_done _ _ _ _ _ Hrun1).
  assert (is_Some (heap w1 !! a)) as [n Hn].
  { apply elem_of_dom. destruct Hdom1 as (_ & _ & ->). apply elem_of_dom.
    eexists. apply (wf_focus _ _ _ _ _ _ _ _ _ _ Hwf). }
  destruct (destroyNode_spec w1 (set_data tr tb1) a n Hn) as (cs & Hrun2).
  { destruct Hdom1 as (_ & Hc & _). unfold can_deallocate in *. simpl. by rewrite Hc. }
  rewrite (bind_done _ _ _ _ _ Hrun2).
  destruct (removed_fresh (plug ctx (Nd c l a kv r)) t1 (before_ctx ctx ++ nodes l) a kv
              (nodes r ++ after_ctx ctx)) as [Hfresh _].
  { apply (wf_nodup _ _ _ _ _ Hwf). }
  { rewrite nodes_plug. simpl. by rewrite <-!app_assoc. }
  { by rewrite Hnodes1, <-!app_assoc. }
  eexists _, _, np1, nc1, t1. split; [reflexivity|]. simpl.
  split_and!; try done.
  - apply wf_delete; [done|done|]. rewrite Hnil1.
    apply (wf_focus_neq_nil _ _ _ _ _ _ _ _ _ _ Hwf).
  - apply lookup_delete_eq.
  - rewrite dom_delete_L. by destruct Hdom1 as (_ & _ & ->).
Qed.

End Erase.

Section Order.
Context {K T : Type}.
Variable cmp : K -> K -> bool.
Variable key_eq : K -> K -> bool.
Variable T_default : T.
Local Abbreviation Node := (@Node K T).
Local Abbreviation World := (@World K T).
Local Abbreviation tree := (@tree K T).
Local Abbreviation frame := (@frame K T).


Lemma read_ref_spec (w : World) nl par (t : tree) a kv :
  rep nl (heap w) par t -> (a, kv) ∈ nodes t -> read_ref a w = Done (snd kv, w).
Proof.
  intros Hrep Hin. destruct (rep_node_live _ _ _ _ _ _ Hrep Hin) as (n & Hn & Hv).
  unfold read_ref. by rewrite (bind_done _ _ _ _ _ (get_value_done _ _ _ _ Hn Hv)).
Qed.

Lemma index_hit_spec (w : World) tr np nc t key fuel a :
  wf w (m_data tr) np nc t ->
  hit cmp key_eq key t = Some a ->
  (height t < fuel)%nat ->
  index cmp key_eq T_default fuel tr key w = Done ((a, tr), w).
Proof.
  intros Hwf Hhit Hfuel. unfold index.
  rewrite (bind_done _ _ _ _ _ (findNode_spec cmp _ _ _ _ key fuel _ Hwf Hfuel)).
  unfold hit in Hhit. unfold stop_ptr.
  destruct (stop_node (descend cmp key [] t)) as [[b kvb]|] eqn:Hs; [|done].
  destruct (stop_node_live cmp _ _ _ _ _ _ _ _ Hwf Hs) as (Hne & n & Hn & Hv).
  apply N.eqb_neq in Hne. rewrite Hne. simpl.
  rewrite bind_assoc, (bind_done _ _ _ _ _ (get_value_done _ _ _ _ Hn Hv)).
  rewrite bind_ret.
  destruct (key_eq key kvb.1); [|done]. by injection Hhit as ->.
Qed.

(** When the lookup misses, [insert] never reports an existing entry. *)
Lemma insert_miss_flag (w : World) tr np nc t kv fuel it b tr' w' :
  wf w (m_data tr) np nc t ->
  hit cmp key_eq (fst kv) t = None ->
  (height t < fuel)%nat ->
  insert cmp key_eq fuel tr kv w = Done ((it, b, tr'), w') ->
  b = true.
Proof.
  intros Hwf Hhit Hfuel. unfold insert.
  rewrite (bind_done _ _ _ _ _ (findNode_spec cmp _ _ _ _ (fst kv) fuel _ Hwf Hfuel)).
  unfold hit in Hhit. unfold stop_ptr.
  assert ((if negb (match stop_node (descend cmp kv.1 [] t) with
                    | Some (a, _) => a | None => nil (m_data tr) end =? nil (m_data tr))
           then kv' <- get_value (match stop_node (descend cmp kv.1 [] t) with
                    | Some (a, _) => a | None => nil (m_data tr) end) ;;
                ret (key_eq (fst kv) (fst kv'))
           else ret false) w = Done (false, w)) as Hmiss.
  { destruct (stop_node (descend cmp kv.1 [] t)) as [[c kvc]|] eqn:Hs.
    - destruct (stop_node_live cmp _ _ _ _ _ _ _ _ Hwf Hs) as (Hne & n & Hn & Hv).
      apply N.eqb_neq in Hne. rewrite Hne. simpl.
      rewrite (bind_done _ _ _ _ _ (get_value_done _ _ _ _ Hn Hv)).
      by destruct (key_eq kv.1 kvc.1).
    - by rewrite N.eqb_refl. }
  rewrite (bind_done _ _ _ _ _ Hmiss).
  unfold bind.
  destruct (buildNode tr kv w) as [[newNode w1]| |]; [|done..].
  destruct (attach cmp fuel tr _ newNode kv.1 w1) as [[t2 w2]| |]; [|done..].
  unfold ret. by intros [= _ <- _ _].
Qed.

(** The node [buildNode] returns is the one [operator new] hands out. *)
Lemma buildNode_addr (tr : RBTree) kv (w : World) p w1 :
  buildNode tr kv w = Done (p, w1) -> p = brk w.
Proof.
  unfold buildNode, allocate, bind.
  assert (forall w0 : World, brk w0 = brk w ->
            match construct (brk w0) (mkNode nullptr nullptr nullptr Red (Some kv))
                    (mkWorld (heap w0) (brk w0 + 1) (cells w0)) with
            | Done (a, s') =>
                match set_right (brk w0) (nil (m_data tr)) s' with
                | Done (a0, s'0) =>
                    match set_left (brk w0) (nil (m_data tr)) s'0 with
                    | Done (a1, s'1) => ret (brk w0) s'1
                    | Fault => Fault
                    | Timeout => Timeout
                    end
                | Fault => Fault
                | Timeout => Timeout
                end
            | Fault => Fault
            | Timeout => Timeout
            end = Done (p, w1) -> p = brk w) as Hrest.
  { intros w0 Hb. unfold construct. 
    destruct (set_right _ _ _) as [[? ?]| |]; [|done..].
    destruct (set_left _ _ _) as [[? ?]| |]; [|done..].
    unfold ret. intros [= <- _]. done. }
  destruct (m_allocations (m_allocator tr) =? nullptr).
  - simpl. by apply (Hrest w).
  - unfold bump. destruct (cells w !! m_allocations (m_allocator tr)) as [v|]; [|done].
    by apply (Hrest (mkWorld (heap w) (brk w) _)).
Qed.

(** [attach] counts the new entry. *)
Lemma attach_size fuel (tr : RBTree) node newNode key (w : World) tr' w' :
  attach cmp fuel tr node newNode key w = Done (tr', w') ->
  m_size tr' = (m_size tr + 1) mod size_t_max.
Proof.
  unfold attach, link_node, bind.
  destruct (set_parent newNode node w) as [[? w1]| |]; [|done..].
  assert (forall t1 w2, m_size t1 = m_size tr ->
            match insertFixup fuel (m_data t1) newNode w2 with
            | Done (d, s') =>
                ret (set_size (set_data t1 d) ((m_size t1 + 1) mod size_t_max)) s'
            | Fault => Fault
            | Timeout => Timeout
            end = Done (tr', w') -> m_size tr' = (m_size tr + 1) mod size_t_max) as Hfix.
  { intros t1 w2 Hs. destruct (insertFixup _ _ _ _) as [[d w3]| |]; [|done..].
    unfold ret. intros [= <- _]. simpl. by rewrite Hs. }
  destruct (node =? nil (m_data tr)).
  - by apply Hfix.
  - destruct (get_value node w1) as [[kv w2]| |]; [|done..].
    destruct (cmp key kv.1).
    + destruct (set_left node newNode w2) as [[? w3]| |]; [|done..]. by apply Hfix.
    + destruct (set_right node newNode w2) as [[? w3]| |]; [|done..]. by apply Hfix.
Qed.

(** After a lookup that misses, [insert] and [operator[]] return the
    node they have built, and the tree counts one more. *)
Lemma insert_miss_new (w : World) tr np nc t kv fuel it b tr' w' :
  wf w (m_data tr) np nc t ->
  hit cmp key_eq (fst kv) t = None ->
  (height t < fuel)%nat ->
  insert cmp key_eq fuel tr kv w = Done ((it, b, tr'), w') ->
  b = true /\ it = mkIterator true (brk w) /\
  m_size tr' = (m_size tr + 1) mod size_t_max.
Proof.
  intros Hwf Hhit Hfuel. unfold insert.
  rewrite (bind_done _ _ _ _ _ (findNode_spec cmp _ _ _ _ (fst kv) fuel _ Hwf Hfuel)).
  unfold hit in Hhit. unfold stop_ptr.
  assert ((if negb (match stop_node (descend cmp kv.1 [] t) with
                    | Some (a, _) => a | None => nil (m_data tr) end =? nil (m_data tr))
           then kv' <- get_value (match stop_node (descend cmp kv.1 [] t) with
                    | Some (a, _) => a | None => nil (m_data tr) end) ;;
                ret (key_eq (fst kv) (fst kv'))
           else ret false) w = Done (false, w)) as Hmiss.
  { destruct (stop_node (descend cmp kv.1 [] t)) as [[c kvc]|] eqn:Hs.
    - destruct (stop_node_live cmp _ _ _ _ _ _ _ _ Hwf Hs) as (Hne & n & Hn & Hv).
      apply N.eqb_neq in Hne. rewrite Hne. simpl.
      rewrite (bind_done _ _ _ _ _ (get_value_done _ _ _ _ Hn Hv)).
      by destruct (key_eq kv.1 kvc.1).
    - by rewrite N.eqb_refl. }
  rewrite (bind_done _ _ _ _ _ Hmiss).
  unfold bind.
  destruct (buildNode tr kv w) as [[newNode w1]| |] eqn:Hb; [|done..].
  destruct (attach cmp fuel tr _ newNode kv.1 w1) as [[t2 w2]| |] eqn:Ha; [|done..].
  unfold ret. intros [= <- <- <- _].
  split; [done|]. split; [by rewrite (buildNode_addr _ _ _ _ _ Hb)|].
  by apply (attach_size _ _ _ _ _ _ _ _ Ha).
Qed.

Lemma index_miss_new (w : World) tr np nc t key fuel r tr' w' :
  wf w (m_data tr) np nc t ->
  hit cmp key_eq key t = None ->
  (height t < fuel)%nat ->
  index cmp key_eq T_default fuel tr key w = Done ((r, tr'), w') ->
  r = brk w /\ m_size tr' = (m_size tr + 1) mod size_t_max.
Proof.
  intros Hwf Hhit Hfuel Hrun.
  assert (index cmp key_eq T_default fuel tr key w =
          match insert cmp key_eq fuel tr (key, T_default) w with
          | Done ((it, _, tr'), w') => Done ((m_node it, tr'), w')
          | Fault => Fault
          | Timeout => Timeout
          end) as Heq.
  { unfold index, insert, bind. simpl.
    destruct (findNode cmp fuel (m_data tr) key w) as [[node w1]| |]; [|done..].
    destruct (negb (node =? nil (m_data tr))).
    - destruct (get_value node w1) as [[kv w2]| |]; [|done..]. simpl.
      destruct (key_eq key kv.1); [done|].
      destruct (buildNode tr (key, T_default) w2) as [[nn w3]| |]; [|done..].
      by destruct (attach cmp fuel tr node nn key w3) as [[tr2 w4]| |].
    - simpl.
      destruct (buildNode tr (key, T_default) w1) as [[nn w3]| |]; [|done..].
      by destruct (attach cmp fuel tr node nn key w3) as [[tr2 w4]| |]. }
  rewrite Heq in Hrun.
  destruct (insert cmp key_eq fuel tr (key, T_default) w) as [[[[it b] tr2] w2]| |] eqn:Hins;
    [|done..].
  injection Hrun as <- <- <-.
  destruct (insert_miss_new w tr np nc t (key, T_default) fuel it b tr2 w2 Hwf Hhit Hfuel Hins)
    as (_ & -> & Hs).
  done.
Qed.


(** The comparator contract under which the lookups decide membership:
    the comparator is irreflexive and transitive, and two keys are
    [==]-equal exactly when it orders neither before the other. *)
Hypothesis cmp_irrefl : forall a, cmp a a = false.
Hypothesis cmp_trans : forall a b c, cmp a b = true -> cmp b c = true -> cmp a c = true.
Hypothesis key_eq_equiv :
  forall a b, key_eq a b = true <-> cmp a b = false /\ cmp b a = false.

Lemma key_eq_lt a b : cmp a b = true -> key_eq a b = false.
Proof.
  intros H. destruct (key_eq a b) eqn:E; [|done].
  apply key_eq_equiv in E as [E _]. congruence.
Qed.

Lemma key_eq_gt a b : cmp b a = true -> key_eq a b = false.
Proof.
  intros H. destruct (key_eq a b) eqn:E; [|done].
  apply key_eq_equiv in E as [_ E]. congruence.
Qed.

Lemma descend_miss key ctx (t : tree) :
  bst cmp t -> (descend cmp key ctx t).2 = Lf ->
  Forall (fun x => key_eq key (fst x) = false) (inorder t).
Proof.
  revert ctx. induction t as [|c l IHl a kv r IHr]; intros ctx; simpl; [done|].
  intros (Hl & Hr & Hlt & Hgt).
  destruct (cmp key kv.1) eqn:E1; [|destruct (cmp kv.1 key) eqn:E2].
  - intros Hd. apply Forall_app. split; [by eapply IHl|].
    apply Forall_cons. split; [by apply key_eq_lt|].
    eapply Forall_impl; [exact Hgt|]. simpl. intros x Hx.
    apply key_eq_lt. by eapply cmp_trans.
  - intros Hd. apply Forall_app. split.
    + eapply Forall_impl; [exact Hlt|]. simpl. intros x Hx.
      apply key_eq_gt. by eapply cmp_trans.
    + apply Forall_cons. split; [by apply key_eq_gt|]. by eapply IHr.
  - done.
Qed.

Lemma descend_found key ctx (t : tree) c l a kv r :
  (descend cmp key ctx t).2 = Nd c l a kv r ->
  (a, kv) ∈ nodes t /\ key_eq key (fst kv) = true.
Proof.
  revert ctx. induction t as [|c' l' IHl a' kv' r' IHr]; intros ctx; simpl; [done|].
  destruct (cmp key kv'.1) eqn:E1; [|destruct (cmp kv'.1 key) eqn:E2].
  - intros Hd. destruct (IHl _ Hd) as [Hin Heq]. split; [|done].
    apply elem_of_app. by left.
  - intros Hd. destruct (IHr _ Hd) as [Hin Heq]. split; [|done].
    apply elem_of_app. right. by apply elem_of_cons; right.
  - simpl. intros [= -> -> -> -> ->]. split.
    + apply elem_of_app. right. by apply elem_of_cons; left.
    + by apply key_eq_equiv.
Qed.

Definition strays (key : K) (f : frame) : Prop :=
  key_eq key (fst (frame_kv f)) = false.

Lemma descend_frames key ctx (t : tree) :
  Forall (strays key) ctx -> Forall (strays key) (descend cmp key ctx t).1.
Proof.
  revert ctx. induction t as [|c l IHl a kv r IHr]; intros ctx Hctx; simpl; [done|].
  destruct (cmp key kv.1) eqn:E1; [|destruct (cmp kv.1 key) eqn:E2].
  - apply IHl. apply Forall_cons. split; [|done]. by apply key_eq_lt.
  - apply IHr. apply Forall_cons. split; [|done]. by apply key_eq_gt.
  - done.
Qed.

(** On a search tree the lookup hits exactly when the key is there. *)
Lemma hit_Some key (t : tree) a :
  hit cmp key_eq key t = Some a ->
  exists kv, (a, kv) ∈ nodes t /\ key_eq key (fst kv) = true.
Proof.
  unfold hit, stop_node.
  destruct (descend cmp key [] t) as [ctx' t'] eqn:Hd. simpl.
  destruct t' as [|c l b kvb r].
  - pose proof (descend_frames key [] t (Forall_nil_2 _)) as Hf.
    rewrite Hd in Hf. simpl in Hf.
    destruct ctx' as [|f ctx']; [done|].
    apply Forall_cons in Hf as [Hf _]. unfold strays in Hf. by rewrite Hf.
  - pose proof (descend_found key [] t c l b kvb r) as Hf.
    rewrite Hd in Hf. destruct (Hf eq_refl) as [Hin Heq].
    rewrite Heq. intros [= <-]. by exists kvb.
Qed.

Lemma hit_None key (t : tree) :
  bst cmp t -> hit cmp key_eq key t = None ->
  Forall (fun x => key_eq key (fst x) = false) (inorder t).
Proof.
  intros Hbst. unfold hit, stop_node.
  pose proof (descend_miss key [] t Hbst) as Hm.
  destruct (descend cmp key [] t) as [ctx' t'] eqn:Hd. simpl in *.
  destruct t' as [|c l b kvb r]; [by auto|].
  pose proof (descend_found key [] t c l b kvb r) as Hf.
  rewrite Hd in Hf. destruct (Hf eq_refl) as [Hin Heq].
  by rewrite Heq.
Qed.




Lemma key_eq_refl a : key_eq a a = true.
Proof. apply key_eq_equiv. by rewrite cmp_irrefl. Qed.

(** The nodes in order, each key before the next. *)
Definition before (x y : ptr * (K * T)) : Prop := cmp (fst (snd x)) (fst (snd y)) = true.

Lemma Forall_inorder (P : K * T -> Prop) (t : tree) :
  Forall P (inorder t) <-> Forall (fun x => P (snd x)) (nodes t).
Proof. by rewrite <-nodes_inorder, Forall_fmap. Qed.

Lemma bst_sorted (t : tree) : bst cmp t <-> StronglySorted before (nodes t).
Proof.
  induction t as [|c l IHl a kv r IHr]; simpl.
  - split; [constructor|done].
  - rewrite StronglySorted_app, StronglySorted_cons, IHl, IHr, !Forall_inorder.
    rewrite !Forall_forall. unfold before. split.
    + intros (Hl & Hr & Hlt & Hgt). split_and!; try done.
      intros x1 x2 H1 [->|H2]%elem_of_cons; [by apply Hlt|].
      eapply cmp_trans; [by apply Hlt|by apply Hgt].
    + intros (Hcross & Hl & Hgt & Hr). split_and!; try done.
      intros x Hx. apply (Hcross x (a, kv)); [done|]. by left.
Qed.

Lemma sorted_incomparable (l : list (ptr * (K * T))) x y :
  StronglySorted before l -> x ∈ l -> y ∈ l ->
  key_eq (fst (snd x)) (fst (snd y)) = true -> x = y.
Proof.
  intros Hs Hx Hy Heq. apply key_eq_equiv in Heq as [H1 H2].
  induction Hs as [|z l Hs IH Hz]; [by apply elem_of_nil in Hx|].
  rewrite Forall_forall in Hz. unfold before in Hz.
  apply elem_of_cons in Hx as [->|Hx]; apply elem_of_cons in Hy as [->|Hy]; try done.
  - specialize (Hz _ Hy). congruence.
  - specialize (Hz _ Hx). congruence.
  - by apply IH.
Qed.

Lemma ins_nodes a kv (t : tree) x :
  x ∈ nodes (ins cmp a kv t) -> x = (a, kv) \/ x ∈ nodes t.
Proof.
  induction t as [|c l IHl b kvb r IHr]; simpl.
  - intros [->|H]%elem_of_cons; [by left|by apply elem_of_nil in H].
  - destruct (cmp kv.1 kvb.1); [|destruct (cmp kvb.1 kv.1)]; simpl;
      rewrite !elem_of_app, !elem_of_cons; naive_solver.
Qed.

Lemma ins_new a kv (t : tree) :
  (descend cmp (fst kv) [] t).2 = Lf -> (a, kv) ∈ nodes (ins cmp a kv t).
Proof.
  generalize ([] : list frame).
  induction t as [|c l IHl b kvb r IHr]; intros ctx; simpl.
  - intros _. by left.
  - destruct (cmp kv.1 kvb.1); [|destruct (cmp kvb.1 kv.1)]; simpl;
      rewrite ?elem_of_app, ?elem_of_cons; [naive_solver..|done].
Qed.

Lemma bst_ins a kv (t : tree) : bst cmp t -> bst cmp (ins cmp a kv t).
Proof.
  induction t as [|c l IHl b kvb r IHr]; simpl; [done|].
  intros (Hl & Hr & Hlt & Hgt).
  destruct (cmp kv.1 kvb.1) eqn:E1; [|destruct (cmp kvb.1 kv.1) eqn:E2]; simpl.
  - split_and!; try done; [by apply IHl|].
    rewrite Forall_inorder, Forall_forall in *. intros x [->|Hx]%ins_nodes; [done|by apply Hlt].
  - split_and!; try done; [by apply IHr|].
    rewrite Forall_inorder, Forall_forall in *. intros x [->|Hx]%ins_nodes; [done|by apply Hgt].
  - done.
Qed.

Lemma bst_nodes (t t' : tree) : nodes t' = nodes t -> bst cmp t -> bst cmp t'.
Proof. rewrite !bst_sorted. by intros ->. Qed.

(** A lookup that misses ends at a leaf. *)
Lemma miss_at_leaf key (t : tree) :
  hit cmp key_eq key t = None -> (descend cmp key [] t).2 = Lf.
Proof.
  unfold hit, stop_node.
  destruct (descend cmp key [] t) as [ctx' t'] eqn:Hd. simpl.
  destruct t' as [|c l b kvb r]; [done|].
  pose proof (descend_found key [] t c l b kvb r) as Hf.
  rewrite Hd in Hf. destruct (Hf eq_refl) as [_ Heq]. by rewrite Heq.
Qed.

(** On a search tree, the lookup of the key of a node hits that node. *)
Lemma hit_present (t : tree) a kv :
  bst cmp t -> (a, kv) ∈ nodes t ->
  hit cmp key_eq (fst kv) t = Some a.
Proof.
  intros Hbst Hin.
  destruct (hit cmp key_eq (fst kv) t) as [a'|] eqn:Hhit.
  - destruct (hit_Some _ t a' Hhit) as (kv' & Hin' & Heq').
    assert ((a, kv) = (a', kv')) as [= -> ->]; [|done].
    eapply sorted_incomparable; [by apply bst_sorted|done..].
  - pose proof (hit_None _ t Hbst Hhit) as Hnone.
    rewrite Forall_inorder, Forall_forall in Hnone.
    specialize (Hnone _ Hin). simpl in Hnone. by rewrite key_eq_refl in Hnone.
Qed.
(** C5, as amended: on a tree that satisfies I1, under a comparator
    whose equivalence is [operator==], [at(k)] throws
    [std::out_of_range] exactly when no entry has a key equal to [k],
    and otherwise returns a reference to the value stored under a key
    equal to [k]; the world is left as it is in both cases. *)
Theorem C5_at_amended (w : World) tr np nc t key fuel :
  wf w (m_data tr) np nc t ->
  bst cmp t ->
  (height t < fuel)%nat ->
  exists r,
    at_ cmp key_eq fuel tr key w = Done (r, w) /\
    (r = inl out_of_range <->
       Forall (fun x => key_eq key (fst x) = false) (inorder t)) /\
    (forall a, r = inr a ->
       exists kv, kv ∈ inorder t /\ key_eq key (fst kv) = true /\
                  read_ref a w = Done (snd kv, w)).
Proof.
  intros Hwf Hbst Hfuel.
  eexists. split; [by apply (at_spec cmp key_eq w tr np nc key fuel t)|].
  destruct (hit cmp key_eq key t) as [a|] eqn:Hhit.
  - destruct (hit_Some key t a Hhit) as (kv & Hin & Heq).
    split.
    + split; [done|]. intros Hall. rewrite Forall_inorder, Forall_forall in Hall.
      specialize (Hall _ Hin). simpl in Hall. congruence.
    + intros ? [= <-]. exists kv. split_and!; [|done|].
      * rewrite <-nodes_inorder. apply list_elem_of_fmap. by exists (a, kv).
      * by eapply read_ref_spec; [apply (wf_rep _ _ _ _ _ Hwf)|].
  - split; [|done]. split; [|done]. intros _.
    by apply (hit_None).
Qed.

(** C6, as amended: on a tree that satisfies I1 and I4 (black
    sentinel, black root), under a comparator whose equivalence is
    [operator==], [insert(k, v)] of a key that is absent returns the
    flag [true]; afterwards [at(k)] is a reference to [v]; a second
    [insert(k, v2)] returns an iterator to that same entry with the
    flag [false] and leaves tree and world as they are. *)
Theorem C6_insert_amended (w : World) tr np t k v v2 fuel :
  wf w (m_data tr) np Black t ->
  bst cmp t ->
  root_black t ->
  fresh_ok w ->
  can_allocate w (m_allocator tr) ->
  Forall (fun x => key_eq k (fst x) = false) (inorder t) ->
  (length (inorder t) + 2 < fuel)%nat ->
  exists it tr' w',
    insert cmp key_eq fuel tr (k, v) w = Done ((it, true, tr'), w') /\
    size tr' = (size tr + 1) mod size_t_max /\
    at_ cmp key_eq fuel tr' k w' = Done (inr (m_node it), w') /\
    read_ref (m_node it) w' = Done (v, w') /\
    insert cmp key_eq fuel tr' (k, v2) w' = Done ((it, false, tr'), w').
Proof.
  intros Hwf Hbst Hrb Hfresh Hal Habs Hfuel.
  assert (length (nodes t) = length (inorder t)) as Hlen
    by by rewrite <-nodes_inorder, length_fmap.
  assert (hit cmp key_eq k t = None) as Hhit.
  { destruct (hit cmp key_eq k t) as [a|] eqn:Hhit; [|done].
    destruct (hit_Some k t a Hhit) as (kv & Hin & Heq).
    rewrite Forall_inorder, Forall_forall in Habs.
    specialize (Habs _ Hin). simpl in Habs. congruence. }
  pose proof (miss_at_leaf k t Hhit) as Hleaf.
  destruct (insert_miss_spec cmp key_eq w tr np t (k, v) fuel Hwf Hrb Hfresh Hal Hhit Hleaf
              ltac:(lia))
    as (w' & tr' & np' & t' & Hrun & Hwf' & Hrb' & Hnodes & Hfresh' & _ & _ & Hsize).
  assert (bst cmp t') as Hbst'.
  { eapply (bst_nodes); [exact Hnodes|]. by apply bst_ins. }
  assert ((brk w, (k, v)) ∈ nodes t') as Hin.
  { rewrite Hnodes. by apply ins_new. }
  pose proof (hit_present t' _ _ Hbst' Hin) as Hhit'.
  simpl in Hhit'.
  assert (height t' < fuel)%nat as Hfuel'.
  { pose proof (height_le_nodes t') as Hh. rewrite Hnodes in Hh.
    assert (length (nodes (ins cmp (brk w) (k, v) t)) <= length (nodes t) + 1)%nat; [|lia].
    clear. induction t as [|c l IHl b kvb r IHr]; simpl; [lia|].
    destruct (cmp k kvb.1); [|destruct (cmp kvb.1 k)]; simpl;
      rewrite !length_app; simpl; rewrite ?length_app; simpl; lia. }
  exists (mkIterator true (brk w)), tr', w'. split_and!.
  - exact Hrun.
  - exact Hsize.
  - rewrite (at_spec cmp key_eq w' tr' np' Black k fuel t' Hwf' Hfuel'). by rewrite Hhit'.
  - by eapply (read_ref_spec w' _ _ t' _ (k, v)); [apply (wf_rep _ _ _ _ _ Hwf')|].
  - by apply (insert_hit_spec cmp key_eq w' tr' np' Black t').
Qed.

(** C9: in a tree that satisfies the invariants, [successor] of a
    node that is not the sentinel is the leftmost node of its right
    subtree when there is one, and otherwise the nearest ancestor
    that has the node in its left subtree; it is the null pointer,
    which is the node of [end()], for the last node in order; and
    walking a tree that is not empty from [begin()] meets all
    entries, their keys strictly increasing, and arrives at [end()]. *)
Theorem C9_successor (w : World) tr np nc ctx c l a kv r fuel :
  wf w (m_data tr) np nc (plug ctx (Nd c l a kv r)) ->
  bst cmp (plug ctx (Nd c l a kv r)) ->
  heap w !! nullptr = None ->
  (length (inorder (plug ctx (Nd c l a kv r))) + 1 < fuel)%nat ->
  successor fuel (m_data tr) a w =
    Done (match r with
          | Lf => left_ancestor ctx
          | Nd _ rl b _ _ => leftmost b rl
          end, w) /\
  (r = Lf -> after_ctx ctx = [] ->
   successor fuel (m_data tr) a w = Done (m_node (end_ tr), w)) /\
  entries fuel tr w = Done (inorder (plug ctx (Nd c l a kv r)), w) /\
  StronglySorted (fun x y => cmp (fst x) (fst y) = true)
                 (inorder (plug ctx (Nd c l a kv r))).
Proof.
  intros Hwf Hbst Hnull Hfuel.
  assert (length (nodes (plug ctx (Nd c l a kv r))) =
          length (inorder (plug ctx (Nd c l a kv r)))) as Hlen
    by by rewrite <-nodes_inorder, length_fmap.
  pose proof (height_plug ctx (Nd c l a kv r)) as Hh.
  pose proof (height_le_nodes (plug ctx (Nd c l a kv r))) as Hn.
  cbn [height] in Hh.
  assert (successor fuel (m_data tr) a w =
          Done (match r with
                | Lf => left_ancestor ctx
                | Nd _ rl b _ _ => leftmost b rl
                end, w)) as Hsucc
    by (apply (successor_focus w _ np nc fuel ctx c l a kv r Hwf); lia).
  split_and!.
  - exact Hsucc.
  - intros -> Hlast. rewrite Hsucc, left_ancestor_hd, Hlast. done.
  - apply (entries_spec w tr np nc fuel _ Hwf Hnull); [|lia].
    destruct (plug_Nd ctx c l a kv r) as (c0 & l0 & a0 & kv0 & r0 & ->). done.
  - apply (bst_sorted) in Hbst.
    rewrite <-nodes_inorder.
    eapply StronglySorted_fmap; [|exact Hbst]. by intros [? ?] [? ?].
Qed.

(** A strict weak order: what is incomparable to one of two ordered
    keys is ordered with the other. *)
Hypothesis cmp_weak :
  forall a b c, cmp a b = true -> cmp a c = true \/ cmp c b = true.

Lemma key_eq_common k x y :
  key_eq k x = true -> key_eq k y = true -> key_eq x y = true.
Proof.
  intros [H1 H2]%key_eq_equiv [H3 H4]%key_eq_equiv. apply key_eq_equiv. split.
  - destruct (cmp x y) eqn:E; [|done]. destruct (cmp_weak _ _ k E); congruence.
  - destruct (cmp y x) eqn:E; [|done]. destruct (cmp_weak _ _ k E); congruence.
Qed.

Lemma hit_absent key (t : tree) :
  Forall (fun x => key_eq key (fst x) = false) (inorder t) ->
  hit cmp key_eq key t = None.
Proof.
  intros Hall. destruct (hit cmp key_eq key t) as [a|] eqn:Hhit; [|done].
  destruct (hit_Some key t a Hhit) as (kv & Hin & Heq).
  rewrite Forall_inorder, Forall_forall in Hall.
  specialize (Hall _ Hin). simpl in Hall. congruence.
Qed.

Lemma sorted_remove (pre post : list (ptr * (K * T))) x :
  StronglySorted before (pre ++ x :: post) -> StronglySorted before (pre ++ post).
Proof.
  rewrite !StronglySorted_app, StronglySorted_cons.
  intros (Hcross & Hpre & Hx & Hpost). split_and!; try done.
  intros a b Ha Hb. apply Hcross; [done|]. by right.
Qed.

(** C7, as amended: on a tree that satisfies I1 and I3 and has a black
    sentinel, under a strict weak order whose equivalence is
    [operator==], [erase(k)] returns and [find(k)] is [end()]
    afterwards; when no entry has a key equal to [k] the tree and the
    world are left as they are; when an entry has, that entry is gone,
    the other entries are there in the same order, none of them has a
    key equal to [k], and the size is one less. *)
Theorem C7_erase_amended (w : World) tr np t key fuel n :
  wf w (m_data tr) np Black t ->
  bst cmp t ->
  bh t = Some n ->
  heap w !! nullptr = None ->
  can_deallocate w (m_allocator tr) ->
  (length (inorder t) < fuel)%nat ->
  exists tr' w' it,
    erase cmp key_eq fuel tr key w = Done (tr', w') /\
    find cmp key_eq fuel tr' key w' = Done (it, w') /\
    Iterator_eqb it (end_ tr') = true /\
    (Forall (fun x => key_eq key (fst x) = false) (inorder t) -> tr' = tr /\ w' = w) /\
    (forall kv, kv ∈ inorder t -> key_eq key (fst kv) = true ->
       exists np' nc' t' pre post,
         wf w' (m_data tr') np' nc' t' /\
         bst cmp t' /\
         inorder t = pre ++ kv :: post /\
         inorder t' = pre ++ post /\
         Forall (fun x => key_eq key (fst x) = false) (inorder t') /\
         size tr' = (size tr + size_t_max - 1) mod size_t_max).
Proof.
  intros Hwf Hbst Hbh Hnull Hal Hfuel.
  assert (length (nodes t) = length (inorder t)) as Hlen
    by by rewrite <-nodes_inorder, length_fmap.
  pose proof (height_le_nodes t) as Hh.
  destruct (hit cmp key_eq key t) as [a|] eqn:Hhit.
  - (* the lookup finds a node *)
    destruct (hit_Some key t a Hhit) as (kv & Hin & Heq).
    pose proof Hin as Hsplit. apply list_elem_of_split in Hsplit as (pre & post & Hsplit).
    destruct (focus_split t pre a kv post (wf_nodup _ _ _ _ _ Hwf) Hsplit)
      as (ctx & c & l & r & -> & -> & ->).
    destruct (erase_hit_spec cmp key_eq w tr np ctx c l a kv r key fuel n Hwf Hbh Hnull Hal Hhit)
      as (w' & tr' & np' & nc' & t' & Hrun & Hwf' & Hnodes & Hsize & _ & _ & _ & _); [lia|].
    rewrite app_assoc in Hnodes.
    assert (StronglySorted before (nodes t')) as Hsorted'.
    { rewrite Hnodes. apply (sorted_remove _ _ (a, kv)). rewrite <-Hsplit. by apply bst_sorted. }
    destruct (removed_fresh _ t' _ a kv _ (wf_nodup _ _ _ _ _ Hwf) Hsplit Hnodes) as [Hfresh _].
    assert (Forall (fun x => key_eq key (fst x) = false) (inorder t')) as Hgone.
    { rewrite Forall_inorder, Forall_forall. intros [b kvb] Hb. simpl.
      destruct (key_eq key kvb.1) eqn:E; [|done]. exfalso.
      assert ((b, kvb) = (a, kv)) as [= -> ->].
      { apply (sorted_incomparable (nodes (plug ctx (Nd c l a kv r)))); [by apply bst_sorted| |done|].
        - rewrite Hsplit. rewrite Hnodes in Hb.
          apply elem_of_app in Hb as [Hb|Hb]; apply elem_of_app; [by left|right; by right].
        - simpl. by apply (key_eq_common key). }
      apply Hfresh. rewrite <-nodes_addrs. apply list_elem_of_fmap. by exists (a, kv). }
    destruct (find_spec cmp key_eq w' tr' np' nc' key fuel t' Hwf') as (it & Hfind & Hit).
    { pose proof (height_le_nodes t'). rewrite Hnodes in *. rewrite Hsplit in Hlen.
      rewrite !length_app in *. simpl in *. rewrite ?length_app in *. lia. }
    rewrite (hit_absent _ _ Hgone) in Hit.
    exists tr', w', it. split_and!; try done.
    + unfold Iterator_eqb, end_. simpl. by rewrite Hit.
    + intros Hall. rewrite Forall_inorder, Forall_forall in Hall.
      specialize (Hall _ Hin). simpl in Hall. congruence.
    + intros kv' Hin' Heq'.
      assert (kv' = kv) as ->.
      { rewrite <-nodes_inorder in Hin'. apply list_elem_of_fmap in Hin' as ([b kvb] & -> & Hb).
        simpl in *.
        assert ((b, kvb) = (a, kv)) as [= -> ->]; [|done].
        apply (sorted_incomparable (nodes (plug ctx (Nd c l a kv r)))); [by apply bst_sorted|done|done|].
        simpl. by apply (key_eq_common key). }
      exists np', nc', t', ((before_ctx ctx ++ nodes l).*2), ((nodes r ++ after_ctx ctx).*2).
      split_and!; try done.
      * by apply bst_sorted.
      * by rewrite <-nodes_inorder, Hsplit, fmap_app, fmap_cons.
      * by rewrite <-nodes_inorder, Hnodes, fmap_app.
  - (* the lookup finds none *)
    rewrite (erase_miss_spec cmp key_eq w tr np Black t key fuel Hwf Hhit) by lia.
    destruct (find_spec cmp key_eq w tr np Black key fuel t Hwf) as (it & Hfind & Hit); [lia|].
    rewrite Hhit in Hit.
    exists tr, w, it. split_and!; try done.
    + unfold Iterator_eqb, end_. simpl. by rewrite Hit.
    + intros kv Hin Heq. pose proof (hit_None _ _ Hbst Hhit) as Hall.
      rewrite Forall_forall in Hall. specialize (Hall _ Hin). simpl in Hall. congruence.
Qed.

End Order.

(** ** The container at [int] keys and [std::string] values *)

(** [std::less<int>], and a comparator that orders [int]s by their half:
    a strict weak order under which [2 n] and [2 n + 1] are equivalent
    without being equal. *)
Definition int_less : Z -> Z -> bool := Z.ltb.
Definition half_less (a b : Z) : bool := (a / 2 <? b / 2)%Z.

(** Reading the tree that hangs below [p] off the heap. *)
Fixpoint read_tree {K T} (fuel : nat) (h : gmap N (@Node K T)) (nl p : ptr)
  : option (@tree K T) :=
  match fuel with
  | O => None
  | S fuel =>
      if p =? nl then Some Lf
      else match h !! p with
           | Some n =>
               match value n, read_tree fuel h nl (left n), read_tree fuel h nl (right n) with
               | Some kv, Some l, Some r => Some (Nd (color n) l p kv r)
               | _, _, _ => None
               end
           | None => None
           end
  end.

Inductive op : Type := Insert (k : Z) (v : string) | Erase (k : Z).

Fixpoint run (cmp : Z -> Z -> bool) (fuel : nat) (t : RBTree) (ops : list op)
  : M (@World Z string) RBTree :=
  match ops with
  | [] => ret t
  | Insert k v :: ops =>
      '(_, _, t) <- insert cmp Z.eqb fuel t (k, v) ;; run cmp fuel t ops
  | Erase k :: ops =>
      t <- erase cmp Z.eqb fuel t k ;; run cmp fuel t ops
  end.

(** A tree built on the default allocator, and the operations applied to it. *)
Definition build (cmp : Z -> Z -> bool) (fuel : nat) (ops : list op)
  : M (@World Z string) RBTree :=
  t <- RBTree_new std_allocator ;; run cmp fuel t ops.

(** The allocator scenario of the test suite: a counting allocator whose
    two counters live in the cells 1 and 2. *)
Definition counting : Allocator := mkAllocator 1 2.
Definition counting_world : @World Z string := mkWorld ∅ 1 {[1 := 0; 2 := 0]}.

(** [tree[k] = v] *)
Definition put (fuel : nat) (t : RBTree) (k : Z) (v : string)
  : M (@World Z string) RBTree :=
  assign_index int_less Z.eqb ""%string fuel t k v.

Definition counters : M (@World Z string) (option N * option N) :=
  fun w => Done ((cells w !! 1, cells w !! 2), w).

Definition four_elements (fuel : nat) : M (@World Z string) RBTree :=
  tree <- RBTree_new counting ;;
  tree <- put fuel tree 1%Z "hello1" ;;
  tree <- put fuel tree 2%Z "hello2" ;;
  tree <- put fuel tree 3%Z "hello3" ;;
  tree <- put fuel tree 4%Z "hello4" ;;
  put fuel tree 1%Z "replaced".

(** The counters after the four insertions, after the copy, after the
    move, and after the three trees are destroyed. *)
Definition allocator_scenario (fuel : nat)
  : M (@World Z string)
      ((option N * option N) * (option N * option N) *
       (option N * option N) * (option N * option N)) :=
  tree <- four_elements fuel ;;
  c1 <- counters ;;
  treeB <- RBTree_copy int_less Z.eqb fuel tree ;;
  c2 <- counters ;;
  let '(treeC, tree) := RBTree_move tree in
  c3 <- counters ;;
  _ <- RBTree_destroy fuel treeC ;;
  _ <- RBTree_destroy fuel treeB ;;
  _ <- RBTree_destroy fuel tree ;;
  c4 <- counters ;;
  ret (c1, c2, c3, c4).

(** A small tree and the world it lives in: the sentinel at 1, the keys
    2, 1 and 3 at 2, 3 and 4. *)
Definition demo_tree : @tree Z string :=
  Nd Black (Nd Red Lf 3 (1%Z, "a"%string) Lf) 2 (2%Z, "b"%string)
     (Nd Red Lf 4 (3%Z, "c"%string) Lf).
Definition demo_world : @World Z string :=
  mkWorld (list_to_map
             [(1, mkNode 3 1 1 Black None);
              (2, mkNode 1 3 4 Black (Some (2%Z, "b"%string)));
              (3, mkNode 2 1 1 Red (Some (1%Z, "a"%string)));
              (4, mkNode 2 1 1 Red (Some (3%Z, "c"%string)))])
          5 ∅.
Definition demo : RBTree := mkRBTree (mkTreeBase 1 2) std_allocator 3.

(** ** The claims at concrete inputs *)

(** C1 fails on the code: after [insert] of 0, 1, 2, 3 and [erase(2)] the
    node of 2, black with one red child, is replaced by that child, which
    receives its colour and is then handed to [extractFixup] as if a black
    node were missing: the left path of the result counts one black node
    and the right path two (I3).  And after [insert] of 0, 1 and
    [erase(1)], a red leaf, the sentinel has been painted red. *)
Theorem C1_erase_breaks_invariants :
  (exists t w,
     build int_less 20 [Insert 0 "a"; Insert 1 "b"; Insert 2 "c"; Insert 3 "d"; Erase 2]%Z
           empty_world = Done (t, w) /\
     read_tree 20 (heap w) (nil (m_data t)) (root (m_data t)) =
       Some (Nd Black (Nd Red Lf 2 (0%Z, "a"%string) Lf) 3 (1%Z, "b"%string)
                (Nd Black Lf 5 (3%Z, "d"%string) Lf)) /\
     bh (Nd Black (Nd Red Lf 2 (0%Z, "a"%string) Lf) 3 (1%Z, "b"%string)
                     (Nd Black Lf 5 (3%Z, "d"%string) Lf)) = None) /\
  (exists t w n,
     build int_less 20 [Insert 0 "a"; Insert 1 "b"; Erase 1]%Z empty_world = Done (t, w) /\
     heap w !! nil (m_data t) = Some n /\ color n = Red).
Proof.
  split.
  - eexists _, _. split; [vm_compute; reflexivity|]. split; vm_compute; reflexivity.
  - eexists _, _, _. split; [vm_compute; reflexivity|]. split; vm_compute; reflexivity.
Qed.

Lemma distance_from_sentinel (fuel fuel' : nat) (w : @World Z string) tb np nc :
  heap w !! nil tb = Some (mkNode np (nil tb) (nil tb) nc None) ->
  root tb = nil tb ->
  nil tb <> nullptr ->
  distance fuel fuel' tb (mkIterator true (nil tb)) (mkIterator true nullptr) w = Timeout.
Proof.
  intros Hn Hroot Hne. induction fuel as [|fuel IH]; [done|].
  cbn [distance]. unfold Iterator_eqb, Iterator_next, successor. simpl.
  apply N.eqb_neq in Hne. rewrite Hne, N.eqb_refl, Hroot.
  destruct fuel' as [|fuel'']; [done|].
  cbn [allLeft]. repeat step. unfold bind. by rewrite IH.
Qed.

(** C2 fails on the code: on the freshly constructed tree [size()] is 0,
    but [begin()] is an iterator to the sentinel and [end()] holds the
    null pointer, so the two differ, and stepping from [begin()] comes
    back to the sentinel: the walk to [end()] never arrives, whatever
    the fuel. *)
Theorem C2_empty_tree_begin_differs_from_end :
  exists t w,
    RBTree_new std_allocator (@empty_world Z string) = Done (t, w) /\
    size t = 0 /\
    begin_ 1 t w = Done (mkIterator true (nil (m_data t)), w) /\
    Iterator_eqb (mkIterator true (nil (m_data t))) (end_ t) = false /\
    forall fuel fuel',
      distance fuel fuel' (m_data t) (mkIterator true (nil (m_data t))) (end_ t) w = Timeout.
Proof.
  eexists _, _. split; [vm_compute; reflexivity|].
  split_and!; try (vm_compute; reflexivity).
  intros fuel fuel'. by eapply distance_from_sentinel.
Qed.

(** C3 fails on the code: the tree moved from has a null sentinel, and
    [insert] into it dereferences the null pointer. *)
Lemma C3_moved_from_is_null :
  exists t w,
    build int_less 20 [Insert 1 "a"]%Z empty_world = Done (t, w) /\
    nil (m_data (snd (RBTree_move t))) = nullptr /\
    insert int_less Z.eqb 20 (snd (RBTree_move t)) (5%Z, "x"%string) w = Fault.
Proof. eexists _, _. split; [vm_compute; reflexivity|]. split; vm_compute; reflexivity. Qed.

(** C3, as amended: after move construction the new tree holds the
    sentinel, the root, the size and the allocator of the source; the
    source is left with a null sentinel and a null root (no sentinel is
    allocated for it), is [empty()] with [size() == 0], and its
    destructor releases nothing. *)
Theorem C3_move_amended {K T : Type} (other : RBTree) :
  m_data (fst (RBTree_move other)) = m_data other /\
  m_size (fst (RBTree_move other)) = m_size other /\
  m_allocator (fst (RBTree_move other)) = m_allocator other /\
  nil (m_data (snd (RBTree_move other))) = nullptr /\
  root (m_data (snd (RBTree_move other))) = nullptr /\
  empty (snd (RBTree_move other)) = true /\
  size (snd (RBTree_move other)) = 0 /\
  forall fuel (w : @World K T),
    RBTree_destroy fuel (snd (RBTree_move other)) w = Done (tt, w).
Proof. by split_and!. Qed.

(** C4 fails on the code: after the construction and the four
    insertions the allocator has counted five allocations, the sentinel
    being allocated through it as well. *)
Lemma C4_five_allocations :
  exists w,
    (t <- four_elements 20 ;; c <- counters ;; ret (size t, c)) counting_world =
      Done ((4, (Some 5, Some 0)), w) /\
    Some 5 <> Some 4.
Proof. eexists. split; [vm_compute; reflexivity|done]. Qed.

(** The allocator scenario as the test suite runs it, with its own
    keys and values and the move from the original tree: the counters
    stand at 5, 10, 10 and, with the deallocations, at 10 and 10; no
    object is left in the heap. *)
Lemma allocator_scenario_run :
  exists w,
    allocator_scenario 20 counting_world =
      Done (((Some 5, Some 0), (Some 10, Some 0), (Some 10, Some 0), (Some 10, Some 10)), w) /\
    heap w = ∅.
Proof. eexists. split; vm_compute; reflexivity. Qed.

(** C8 fails on the code: comparing two freshly constructed trees with
    equal allocators, [std::equal] starts at [begin()], the sentinel,
    which is not [end()], and reads a payload the sentinel does not have.
    Trees that are not empty compare as claimed: built in opposite
    orders, the two trees below have different shapes and are equal. *)
Theorem C8_equality_of_empty_trees_faults :
  (exists t1 t2 w,
     (t1 <- build int_less 20 [] ;; t2 <- build int_less 20 [] ;; ret (t1, t2)) empty_world =
       Done ((t1, t2), w) /\
     Allocator_eqb (m_allocator t1) (m_allocator t2) = true /\
     size t1 = size t2 /\
     RBTree_eq Z.eqb String.eqb 20 t1 t2 w = Fault) /\
  (exists t1 t2 w s1 s2,
     (t1 <- build int_less 20 [Insert 1 "a"; Insert 2 "b"; Insert 3 "c"; Insert 4 "d"]%Z ;;
      t2 <- build int_less 20 [Insert 4 "d"; Insert 3 "c"; Insert 2 "b"; Insert 1 "a"]%Z ;;
      ret (t1, t2)) empty_world = Done ((t1, t2), w) /\
     read_tree 20 (heap w) (nil (m_data t1)) (root (m_data t1)) = Some s1 /\
     read_tree 20 (heap w) (nil (m_data t2)) (root (m_data t2)) = Some s2 /\
     height s1 = height s2 /\ color_of Black s1 = color_of Black s2 /\
     inorder s1 = inorder s2 /\
     (match s1, s2 with Nd _ _ _ kv1 _, Nd _ _ _ kv2 _ => fst kv1 <> fst kv2 | _, _ => False end) /\
     RBTree_eq Z.eqb String.eqb 20 t1 t2 w = Done (true, w)).
Proof.
  split.
  - eexists _, _, _. split; [vm_compute; reflexivity|]. split_and!; vm_compute; reflexivity.
  - eexists _, _, _, _, _. split; [vm_compute; reflexivity|].
    split_and!; try (vm_compute; reflexivity). vm_compute. discriminate.
Qed.

(** C5 fails on the code for a comparator that is coarser than [==]:
    ordered by their halves, 0 and 1 are equivalent; after [insert] of
    both, the entry with key 1 is in the tree, and [at(1)], whose descent
    stops at the node of 0, throws. *)
Lemma C5_at_misses_present_key :
  exists t w,
    build half_less 20 [Insert 0 "a"; Insert 1 "b"]%Z empty_world = Done (t, w) /\
    entries 20 t w = Done ([(0%Z, "a"%string); (1%Z, "b"%string)], w) /\
    at_ half_less Z.eqb 20 t 1%Z w = Done (inl out_of_range, w).
Proof. eexists _, _. split; [vm_compute; reflexivity|]. split; vm_compute; reflexivity. Qed.

(** C6 fails on the code for the same comparator: 1 is absent from the
    tree that holds 0; [insert(1, "b")] returns the flag [true], but
    [at(1)] then throws, and a second [insert(1, "c")] returns [true]
    again and the tree counts three. *)
Lemma C6_insert_comparator_equivalent :
  exists t w t1 w1 it1 t2 w2 it2,
    build half_less 20 [Insert 0 "a"]%Z empty_world = Done (t, w) /\
    entries 20 t w = Done ([(0%Z, "a"%string)], w) /\
    insert half_less Z.eqb 20 t (1%Z, "b"%string) w = Done ((it1, true, t1), w1) /\
    at_ half_less Z.eqb 20 t1 1%Z w1 = Done (inl out_of_range, w1) /\
    insert half_less Z.eqb 20 t1 (1%Z, "c"%string) w1 = Done ((it2, true, t2), w2) /\
    size t1 = 2 /\ size t2 = 3.
Proof.
  eexists _, _, _, _, _, _, _, _. split; [vm_compute; reflexivity|].
  split; [vm_compute; reflexivity|]. split; [vm_compute; reflexivity|].
  split; [vm_compute; reflexivity|]. split; [vm_compute; reflexivity|].
  split; vm_compute; reflexivity.
Qed.

(** C7 fails on the code for the same comparator: the entry with key 1
    is in the tree; the lookup of [erase(1)] stops at the node of 0,
    which is not [==] to 1, and nothing is erased.  And the
    preconditions of the amended claim are not idle: with [std::less]
    and the sentinel painted red by an earlier [erase], [erase(2)] on
    the tree of 0, 1, 2 and 3 also cuts the entries of 1 and 3 off the
    tree, [size()] going from 4 to 3. *)
Lemma C7_erase_keeps_present_key :
  (exists t w t',
     build half_less 20 [Insert 0 "a"; Insert 1 "b"]%Z empty_world = Done (t, w) /\
     entries 20 t w = Done ([(0%Z, "a"%string); (1%Z, "b"%string)], w) /\
     erase half_less Z.eqb 20 t 1%Z w = Done (t', w) /\
     entries 20 t' w = Done ([(0%Z, "a"%string); (1%Z, "b"%string)], w) /\
     size t' = 2) /\
  (exists t w n t' w',
     build int_less 20 [Insert 0 "a"; Insert 1 "b"; Insert 2 "c"; Erase 0; Insert 3 "d";
                        Insert 0 "e"; Erase 0; Insert 0 "f"]%Z empty_world = Done (t, w) /\
     entries 20 t w =
       Done ([(0%Z, "f"%string); (1%Z, "b"%string); (2%Z, "c"%string); (3%Z, "d"%string)], w) /\
     size t = 4 /\
     heap w !! nil (m_data t) = Some n /\ color n = Red /\
     erase int_less Z.eqb 20 t 2%Z w = Done (t', w') /\
     entries 20 t' w' = Done ([(0%Z, "f"%string)], w') /\
     size t' = 3).
Proof.
  split.
  - eexists _, _, _. do 4 (split; [vm_compute; reflexivity|]). vm_compute; reflexivity.
  - eexists _, _, _, _, _. do 7 (split; [vm_compute; reflexivity|]). vm_compute; reflexivity.
Qed.

Lemma int_less_irrefl a : int_less a a = false.
Proof. apply Z.ltb_irrefl. Qed.

Lemma int_less_trans a b c : int_less a b = true -> int_less b c = true -> int_less a c = true.
Proof. unfold int_less. rewrite !Z.ltb_lt. lia. Qed.

Lemma int_eq_equiv a b :
  Z.eqb a b = true <-> int_less a b = false /\ int_less b a = false.
Proof. unfold int_less. rewrite Z.eqb_eq, !Z.ltb_ge. lia. Qed.

Lemma int_less_weak a b c : int_less a b = true -> int_less a c = true \/ int_less c b = true.
Proof. unfold int_less. rewrite !Z.ltb_lt. lia. Qed.

Lemma demo_wf : wf demo_world (m_data demo) 3 Black demo_tree.
Proof.
  split.
  - vm_compute. reflexivity.
  - reflexivity.
  - simpl. split_and!; try done; vm_compute; reflexivity.
  - simpl. apply NoDup_cons. split; [set_solver|].
    apply NoDup_cons. split; [set_solver|]. apply NoDup_singleton.
Defined.

Lemma demo_bst : bst int_less demo_tree.
Proof. simpl. split_and!; try done; by repeat constructor. Defined.

Lemma C5_at_amended_witness :
  exists r,
    at_ int_less Z.eqb 10 demo 3%Z demo_world = Done (r, demo_world) /\
    (r = inl out_of_range <->
       Forall (fun x => Z.eqb 3 (fst x) = false) (inorder demo_tree)) /\
    (forall a, r = inr a ->
       exists kv, kv ∈ inorder demo_tree /\ Z.eqb 3 (fst kv) = true /\
                  read_ref a demo_world = Done (snd kv, demo_world)).
Proof.
  apply (C5_at_amended int_less Z.eqb int_less_trans int_eq_equiv demo_world demo 3 Black
           demo_tree 3%Z 10 demo_wf demo_bst).
  simpl. lia.
Defined.

Lemma demo_fresh : fresh_ok demo_world.
Proof.
  intros a. unfold demo_world. cbn [heap brk]. rewrite dom_list_to_map_L.
  set_unfold. intros (x & -> & H). destruct_or?; subst; done.
Defined.

Lemma demo_can_allocate : can_allocate demo_world (m_allocator demo).
Proof. by left. Defined.

Lemma C6_insert_amended_witness :
  exists it tr' w',
    insert int_less Z.eqb 10 demo (5%Z, "e"%string) demo_world = Done ((it, true, tr'), w') /\
    size tr' = (size demo + 1) mod size_t_max /\
    at_ int_less Z.eqb 10 tr' 5%Z w' = Done (inr (m_node it), w') /\
    read_ref (m_node it) w' = Done ("e"%string, w') /\
    insert int_less Z.eqb 10 tr' (5%Z, "f"%string) w' = Done ((it, false, tr'), w').
Proof.
  apply (C6_insert_amended int_less Z.eqb int_less_irrefl int_less_trans int_eq_equiv
           demo_world demo 3 demo_tree 5%Z "e"%string "f"%string 10
           demo_wf demo_bst eq_refl demo_fresh demo_can_allocate).
  - by repeat constructor.
  - simpl. lia.
Defined.

Lemma demo_can_deallocate : can_deallocate demo_world (m_allocator demo).
Proof. by left. Defined.

Lemma C7_erase_amended_witness :
  exists tr' w' it,
    erase int_less Z.eqb 10 demo 2%Z demo_world = Done (tr', w') /\
    find int_less Z.eqb 10 tr' 2%Z w' = Done (it, w') /\
    Iterator_eqb it (end_ tr') = true /\
    (Forall (fun x => Z.eqb 2 (fst x) = false) (inorder demo_tree) ->
     tr' = demo /\ w' = demo_world) /\
    (forall kv, kv ∈ inorder demo_tree -> Z.eqb 2 (fst kv) = true ->
       exists np' nc' t' pre post,
         wf w' (m_data tr') np' nc' t' /\
         bst int_less t' /\
         inorder demo_tree = pre ++ kv :: post /\
         inorder t' = pre ++ post /\
         Forall (fun x => Z.eqb 2 (fst x) = false) (inorder t') /\
         size tr' = (size demo + size_t_max - 1) mod size_t_max).
Proof.
  apply (C7_erase_amended int_less Z.eqb int_less_trans int_eq_equiv int_less_weak
           demo_world demo 3 demo_tree 2%Z 10 1 demo_wf demo_bst eq_refl).
  - vm_compute. reflexivity.
  - exact demo_can_deallocate.
  - simpl. lia.
Defined.

Lemma C9_successor_witness :
  successor 10 (m_data demo) 2 demo_world = Done (4, demo_world) /\
  (Nd Red Lf 4 (3%Z, "c"%string) Lf = Lf -> after_ctx ([] : list (@frame Z string)) = [] ->
   successor 10 (m_data demo) 2 demo_world = Done (m_node (end_ demo), demo_world)) /\
  entries 10 demo demo_world = Done (inorder demo_tree, demo_world) /\
  StronglySorted (fun x y => int_less (fst x) (fst y) = true) (inorder demo_tree).
Proof.
  apply (C9_successor int_less int_less_trans demo_world demo 3 Black []
           Black (Nd Red Lf 3 (1%Z, "a"%string) Lf) 2 (2%Z, "b"%string)
           (Nd Red Lf 4 (3%Z, "c"%string) Lf) 10 demo_wf demo_bst).
  - vm_compute. reflexivity.
  - simpl. lia.
Defined.

(** C10: [at], [operator[]], [find] and [insert] report an entry
    exactly when [operator==] holds between the probe key and the key of
    the node at which the comparator-driven descent stops.  When it
    holds, all four return that node and change nothing.  When it does
    not hold there, or the descent stops at no node, [at] throws,
    [find] returns [end()], and [insert] and [operator[]], whenever
    they return, return the node they have newly built (with the flag
    [true]) and count one entry more.  For a comparator whose
    equivalence is coarser than [==], [insert] so attaches a second
    entry whose key is equivalent to one that is there: ordered by their
    halves, 1 joins 0. *)
Theorem C10_membership_by_key_equality :
  (forall (K T : Type) (cmp key_eq : K -> K -> bool) (T_default : T)
          (w : @World K T) (tr : RBTree) np nc t key fuel,
     wf w (m_data tr) np nc t ->
     (height t < fuel)%nat ->
     (forall a kv,
        stop_node (descend cmp key [] t) = Some (a, kv) ->
        key_eq key (fst kv) = true ->
        at_ cmp key_eq fuel tr key w = Done (inr a, w) /\
        (exists it, find cmp key_eq fuel tr key w = Done (it, w) /\ m_node it = a) /\
        (forall v,
           insert cmp key_eq fuel tr (key, v) w = Done ((mkIterator true a, false, tr), w)) /\
        index cmp key_eq T_default fuel tr key w = Done ((a, tr), w)) /\
     ((forall a kv,
         stop_node (descend cmp key [] t) = Some (a, kv) -> key_eq key (fst kv) = false) ->
      at_ cmp key_eq fuel tr key w = Done (inl out_of_range, w) /\
      (exists it, find cmp key_eq fuel tr key w = Done (it, w) /\ m_node it = nullptr) /\
      (forall v it b tr' w',
         insert cmp key_eq fuel tr (key, v) w = Done ((it, b, tr'), w') ->
         b = true /\ it = mkIterator true (brk w) /\
         m_size tr' = (m_size tr + 1) mod size_t_max /\
         (fresh_ok w -> heap w !! m_node it = None)) /\
      (forall r tr' w',
         index cmp key_eq T_default fuel tr key w = Done ((r, tr'), w') ->
         r = brk w /\
         m_size tr' = (m_size tr + 1) mod size_t_max /\
         (fresh_ok w -> heap w !! r = None)))) /\
  (exists t w it t' w',
     build half_less 20 [Insert 0 "a"]%Z empty_world = Done (t, w) /\
     half_less 0 1 = false /\ half_less 1 0 = false /\ Z.eqb 1 0 = false /\
     insert half_less Z.eqb 20 t (1%Z, "b"%string) w = Done ((it, true, t'), w') /\
     entries 20 t' w' = Done ([(0%Z, "a"%string); (1%Z, "b"%string)], w')).
Proof.
  split.
  - intros K T cmp key_eq T_default w tr np nc t key fuel Hwf Hfuel.
    assert (fresh_ok w -> heap w !! brk w = None) as Hnew.
    { intros Hfresh. apply not_elem_of_dom. intros Hin. apply Hfresh in Hin. lia. }
    split.
    + intros a kv Hs Hk.
      assert (hit cmp key_eq key t = Some a) as Hhit by (unfold hit; by rewrite Hs, Hk).
      pose proof (at_spec cmp key_eq w tr np nc key fuel t Hwf Hfuel) as Hat.
      pose proof (find_spec cmp key_eq w tr np nc key fuel t Hwf Hfuel) as Hfind.
      rewrite Hhit in Hat, Hfind.
      split; [exact Hat|]. split; [exact Hfind|]. split.
      * intros v. by apply (insert_hit_spec cmp key_eq w tr np nc t).
      * by apply (index_hit_spec cmp key_eq T_default w tr np nc t).
    + intros Hne.
      assert (hit cmp key_eq key t = None) as Hhit.
      { unfold hit. destruct (stop_node (descend cmp key [] t)) as [[a kv]|]; [|done].
        by rewrite (Hne a kv eq_refl). }
      pose proof (at_spec cmp key_eq w tr np nc key fuel t Hwf Hfuel) as Hat.
      pose proof (find_spec cmp key_eq w tr np nc key fuel t Hwf Hfuel) as Hfind.
      rewrite Hhit in Hat, Hfind.
      split; [exact Hat|]. split; [exact Hfind|]. split.
      * intros v it b tr' w' Hrun.
        destruct (insert_miss_new cmp key_eq w tr np nc t (key, v) fuel it b tr' w' Hwf Hhit
                    Hfuel Hrun) as (-> & -> & Hs).
        by split_and!.
      * intros r tr' w' Hrun.
        destruct (index_miss_new cmp key_eq T_default w tr np nc t key fuel r tr' w' Hwf Hhit
                    Hfuel Hrun) as (-> & Hs).
        by split_and!.
  - eexists _, _, _, _, _. do 5 (split; [vm_compute; reflexivity|]). vm_compute; reflexivity.
Qed.

Lemma C10_membership_witness :
  at_ int_less Z.eqb 10 demo 1%Z demo_world = Done (inr 3, demo_world) /\
  at_ int_less Z.eqb 10 demo 5%Z demo_world = Done (inl out_of_range, demo_world) /\
  exists r tr' w',
    index int_less Z.eqb ""%string 10 demo 5%Z demo_world = Done ((r, tr'), w') /\
    r = 5 /\ m_size tr' = 4 /\ heap demo_world !! r = None.
Proof.
  destruct (proj1 C10_membership_by_key_equality Z string int_less Z.eqb ""%string
              demo_world demo 3 Black demo_tree 1%Z 10%nat demo_wf ltac:(simpl; lia))
    as [Hhit _].
  destruct (Hhit 3 (1%Z, "a"%string) eq_refl eq_refl) as (Hat & _).
  destruct (proj1 C10_membership_by_key_equality Z string int_less Z.eqb ""%string
              demo_world demo 3 Black demo_tree 5%Z 10%nat demo_wf ltac:(simpl; lia))
    as [_ Hmiss].
  destruct Hmiss as (Hat' & _ & _ & Hidx).
  { intros a kv. vm_compute. by intros [= <- <-]. }
  split; [exact Hat|]. split; [exact Hat'|].
  assert (exists r tr' w',
            index int_less Z.eqb ""%string 10 demo 5%Z demo_world = Done ((r, tr'), w'))
    as (r & tr' & w' & Hrun) by (eexists _, _, _; vm_compute; reflexivity).
  destruct (Hidx r tr' w' Hrun) as (Hr & Hs & Hf).
  exists r, tr', w'. split; [exact Hrun|]. split; [exact Hr|]. split; [exact Hs|].
  apply Hf. exact demo_fresh.
Defined.

(** * Further properties of the code *)

(** ** Rotations *)

(** X1: [leftRotate(x)], on a node [x] whose right child [y] is a node,
    returns; [y] takes the place of [x], [x] becomes the left child of
    [y] and the left subtree [m] of [y] the right subtree of [x]; the
    nodes are the same, at the same addresses and in the same order;
    when [m] is empty the parent field of the sentinel is overwritten
    with [x]; and [rightRotate(y)] then brings the tree back.
    [rightRotate] is the mirror image, undone by [leftRotate]. *)
Theorem X1_rotations_keep_order_and_are_inverse {K T : Type} :
  (forall (w : @World K T) tb np nc ctx cx l x kvx cy m y kvy r,
     wf w tb np nc (plug ctx (Nd cx l x kvx (Nd cy m y kvy r))) ->
     exists w1 tb1 w2 tb2 np2,
       leftRotate tb x w = Done (tb1, w1) /\
       wf w1 tb1 (match m with Lf => x | Nd _ _ _ _ _ => np end) nc
          (plug ctx (Nd cy (Nd cx l x kvx m) y kvy r)) /\
       nodes (plug ctx (Nd cy (Nd cx l x kvx m) y kvy r)) =
         nodes (plug ctx (Nd cx l x kvx (Nd cy m y kvy r))) /\
       rightRotate tb1 y w1 = Done (tb2, w2) /\
       wf w2 tb2 np2 nc (plug ctx (Nd cx l x kvx (Nd cy m y kvy r))) /\
       tb2 = tb /\ dom (heap w2) = dom (heap w)) /\
  (forall (w : @World K T) tb np nc ctx cx l x kvx cy m y kvy r,
     wf w tb np nc (plug ctx (Nd cy (Nd cx l x kvx m) y kvy r)) ->
     exists w1 tb1 w2 tb2 np2,
       rightRotate tb y w = Done (tb1, w1) /\
       wf w1 tb1 (match m with Lf => y | Nd _ _ _ _ _ => np end) nc
          (plug ctx (Nd cx l x kvx (Nd cy m y kvy r))) /\
       nodes (plug ctx (Nd cx l x kvx (Nd cy m y kvy r))) =
         nodes (plug ctx (Nd cy (Nd cx l x kvx m) y kvy r)) /\
       leftRotate tb1 x w1 = Done (tb2, w2) /\
       wf w2 tb2 np2 nc (plug ctx (Nd cy (Nd cx l x kvx m) y kvy r)) /\
       tb2 = tb /\ dom (heap w2) = dom (heap w)).
Proof.
  assert (forall ctx cx (l : @tree K T) x kvx cy m y kvy r,
            nodes (plug ctx (Nd cy (Nd cx l x kvx m) y kvy r)) =
            nodes (plug ctx (Nd cx l x kvx (Nd cy m y kvy r)))) as Hnodes.
  { intros. apply nodes_plug_congr. simpl. by rewrite <-app_assoc. }
  assert (forall (w w' : @World K T) tb tb' np np' nc t,
            wf w tb np nc t -> wf w' tb' np' nc t -> nil tb' = nil tb -> tb' = tb) as Hbase.
  { intros w w' [n0 r0] [n2 r2] np np' nc t H1 H2 Hn. simpl in *. subst.
    pose proof (wf_root _ _ _ _ _ H1) as E1. pose proof (wf_root _ _ _ _ _ H2) as E2.
    simpl in *. by rewrite E1, E2. }
  split; intros w tb np nc ctx cx l x kvx cy m y kvy r Hwf.
  - destruct (leftRotate_spec _ _ _ _ _ _ _ _ _ _ _ _ _ _ Hwf) as (w1 & tb1 & Hr1 & Hn1 & Hd1 & Hwf1).
    destruct (rightRotate_spec _ _ _ _ _ _ _ _ _ _ _ _ _ _ Hwf1) as (w2 & tb2 & Hr2 & Hn2 & Hd2 & Hwf2).
    eexists w1, tb1, w2, tb2, _. split_and!; try done.
    + apply (Hbase _ _ _ _ _ _ _ _ Hwf Hwf2). congruence.
    + destruct Hd1 as (_ & _ & E1), Hd2 as (_ & _ & E2). by rewrite E2.
  - destruct (rightRotate_spec _ _ _ _ _ _ _ _ _ _ _ _ _ _ Hwf) as (w1 & tb1 & Hr1 & Hn1 & Hd1 & Hwf1).
    destruct (leftRotate_spec _ _ _ _ _ _ _ _ _ _ _ _ _ _ Hwf1) as (w2 & tb2 & Hr2 & Hn2 & Hd2 & Hwf2).
    eexists w1, tb1, w2, tb2, _. split_and!; try done.
    + apply (Hbase _ _ _ _ _ _ _ _ Hwf Hwf2). congruence.
    + destruct Hd1 as (_ & _ & E1), Hd2 as (_ & _ & E2). by rewrite E2.
Qed.

Lemma X1_rotations_witness :
  exists w1 tb1 w2 tb2 np2,
    leftRotate (m_data demo) 2 demo_world = Done (tb1, w1) /\
    wf w1 tb1 2 Black
       (Nd Red (Nd Black (Nd Red Lf 3 (1%Z, "a"%string) Lf) 2 (2%Z, "b"%string) Lf)
           4 (3%Z, "c"%string) Lf) /\
    nodes (Nd Red (Nd Black (Nd Red Lf 3 (1%Z, "a"%string) Lf) 2 (2%Z, "b"%string) Lf)
              4 (3%Z, "c"%string) Lf) = nodes demo_tree /\
    rightRotate tb1 4 w1 = Done (tb2, w2) /\
    wf w2 tb2 np2 Black demo_tree /\
    tb2 = m_data demo /\ dom (heap w2) = dom (heap demo_world).
Proof.
  exact (proj1 X1_rotations_keep_order_and_are_inverse demo_world (m_data demo) 3 Black []
           Black (Nd Red Lf 3 (1%Z, "a"%string) Lf) 2 (2%Z, "b"%string)
           Red Lf 4 (3%Z, "c"%string) Lf demo_wf).
Defined.

(** ** Construction and [erase(iterator)] *)

Section Container.
Context {K T : Type}.
Variable cmp : K -> K -> bool.
Variable key_eq : K -> K -> bool.
Local Abbreviation Node := (@Node K T).
Local Abbreviation World := (@World K T).
Local Abbreviation tree := (@tree K T).
Local Abbreviation frame := (@frame K T).

(** X2: [erase(iterator)] on a tree that satisfies I3 and whose
    sentinel is black, for an iterator at a node of the tree: the call
    returns; exactly that node leaves the tree and is destroyed, the
    other nodes stay at their addresses, in the same order and with
    their entries, so that iterators at them still dereference; the
    size is one less.  No comparator is consulted. *)
Theorem X2_erase_iterator_removes_that_node (w : World) tr np t pre a kv post b fuel n :
  wf w (m_data tr) np Black t ->
  bh t = Some n ->
  heap w !! nullptr = None ->
  can_deallocate w (m_allocator tr) ->
  nodes t = pre ++ (a, kv) :: post ->
  (length (nodes t) < fuel)%nat ->
  exists w' tr' np' nc' t',
    erase_at fuel tr (mkIterator b a) w = Done (tr', w') /\
    wf w' (m_data tr') np' nc' t' /\
    nodes t' = pre ++ post /\
    heap w' !! a = None /\
    dom (heap w') = dom (heap w) ∖ {[a]} /\
    size tr' = (size tr + size_t_max - 1) mod size_t_max /\
    nil (m_data tr') = nil (m_data tr) /\
    m_allocator tr' = m_allocator tr /\
    (forall x kvx, (x, kvx) ∈ pre ++ post ->
       Iterator_deref (mkIterator b x) w' = Done (kvx, w')).
Proof.
  intros Hwf Hbh Hnull Hal Heq Hfuel.
  destruct (focus_split t pre a kv post (wf_nodup _ _ _ _ _ Hwf) Heq)
    as (ctx & c & l & r & -> & -> & ->).
  unfold erase_at. simpl m_node.
  destruct (extractNode_spec _ _ _ _ _ _ _ _ _ _ fuel Hwf Hbh Hnull Hfuel)
    as (w1 & tb1 & np1 & nc1 & t1 & Hrun1 & Hnil1 & Hdom1 & Hwf1 & Hnodes1).
  rewrite (bind_done _ _ _ _ _ Hrun1).
  assert (is_Some (heap w1 !! a)) as [nd Hn].
  { apply elem_of_dom. destruct Hdom1 as (_ & _ & ->). apply elem_of_dom.
    eexists. apply (wf_focus _ _ _ _ _ _ _ _ _ _ Hwf). }
  destruct (destroyNode_spec w1 (set_data tr tb1) a nd Hn) as (cs & Hrun2).
  { destruct Hdom1 as (_ & Hc & _). unfold can_deallocate in *. simpl. by rewrite Hc. }
  rewrite (bind_done _ _ _ _ _ Hrun2).
  destruct (removed_fresh (plug ctx (Nd c l a kv r)) t1 (before_ctx ctx ++ nodes l) a kv
              (nodes r ++ after_ctx ctx)) as [Hfresh _].
  { apply (wf_nodup _ _ _ _ _ Hwf). }
  { exact Heq. }
  { by rewrite Hnodes1, <-!app_assoc. }
  assert (wf (mkWorld (delete a (heap w1)) (brk w1) cs) tb1 np1 nc1 t1) as Hwf2.
  { apply wf_delete; [done|done|]. rewrite Hnil1.
    apply (wf_focus_neq_nil _ _ _ _ _ _ _ _ _ _ Hwf). }
  eexists _, _, np1, nc1, t1. split; [reflexivity|]. simpl.
  split_and!; try done.
  - by rewrite Hnodes1, <-!app_assoc.
  - apply lookup_delete_eq.
  - rewrite dom_delete_L. by destruct Hdom1 as (_ & _ & ->).
  - intros x kvx Hin. unfold Iterator_deref. simpl.
    rewrite <-app_assoc, <-Hnodes1 in Hin.
    destruct (rep_node_live _ _ _ _ _ _ (wf_rep _ _ _ _ _ Hwf2) Hin) as (m & Hm & Hv).
    apply (get_value_done _ _ _ _ Hm Hv).
Qed.

(** [allocate] hands out the next address and counts once. *)
Lemma allocate_counts (w : World) al :
  can_allocate w al ->
  exists cs,
    allocate al w = Done (brk w, mkWorld (heap w) (brk w + 1) cs) /\
    (m_allocations al = nullptr -> cs = cells w) /\
    (forall v, m_allocations al <> nullptr -> cells w !! m_allocations al = Some v ->
       cs = <[m_allocations al := (v + 1) mod unsigned_max]> (cells w)).
Proof.
  intros Hal. unfold allocate. destruct Hal as [Hnull|[v Hv]].
  - rewrite Hnull. simpl. rewrite bind_ret. eexists. split_and!; done.
  - destruct (m_allocations al =? nullptr) eqn:E.
    + rewrite bind_ret. eexists. split_and!; try done.
      intros v' Hne. by apply N.eqb_eq in E.
    + unfold bind at 1. unfold bump. rewrite Hv. simpl.
      eexists. split_and!; try done.
      * intros Hz. apply N.eqb_neq in E. done.
      * intros v' _ Hv'. congruence.
Qed.

Lemma RBTree_new_spec (w : World) al :
  can_allocate w al ->
  exists cs,
    RBTree_new al w =
      Done (mkRBTree (mkTreeBase (brk w) (brk w)) al 0,
            mkWorld (<[brk w := mkNode nullptr (brk w) (brk w) Black None]> (heap w))
                    (brk w + 1) cs) /\
    (m_allocations al = nullptr -> cs = cells w) /\
    (forall v, m_allocations al <> nullptr -> cells w !! m_allocations al = Some v ->
       cs = <[m_allocations al := (v + 1) mod unsigned_max]> (cells w)).
Proof.
  intros Hal. destruct (allocate_counts w al Hal) as (cs & Hrun & Hcs0 & Hcs1).
  exists cs. split_and!; try done.
  unfold RBTree_new, createNil.
  rewrite !bind_assoc, (bind_done _ _ _ _ _ Hrun).
  rewrite ?bind_assoc. unfold construct at 1. unfold bind at 1. unfold set_heap at 1.
  cbn [heap brk cells RBTreeData_init m_allocator].
  rewrite ?bind_assoc. erewrite bind_done; cycle 1.
  { eapply set_right_done. cbn [heap]. apply lookup_insert_eq. }
  rewrite ?bind_assoc. erewrite bind_done; cycle 1.
  { eapply set_left_done. cbn [heap set_heap]. apply lookup_insert_eq. }
  rewrite ?bind_assoc. erewrite bind_done; cycle 1.
  { eapply set_color_done. cbn [heap set_heap]. apply lookup_insert_eq. }
  rewrite ?bind_ret. unfold set_root, set_nil, set_heap. simpl.
  by rewrite !insert_insert_eq.
Qed.

Lemma wf_new (w : World) p cs br :
  wf (mkWorld (<[p := mkNode nullptr p p Black None]> (heap w)) br cs)
     (mkTreeBase p p) nullptr Black Lf.
Proof. split; simpl; try done; [apply lookup_insert_eq|apply NoDup_nil_2]. Qed.

(** X3: the default constructor takes one allocation, for the
    sentinel, which is black, is its own left and right child and has
    a null parent; the new tree is empty, with the sentinel as its
    root; on it [at] throws, [find] returns an iterator equal to
    [end()], and [erase] and [clear] leave tree and world as they
    are. *)
Theorem X3_new_tree (w : World) al :
  can_allocate w al ->
  exists tr w',
    RBTree_new al w = Done (tr, w') /\
    tr = mkRBTree (mkTreeBase (brk w) (brk w)) al 0 /\
    heap w' = <[brk w := mkNode nullptr (brk w) (brk w) Black None]> (heap w) /\
    brk w' = brk w + 1 /\
    (m_allocations al = nullptr -> cells w' = cells w) /\
    (forall v, m_allocations al <> nullptr -> cells w !! m_allocations al = Some v ->
       cells w' = <[m_allocations al := (v + 1) mod unsigned_max]> (cells w)) /\
    wf w' (m_data tr) nullptr Black Lf /\
    size tr = 0 /\ empty tr = true /\
    forall key fuel,
      at_ cmp key_eq (S fuel) tr key w' = Done (inl out_of_range, w') /\
      (exists it, find cmp key_eq (S fuel) tr key w' = Done (it, w') /\
                  Iterator_eqb it (end_ tr) = true) /\
      erase cmp key_eq (S fuel) tr key w' = Done (tr, w') /\
      clear (S fuel) tr w' = Done (tr, w').
Proof.
  intros Hal.
  destruct (RBTree_new_spec w al Hal) as (cs & Hrun & Hcs0 & Hcs1).
  set (w' := mkWorld (<[brk w := mkNode nullptr (brk w) (brk w) Black (@None (K * T))]> (heap w))
                     (brk w + 1) cs) in *.
  pose proof (wf_new w (brk w) cs (brk w + 1)) as Hwf. fold w' in Hwf.
  exists (mkRBTree (mkTreeBase (brk w) (brk w)) al 0), w'.
  split_and!; try done.
  intros key fuel.
  set (tr := mkRBTree (mkTreeBase (brk w) (brk w)) al 0) in *.
  change (wf w' (m_data tr) nullptr Black Lf) in Hwf.
  split_and!.
  + by rewrite (at_spec cmp key_eq w' tr nullptr Black key (S fuel) Lf Hwf ltac:(simpl; lia)).
  + destruct (find_spec cmp key_eq w' tr nullptr Black key (S fuel) Lf Hwf ltac:(simpl; lia))
      as (it & Hf & Hit).
    exists it. split; [done|]. unfold Iterator_eqb. by rewrite Hit.
  + apply (erase_miss_spec cmp key_eq w' tr nullptr Black Lf); [done|done|simpl; lia].
  + unfold clear.
    rewrite (bind_done _ _ _ _ _ (allLeft_nil w' (m_data tr) nullptr Black fuel Lf Hwf)).
    simpl. by rewrite N.eqb_refl.
Qed.

End Container.

Lemma X2_erase_iterator_witness :
  exists w' tr' np' nc' t',
    erase_at 10 demo (mkIterator true 3) demo_world = Done (tr', w') /\
    wf w' (m_data tr') np' nc' t' /\
    nodes t' = [(2, (2%Z, "b"%string)); (4, (3%Z, "c"%string))] /\
    heap w' !! 3 = None /\
    size tr' = 2.
Proof.
  destruct (X2_erase_iterator_removes_that_node demo_world demo 3 demo_tree
              [] 3 (1%Z, "a"%string) [(2, (2%Z, "b"%string)); (4, (3%Z, "c"%string))]
              true 10 1 demo_wf)
    as (w' & tr' & np' & nc' & t' & H1 & H2 & H3 & H4 & _ & H5 & _).
  - vm_compute. reflexivity.
  - vm_compute. reflexivity.
  - exact demo_can_deallocate.
  - reflexivity.
  - simpl. lia.
  - by exists w', tr', np', nc', t'.
Defined.

Lemma X3_new_tree_witness :
  exists tr w',
    RBTree_new counting counting_world = Done (tr, w') /\
    tr = mkRBTree (mkTreeBase 1 1) counting 0 /\
    cells w' = <[1 := 1]> (cells counting_world) /\
    wf w' (m_data tr) nullptr Black Lf /\
    at_ int_less Z.eqb 1 tr 7%Z w' = Done (inl out_of_range, w').
Proof.
  destruct (X3_new_tree int_less Z.eqb counting_world counting)
    as (tr & w' & H1 & H2 & _ & _ & _ & H3 & H4 & _ & _ & H5).
  - right. by exists 0.
  - exists tr, w'. split_and!; try done.
    + by apply (H3 0).
    + apply (H5 7%Z 0%nat).
Defined.

(** ** [insert], [operator[]] and references to mapped values *)

Section Entries.
Context {K T : Type}.
Variable cmp : K -> K -> bool.
Variable key_eq : K -> K -> bool.
Variable T_default : T.
Local Abbreviation Node := (@Node K T).
Local Abbreviation World := (@World K T).
Local Abbreviation tree := (@tree K T).
Local Abbreviation frame := (@frame K T).

(** The abstract insertion puts the new node between two halves of
    the old sequence of nodes. *)
Lemma ins_split a kv (t : tree) :
  (descend cmp (fst kv) [] t).2 = Lf ->
  exists pre post, nodes t = pre ++ post /\ nodes (ins cmp a kv t) = pre ++ (a, kv) :: post.
Proof.
  generalize ([] : list frame).
  induction t as [|c l IHl b kvb r IHr]; intros ctx; simpl.
  - intros _. by exists [], [].
  - destruct (cmp kv.1 kvb.1); [|destruct (cmp kvb.1 kv.1)]; simpl.
    + intros H. destruct (IHl _ H) as (pre & post & -> & ->).
      exists pre, (post ++ (b, kvb) :: nodes r). by rewrite <-!app_assoc.
    + intros H. destruct (IHr _ H) as (pre & post & -> & ->).
      exists (nodes l ++ (b, kvb) :: pre), post. by rewrite <-!app_assoc.
    + done.
Qed.

Lemma length_ins a kv (t : tree) :
  (length (nodes (ins cmp a kv t)) <= length (nodes t) + 1)%nat.
Proof.
  induction t as [|c l IHl b kvb r IHr]; simpl; [lia|].
  destruct (cmp kv.1 kvb.1); [|destruct (cmp kvb.1 kv.1)]; simpl;
    rewrite !length_app; simpl; rewrite ?length_app; simpl; lia.
Qed.

(** [operator[]] runs as [insert] of the key with a value-initialised
    mapped value does. *)
Lemma index_as_insert fuel (tr : RBTree) key (w : World) :
  index cmp key_eq T_default fuel tr key w =
    match insert cmp key_eq fuel tr (key, T_default) w with
    | Done ((it, _, tr'), w') => Done ((m_node it, tr'), w')
    | Fault => Fault
    | Timeout => Timeout
    end.
Proof.
  unfold index, insert, bind. simpl.
  destruct (findNode cmp fuel (m_data tr) key w) as [[node w1]| |]; [|done..].
  destruct (negb (node =? nil (m_data tr))).
  - destruct (get_value node w1) as [[kv w2]| |]; [|done..]. simpl.
    destruct (key_eq key kv.1); [done|].
    destruct (buildNode tr (key, T_default) w2) as [[nn w3]| |]; [|done..].
    by destruct (attach cmp fuel tr node nn key w3) as [[tr' w4]| |].
  - simpl.
    destruct (buildNode tr (key, T_default) w1) as [[nn w3]| |]; [|done..].
    by destruct (attach cmp fuel tr node nn key w3) as [[tr' w4]| |].
Qed.

(** Whether a sequence of nodes is in order depends on the keys only. *)
Lemma sorted_keys (l : list (ptr * (K * T))) :
  StronglySorted (before cmp) l <->
  StronglySorted (fun a b => cmp a b = true) (l.*2.*1).
Proof.
  induction l as [|x l IH]; simpl.
  - split; intros _; constructor.
  - split; intros H; apply StronglySorted_inv in H as [H1 H2]; constructor;
      try (by apply IH).
    + rewrite Forall_fmap, Forall_fmap. exact H2.
    + rewrite Forall_fmap, Forall_fmap in H2. exact H2.
Qed.

Lemma height_plug_congr ctx (t t' : tree) :
  height t = height t' -> height (plug ctx t) = height (plug ctx t').
Proof.
  revert t t'. induction ctx as [|f ctx IH]; intros t t' Heq; simpl; [done|].
  apply IH. destruct f; simpl; by rewrite Heq.
Qed.

(** Assigning through a reference to the mapped value of the node
    in focus: the node keeps its place, its colour and its key, and
    no other object changes. *)
Lemma write_ref_spec (w : World) tb np nc ctx c (l : tree) a k v (r : tree) v' :
  (forall a b c, cmp a b = true -> cmp b c = true -> cmp a c = true) ->
  wf w tb np nc (plug ctx (Nd c l a (k, v) r)) ->
  exists w',
    write_ref a v' w = Done (tt, w') /\
    wf w' tb np nc (plug ctx (Nd c l a (k, v') r)) /\
    read_ref a w' = Done (v', w') /\
    same_domain w w' /\
    (forall x, x <> a -> heap w' !! x = heap w !! x) /\
    (bst cmp (plug ctx (Nd c l a (k, v) r)) -> bst cmp (plug ctx (Nd c l a (k, v') r))).
Proof.
  intros cmp_trans Hwf. clear key_eq T_default.
  pose proof Hwf as Hwf0.
  apply wf_plug_elim in Hwf as (Hn & Hctx & Hrep & Hnd & Hnd').
  simpl in Hrep. destruct Hrep as (Ha & Hl & Hr).
  assert (addrs (plug ctx (Nd c l a (k, v') r)) = addrs (plug ctx (Nd c l a (k, v) r))) as Hperm
    by by apply addrs_plug_congr.
  rewrite <-Hperm in Hnd'. clear Hperm.
  simpl in Hnd. revert Hnd'; nodup_split; intros Hnd'.
  assert (wf (set_heap (<[a := mkNode (ctx_par (nil tb) ctx) (ptr_of (nil tb) l)
                                      (ptr_of (nil tb) r) c (Some (k, v'))]>) w)
             tb np nc (plug ctx (Nd c l a (k, v') r))) as Hwf'.
  { apply wf_plug_intro; rep_tac. }
  eexists _.
  split_and!.
  - unfold write_ref, set_second.
    rewrite (bind_done _ _ _ _ _ (load_done _ _ _ Ha)).
    unfold store. rewrite Ha. reflexivity.
  - exact Hwf'.
  - eapply (read_ref_spec _ _ _ _ a (k, v')); [apply (wf_rep _ _ _ _ _ Hwf')|].
    rewrite nodes_plug. simpl. set_solver.
  - apply same_domain_store. by eexists.
  - intros x Hx. simpl. by rewrite lookup_insert_ne.
  - rewrite !(bst_sorted cmp cmp_trans), !sorted_keys, !nodes_plug. simpl.
    by rewrite ?fmap_app, ?fmap_cons, ?fmap_app, ?fmap_cons.
Qed.

Hypothesis cmp_irrefl : forall a, cmp a a = false.
Hypothesis cmp_trans : forall a b c, cmp a b = true -> cmp b c = true -> cmp a c = true.
Hypothesis key_eq_equiv :
  forall a b, key_eq a b = true <-> cmp a b = false /\ cmp b a = false.

Lemma absent_miss k (t : tree) :
  Forall (fun x => key_eq k (fst x) = false) (inorder t) -> hit cmp key_eq k t = None.
Proof.
  intros Habs.
  destruct (hit cmp key_eq k t) as [a|] eqn:Hhit; [|done].
  destruct (hit_Some cmp key_eq key_eq_equiv k t a Hhit) as (kv & Hin & Heq).
  rewrite Forall_inorder, Forall_forall in Habs.
  specialize (Habs _ Hin). simpl in Habs. congruence.
Qed.

(** X6: for an entry [(k, v)] of a search tree, [t.at(k) = v'] and
    [t[k] = v'] both return and leave the same world: the tree has
    the shape, the colours, the nodes and the addresses it had, the
    entry holds [v'] under the key it had, every other object of the
    heap is as it was, nothing is allocated or freed, the size is
    unchanged, and [at(k)] then reads [v']. *)
Theorem X6_assignment_through_reference (w : World) tr np nc ctx c (l : tree) a k v
    (r : tree) v' fuel :
  wf w (m_data tr) np nc (plug ctx (Nd c l a (k, v) r)) ->
  bst cmp (plug ctx (Nd c l a (k, v) r)) ->
  (height (plug ctx (Nd c l a (k, v) r)) < fuel)%nat ->
  exists w',
    assign_at cmp key_eq fuel tr k v' w = Done (inr tt, w') /\
    assign_index cmp key_eq T_default fuel tr k v' w = Done (tr, w') /\
    wf w' (m_data tr) np nc (plug ctx (Nd c l a (k, v') r)) /\
    bst cmp (plug ctx (Nd c l a (k, v') r)) /\
    same_domain w w' /\
    (forall x, x <> a -> heap w' !! x = heap w !! x) /\
    at_ cmp key_eq fuel tr k w' = Done (inr a, w') /\
    read_ref a w' = Done (v', w').
Proof.
  intros Hwf Hbst Hfuel.
  assert (hit cmp key_eq k (plug ctx (Nd c l a (k, v) r)) = Some a) as Hhit.
  { apply (hit_present cmp key_eq cmp_irrefl cmp_trans key_eq_equiv _ a (k, v) Hbst).
    rewrite nodes_plug. simpl. set_solver. }
  pose proof (at_spec cmp key_eq w tr np nc k fuel _ Hwf Hfuel) as Hat.
  rewrite Hhit in Hat.
  pose proof (index_hit_spec cmp key_eq T_default w tr np nc _ k fuel a Hwf Hhit Hfuel) as Hidx.
  destruct (write_ref_spec w (m_data tr) np nc ctx c l a k v r v' cmp_trans Hwf)
    as (w' & Hrun & Hwf' & Hread & Hdom & Hother & Hbst').
  assert (hit cmp key_eq k (plug ctx (Nd c l a (k, v') r)) = Some a) as Hhit'.
  { apply (hit_present cmp key_eq cmp_irrefl cmp_trans key_eq_equiv _ a (k, v') (Hbst' Hbst)).
    rewrite nodes_plug. simpl. set_solver. }
  assert (height (plug ctx (Nd c l a (k, v') r)) = height (plug ctx (Nd c l a (k, v) r)))
    as Hh.
  { by apply height_plug_congr. }
  pose proof (at_spec cmp key_eq w' tr np nc k fuel _ Hwf' ltac:(lia)) as Hat'.
  rewrite Hhit' in Hat'.
  exists w'. split_and!; try done.
  - unfold assign_at. rewrite (bind_done _ _ _ _ _ Hat).
    by rewrite (bind_done _ _ _ _ _ Hrun).
  - unfold assign_index. rewrite (bind_done _ _ _ _ _ Hidx). cbv beta iota.
    by rewrite (bind_done _ _ _ _ _ Hrun).
  - by apply Hbst'.
Qed.

(** X4: [insert(k, v)] of a key that no entry has, on a search tree
    with black root and black sentinel: the new node is freshly
    allocated and takes its place in the order; every node that was
    in the tree is still there, at the same address, with the same
    entry and in the same order (no iterator or reference is
    invalidated); the result is again a search tree with black root
    and black sentinel. *)
Theorem X4_insert_keeps_nodes_in_place (w : World) tr np t k v fuel :
  wf w (m_data tr) np Black t ->
  bst cmp t ->
  root_black t ->
  fresh_ok w ->
  can_allocate w (m_allocator tr) ->
  Forall (fun x => key_eq k (fst x) = false) (inorder t) ->
  (length (inorder t) + 1 < fuel)%nat ->
  exists it tr' w' np' t' pre post,
    insert cmp key_eq fuel tr (k, v) w = Done ((it, true, tr'), w') /\
    (m_node it ∉ dom (heap w)) /\
    nodes t = pre ++ post /\
    nodes t' = pre ++ (m_node it, (k, v)) :: post /\
    wf w' (m_data tr') np' Black t' /\
    bst cmp t' /\
    root_black t' /\
    fresh_ok w' /\
    (forall a kv, (a, kv) ∈ nodes t ->
       Iterator_deref (mkIterator true a) w' = Done (kv, w')).
Proof.
  intros Hwf Hbst Hrb Hfresh Hal Habs Hfuel. clear cmp_irrefl.
  assert (length (nodes t) = length (inorder t)) as Hlen
    by by rewrite <-nodes_inorder, length_fmap.
  pose proof (absent_miss k t Habs) as Hhit.
  pose proof (miss_at_leaf cmp key_eq key_eq_equiv k t Hhit) as Hleaf.
  destruct (insert_miss_spec cmp key_eq w tr np t (k, v) fuel Hwf Hrb Hfresh Hal Hhit Hleaf
              ltac:(lia))
    as (w' & tr' & np' & t' & Hrun & Hwf' & Hrb' & Hnodes & Hfresh' & _ & _ & Hsize).
  destruct (ins_split (brk w) (k, v) t Hleaf) as (pre & post & Hpre & Hpost).
  exists (mkIterator true (brk w)), tr', w', np', t', pre, post. simpl.
  split_and!; try done.
  - intros Hin. apply Hfresh in Hin. lia.
  - by rewrite Hnodes.
  - eapply (bst_nodes cmp cmp_trans); [exact Hnodes|]. by apply (bst_ins cmp key_eq).
  - intros a kv Hin. unfold Iterator_deref. simpl.
    assert ((a, kv) ∈ nodes t') as Hin'.
    { rewrite Hnodes, Hpost. rewrite Hpre in Hin. set_solver. }
    destruct (rep_node_live _ _ _ _ _ _ (wf_rep _ _ _ _ _ Hwf') Hin') as (m & Hm & Hv).
    apply (get_value_done _ _ _ _ Hm Hv).
Qed.

(** X5: [operator[]] on a search tree with black root and black
    sentinel.  When some entry has a key equal to [k], the call
    returns a reference to the mapped value of such an entry and
    changes nothing.  When none has, it inserts [k] with a
    value-initialised mapped value in a fresh node and returns a
    reference to it: the reference reads as [T{}], the size is one
    more, [at(k)] and a second [operator[]] with [k] return the same
    reference, the second one without inserting again; the old nodes
    are all still in place. *)
Theorem X5_index_finds_or_inserts_default (w : World) tr np t k fuel :
  wf w (m_data tr) np Black t ->
  bst cmp t ->
  root_black t ->
  fresh_ok w ->
  can_allocate w (m_allocator tr) ->
  (length (inorder t) + 2 < fuel)%nat ->
  ((exists kv, kv ∈ inorder t /\ key_eq k (fst kv) = true) ->
   exists a kv,
     (a, kv) ∈ nodes t /\ key_eq k (fst kv) = true /\
     index cmp key_eq T_default fuel tr k w = Done ((a, tr), w) /\
     read_ref a w = Done (snd kv, w)) /\
  (Forall (fun x => key_eq k (fst x) = false) (inorder t) ->
   exists r tr' w' np' t' pre post,
     index cmp key_eq T_default fuel tr k w = Done ((r, tr'), w') /\
     (r ∉ dom (heap w)) /\
     read_ref r w' = Done (T_default, w') /\
     size tr' = (size tr + 1) mod size_t_max /\
     at_ cmp key_eq fuel tr' k w' = Done (inr r, w') /\
     index cmp key_eq T_default fuel tr' k w' = Done ((r, tr'), w') /\
     wf w' (m_data tr') np' Black t' /\
     nodes t = pre ++ post /\
     nodes t' = pre ++ (r, (k, T_default)) :: post).
Proof.
  intros Hwf Hbst Hrb Hfresh Hal Hfuel.
  assert (length (nodes t) = length (inorder t)) as Hlen
    by by rewrite <-nodes_inorder, length_fmap.
  pose proof (height_le_nodes t) as Hh.
  split.
  - intros (kv0 & Hin0 & Heq0).
    destruct (hit cmp key_eq k t) as [a|] eqn:Hhit.
    + destruct (hit_Some cmp key_eq key_eq_equiv k t a Hhit) as (kv & Hin & Heq).
      exists a, kv. split_and!; try done.
      * by apply (index_hit_spec cmp key_eq T_default w tr np Black t); [..|lia].
      * by eapply (read_ref_spec w _ _ t); [apply (wf_rep _ _ _ _ _ Hwf)|].
    + pose proof (hit_None cmp key_eq cmp_trans key_eq_equiv k t Hbst Hhit) as Habs.
      rewrite Forall_forall in Habs. specialize (Habs _ Hin0). congruence.
  - intros Habs.
    pose proof (absent_miss k t Habs) as Hhit.
    pose proof (miss_at_leaf cmp key_eq key_eq_equiv k t Hhit) as Hleaf.
    destruct (insert_miss_spec cmp key_eq w tr np t (k, T_default) fuel Hwf Hrb Hfresh Hal
                Hhit Hleaf ltac:(lia))
      as (w' & tr' & np' & t' & Hrun & Hwf' & Hrb' & Hnodes & Hfresh' & _ & _ & Hsize).
    destruct (ins_split (brk w) (k, T_default) t Hleaf) as (pre & post & Hpre & Hpost).
    assert (bst cmp t') as Hbst'.
    { eapply (bst_nodes cmp cmp_trans); [exact Hnodes|]. by apply (bst_ins cmp key_eq). }
    assert ((brk w, (k, T_default)) ∈ nodes t') as Hin.
    { rewrite Hnodes. by apply (ins_new cmp key_eq). }
    pose proof (hit_present cmp key_eq cmp_irrefl cmp_trans key_eq_equiv t' _ _ Hbst' Hin)
      as Hhit'.
    simpl in Hhit'.
    assert (height t' < fuel)%nat as Hfuel'.
    { pose proof (height_le_nodes t') as Hh'. rewrite Hnodes in Hh'.
      pose proof (length_ins (brk w) (k, T_default) t). lia. }
    exists (brk w), tr', w', np', t', pre, post.
    split_and!; try done.
    + by rewrite index_as_insert, Hrun.
    + intros Hd. apply Hfresh in Hd. lia.
    + by eapply (read_ref_spec w' _ _ t' _ (k, T_default)); [apply (wf_rep _ _ _ _ _ Hwf')|].
    + rewrite (at_spec cmp key_eq w' tr' np' Black k fuel t' Hwf' Hfuel'). by rewrite Hhit'.
    + by apply (index_hit_spec cmp key_eq T_default w' tr' np' Black t').
    + by rewrite Hnodes.
Qed.

End Entries.


Lemma X6_assignment_witness :
  exists w',
    assign_at int_less Z.eqb 10 demo 3%Z "z"%string demo_world = Done (inr tt, w') /\
    assign_index int_less Z.eqb ""%string 10 demo 3%Z "z"%string demo_world = Done (demo, w') /\
    wf w' (m_data demo) 3 Black
       (Nd Black (Nd Red Lf 3 (1%Z, "a"%string) Lf) 2 (2%Z, "b"%string)
           (Nd Red Lf 4 (3%Z, "z"%string) Lf)) /\
    read_ref 4 w' = Done ("z"%string, w').
Proof.
  destruct (X6_assignment_through_reference int_less Z.eqb ""%string
              int_less_irrefl int_less_trans int_eq_equiv demo_world demo 3 Black
              [FR Black (Nd Red Lf 3 (1%Z, "a"%string) Lf) 2 (2%Z, "b"%string)]
              Red Lf 4 3%Z "c"%string Lf "z"%string 10 demo_wf demo_bst ltac:(simpl; lia))
    as (w' & H1 & H2 & H3 & _ & _ & _ & _ & H4).
  exists w'. split; [exact H1|]. split; [exact H2|]. split; [exact H3|exact H4].
Defined.

Lemma X4_insert_witness :
  exists it tr' w' np' t' pre post,
    insert int_less Z.eqb 10 demo (5%Z, "e"%string) demo_world = Done ((it, true, tr'), w') /\
    (m_node it ∉ dom (heap demo_world)) /\
    nodes demo_tree = pre ++ post /\
    nodes t' = pre ++ (m_node it, (5%Z, "e"%string)) :: post /\
    wf w' (m_data tr') np' Black t' /\
    bst int_less t'.
Proof.
  destruct (X4_insert_keeps_nodes_in_place int_less Z.eqb int_less_trans
              int_eq_equiv demo_world demo 3 demo_tree 5%Z "e"%string 10
              demo_wf demo_bst eq_refl demo_fresh demo_can_allocate)
    as (it & tr' & w' & np' & t' & pre & post & H1 & H2 & H3 & H4 & H5 & H6 & _).
  - by repeat constructor.
  - simpl. lia.
  - by exists it, tr', w', np', t', pre, post.
Defined.

Lemma X5_index_witness :
  (exists a kv,
     (a, kv) ∈ nodes demo_tree /\ Z.eqb 3 (fst kv) = true /\
     index int_less Z.eqb ""%string 10 demo 3%Z demo_world = Done ((a, demo), demo_world) /\
     read_ref a demo_world = Done (snd kv, demo_world)) /\
  (exists r tr' w',
     index int_less Z.eqb ""%string 10 demo 5%Z demo_world = Done ((r, tr'), w') /\
     read_ref r w' = Done (""%string, w') /\
     size tr' = 4 /\
     index int_less Z.eqb ""%string 10 tr' 5%Z w' = Done ((r, tr'), w')).
Proof.
  split.
  - apply (proj1 (X5_index_finds_or_inserts_default int_less Z.eqb ""%string
              int_less_irrefl int_less_trans int_eq_equiv
              demo_world demo 3 demo_tree 3%Z 10
              demo_wf demo_bst eq_refl demo_fresh demo_can_allocate ltac:(simpl; lia))).
    exists (3%Z, "c"%string). split; [|done]. simpl. set_solver.
  - destruct (proj2 (X5_index_finds_or_inserts_default int_less Z.eqb ""%string
              int_less_irrefl int_less_trans int_eq_equiv
              demo_world demo 3 demo_tree 5%Z 10
              demo_wf demo_bst eq_refl demo_fresh demo_can_allocate ltac:(simpl; lia)))
      as (r & tr' & w' & np' & t' & pre & post & H1 & _ & H2 & H3 & _ & H4 & _).
    + by repeat constructor.
    + by exists r, tr', w'.
Defined.

(** ** Walking backwards *)

Section Backward.
Context {K T : Type}.
Local Abbreviation Node := (@Node K T).
Local Abbreviation World := (@World K T).
Local Abbreviation tree := (@tree K T).
Local Abbreviation frame := (@frame K T).

(** The rightmost node of a tree, the nearest ancestor that has the
    hole in its right subtree. *)
Fixpoint rightmost (d : ptr) (t : tree) : ptr :=
  match t with
  | Lf => d
  | Nd _ _ a _ r => rightmost a r
  end.

Fixpoint right_ancestor (ctx : list frame) : ptr :=
  match ctx with
  | [] => nullptr
  | FR _ _ p _ :: _ => p
  | FL _ _ _ _ :: ctx => right_ancestor ctx
  end.

Lemma last_app_cons {A} (l1 l2 : list A) x : last (l1 ++ x :: l2) = Some (default x (last l2)).
Proof.
  rewrite last_app. destruct (last (x :: l2)) eqn:E.
  - rewrite last_cons in E. by destruct (last l2); injection E as <-.
  - by apply last_None in E.
Qed.

Lemma rightmost_last d (t : tree) : rightmost d t = default d (last (addrs t)).
Proof.
  revert d. induction t as [|c l _ a kv r IHr]; intros d; simpl; [done|].
  by rewrite IHr, last_app_cons.
Qed.

Lemma right_ancestor_last ctx :
  right_ancestor ctx = default nullptr (last (before_ctx ctx).*1).
Proof.
  induction ctx as [|[c p kv r|c l p kv] ctx IH]; simpl; [done..|].
  rewrite !fmap_app. simpl. by rewrite app_assoc, last_snoc.
Qed.

(** [allRight] on the root of a subtree that is not empty. *)
Lemma allRight_spec (w : World) tb np nc fuel ctx c l a kv r :
  wf w tb np nc (plug ctx (Nd c l a kv r)) ->
  (height r < fuel)%nat ->
  allRight fuel a w = Done (rightmost a r, w).
Proof.
  revert ctx c a kv l fuel. induction r as [|cr rl _ b kvb rr IHr]; intros ctx c a kv l fuel Hwf Hfuel.
  - destruct fuel as [|fuel]; [lia|].
    wf_facts Hwf ctx. cbn [allRight]. by repeat rstep.
  - destruct fuel as [|fuel]; [simpl in Hfuel; lia|].
    destruct (wf_neq_children _ _ _ _ (FR c l a kv :: ctx) _ _ _ _ _ Hwf) as (_ & Hne & _).
    wf_facts Hwf ctx. cbn [allRight]. repeat rstep.
    apply (IHr (FR c l a kv :: ctx) cr b kvb rl); [done|]. simpl in Hfuel. lia.
Qed.

Lemma predecessor_climb_spec (w : World) tb np nc fuel ctx c l a kv r :
  wf w tb np nc (plug ctx (Nd c l a kv r)) ->
  (length ctx + 1 < fuel)%nat ->
  predecessor_climb fuel tb a w = Done (right_ancestor ctx, w).
Proof.
  revert c l a kv r fuel.
  induction ctx as [|[cp p kvp rp|cp lp p kvp] ctx IH]; intros c l a kv r fuel Hwf Hfuel.
  - do 2 (destruct fuel as [|fuel]; [simpl in Hfuel; lia|]).
    pose proof (wf_focus_neq_nil _ _ _ _ _ _ _ _ _ _ Hwf).
    wf_facts Hwf ([] : list frame). simpl in *.
    cbn [predecessor_climb]. by repeat rstep.
  - destruct fuel as [|fuel]; [lia|].
    pose proof (wf_focus_neq_nil _ _ _ _ _ _ _ _ _ _ Hwf).
    destruct (wf_neq_children _ _ _ _ ctx _ _ _ _ _ Hwf) as (_ & _ & Hne & _).
    specialize (Hne a ltac:(clear; simpl; set_solver)).
    simpl in Hwf. wf_facts Hwf ctx.
    cbn [predecessor_climb]. repeat rstep.
    apply (IH _ _ _ _ _ _ Hwf). simpl in Hfuel. lia.
  - destruct fuel as [|fuel]; [lia|].
    pose proof (wf_focus_neq_nil _ _ _ _ _ _ _ _ _ _ Hwf).
    simpl in Hwf. wf_facts Hwf ctx.
    cbn [predecessor_climb]. by repeat rstep.
Qed.

(** [predecessor] of the node in focus. *)
Lemma predecessor_focus (w : World) tb np nc fuel ctx c l a kv r :
  wf w tb np nc (plug ctx (Nd c l a kv r)) ->
  (length ctx + height l + 1 < fuel)%nat ->
  predecessor fuel tb a w =
    Done (match l with
          | Lf => right_ancestor ctx
          | Nd _ _ b _ lr => rightmost b lr
          end, w).
Proof.
  intros Hwf Hfuel.
  pose proof (wf_focus_neq_nil _ _ _ _ _ _ _ _ _ _ Hwf).
  unfold predecessor. wf_facts Hwf ctx. repeat rstep.
  destruct l as [|cl ll b kvb lr]; simpl.
  - repeat rstep. apply (predecessor_climb_spec w tb np nc fuel ctx c Lf a kv r); [done|].
    simpl in Hfuel. lia.
  - pose proof (wf_focus_neq_nil _ _ _ _ (FL c a kv r :: ctx) _ _ _ _ _ Hwf).
    repeat rstep.
    apply (allRight_spec w tb np nc fuel (FL c a kv r :: ctx) cl ll b kvb lr); [done|].
    simpl in Hfuel. lia.
Qed.

(** [predecessor] steps to the node before in order, and from the
    first one to the null pointer. *)
Lemma predecessor_prev (w : World) tb np nc fuel t pre a kv post :
  wf w tb np nc t ->
  nodes t = pre ++ (a, kv) :: post ->
  (length (nodes t) + 1 < fuel)%nat ->
  predecessor fuel tb a w = Done (default nullptr (last pre.*1), w).
Proof.
  intros Hwf Heq Hfuel.
  destruct (focus_split t pre a kv post (wf_nodup _ _ _ _ _ Hwf) Heq)
    as (ctx & c & l & r & -> & -> & _).
  pose proof (height_plug ctx (Nd c l a kv r)) as Hh.
  pose proof (height_le_nodes (plug ctx (Nd c l a kv r))) as Hn.
  simpl in Hh.
  rewrite (predecessor_focus w tb np nc fuel ctx c l a kv r Hwf) by lia.
  f_equal. f_equal.
  destruct l as [|cl ll b kvb lr].
  - simpl. rewrite app_nil_r. apply right_ancestor_last.
  - cbn [nodes].
    rewrite rightmost_last, app_assoc, fmap_app, fmap_cons, nodes_addrs.
    by rewrite last_app_cons.
Qed.

(** X7: [predecessor] in a well-formed tree.  From a node it returns
    the node before it in order, and the null pointer from the first
    node; it undoes [successor] and [successor] undoes it; from the
    sentinel it returns the last node in order.  Decrementing the
    iterator [end()], which holds the null pointer and not the
    sentinel, dereferences the null pointer. *)
Theorem X7_predecessor (w : World) tb np nc t pre a kv post fuel :
  wf w tb np nc t ->
  heap w !! nullptr = None ->
  nodes t = pre ++ (a, kv) :: post ->
  (length (nodes t) + 1 < fuel)%nat ->
  predecessor fuel tb a w = Done (default nullptr (last pre.*1), w) /\
  (forall b, successor fuel tb a w = Done (b, w) -> b <> nullptr ->
     predecessor fuel tb b w = Done (a, w)) /\
  (forall b, predecessor fuel tb a w = Done (b, w) -> b <> nullptr ->
     successor fuel tb b w = Done (a, w)) /\
  (post = [] -> predecessor fuel tb (nil tb) w = Done (a, w)) /\
  Iterator_prev fuel tb (mkIterator true nullptr) w = Fault.
Proof.
  intros Hwf Hnull Heq Hfuel.
  pose proof (predecessor_prev w tb np nc fuel t pre a kv post Hwf Heq Hfuel) as Hpred.
  pose proof (successor_next w tb np nc fuel t pre a kv post Hwf Heq Hfuel) as Hsucc.
  split_and!.
  - exact Hpred.
  - intros b Hb Hne. rewrite Hsucc in Hb. injection Hb as <-.
    destruct post as [|[b kvb] post]; [done|]. simpl.
    rewrite (predecessor_prev w tb np nc fuel t (pre ++ [(a, kv)]) b kvb post Hwf); [|by rewrite <-app_assoc|done].
    rewrite fmap_app. simpl. by rewrite last_snoc.
  - intros b Hb Hne. rewrite Hpred in Hb. injection Hb as <-.
    destruct (last pre.*1) as [b|] eqn:Hlast; [|done]. simpl.
    rewrite fmap_last in Hlast.
    destruct (last pre) as [[b' kvb]|] eqn:Hlast'; [|done]. injection Hlast as <-.
    apply last_Some in Hlast' as [pre' ->].
    by rewrite (successor_next w tb np nc fuel t pre' b' kvb ((a, kv) :: post) Hwf);
      [|by rewrite <-app_assoc in Heq|].
  - intros ->. unfold predecessor. rewrite N.eqb_refl.
    destruct t as [|c0 l0 a0 kv0 r0]; [by destruct pre|].
    rewrite (wf_root _ _ _ _ _ Hwf). simpl ptr_of.
    pose proof (height_le_nodes (Nd c0 l0 a0 kv0 r0)) as Hh. cbn [height] in Hh.
    rewrite (allRight_spec w tb np nc fuel [] c0 l0 a0 kv0 r0 Hwf ltac:(lia)).
    f_equal. f_equal.
    change (rightmost a0 r0) with (rightmost nullptr (Nd c0 l0 a0 kv0 r0)).
    rewrite rightmost_last, <-nodes_addrs, Heq, fmap_app. simpl. by rewrite last_snoc.
  - assert (nil tb <> nullptr) as Hne.
    { intros E. pose proof (wf_nil _ _ _ _ _ Hwf) as Hn. rewrite E in Hn. congruence. }
    unfold Iterator_prev, predecessor. cbn [m_tree m_node].
    destruct (nullptr =? nil tb) eqn:E; [apply N.eqb_eq in E; by rewrite E in Hne|].
    unfold get_left, load. unfold bind. by rewrite Hnull.
Qed.

End Backward.

Lemma X7_predecessor_witness :
  predecessor 10 (m_data demo) 2 demo_world = Done (3, demo_world) /\
  predecessor 10 (m_data demo) 3 demo_world = Done (nullptr, demo_world) /\
  (forall b, successor 10 (m_data demo) 2 demo_world = Done (b, demo_world) -> b <> nullptr ->
     predecessor 10 (m_data demo) b demo_world = Done (2, demo_world)) /\
  predecessor 10 (m_data demo) 1 demo_world = Done (4, demo_world) /\
  Iterator_prev 10 (m_data demo) (mkIterator true nullptr) demo_world = Fault.
Proof.
  destruct (X7_predecessor demo_world (m_data demo) 3 Black demo_tree
              [(3, (1%Z, "a"%string))] 2 (2%Z, "b"%string) [(4, (3%Z, "c"%string))] 10
              demo_wf eq_refl eq_refl ltac:(simpl; lia)) as (H1 & H2 & _ & _ & H5).
  destruct (X7_predecessor demo_world (m_data demo) 3 Black demo_tree
              [] 3 (1%Z, "a"%string) [(2, (2%Z, "b"%string)); (4, (3%Z, "c"%string))] 10
              demo_wf eq_refl eq_refl ltac:(simpl; lia)) as (H6 & _).
  destruct (X7_predecessor demo_world (m_data demo) 3 Black demo_tree
              [(3, (1%Z, "a"%string)); (2, (2%Z, "b"%string))] 4 (3%Z, "c"%string) [] 10
              demo_wf eq_refl eq_refl ltac:(simpl; lia)) as (_ & _ & _ & H7 & _).
  split_and!; try done; by apply H7.
Defined.

(** ** Comparing two trees *)

Section Equality.
Context {K T : Type}.
Variable key_eq : K -> K -> bool.
Variable val_eq : T -> T -> bool.
Local Abbreviation Node := (@Node K T).
Local Abbreviation World := (@World K T).
Local Abbreviation tree := (@tree K T).
Local Abbreviation frame := (@frame K T).

(** [operator==] on entries: [std::pair]'s. *)
Definition entry_eq (x y : K * T) : bool := key_eq (fst x) (fst y) && val_eq (snd x) (snd y).

Definition entries_eq (l1 l2 : list (K * T)) : bool :=
  forallb (fun p => entry_eq (fst p) (snd p)) (zip l1 l2).

Lemma begin_spec (w : World) (tr : RBTree) np nc fuel t :
  wf w (m_data tr) np nc t ->
  t <> Lf ->
  (length (nodes t) + 1 < fuel)%nat ->
  begin_ fuel tr w = Done (mkIterator true (hd nullptr (nodes t).*1), w).
Proof.
  intros Hwf Hne Hfuel.
  destruct t as [|c l a kv r]; [done|].
  pose proof (height_le_nodes (Nd c l a kv r)) as Hh. cbn [height] in Hh.
  unfold begin_.
  rewrite (wf_root _ _ _ _ _ Hwf). simpl ptr_of.
  rewrite (bind_done _ _ _ _ _ (allLeft_spec w _ np nc fuel [] c l a kv r Hwf ltac:(lia))).
  unfold ret. f_equal. f_equal. f_equal.
  cbn [nodes]. rewrite leftmost_hd, fmap_app, fmap_cons, nodes_addrs.
  by rewrite hd_app_cons.
Qed.

Lemma std_equal_spec (w : World) lhs rhs np1 nc1 t1 np2 nc2 t2 fuel' :
  wf w lhs np1 nc1 t1 ->
  wf w rhs np2 nc2 t2 ->
  heap w !! nullptr = None ->
  (length (nodes t1) + 1 < fuel')%nat ->
  (length (nodes t2) + 1 < fuel')%nat ->
  forall post1 fuel pre1 pre2 post2,
  nodes t1 = pre1 ++ post1 ->
  nodes t2 = pre2 ++ post2 ->
  length post1 = length post2 ->
  (length post1 < fuel)%nat ->
  std_equal key_eq val_eq fuel fuel' lhs rhs
    (mkIterator true (hd nullptr post1.*1)) (mkIterator true nullptr)
    (mkIterator true (hd nullptr post2.*1)) w =
    Done (entries_eq post1.*2 post2.*2, w).
Proof.
  intros Hwf1 Hwf2 Hnull Hfuel1 Hfuel2.
  induction post1 as [|[a kv] post1 IH]; intros fuel pre1 pre2 post2 Heq1 Heq2 Hlen Hfuel.
  - destruct fuel as [|fuel]; [simpl in Hfuel; lia|]. done.
  - destruct fuel as [|fuel]; [simpl in Hfuel; lia|].
    destruct post2 as [|[b kvb] post2]; [done|].
    assert ((a, kv) ∈ nodes t1) as Hin1 by (rewrite Heq1; set_solver).
    assert ((b, kvb) ∈ nodes t2) as Hin2 by (rewrite Heq2; set_solver).
    destruct (rep_node_live _ _ _ _ _ _ (wf_rep _ _ _ _ _ Hwf1) Hin1) as (n1 & Hn1 & Hv1).
    destruct (rep_node_live _ _ _ _ _ _ (wf_rep _ _ _ _ _ Hwf2) Hin2) as (n2 & Hn2 & Hv2).
    assert (a <> nullptr) as Hne by (intros ->; congruence).
    cbn [std_equal]. unfold Iterator_eqb, Iterator_deref, Iterator_next. simpl.
    apply N.eqb_neq in Hne. rewrite Hne.
    rewrite (bind_done _ _ _ _ _ (get_value_done _ _ _ _ Hn1 Hv1)).
    rewrite (bind_done _ _ _ _ _ (get_value_done _ _ _ _ Hn2 Hv2)).
    unfold entries_eq. simpl. unfold entry_eq at 1. simpl.
    destruct (key_eq kv.1 kvb.1 && val_eq kv.2 kvb.2); simpl; [|done].
    rewrite bind_assoc.
    rewrite (bind_done _ _ _ _ _ (successor_next _ _ _ _ _ _ _ _ _ _ Hwf1 Heq1 Hfuel1)).
    rewrite bind_ret, bind_assoc.
    rewrite (bind_done _ _ _ _ _ (successor_next _ _ _ _ _ _ _ _ _ _ Hwf2 Heq2 Hfuel2)).
    rewrite bind_ret.
    apply (IH fuel (pre1 ++ [(a, kv)]) (pre2 ++ [(b, kvb)]) post2).
    + by rewrite <-app_assoc.
    + by rewrite <-app_assoc.
    + simpl in Hlen. lia.
    + simpl in Hfuel. lia.
Qed.

(** X8: [operator==] on two trees that live in the same heap, the
    left one not empty, both counting their entries in [m_size]: the
    comparison returns, reads only, and its result is [true] exactly
    when the allocators are equal, the sizes are equal and the
    entries are pairwise equal in order; the shapes of the trees play
    no part. *)
Theorem X8_equality_of_trees (w : World) lhs rhs np1 nc1 t1 np2 nc2 t2 fuel :
  wf w (m_data lhs) np1 nc1 t1 ->
  wf w (m_data rhs) np2 nc2 t2 ->
  heap w !! nullptr = None ->
  t1 <> Lf ->
  m_size lhs = N.of_nat (length (inorder t1)) ->
  m_size rhs = N.of_nat (length (inorder t2)) ->
  (length (inorder t1) + length (inorder t2) + 1 < fuel)%nat ->
  RBTree_eq key_eq val_eq fuel lhs rhs w =
    Done (Allocator_eqb (m_allocator lhs) (m_allocator rhs) &&
          (length (inorder t1) =? length (inorder t2))%nat &&
          entries_eq (inorder t1) (inorder t2), w).
Proof.
  intros Hwf1 Hwf2 Hnull Hne Hs1 Hs2 Hfuel.
  assert (length (nodes t1) = length (inorder t1)) as Hl1
    by by rewrite <-nodes_inorder, length_fmap.
  assert (length (nodes t2) = length (inorder t2)) as Hl2
    by by rewrite <-nodes_inorder, length_fmap.
  unfold RBTree_eq.
  destruct (Allocator_eqb (m_allocator lhs) (m_allocator rhs)); [|done]. simpl.
  rewrite Hs1, Hs2.
  destruct (Nat.eqb_spec (length (inorder t1)) (length (inorder t2))) as [E|E].
  - rewrite E, N.eqb_refl.
    assert (t2 <> Lf) as Hne2.
    { intros ->. destruct t1; [done|]. simpl in E. rewrite length_app in E. simpl in E. lia. }
    rewrite (bind_done _ _ _ _ _ (begin_spec w lhs np1 nc1 fuel t1 Hwf1 Hne ltac:(lia))).
    rewrite (bind_done _ _ _ _ _ (begin_spec w rhs np2 nc2 fuel t2 Hwf2 Hne2 ltac:(lia))).
    unfold end_.
    rewrite (std_equal_spec w _ _ np1 nc1 t1 np2 nc2 t2 fuel Hwf1 Hwf2 Hnull
               ltac:(lia) ltac:(lia) (nodes t1) fuel [] [] (nodes t2) eq_refl eq_refl
               ltac:(lia) ltac:(lia)).
    by rewrite !nodes_inorder.
  - destruct (N.eqb_spec (N.of_nat (length (inorder t1))) (N.of_nat (length (inorder t2))))
      as [E'|E']; [|done].
    apply Nat2N.inj in E'. done.
Qed.

End Equality.

Lemma X8_equality_witness :
  RBTree_eq Z.eqb String.eqb 10 demo demo demo_world = Done (true, demo_world).
Proof.
  exact (X8_equality_of_trees Z.eqb String.eqb demo_world demo demo 3 Black demo_tree
           3 Black demo_tree 10 demo_wf demo_wf eq_refl ltac:(done) eq_refl eq_refl
           ltac:(simpl; lia)).
Defined.

(** ** Copying an empty tree *)

Section CopyEmpty.
Context {K T : Type}.
Variable cmp : K -> K -> bool.
Variable key_eq : K -> K -> bool.
Local Abbreviation World := (@World K T).

(** X9: on every well-formed empty tree [begin()] is an iterator at
    the sentinel and differs from [end()], and the copy constructor,
    which inserts the range from [begin()] to [end()] of its
    argument, reads the payload of the sentinel, which has none. *)
Theorem X9_copy_of_empty_tree_faults (w : World) other np nc fuel :
  wf w (m_data other) np nc Lf ->
  heap w !! nullptr = None ->
  fresh_ok w ->
  can_allocate w (m_allocator other) ->
  begin_ (S fuel) other w = Done (mkIterator true (nil (m_data other)), w) /\
  Iterator_eqb (mkIterator true (nil (m_data other))) (end_ other) = false /\
  Iterator_deref (mkIterator true (nil (m_data other))) w = Fault /\
  RBTree_copy cmp key_eq (S fuel) other w = Fault.
Proof.
  intros Hwf Hnull Hfresh Hal.
  pose proof (wf_nil _ _ _ _ _ Hwf) as Hn.
  pose proof (wf_root _ _ _ _ _ Hwf) as Hrt. simpl in Hrt.
  assert (nil (m_data other) <> nullptr) as Hne by (intros E; rewrite E in Hn; congruence).
  assert (forall w' : World, heap w' !! nil (m_data other) = Some (sentinel (m_data other) np nc) ->
            begin_ (S fuel) other w' = Done (mkIterator true (nil (m_data other)), w')) as Hbegin.
  { intros w' Hn'. unfold begin_. rewrite Hrt.
    assert (wf w' (m_data other) np nc Lf) as Hwf'.
    { split; simpl; try done. apply NoDup_nil_2. }
    by rewrite (bind_done _ _ _ _ _ (allLeft_nil w' _ np nc fuel Lf Hwf')). }
  assert (forall w' : World, heap w' !! nil (m_data other) = Some (sentinel (m_data other) np nc) ->
            get_value (nil (m_data other)) w' = Fault) as Hderef.
  { intros w' Hn'. unfold get_value.
    by rewrite (bind_done _ _ _ _ _ (load_done _ _ _ Hn')). }
  split_and!.
  - by apply Hbegin.
  - unfold Iterator_eqb, end_. simpl. by apply N.eqb_neq.
  - by apply Hderef.
  - unfold RBTree_copy.
    destruct (RBTree_new_spec w (m_allocator other) Hal) as (cs & Hnew & _).
    rewrite (bind_done _ _ _ _ _ Hnew).
    set (w' := mkWorld _ _ cs).
    assert (heap w' !! nil (m_data other) = Some (sentinel (m_data other) np nc)) as Hn'.
    { simpl. rewrite lookup_insert_ne; [done|].
      intros E. apply elem_of_dom_2, Hfresh in Hn. lia. }
    rewrite (bind_done _ _ _ _ _ (Hbegin w' Hn')).
    cbn [insert_range]. unfold Iterator_eqb, end_, Iterator_deref. simpl.
    apply N.eqb_neq in Hne. rewrite Hne.
    unfold bind at 1. by rewrite (Hderef w' Hn').
Qed.

End CopyEmpty.

Lemma X9_copy_of_empty_tree_witness :
  RBTree_copy int_less Z.eqb 3 (mkRBTree (mkTreeBase 1 1) std_allocator 0)
    (mkWorld {[1 := mkNode nullptr 1 1 Black (@None (Z * string))]} 2 ∅) = Fault.
Proof.
  apply (X9_copy_of_empty_tree_faults int_less Z.eqb
           (mkWorld {[1 := mkNode nullptr 1 1 Black (@None (Z * string))]} 2 ∅)
           (mkRBTree (mkTreeBase 1 1) std_allocator 0) nullptr Black 2).
  - split; simpl; try done. apply NoDup_nil_2.
  - reflexivity.
  - intros a. simpl. rewrite dom_singleton_L. intros ->%elem_of_singleton. lia.
  - by left.
Defined.

(** ** What [insertFixup] computes *)

Section InsertBalance.
Context {K T : Type}.
Local Abbreviation Node := (@Node K T).
Local Abbreviation World := (@World K T).
Local Abbreviation tree := (@tree K T).
Local Abbreviation frame := (@frame K T).

(** One turn of the loop with a red uncle: parent and uncle become
    black, the grandparent red; the loop goes on at the grandparent. *)
Definition recolor_fix (f1 f2 : frame) (t : tree) : tree :=
  match f2 with
  | FL _ g kvg u => Nd Red (blacken (fill f1 t)) g kvg (blacken u)
  | FR _ u g kvg => Nd Red (blacken u) g kvg (blacken (fill f1 t))
  end.

(** The last turn, with a black uncle: an inner node is first rotated
    outwards; then the parent becomes black, the grandparent red, and
    the grandparent is rotated away from the node. *)
Definition rotate_fix (f1 f2 : frame) (t : tree) : tree :=
  match f1, f2 with
  | FL _ p kvp rp, FL _ g kvg u => Nd Black t p kvp (Nd Red rp g kvg u)
  | FR _ lp p kvp, FL _ g kvg u =>
      match t with
      | Nd _ l a kv r => Nd Black (Nd Red lp p kvp l) a kv (Nd Red r g kvg u)
      | Lf => Lf
      end
  | FL _ p kvp rp, FR _ u g kvg =>
      match t with
      | Nd _ l a kv r => Nd Black (Nd Red u g kvg l) a kv (Nd Red r p kvp rp)
      | Lf => Lf
      end
  | FR _ lp p kvp, FR _ u g kvg => Nd Black (Nd Red u g kvg lp) p kvp t
  end.

(** The tree [insertFixup] leaves, from the context of the node and
    the subtree at the node. *)
Fixpoint ins_fixup (ctx : list frame) (t : tree) : tree :=
  match ctx with
  | f1 :: f2 :: rest =>
      match frame_color f1 with
      | Black => blacken (plug ctx t)
      | Red =>
          match color_of Black (frame_sibling f2) with
          | Red => ins_fixup rest (recolor_fix f1 f2 t)
          | Black => blacken (plug rest (rotate_fix f1 f2 t))
          end
      end
  | _ => blacken (plug ctx t)
  end.

Lemma ins_fixup_black f1 ctx (t : tree) :
  frame_color f1 = Black -> ins_fixup (f1 :: ctx) t = blacken (plug (f1 :: ctx) t).
Proof. intros H. destruct ctx as [|f2 rest]; [done|]. simpl. by rewrite H. Qed.

Lemma insertFixup_refines fuel :
  forall (w : World) tb np ctx l a kv r,
  wf w tb np Black (plug ctx (Nd Red l a kv r)) ->
  (ctx <> [] -> root_black (plug ctx (Nd Red l a kv r))) ->
  (length ctx < fuel)%nat ->
  exists w' tb' np',
    insertFixup fuel tb a w = Done (tb', w') /\
    nil tb' = nil tb /\
    same_domain w w' /\
    wf w' tb' np' Black (ins_fixup ctx (Nd Red l a kv r)).
Proof.
  induction fuel as [|fuel IH]; intros w tb np ctx l a kv r Hwf Hroot Hfuel; [lia|].
  destruct ctx as [|f1 ctx].
  { destruct (insertFixup_exit w tb np fuel [] Red l a kv r Hwf I) as (w' & Hrun & Hdom & Hwf').
    exists w', tb, np. done. }
  destruct (frame_color f1) eqn:Hc1; cycle 1.
  { destruct (insertFixup_exit w tb np fuel (f1 :: ctx) Red l a kv r Hwf Hc1)
      as (w' & Hrun & Hdom & Hwf').
    exists w', tb, np. split_and!; try done. by rewrite ins_fixup_black. }
  destruct ctx as [|f2 rest].
  { specialize (Hroot ltac:(done)). destruct f1; simpl in *; unfold root_black in Hroot;
      simpl in Hroot; congruence. }
  assert (rest <> [] -> forall t', root_black (plug rest t')) as Hroot'.
  { intros Hne t'. destruct rest as [|f3 rest]; [done|].
    unfold root_black. rewrite (color_of_plug _ f3 rest t' (fill f2 (fill f1 (Nd Red l a kv r)))).
    apply Hroot. done. }
  simpl in Hfuel.
  destruct f1 as [cp p kvp rp|cp lp p kvp], f2 as [cg g kvg U|cg U g kvg];
    simpl in Hc1; subst cp; simpl in Hwf; destruct U as [|[|] lu u kvu ru].
  - (* node L, parent L, no uncle *)
    destruct (wf_neq_children _ _ _ _ rest _ _ g _ _ Hwf) as (_ & _ & Hg1 & Hg2).
    destruct (wf_neq_children _ _ _ _ (FL cg g kvg _ :: rest) _ _ p _ _ Hwf) as (_ & _ & Hp1 & Hp2).
    try (pose proof (Hg1 p ltac:(clear; simpl; set_solver))).
    try (pose proof (Hg2 p ltac:(clear; simpl; set_solver))).
    try (pose proof (Hp1 a ltac:(clear; simpl; set_solver))).
    try (pose proof (Hp2 a ltac:(clear; simpl; set_solver))).
    clear Hg1 Hg2 Hp1 Hp2.
    wf_facts Hwf rest. cbn [insertFixup]. unfold isLeftChild, isRightChild.
    repeat rstep.
    destruct (set_color_focus _ _ _ _ (FL cg g kvg _ :: rest) _ _ p _ _ Black Hwf)
      as (w1 & Hrun1 & Hdom1 & Hwf1).
    rewrite (bind_done _ _ _ _ _ Hrun1). clear Hrun1.
    wf_facts Hwf1 rest. repeat rstep.
    destruct (set_color_focus _ _ _ _ rest _ _ g _ _ Red Hwf1)
      as (w2 & Hrun2 & Hdom2 & Hwf2).
    rewrite (bind_done _ _ _ _ _ Hrun2). clear Hrun2.
    wf_facts Hwf2 rest. repeat rstep.
    destruct (rightRotate_spec _ _ _ _ rest _ _ _ _ _ _ _ _ _ Hwf2)
      as (w3 & tb3 & Hrun3 & Hnil3 & Hdom3 & HwfZ).
    rewrite (bind_done _ _ _ _ _ Hrun3). clear Hrun3.
    destruct fuel as [|fuel]; [lia|].
    destruct (insertFixup_exit _ _ _ fuel (FL Black p kvp _ :: rest) _ _ a _ _ HwfZ eq_refl)
      as (w' & Hrun' & Hdom' & Hwf').
    eexists w', tb3, _. split_and!; [exact Hrun'|done| |exact Hwf'].
    + by repeat (eapply same_domain_trans; [eassumption|]).
  - (* node L, parent L, red uncle *)
    destruct (wf_neq_children _ _ _ _ rest _ _ g _ _ Hwf) as (_ & _ & Hg1 & Hg2).
    destruct (wf_neq_children _ _ _ _ (FL cg g kvg _ :: rest) _ _ p _ _ Hwf) as (_ & _ & Hp1 & Hp2).
    try (pose proof (Hg1 p ltac:(clear; simpl; set_solver))).
    try (pose proof (Hg2 p ltac:(clear; simpl; set_solver))).
    try (pose proof (Hp1 a ltac:(clear; simpl; set_solver))).
    try (pose proof (Hp2 a ltac:(clear; simpl; set_solver))).
    clear Hg1 Hg2 Hp1 Hp2.
    wf_facts Hwf rest. cbn [insertFixup]. unfold isLeftChild, isRightChild.
    repeat rstep.
    destruct (set_color_focus _ _ _ _ (FL cg g kvg _ :: rest) _ _ p _ _ Black Hwf)
      as (w1 & Hrun1 & Hdom1 & Hwf1).
    rewrite (bind_done _ _ _ _ _ Hrun1). clear Hrun1.
    destruct (set_color_focus _ _ _ _ (FR cg _ g kvg :: rest) _ _ u _ _ Black Hwf1)
      as (w2 & Hrun2 & Hdom2 & Hwf2).
    rewrite (bind_done _ _ _ _ _ Hrun2). clear Hrun2.
    wf_facts Hwf2 rest. repeat rstep.
    destruct (set_color_focus _ _ _ _ rest _ _ g _ _ Red Hwf2)
      as (w3 & Hrun3 & Hdom3 & Hwf3).
    rewrite (bind_done _ _ _ _ _ Hrun3). clear Hrun3.
    wf_facts Hwf3 rest. repeat rstep.
    destruct (IH _ _ _ _ _ _ _ _ Hwf3) as (w' & tb' & np' & Hrun & Hnil & Hdom & Hwf').
    { intros Hne. by apply Hroot'. }
    { lia. }
    exists w', tb', np'. split_and!; try done.
    + by repeat (eapply same_domain_trans; [eassumption|]).
  - (* node L, parent L, black uncle *)
    destruct (wf_neq_children _ _ _ _ rest _ _ g _ _ Hwf) as (_ & _ & Hg1 & Hg2).
    destruct (wf_neq_children _ _ _ _ (FL cg g kvg _ :: rest) _ _ p _ _ Hwf) as (_ & _ & Hp1 & Hp2).
    try (pose proof (Hg1 p ltac:(clear; simpl; set_solver))).
    try (pose proof (Hg2 p ltac:(clear; simpl; set_solver))).
    try (pose proof (Hp1 a ltac:(clear; simpl; set_solver))).
    try (pose proof (Hp2 a ltac:(clear; simpl; set_solver))).
    clear Hg1 Hg2 Hp1 Hp2.
    wf_facts Hwf rest. cbn [insertFixup]. unfold isLeftChild, isRightChild.
    repeat rstep.
    destruct (set_color_focus _ _ _ _ (FL cg g kvg _ :: rest) _ _ p _ _ Black Hwf)
      as (w1 & Hrun1 & Hdom1 & Hwf1).
    rewrite (bind_done _ _ _ _ _ Hrun1). clear Hrun1.
    wf_facts Hwf1 rest. repeat rstep.
    destruct (set_color_focus _ _ _ _ rest _ _ g _ _ Red Hwf1)
      as (w2 & Hrun2 & Hdom2 & Hwf2).
    rewrite (bind_done _ _ _ _ _ Hrun2). clear Hrun2.
    wf_facts Hwf2 rest. repeat rstep.
    destruct (rightRotate_spec _ _ _ _ rest _ _ _ _ _ _ _ _ _ Hwf2)
      as (w3 & tb3 & Hrun3 & Hnil3 & Hdom3 & HwfZ).
    rewrite (bind_done _ _ _ _ _ Hrun3). clear Hrun3.
    destruct fuel as [|fuel]; [lia|].
    destruct (insertFixup_exit _ _ _ fuel (FL Black p kvp _ :: rest) _ _ a _ _ HwfZ eq_refl)
      as (w' & Hrun' & Hdom' & Hwf').
    eexists w', tb3, _. split_and!; [exact Hrun'|done| |exact Hwf'].
    + by repeat (eapply same_domain_trans; [eassumption|]).
  - (* node L, parent R, no uncle *)
    destruct (wf_neq_children _ _ _ _ rest _ _ g _ _ Hwf) as (_ & _ & Hg1 & Hg2).
    destruct (wf_neq_children _ _ _ _ (FR cg _ g kvg :: rest) _ _ p _ _ Hwf) as (_ & _ & Hp1 & Hp2).
    try (pose proof (Hg1 p ltac:(clear; simpl; set_solver))).
    try (pose proof (Hg2 p ltac:(clear; simpl; set_solver))).
    try (pose proof (Hp1 a ltac:(clear; simpl; set_solver))).
    try (pose proof (Hp2 a ltac:(clear; simpl; set_solver))).
    clear Hg1 Hg2 Hp1 Hp2.
    wf_facts Hwf rest. cbn [insertFixup]. unfold isLeftChild, isRightChild.
    repeat rstep.
    destruct (rightRotate_spec _ _ _ _ (FR cg _ g kvg :: rest) _ _ _ _ _ _ _ _ _ Hwf)
      as (w1 & tb1 & Hrun1 & Hnil1 & Hdom1 & Hwf1).
    rewrite (bind_done _ _ _ _ _ Hrun1). clear Hrun1.
    wf_facts Hwf1 rest. rewrite Hnil1 in *. repeat rstep.
    destruct (set_color_focus _ _ _ _ (FR cg _ g kvg :: rest) _ _ a _ _ Black Hwf1)
      as (w2 & Hrun2 & Hdom2 & Hwf2).
    rewrite (bind_done _ _ _ _ _ Hrun2). clear Hrun2.
    wf_facts Hwf2 rest. rewrite ?Hnil1 in *. repeat rstep.
    destruct (set_color_focus _ _ _ _ rest _ _ g _ _ Red Hwf2)
      as (w3 & Hrun3 & Hdom3 & Hwf3).
    rewrite (bind_done _ _ _ _ _ Hrun3). clear Hrun3.
    wf_facts Hwf3 rest. rewrite ?Hnil1 in *. repeat rstep.
    destruct (leftRotate_spec _ _ _ _ rest _ _ _ _ _ _ _ _ _ Hwf3)
      as (w4 & tb4 & Hrun4 & Hnil4 & Hdom4 & HwfZ).
    rewrite (bind_done _ _ _ _ _ Hrun4). clear Hrun4.
    destruct fuel as [|fuel]; [lia|].
    destruct (insertFixup_exit _ _ _ fuel (FR Black _ a kv :: rest) _ _ p _ _ HwfZ eq_refl)
      as (w' & Hrun' & Hdom' & Hwf').
    eexists w', tb4, _. split_and!; [exact Hrun'|congruence| |exact Hwf'].
    + by repeat (eapply same_domain_trans; [eassumption|]).
  - (* node L, parent R, red uncle *)
    destruct (wf_neq_children _ _ _ _ rest _ _ g _ _ Hwf) as (_ & _ & Hg1 & Hg2).
    destruct (wf_neq_children _ _ _ _ (FR cg _ g kvg :: rest) _ _ p _ _ Hwf) as (_ & _ & Hp1 & Hp2).
    try (pose proof (Hg1 p ltac:(clear; simpl; set_solver))).
    try (pose proof (Hg2 p ltac:(clear; simpl; set_solver))).
    try (pose proof (Hp1 a ltac:(clear; simpl; set_solver))).
    try (pose proof (Hp2 a ltac:(clear; simpl; set_solver))).
    clear Hg1 Hg2 Hp1 Hp2.
    wf_facts Hwf rest. cbn [insertFixup]. unfold isLeftChild, isRightChild.
    repeat rstep.
    destruct (set_color_focus _ _ _ _ (FR cg _ g kvg :: rest) _ _ p _ _ Black Hwf)
      as (w1 & Hrun1 & Hdom1 & Hwf1).
    rewrite (bind_done _ _ _ _ _ Hrun1). clear Hrun1.
    destruct (set_color_focus _ _ _ _ (FL cg g kvg _ :: rest) _ _ u _ _ Black Hwf1)
      as (w2 & Hrun2 & Hdom2 & Hwf2).
    rewrite (bind_done _ _ _ _ _ Hrun2). clear Hrun2.
    wf_facts Hwf2 rest. repeat rstep.
    destruct (set_color_focus _ _ _ _ rest _ _ g _ _ Red Hwf2)
      as (w3 & Hrun3 & Hdom3 & Hwf3).
    rewrite (bind_done _ _ _ _ _ Hrun3). clear Hrun3.
    wf_facts Hwf3 rest. repeat rstep.
    destruct (IH _ _ _ _ _ _ _ _ Hwf3) as (w' & tb' & np' & Hrun & Hnil & Hdom & Hwf').
    { intros Hne. by apply Hroot'. }
    { lia. }
    exists w', tb', np'. split_and!; try done.
    + by repeat (eapply same_domain_trans; [eassumption|]).
  - (* node L, parent R, black uncle *)
    destruct (wf_neq_children _ _ _ _ rest _ _ g _ _ Hwf) as (_ & _ & Hg1 & Hg2).
    destruct (wf_neq_children _ _ _ _ (FR cg _ g kvg :: rest) _ _ p _ _ Hwf) as (_ & _ & Hp1 & Hp2).
    try (pose proof (Hg1 p ltac:(clear; simpl; set_solver))).
    try (pose proof (Hg2 p ltac:(clear; simpl; set_solver))).
    try (pose proof (Hp1 a ltac:(clear; simpl; set_solver))).
    try (pose proof (Hp2 a ltac:(clear; simpl; set_solver))).
    clear Hg1 Hg2 Hp1 Hp2.
    wf_facts Hwf rest. cbn [insertFixup]. unfold isLeftChild, isRightChild.
    repeat rstep.
    destruct (rightRotate_spec _ _ _ _ (FR cg _ g kvg :: rest) _ _ _ _ _ _ _ _ _ Hwf)
      as (w1 & tb1 & Hrun1 & Hnil1 & Hdom1 & Hwf1).
    rewrite (bind_done _ _ _ _ _ Hrun1). clear Hrun1.
    wf_facts Hwf1 rest. rewrite Hnil1 in *. repeat rstep.
    destruct (set_color_focus _ _ _ _ (FR cg _ g kvg :: rest) _ _ a _ _ Black Hwf1)
      as (w2 & Hrun2 & Hdom2 & Hwf2).
    rewrite (bind_done _ _ _ _ _ Hrun2). clear Hrun2.
    wf_facts Hwf2 rest. rewrite ?Hnil1 in *. repeat rstep.
    destruct (set_color_focus _ _ _ _ rest _ _ g _ _ Red Hwf2)
      as (w3 & Hrun3 & Hdom3 & Hwf3).
    rewrite (bind_done _ _ _ _ _ Hrun3). clear Hrun3.
    wf_facts Hwf3 rest. rewrite ?Hnil1 in *. repeat rstep.
    destruct (leftRotate_spec _ _ _ _ rest _ _ _ _ _ _ _ _ _ Hwf3)
      as (w4 & tb4 & Hrun4 & Hnil4 & Hdom4 & HwfZ).
    rewrite (bind_done _ _ _ _ _ Hrun4). clear Hrun4.
    destruct fuel as [|fuel]; [lia|].
    destruct (insertFixup_exit _ _ _ fuel (FR Black _ a kv :: rest) _ _ p _ _ HwfZ eq_refl)
      as (w' & Hrun' & Hdom' & Hwf').
    eexists w', tb4, _. split_and!; [exact Hrun'|congruence| |exact Hwf'].
    + by repeat (eapply same_domain_trans; [eassumption|]).
  - (* node R, parent L, no uncle *)
    destruct (wf_neq_children _ _ _ _ rest _ _ g _ _ Hwf) as (_ & _ & Hg1 & Hg2).
    destruct (wf_neq_children _ _ _ _ (FL cg g kvg _ :: rest) _ _ p _ _ Hwf) as (_ & _ & Hp1 & Hp2).
    try (pose proof (Hg1 p ltac:(clear; simpl; set_solver))).
    try (pose proof (Hg2 p ltac:(clear; simpl; set_solver))).
    try (pose proof (Hp1 a ltac:(clear; simpl; set_solver))).
    try (pose proof (Hp2 a ltac:(clear; simpl; set_solver))).
    clear Hg1 Hg2 Hp1 Hp2.
    wf_facts Hwf rest. cbn [insertFixup]. unfold isLeftChild, isRightChild.
    repeat rstep.
    destruct (leftRotate_spec _ _ _ _ (FL cg g kvg _ :: rest) _ _ _ _ _ _ _ _ _ Hwf)
      as (w1 & tb1 & Hrun1 & Hnil1 & Hdom1 & Hwf1).
    rewrite (bind_done _ _ _ _ _ Hrun1). clear Hrun1.
    wf_facts Hwf1 rest. rewrite Hnil1 in *. repeat rstep.
    destruct (set_color_focus _ _ _ _ (FL cg g kvg _ :: rest) _ _ a _ _ Black Hwf1)
      as (w2 & Hrun2 & Hdom2 & Hwf2).
    rewrite (bind_done _ _ _ _ _ Hrun2). clear Hrun2.
    wf_facts Hwf2 rest. rewrite ?Hnil1 in *. repeat rstep.
    destruct (set_color_focus _ _ _ _ rest _ _ g _ _ Red Hwf2)
      as (w3 & Hrun3 & Hdom3 & Hwf3).
    rewrite (bind_done _ _ _ _ _ Hrun3). clear Hrun3.
    wf_facts Hwf3 rest. rewrite ?Hnil1 in *. repeat rstep.
    destruct (rightRotate_spec _ _ _ _ rest _ _ _ _ _ _ _ _ _ Hwf3)
      as (w4 & tb4 & Hrun4 & Hnil4 & Hdom4 & HwfZ).
    rewrite (bind_done _ _ _ _ _ Hrun4). clear Hrun4.
    destruct fuel as [|fuel]; [lia|].
    destruct (insertFixup_exit _ _ _ fuel (FL Black a kv _ :: rest) _ _ p _ _ HwfZ eq_refl)
      as (w' & Hrun' & Hdom' & Hwf').
    eexists w', tb4, _. split_and!; [exact Hrun'|congruence| |exact Hwf'].
    + by repeat (eapply same_domain_trans; [eassumption|]).
  - (* node R, parent L, red uncle *)
    destruct (wf_neq_children _ _ _ _ rest _ _ g _ _ Hwf) as (_ & _ & Hg1 & Hg2).
    destruct (wf_neq_children _ _ _ _ (FL cg g kvg _ :: rest) _ _ p _ _ Hwf) as (_ & _ & Hp1 & Hp2).
    try (pose proof (Hg1 p ltac:(clear; simpl; set_solver))).
    try (pose proof (Hg2 p ltac:(clear; simpl; set_solver))).
    try (pose proof (Hp1 a ltac:(clear; simpl; set_solver))).
    try (pose proof (Hp2 a ltac:(clear; simpl; set_solver))).
    clear Hg1 Hg2 Hp1 Hp2.
    wf_facts Hwf rest. cbn [insertFixup]. unfold isLeftChild, isRightChild.
    repeat rstep.
    destruct (set_color_focus _ _ _ _ (FL cg g kvg _ :: rest) _ _ p _ _ Black Hwf)
      as (w1 & Hrun1 & Hdom1 & Hwf1).
    rewrite (bind_done _ _ _ _ _ Hrun1). clear Hrun1.
    destruct (set_color_focus _ _ _ _ (FR cg _ g kvg :: rest) _ _ u _ _ Black Hwf1)
      as (w2 & Hrun2 & Hdom2 & Hwf2).
    rewrite (bind_done _ _ _ _ _ Hrun2). clear Hrun2.
    wf_facts Hwf2 rest. repeat rstep.
    destruct (set_color_focus _ _ _ _ rest _ _ g _ _ Red Hwf2)
      as (w3 & Hrun3 & Hdom3 & Hwf3).
    rewrite (bind_done _ _ _ _ _ Hrun3). clear Hrun3.
    wf_facts Hwf3 rest. repeat rstep.
    destruct (IH _ _ _ _ _ _ _ _ Hwf3) as (w' & tb' & np' & Hrun & Hnil & Hdom & Hwf').
    { intros Hne. by apply Hroot'. }
    { lia. }
    exists w', tb', np'. split_and!; try done.
    + by repeat (eapply same_domain_trans; [eassumption|]).
  - (* node R, parent L, black uncle *)
    destruct (wf_neq_children _ _ _ _ rest _ _ g _ _ Hwf) as (_ & _ & Hg1 & Hg2).
    destruct (wf_neq_children _ _ _ _ (FL cg g kvg _ :: rest) _ _ p _ _ Hwf) as (_ & _ & Hp1 & Hp2).
    try (pose proof (Hg1 p ltac:(clear; simpl; set_solver))).
    try (pose proof (Hg2 p ltac:(clear; simpl; set_solver))).
    try (pose proof (Hp1 a ltac:(clear; simpl; set_solver))).
    try (pose proof (Hp2 a ltac:(clear; simpl; set_solver))).
    clear Hg1 Hg2 Hp1 Hp2.
    wf_facts Hwf rest. cbn [insertFixup]. unfold isLeftChild, isRightChild.
    repeat rstep.
    destruct (leftRotate_spec _ _ _ _ (FL cg g kvg _ :: rest) _ _ _ _ _ _ _ _ _ Hwf)
      as (w1 & tb1 & Hrun1 & Hnil1 & Hdom1 & Hwf1).
    rewrite (bind_done _ _ _ _ _ Hrun1). clear Hrun1.
    wf_facts Hwf1 rest. rewrite Hnil1 in *. repeat rstep.
    destruct (set_color_focus _ _ _ _ (FL cg g kvg _ :: rest) _ _ a _ _ Black Hwf1)
      as (w2 & Hrun2 & Hdom2 & Hwf2).
    rewrite (bind_done _ _ _ _ _ Hrun2). clear Hrun2.
    wf_facts Hwf2 rest. rewrite ?Hnil1 in *. repeat rstep.
    destruct (set_color_focus _ _ _ _ rest _ _ g _ _ Red Hwf2)
      as (w3 & Hrun3 & Hdom3 & Hwf3).
    rewrite (bind_done _ _ _ _ _ Hrun3). clear Hrun3.
    wf_facts Hwf3 rest. rewrite ?Hnil1 in *. repeat rstep.
    destruct (rightRotate_spec _ _ _ _ rest _ _ _ _ _ _ _ _ _ Hwf3)
      as (w4 & tb4 & Hrun4 & Hnil4 & Hdom4 & HwfZ).
    rewrite (bind_done _ _ _ _ _ Hrun4). clear Hrun4.
    destruct fuel as [|fuel]; [lia|].
    destruct (insertFixup_exit _ _ _ fuel (FL Black a kv _ :: rest) _ _ p _ _ HwfZ eq_refl)
      as (w' & Hrun' & Hdom' & Hwf').
    eexists w', tb4, _. split_and!; [exact Hrun'|congruence| |exact Hwf'].
    + by repeat (eapply same_domain_trans; [eassumption|]).
  - (* node R, parent R, no uncle *)
    destruct (wf_neq_children _ _ _ _ rest _ _ g _ _ Hwf) as (_ & _ & Hg1 & Hg2).
    destruct (wf_neq_children _ _ _ _ (FR cg _ g kvg :: rest) _ _ p _ _ Hwf) as (_ & _ & Hp1 & Hp2).
    try (pose proof (Hg1 p ltac:(clear; simpl; set_solver))).
    try (pose proof (Hg2 p ltac:(clear; simpl; set_solver))).
    try (pose proof (Hp1 a ltac:(clear; simpl; set_solver))).
    try (pose proof (Hp2 a ltac:(clear; simpl; set_solver))).
    clear Hg1 Hg2 Hp1 Hp2.
    wf_facts Hwf rest. cbn [insertFixup]. unfold isLeftChild, isRightChild.
    repeat rstep.
    destruct (set_color_focus _ _ _ _ (FR cg _ g kvg :: rest) _ _ p _ _ Black Hwf)
      as (w1 & Hrun1 & Hdom1 & Hwf1).
    rewrite (bind_done _ _ _ _ _ Hrun1). clear Hrun1.
    wf_facts Hwf1 rest. repeat rstep.
    destruct (set_color_focus _ _ _ _ rest _ _ g _ _ Red Hwf1)
      as (w2 & Hrun2 & Hdom2 & Hwf2).
    rewrite (bind_done _ _ _ _ _ Hrun2). clear Hrun2.
    wf_facts Hwf2 rest. repeat rstep.
    destruct (leftRotate_spec _ _ _ _ rest _ _ _ _ _ _ _ _ _ Hwf2)
      as (w3 & tb3 & Hrun3 & Hnil3 & Hdom3 & HwfZ).
    rewrite (bind_done _ _ _ _ _ Hrun3). clear Hrun3.
    destruct fuel as [|fuel]; [lia|].
    destruct (insertFixup_exit _ _ _ fuel (FR Black _ p kvp :: rest) _ _ a _ _ HwfZ eq_refl)
      as (w' & Hrun' & Hdom' & Hwf').
    eexists w', tb3, _. split_and!; [exact Hrun'|done| |exact Hwf'].
    + by repeat (eapply same_domain_trans; [eassumption|]).
  - (* node R, parent R, red uncle *)
    destruct (wf_neq_children _ _ _ _ rest _ _ g _ _ Hwf) as (_ & _ & Hg1 & Hg2).
    destruct (wf_neq_children _ _ _ _ (FR cg _ g kvg :: rest) _ _ p _ _ Hwf) as (_ & _ & Hp1 & Hp2).
    try (pose proof (Hg1 p ltac:(clear; simpl; set_solver))).
    try (pose proof (Hg2 p ltac:(clear; simpl; set_solver))).
    try (pose proof (Hp1 a ltac:(clear; simpl; set_solver))).
    try (pose proof (Hp2 a ltac:(clear; simpl; set_solver))).
    clear Hg1 Hg2 Hp1 Hp2.
    wf_facts Hwf rest. cbn [insertFixup]. unfold isLeftChild, isRightChild.
    repeat rstep.
    destruct (set_color_focus _ _ _ _ (FR cg _ g kvg :: rest) _ _ p _ _ Black Hwf)
      as (w1 & Hrun1 & Hdom1 & Hwf1).
    rewrite (bind_done _ _ _ _ _ Hrun1). clear Hrun1.
    destruct (set_color_focus _ _ _ _ (FL cg g kvg _ :: rest) _ _ u _ _ Black Hwf1)
      as (w2 & Hrun2 & Hdom2 & Hwf2).
    rewrite (bind_done _ _ _ _ _ Hrun2). clear Hrun2.
    wf_facts Hwf2 rest. repeat rstep.
    destruct (set_color_focus _ _ _ _ rest _ _ g _ _ Red Hwf2)
      as (w3 & Hrun3 & Hdom3 & Hwf3).
    rewrite (bind_done _ _ _ _ _ Hrun3). clear Hrun3.
    wf_facts Hwf3 rest. repeat rstep.
    destruct (IH _ _ _ _ _ _ _ _ Hwf3) as (w' & tb' & np' & Hrun & Hnil & Hdom & Hwf').
    { intros Hne. by apply Hroot'. }
    { lia. }
    exists w', tb', np'. split_and!; try done.
    + by repeat (eapply same_domain_trans; [eassumption|]).
  - (* node R, parent R, black uncle *)
    destruct (wf_neq_children _ _ _ _ rest _ _ g _ _ Hwf) as (_ & _ & Hg1 & Hg2).
    destruct (wf_neq_children _ _ _ _ (FR cg _ g kvg :: rest) _ _ p _ _ Hwf) as (_ & _ & Hp1 & Hp2).
    try (pose proof (Hg1 p ltac:(clear; simpl; set_solver))).
    try (pose proof (Hg2 p ltac:(clear; simpl; set_solver))).
    try (pose proof (Hp1 a ltac:(clear; simpl; set_solver))).
    try (pose proof (Hp2 a ltac:(clear; simpl; set_solver))).
    clear Hg1 Hg2 Hp1 Hp2.
    wf_facts Hwf rest. cbn [insertFixup]. unfold isLeftChild, isRightChild.
    repeat rstep.
    destruct (set_color_focus _ _ _ _ (FR cg _ g kvg :: rest) _ _ p _ _ Black Hwf)
      as (w1 & Hrun1 & Hdom1 & Hwf1).
    rewrite (bind_done _ _ _ _ _ Hrun1). clear Hrun1.
    wf_facts Hwf1 rest. repeat rstep.
    destruct (set_color_focus _ _ _ _ rest _ _ g _ _ Red Hwf1)
      as (w2 & Hrun2 & Hdom2 & Hwf2).
    rewrite (bind_done _ _ _ _ _ Hrun2). clear Hrun2.
    wf_facts Hwf2 rest. repeat rstep.
    destruct (leftRotate_spec _ _ _ _ rest _ _ _ _ _ _ _ _ _ Hwf2)
      as (w3 & tb3 & Hrun3 & Hnil3 & Hdom3 & HwfZ).
    rewrite (bind_done _ _ _ _ _ Hrun3). clear Hrun3.
    destruct fuel as [|fuel]; [lia|].
    destruct (insertFixup_exit _ _ _ fuel (FR Black _ p kvp :: rest) _ _ a _ _ HwfZ eq_refl)
      as (w' & Hrun' & Hdom' & Hwf').
    eexists w', tb3, _. split_and!; [exact Hrun'|done| |exact Hwf'].
    + by repeat (eapply same_domain_trans; [eassumption|]).
Qed.

End InsertBalance.

(** ** The red-black invariants under [insertFixup] *)

Section RedBlack.
Context {K T : Type}.
Local Abbreviation Node := (@Node K T).
Local Abbreviation World := (@World K T).
Local Abbreviation tree := (@tree K T).
Local Abbreviation frame := (@frame K T).

(** I2: no red node has a red child. *)
Fixpoint no_red_red (t : tree) : Prop :=
  match t with
  | Lf => True
  | Nd c l _ _ r =>
      (c = Red -> color_of Black l = Black /\ color_of Black r = Black) /\
      no_red_red l /\ no_red_red r
  end.

(** I2 for the frames of a context; what is put into the hole is
    left open. *)
Fixpoint ctx_nrr (ctx : list frame) : Prop :=
  match ctx with
  | [] => True
  | f :: ctx' =>
      no_red_red (frame_sibling f) /\
      (frame_color f = Red ->
         color_of Black (frame_sibling f) = Black /\
         match ctx' with [] => True | g :: _ => frame_color g = Black end) /\
      ctx_nrr ctx'
  end.

Definition hole_black (ctx : list frame) (t : tree) : Prop :=
  match ctx with
  | [] => True
  | f :: _ => frame_color f = Red -> color_of Black t = Black
  end.

Lemma color_of_fill f (t : tree) : color_of Black (fill f t) = frame_color f.
Proof. by destruct f. Qed.

Lemma nrr_fill f (t : tree) :
  no_red_red (fill f t) <->
  no_red_red t /\ no_red_red (frame_sibling f) /\
  (frame_color f = Red -> color_of Black t = Black /\ color_of Black (frame_sibling f) = Black).
Proof. destruct f; simpl; tauto. Qed.

Lemma nrr_plug ctx (t : tree) :
  no_red_red (plug ctx t) <-> no_red_red t /\ ctx_nrr ctx /\ hole_black ctx t.
Proof.
  revert t. induction ctx as [|f ctx IH]; intros t; simpl; [tauto|].
  rewrite IH, nrr_fill. unfold hole_black.
  destruct ctx as [|g ctx]; simpl; rewrite ?color_of_fill; [tauto|].
  destruct (frame_color f), (frame_color g); intuition congruence.
Qed.

Lemma nrr_blacken (t : tree) : no_red_red t -> no_red_red (blacken t).
Proof. destruct t; simpl; [done|]. intros (_ & Hl & Hr). by split_and!. Qed.

Lemma bh_blacken (t : tree) : is_Some (bh t) -> is_Some (bh (blacken t)).
Proof.
  destruct t as [|c l a kv r]; simpl; [done|].
  destruct (bh l), (bh r); try done. destruct (_ =? _)%nat; [|done].
  intros _. by eexists.
Qed.

(** A red tree painted black is one higher. *)
Lemma bh_blacken_red (t : tree) n :
  color_of Black t = Red -> bh t = Some n -> bh (blacken t) = Some (S n).
Proof.
  destruct t as [|[] l a kv r]; simpl; try done. intros _.
  destruct (bh l), (bh r); try done. destruct (_ =? _)%nat; [|done].
  by intros [= ->].
Qed.

Lemma bh_node c (l : tree) a kv (r : tree) n :
  bh l = Some n -> bh r = Some n ->
  bh (Nd c l a kv r) = Some (match c with Black => S n | Red => n end).
Proof. intros Hl Hr. simpl. by rewrite Hl, Hr, Nat.eqb_refl. Qed.

Lemma bh_plug_intro ctx (t : tree) n :
  bh t = Some n -> hole_bh ctx n -> is_Some (bh (plug ctx t)).
Proof.
  revert t n. induction ctx as [|f ctx IH]; intros t n Ht Hh; simpl.
  - by eexists.
  - destruct Hh as [Hs Hh]. eapply IH; [|exact Hh].
    destruct f as [c a kv r|c l a kv]; simpl frame_sibling in *; simpl frame_color;
      [apply (bh_node c t a kv r)|apply (bh_node c l a kv t)]; done.
Qed.

Lemma recolor_fix_ok f1 f2 (t : tree) n :
  no_red_red t -> no_red_red (frame_sibling f1) -> no_red_red (frame_sibling f2) ->
  bh t = Some n -> bh (frame_sibling f1) = Some n -> bh (frame_sibling f2) = Some n ->
  color_of Black (frame_sibling f2) = Red ->
  no_red_red (recolor_fix f1 f2 t) /\ bh (recolor_fix f1 f2 t) = Some (S n).
Proof.
  intros Ht H1 H2 Bt B1 B2 Hred.
  assert (no_red_red (blacken (fill f1 t))) as Hp.
  { destruct f1; simpl in *; by split_and!. }
  assert (bh (blacken (fill f1 t)) = Some (S n)) as Bp.
  { destruct f1 as [c a kv r|c l a kv]; simpl frame_sibling in *; simpl fill; simpl blacken;
      [apply (bh_node Black t a kv r)|apply (bh_node Black l a kv t)]; done. }
  pose proof (nrr_blacken _ H2) as Hu.
  pose proof (bh_blacken_red _ _ Hred B2) as Bu.
  assert (forall x : tree, color_of Black (blacken x) = Black) as Hb by (by intros []).
  destruct f2 as [c g kvg u|c u g kvg]; simpl frame_sibling in *; simpl recolor_fix.
  - split; [simpl; by rewrite !Hb|]. by apply (bh_node Red).
  - split; [simpl; by rewrite !Hb|]. by apply (bh_node Red).
Qed.

Lemma rotate_fix_ok f1 f2 (t : tree) n :
  color_of Black t = Red ->
  no_red_red t -> no_red_red (frame_sibling f1) -> no_red_red (frame_sibling f2) ->
  bh t = Some n -> bh (frame_sibling f1) = Some n -> bh (frame_sibling f2) = Some n ->
  color_of Black (frame_sibling f1) = Black ->
  color_of Black (frame_sibling f2) = Black ->
  no_red_red (rotate_fix f1 f2 t) /\ bh (rotate_fix f1 f2 t) = Some (S n) /\
  color_of Black (rotate_fix f1 f2 t) = Black.
Proof.
  intros Hred Ht H1 H2 Bt B1 B2 C1 C2.
  destruct t as [|[] l a kv r]; try done.
  destruct (bh_Nd _ _ _ _ _ _ Bt) as (m & Bl & Br & ->).
  destruct Ht as (Hc & Hl & Hr). destruct (Hc eq_refl) as [Cl Cr].
  destruct f1 as [c1 p kvp rp|c1 lp p kvp], f2 as [c2 g kvg u|c2 u g kvg];
    simpl frame_sibling in *; simpl rotate_fix.
  - split_and!; [simpl; by split_and! | |done].
    apply (bh_node Black); [done|]. by apply (bh_node Red).
  - split_and!; [simpl; by split_and! | |done].
    apply (bh_node Black); by apply (bh_node Red).
  - split_and!; [simpl; by split_and! | |done].
    apply (bh_node Black); by apply (bh_node Red).
  - split_and!; [simpl; by split_and! | |done].
    apply (bh_node Black); [|done]. by apply (bh_node Red).
Qed.

(** [insertFixup] mends the one place where a red node has a red
    parent and keeps the black heights: its result satisfies I2 and
    I3 and has a black root. *)
Lemma ins_fixup_rb k :
  forall ctx (t : tree) n,
  (length ctx <= k)%nat ->
  color_of Black t = Red ->
  no_red_red t ->
  bh t = Some n ->
  ctx_nrr ctx ->
  hole_bh ctx n ->
  (ctx <> [] -> root_black (plug ctx t)) ->
  no_red_red (ins_fixup ctx t) /\ root_black (ins_fixup ctx t) /\
  is_Some (bh (ins_fixup ctx t)).
Proof.
  induction k as [k IH] using lt_wf_ind.
  intros ctx t n Hk Hred Ht Bt Hctx Hh Hroot.
  assert (forall x : tree, no_red_red x -> is_Some (bh x) ->
            no_red_red (blacken x) /\ root_black (blacken x) /\ is_Some (bh (blacken x)))
    as Hfin.
  { intros x Hx Bx. split_and!; [by apply nrr_blacken|apply root_black_blacken|by apply bh_blacken]. }
  destruct ctx as [|f1 [|f2 rest]].
  - simpl. apply Hfin; [done|by eexists].
  - specialize (Hroot ltac:(done)). unfold root_black in Hroot. simpl in Hroot.
    rewrite color_of_fill in Hroot.
    change (ins_fixup [f1] t) with (blacken (plug [f1] t)).
    apply Hfin; [|by apply (bh_plug_intro _ _ n)].
    apply nrr_plug. split_and!; [done|done|]. simpl. congruence.
  - cbn [ins_fixup].
    destruct (frame_color f1) eqn:Hc1; cycle 1.
    { apply Hfin; [|by apply (bh_plug_intro _ _ n)].
      apply nrr_plug. split_and!; [done|done|]. simpl. congruence. }
    destruct Hctx as (N1 & Hf1 & N2 & Hf2 & Hrest).
    destruct (Hf1 Hc1) as [C1 Hc2]. simpl in Hc2.
    destruct Hh as (B1 & B2 & Hh). rewrite Hc1 in B2. rewrite Hc1, Hc2 in Hh.
    destruct (color_of Black (frame_sibling f2)) eqn:Hu.
    + destruct (recolor_fix_ok f1 f2 t n Ht N1 N2 Bt B1 B2 Hu) as [Hn Hb].
      apply (IH (length rest) ltac:(simpl in Hk; lia) rest _ (S n)); try done.
      * by destruct f2.
      * intros Hne. destruct rest as [|f3 rest]; [done|].
        unfold root_black.
        rewrite (color_of_plug _ f3 rest _ (fill f2 (fill f1 t))). by apply Hroot.
    + destruct (rotate_fix_ok f1 f2 t n Hred Ht N1 N2 Bt B1 B2 C1 Hu) as (Hn & Hb & Hc).
      apply Hfin; [|by apply (bh_plug_intro _ _ (S n))].
      apply nrr_plug. split_and!; [done|done|].
      destruct rest; simpl; done.
Qed.

Lemma nodes_rotate_fix f1 f2 c l a kv (r : tree) :
  nodes (rotate_fix f1 f2 (Nd c l a kv r)) = nodes (fill f2 (fill f1 (Nd c l a kv r))).
Proof. destruct f1, f2; simpl; by repeat (rewrite <-app_assoc; simpl). Qed.

Lemma nodes_recolor_fix f1 f2 (t : tree) :
  nodes (recolor_fix f1 f2 t) = nodes (fill f2 (fill f1 t)).
Proof. destruct f1, f2; simpl; by rewrite !nodes_blacken. Qed.

(** [insertFixup] keeps the nodes and their order. *)
Lemma nodes_ins_fixup k :
  forall ctx c l a kv (r : tree),
  (length ctx <= k)%nat ->
  nodes (ins_fixup ctx (Nd c l a kv r)) = nodes (plug ctx (Nd c l a kv r)).
Proof.
  induction k as [k IH] using lt_wf_ind. intros ctx c l a kv r Hk.
  destruct ctx as [|f1 [|f2 rest]]; [done|cbn [ins_fixup]; by rewrite nodes_blacken|].
  cbn [ins_fixup].
  destruct (frame_color f1); [|by rewrite nodes_blacken].
  destruct (color_of Black (frame_sibling f2)).
  - destruct f2 as [c2 g kvg u|c2 u g kvg]; simpl recolor_fix.
    + rewrite (IH (length rest) ltac:(simpl in Hk; lia)) by done.
      apply (nodes_plug_congr rest). simpl. by rewrite !nodes_blacken.
    + rewrite (IH (length rest) ltac:(simpl in Hk; lia)) by done.
      apply (nodes_plug_congr rest). simpl. by rewrite !nodes_blacken.
  - rewrite nodes_blacken. apply (nodes_plug_congr rest). apply nodes_rotate_fix.
Qed.

End RedBlack.

(** ** [insert] keeps the invariants *)

Section InsertInvariants.
Context {K T : Type}.
Variable cmp : K -> K -> bool.
Variable key_eq : K -> K -> bool.
Local Abbreviation Node := (@Node K T).
Local Abbreviation World := (@World K T).
Local Abbreviation tree := (@tree K T).
Local Abbreviation frame := (@frame K T).

(** [insert] of a key the lookup misses, with the tree it leaves. *)
Lemma insert_miss_balanced (w : World) tr np t kv fuel :
  wf w (m_data tr) np Black t ->
  root_black t ->
  fresh_ok w ->
  can_allocate w (m_allocator tr) ->
  hit cmp key_eq (fst kv) t = None ->
  (descend cmp (fst kv) [] t).2 = Lf ->
  (length (nodes t) + 1 < fuel)%nat ->
  exists w' tr' np',
    insert cmp key_eq fuel tr kv w = Done ((mkIterator true (brk w), true, tr'), w') /\
    wf w' (m_data tr') np' Black
       (ins_fixup (descend cmp (fst kv) [] t).1 (Nd Red Lf (brk w) kv Lf)) /\
    fresh_ok w' /\
    (forall c, is_Some (cells w !! c) -> is_Some (cells w' !! c)) /\
    m_allocator tr' = m_allocator tr /\
    m_size tr' = (m_size tr + 1) mod size_t_max.
Proof.
  intros Hwf Hrb Hfresh Hal Hhit Hleaf Hfuel.
  pose proof (height_le_nodes t) as Hh.
  unfold insert.
  rewrite (bind_done _ _ _ _ _ (findNode_spec cmp _ _ _ _ (fst kv) fuel _ Hwf ltac:(lia))).
  pose proof (descend_plug cmp (fst kv) [] t) as Hplug.
  pose proof (descend_sides cmp (fst kv) [] t (Forall_nil_2 _)) as Hsides.
  pose proof (descend_length cmp (fst kv) [] t) as Hlen.
  unfold hit in Hhit.
  destruct (descend cmp (fst kv) [] t) as [ctx t0] eqn:Hd. simpl in *. subst t0.
  assert ((if negb (stop_ptr (nil (m_data tr)) (ctx, Lf) =? nil (m_data tr))
           then kv' <- get_value (stop_ptr (nil (m_data tr)) (ctx, Lf)) ;;
                ret (key_eq (fst kv) (fst kv'))
           else ret false) w = Done (false, w)) as Hmiss.
  { unfold stop_ptr.
    destruct (stop_node (ctx, Lf)) as [[b kvb]|] eqn:Hs.
    - rewrite <-Hd in Hs.
      destruct (stop_node_live cmp _ _ _ _ _ _ _ _ Hwf Hs) as (Hne & n & Hn & Hv).
      apply N.eqb_neq in Hne. rewrite Hne. simpl.
      rewrite (bind_done _ _ _ _ _ (get_value_done _ _ _ _ Hn Hv)).
      simpl in Hhit. by destruct (key_eq kv.1 kvb.1).
    - by rewrite N.eqb_refl. }
  rewrite (bind_done _ _ _ _ _ Hmiss). clear Hmiss.
  destruct (buildNode_spec w tr kv Hal) as (cs & Hbuild & Hcs).
  rewrite (bind_done _ _ _ _ _ Hbuild). clear Hbuild.
  rewrite !insert_insert_eq.
  assert (brk w ∉ dom (heap w)) as Hnew.
  { intros Hin. apply Hfresh in Hin. lia. }
  rewrite <-Hplug in Hwf.
  destruct (link_spec cmp w tr np Black ctx (brk w) kv _ (brk w + 1) cs Hwf Hnew eq_refl Hsides)
    as (w1 & tb1 & Hlink & Hnil1 & Hbrk1 & Hcells1 & Hdom1 & Hwf1).
  unfold attach.
  rewrite bind_assoc, (bind_done _ _ _ _ _ Hlink). clear Hlink.
  destruct (insertFixup_refines fuel w1 tb1 np ctx Lf (brk w) kv Lf Hwf1)
    as (w2 & tb2 & np2 & Hfix & Hnil2 & Hdom2 & Hwf2).
  { intros Hne. destruct ctx as [|f ctx]; [done|].
    unfold root_black in *. rewrite <-Hplug in Hrb.
    by rewrite (color_of_plug _ f ctx _ Lf). }
  { lia. }
  simpl. rewrite bind_assoc, (bind_done _ _ _ _ _ Hfix). clear Hfix.
  eexists w2, _, np2. split; [reflexivity|]. simpl.
  split_and!; try done.
  - destruct Hdom2 as (Hb2 & Hc2 & Hd2). intros a.
    rewrite Hd2, Hb2, Hdom1, Hbrk1. intros [Ha|Ha]%elem_of_union.
    + apply elem_of_singleton in Ha. lia.
    + apply Hfresh in Ha. lia.
  - destruct Hdom2 as (Hb2 & Hc2 & Hd2). intros c Hc.
    apply elem_of_dom. rewrite Hc2, Hcells1, Hcs. by apply elem_of_dom.
Qed.

(** I1 to I5 of a tree, with a black sentinel; [m_size] counts
    modulo [2^64]. *)
Definition invariants (w : World) (tr : RBTree) (t : tree) : Prop :=
  (exists np, wf w (m_data tr) np Black t) /\
  bst cmp t /\
  no_red_red t /\
  is_Some (bh t) /\
  root_black t /\
  m_size tr = N.of_nat (length (inorder t)) mod size_t_max.

Hypothesis cmp_irrefl : forall a, cmp a a = false.
Hypothesis cmp_trans : forall a b c, cmp a b = true -> cmp b c = true -> cmp a c = true.
Hypothesis key_eq_equiv :
  forall a b, key_eq a b = true <-> cmp a b = false /\ cmp b a = false.

Lemma insert_invariants_at (w : World) tr t k v fuel :
  invariants w tr t ->
  fresh_ok w ->
  can_allocate w (m_allocator tr) ->
  (length (inorder t) + 1 < fuel)%nat ->
  exists it b tr' w' t',
    insert cmp key_eq fuel tr (k, v) w = Done ((it, b, tr'), w') /\
    invariants w' tr' t' /\
    fresh_ok w' /\
    can_allocate w' (m_allocator tr') /\
    m_allocator tr' = m_allocator tr /\
    (b = true ->
       Forall (fun x => key_eq k (fst x) = false) (inorder t) /\
       inorder t' ≡ₚ (k, v) :: inorder t) /\
    (b = false ->
       (exists kv, kv ∈ inorder t /\ key_eq k (fst kv) = true) /\
       tr' = tr /\ w' = w /\ t' = t) /\
    (b = true ->
       exists pre post,
         nodes t = pre ++ post /\ nodes t' = pre ++ (m_node it, (k, v)) :: post).
Proof.
  intros (Hwf & Hbst & Hnrr & Hbh & Hrb & Hsize) Hfresh Hal Hfuel.
  destruct Hwf as [np Hwf]. clear cmp_irrefl.
  assert (length (nodes t) = length (inorder t)) as Hlen
    by by rewrite <-nodes_inorder, length_fmap.
  pose proof (height_le_nodes t) as Hh.
  destruct (hit cmp key_eq k t) as [a|] eqn:Hhit.
  - destruct (hit_Some cmp key_eq key_eq_equiv k t a Hhit) as (kv & Hin & Heq).
    exists (mkIterator true a), false, tr, w, t. split_and!; try done.
    + by apply (insert_hit_spec cmp key_eq w tr np Black t); [..|lia].
    + by split_and!; [eexists|..].
    + intros _. split_and!; try done. exists kv. split; [|done].
      rewrite <-nodes_inorder. apply list_elem_of_fmap. by exists (a, kv).
  - pose proof (hit_None cmp key_eq cmp_trans key_eq_equiv k t Hbst Hhit) as Habs.
    pose proof (miss_at_leaf cmp key_eq key_eq_equiv k t Hhit) as Hleaf.
    destruct (insert_miss_balanced w tr np t (k, v) fuel Hwf Hrb Hfresh Hal Hhit Hleaf
                ltac:(lia))
      as (w' & tr' & np' & Hrun & Hwf' & Hfresh' & Hcells & Halloc & Hsz).
    pose proof (descend_plug cmp k [] t) as Hplug.
    pose proof (descend_ins cmp (brk w) (k, v) [] t Hleaf) as Hins.
    destruct (ins_split cmp (brk w) (k, v) t Hleaf) as (pre & post & Hpre & Hpost).
    simpl in *. destruct (descend cmp k [] t) as [ctx t0] eqn:Hd. simpl in *. subst t0.
    set (t' := ins_fixup ctx (Nd Red Lf (brk w) (k, v) Lf)) in *.
    assert (nodes t' = nodes (ins cmp (brk w) (k, v) t)) as Hnodes.
    { unfold t'. by rewrite (nodes_ins_fixup (length ctx)), Hins. }
    assert (inorder t' ≡ₚ (k, v) :: inorder t) as Hperm.
    { rewrite <-!nodes_inorder, Hnodes, Hpost, Hpre, !fmap_app, fmap_cons. simpl.
      by rewrite Permutation_middle. }
    rewrite <-Hplug in Hnrr, Hbh, Hrb.
    apply nrr_plug in Hnrr as (_ & Hctx & _).
    destruct Hbh as [N HN]. destruct (bh_plug _ _ _ HN) as (m & Hm & Hhole).
    injection Hm as <-.
    destruct (ins_fixup_rb (length ctx) ctx (Nd Red Lf (brk w) (k, v) Lf) 0%nat)
      as (Hn' & Hr' & Hb'); try done.
    { intros Hne. destruct ctx as [|f ctx]; [done|].
      unfold root_black in *. by rewrite (color_of_plug _ f ctx _ Lf). }
    exists (mkIterator true (brk w)), true, tr', w', t'. split_and!; try done; cycle 2.
    { intros _. exists pre, post. split; [exact Hpre|]. by rewrite Hnodes. }
    + split_and!; try done.
      * by exists np'.
      * eapply (bst_nodes cmp cmp_trans); [exact Hnodes|]. by apply (bst_ins cmp key_eq).
      * rewrite Hsz, Hsize, Hperm. simpl length.
        rewrite N.Div0.add_mod_idemp_l. f_equal. lia.
    + destruct Hal as [Hz|Hc]; [left|right]; rewrite Halloc; [done|by apply Hcells].
Qed.

Lemma insert_invariants (w : World) tr t k v fuel :
  invariants w tr t ->
  fresh_ok w ->
  can_allocate w (m_allocator tr) ->
  (length (inorder t) + 1 < fuel)%nat ->
  exists it b tr' w' t',
    insert cmp key_eq fuel tr (k, v) w = Done ((it, b, tr'), w') /\
    invariants w' tr' t' /\
    fresh_ok w' /\
    can_allocate w' (m_allocator tr') /\
    m_allocator tr' = m_allocator tr /\
    (b = true ->
       Forall (fun x => key_eq k (fst x) = false) (inorder t) /\
       inorder t' ≡ₚ (k, v) :: inorder t) /\
    (b = false ->
       (exists kv, kv ∈ inorder t /\ key_eq k (fst kv) = true) /\
       tr' = tr /\ w' = w /\ t' = t).
Proof.
  intros Hinv Hfresh Hal Hfuel.
  destruct (insert_invariants_at w tr t k v fuel Hinv Hfresh Hal Hfuel)
    as (it & b & tr' & w' & t' & H1 & H2 & H3 & H4 & H5 & H6 & H7 & _).
  exists it, b, tr', w', t'. split; [exact H1|]. split; [exact H2|]. split; [exact H3|].
  split; [exact H4|]. split; [exact H5|]. split; [exact H6|exact H7].
Qed.

(** X10: [insert] keeps I1 to I5 and the black sentinel, whether the
    key is there or not: with the flag [true] the key was absent and
    the entries are the old ones and the new one; with the flag
    [false] an entry with an equal key was there and tree and world
    are unchanged. *)
Theorem X10_insert_keeps_invariants (w : World) tr t k v fuel :
  invariants w tr t ->
  fresh_ok w ->
  can_allocate w (m_allocator tr) ->
  (length (inorder t) + 1 < fuel)%nat ->
  exists it b tr' w' t',
    insert cmp key_eq fuel tr (k, v) w = Done ((it, b, tr'), w') /\
    invariants w' tr' t' /\
    fresh_ok w' /\
    can_allocate w' (m_allocator tr') /\
    m_allocator tr' = m_allocator tr /\
    (b = true ->
       Forall (fun x => key_eq k (fst x) = false) (inorder t) /\
       inorder t' ≡ₚ (k, v) :: inorder t) /\
    (b = false ->
       (exists kv, kv ∈ inorder t /\ key_eq k (fst kv) = true) /\
       tr' = tr /\ w' = w /\ t' = t).
Proof. apply insert_invariants. Qed.

(** The entries a tree holds after the entries [values] have been
    inserted one by one: an entry whose key equals the key of an
    entry that is there is dropped. *)
Fixpoint kept (old values : list (K * T)) : list (K * T) :=
  match values with
  | [] => old
  | kv :: values =>
      if existsb (fun x => key_eq (fst kv) (fst x)) old then kept old values
      else kept (kv :: old) values
  end.

Lemma existsb_perm {A} (f : A -> bool) (l l' : list A) :
  l ≡ₚ l' -> existsb f l = existsb f l'.
Proof.
  induction 1 as [|x l l' _ IH|x y l|l l' l'' _ IH1 _ IH2]; simpl.
  - done.
  - by rewrite IH.
  - by destruct (f x), (f y).
  - by rewrite IH1.
Qed.

Lemma kept_perm (l l' values : list (K * T)) :
  l ≡ₚ l' -> kept l values ≡ₚ kept l' values.
Proof.
  revert l l'. induction values as [|kv values IH]; intros l l' Hp; simpl; [done|].
  rewrite (existsb_perm _ l l' Hp).
  destruct (existsb _ l'); apply IH; [done|by constructor].
Qed.



End InsertInvariants.

Lemma demo_invariants : invariants int_less demo_world demo demo_tree.
Proof.
  split_and!.
  - exists 3. exact demo_wf.
  - exact demo_bst.
  - simpl. by split_and!.
  - by exists 1%nat.
  - reflexivity.
  - reflexivity.
Defined.

Lemma X10_insert_witness :
  exists it b tr' w' t',
    insert int_less Z.eqb 10 demo (5%Z, "e"%string) demo_world = Done ((it, b, tr'), w') /\
    invariants int_less w' tr' t'.
Proof.
  destruct (X10_insert_keeps_invariants int_less Z.eqb int_less_trans int_eq_equiv
              demo_world demo demo_tree 5%Z "e"%string 10
              demo_invariants demo_fresh demo_can_allocate ltac:(simpl; lia))
    as (it & b & tr' & w' & t' & H1 & H2 & _).
  exists it, b, tr', w', t'. split; [exact H1|exact H2].
Defined.


(** ** [clear] and the destructor *)

Section Clear.
Context {K T : Type}.
Local Abbreviation Node := (@Node K T).
Local Abbreviation World := (@World K T).
Local Abbreviation tree := (@tree K T).

(** What [destroyNode] and [destroyNil] do to the world: the object is
    gone and the allocator has counted one deallocation. *)
Definition bump_cell (c : ptr) (cs : gmap N N) : gmap N N :=
  match cs !! c with
  | Some v => <[c := (v + 1) mod unsigned_max]> cs
  | None => cs
  end.

Definition free1 (al : Allocator) (w : World) (a : ptr) : World :=
  mkWorld (delete a (heap w)) (brk w)
          (if m_deallocations al =? nullptr then cells w
           else bump_cell (m_deallocations al) (cells w)).

Definition frees (al : Allocator) (ds : list ptr) (w : World) : World :=
  foldl (free1 al) w ds.

Lemma frees_app al ds1 ds2 (w : World) :
  frees al (ds1 ++ ds2) w = frees al ds2 (frees al ds1 w).
Proof. apply foldl_app. Qed.

Lemma frees_lookup al ds (w : World) p :
  heap (frees al ds w) !! p = if bool_decide (p ∈ ds) then None else heap w !! p.
Proof.
  revert w. induction ds as [|d ds IH]; intros w; simpl; [done|].
  rewrite IH. simpl.
  destruct (decide (p = d)) as [->|Hne].
  - rewrite lookup_delete_eq, (bool_decide_eq_true_2 (d ∈ d :: ds)) by set_solver.
    by destruct (bool_decide _).
  - rewrite lookup_delete_ne by done.
    destruct (bool_decide (p ∈ ds)) eqn:E.
    + apply bool_decide_eq_true in E. rewrite bool_decide_eq_true_2; [done|set_solver].
    + apply bool_decide_eq_false in E. rewrite bool_decide_eq_false_2; [done|set_solver].
Qed.

Lemma frees_brk al ds (w : World) : brk (frees al ds w) = brk w.
Proof. revert w. induction ds as [|d ds IH]; intros w; simpl; [done|]. by rewrite IH. Qed.

Lemma frees_cells al ds (w : World) :
  cells (frees al ds w) =
    if m_deallocations al =? nullptr then cells w
    else Nat.iter (length ds) (bump_cell (m_deallocations al)) (cells w).
Proof.
  revert w. induction ds as [|d ds IH]; intros w; simpl.
  - by destruct (_ =? _).
  - rewrite IH. simpl. destruct (_ =? _); [done|].
    symmetry. apply (Nat.iter_succ_r (length ds) _ (bump_cell (m_deallocations al))).
Qed.

Lemma bump_cell_dom c (cs : gmap N N) x : is_Some (bump_cell c cs !! x) <-> is_Some (cs !! x).
Proof.
  unfold bump_cell. destruct (cs !! c) as [v|] eqn:E; [|done].
  destruct (decide (x = c)) as [->|Hne].
  - rewrite lookup_insert_eq, ?E. split; by eexists.
  - by rewrite lookup_insert_ne.
Qed.

Lemma can_deallocate_free1 al (w : World) a :
  can_deallocate w al -> can_deallocate (free1 al w a) al.
Proof.
  intros [Hz|Hc]; [by left|right]. simpl.
  destruct (_ =? _); [done|]. by apply bump_cell_dom.
Qed.

Lemma can_deallocate_frees al ds (w : World) :
  can_deallocate w al -> can_deallocate (frees al ds w) al.
Proof.
  revert w. induction ds as [|d ds IH]; intros w H; simpl; [done|].
  by apply IH, can_deallocate_free1.
Qed.

Lemma destroyNode_free1 (w : World) (tr : RBTree) a n :
  heap w !! a = Some n ->
  can_deallocate w (m_allocator tr) ->
  destroyNode tr a w = Done (tt, free1 (m_allocator tr) w a).
Proof.
  intros Ha Hal. unfold destroyNode, destruct_at.
  rewrite bind_assoc, (bind_done _ _ _ _ _ (load_done _ _ _ Ha)).
  unfold bind at 1. unfold deallocate, set_heap, free1.
  destruct Hal as [Hz|[v Hv]].
  - rewrite Hz. simpl. done.
  - destruct (m_deallocations (m_allocator tr) =? nullptr); [done|].
    unfold bump, bump_cell. simpl. by rewrite Hv.
Qed.

(** The state of the tree while [clear] is at work.  Of the nodes on
    the way from the current node to the root, those that have the way
    in their left subtree still have their right subtree; those that
    have it in their right subtree have lost their left subtree, and
    their [left] field dangles. *)
Inductive sframe : Type :=
| SL (p : ptr) (rp : tree)
| SR (p : ptr).

Definition sframe_addr (f : sframe) : ptr :=
  match f with SL p _ | SR p => p end.

Definition sframe_alive (f : sframe) : list ptr :=
  match f with SL p rp => p :: addrs rp | SR p => [p] end.

Definition alive (ctx : list sframe) : list ptr := concat (map sframe_alive ctx).

Section WithNil.
Variable nl : ptr.

Definition spar (ctx : list sframe) : ptr :=
  match ctx with [] => nl | f :: _ => sframe_addr f end.

Definition live_at (h : gmap N Node) (a par rgt : ptr) : Prop :=
  exists lft c v, h !! a = Some (mkNode par lft rgt c v).

Fixpoint spine (h : gmap N Node) (ctx : list sframe) (child : ptr) : Prop :=
  match ctx with
  | [] => True
  | f :: ctx' =>
      match f with
      | SL p rp => live_at h p (spar ctx') (ptr_of nl rp) /\ rep nl h p rp
      | SR p => live_at h p (spar ctx') child
      end /\ spine h ctx' (sframe_addr f)
  end.

Definition nil_ok (h : gmap N Node) : Prop :=
  exists np c v, h !! nl = Some (mkNode np nl nl c v).

(** At the node [x]: its left subtree is gone, its right subtree
    [r] is still there. *)
Record st (h : gmap N Node) (ctx : list sframe) (x : ptr) (r : tree) : Prop := mkSt {
  st_nil : nil_ok h;
  st_node : live_at h x (spar ctx) (ptr_of nl r);
  st_right : rep nl h x r;
  st_spine : spine h ctx x;
  st_nodup : NoDup (nl :: x :: addrs r ++ alive ctx)
}.

Lemma allLeft_rep (w : World) par c l a kv (r : tree) fuel :
  nil_ok (heap w) ->
  rep nl (heap w) par (Nd c l a kv r) ->
  NoDup (nl :: a :: addrs l) ->
  (height l < fuel)%nat ->
  allLeft fuel a w = Done (leftmost a l, w).
Proof.
  intros (np & cn & vn & Hn).
  revert par c a kv r fuel.
  induction l as [|cl ll IHl b kvb lr _]; intros par c a kv r fuel Hrep Hnd Hfuel.
  - destruct fuel as [|fuel]; [lia|]. simpl in Hrep. destruct Hrep as (Ha & _).
    cbn [allLeft]. by repeat rstep.
  - destruct fuel as [|fuel]; [simpl in Hfuel; lia|].
    simpl in Hrep. destruct Hrep as (Ha & (Hb & Hll & Hlr) & _).
    assert (b <> ptr_of nl ll) as Hne.
    { simpl in Hnd. destruct ll; simpl in *; nodup_split; intros E; subst; done. }
    cbn [allLeft]. repeat rstep.
    apply (IHl a cl b kvb lr); [by simpl| |simpl in Hfuel; lia].
    simpl in Hnd. nodup_split.
    apply NoDup_cons. split; [by apply not_elem_of_cons|].
    apply NoDup_cons. by split.
Qed.

(** Going down to the leftmost node of a subtree that is still there. *)
Lemma enter_left (h : gmap N Node) ctx c l a kv (r : tree) :
  rep nl h (spar ctx) (Nd c l a kv r) ->
  spine h ctx a ->
  exists ctx' rz,
    live_at h (leftmost a l) (spar ctx') (ptr_of nl rz) /\
    rep nl h (leftmost a l) rz /\
    spine h ctx' (leftmost a l) /\
    leftmost a l :: addrs rz ++ alive ctx' ≡ₚ addrs (Nd c l a kv r) ++ alive ctx /\
    (length (addrs rz) < length (addrs (Nd c l a kv r)))%nat.
Proof.
  revert ctx c a kv r. induction l as [|cl ll IHl b kvb lr _]; intros ctx c a kv r Hrep Hsp.
  - exists ctx, r. simpl in *. destruct Hrep as (Ha & _ & Hr).
    split_and!; try done; [by eexists _, _, _|lia].
  - simpl in Hrep. destruct Hrep as (Ha & Hl & Hr).
    destruct (IHl (SL a r :: ctx) cl b kvb lr) as (ctx' & rz & H1 & H2 & H3 & H4 & H5).
    { exact Hl. }
    { simpl. split_and!; try done. by eexists _, _, _. }
    exists ctx', rz. split_and!; try done.
    + rewrite H4. unfold alive. simpl.
      by repeat (rewrite <-app_assoc; simpl).
    + simpl in *. rewrite !length_app in *. simpl in *. rewrite ?length_app in *. lia.
Qed.

Lemma live_at_delete (h : gmap N Node) d a par rgt :
  a <> d -> live_at h a par rgt -> live_at (delete d h) a par rgt.
Proof.
  intros Hne (lft & c & v & Ha). exists lft, c, v. by rewrite lookup_delete_ne.
Qed.

Lemma rep_delete (h : gmap N Node) d par (t : tree) :
  d ∉ addrs t -> rep nl h par t -> rep nl (delete d h) par t.
Proof.
  intros Hd. apply rep_agree. intros x Hx.
  rewrite lookup_delete_ne; [done|]. by intros ->.
Qed.

Lemma spine_delete (h : gmap N Node) d ctx child :
  d ∉ alive ctx -> spine h ctx child -> spine (delete d h) ctx child.
Proof.
  revert child. induction ctx as [|f ctx IH]; intros child Hd Hsp; [done|].
  unfold alive in Hd. simpl in Hd. fold (alive ctx) in Hd.
  apply not_elem_of_app in Hd as [Hf Hd].
  destruct Hsp as [Hf' Hsp]. split; [|by apply IH].
  destruct f as [p rp|p]; simpl in *.
  - apply not_elem_of_cons in Hf as [Hp Hrp]. destruct Hf' as [Hl Hr].
    split; [by apply live_at_delete|by apply rep_delete].
  - apply not_elem_of_cons in Hf as [Hp _]. by apply live_at_delete.
Qed.

Lemma nil_ok_delete (h : gmap N Node) d : d <> nl -> nil_ok h -> nil_ok (delete d h).
Proof.
  intros Hne (np & c & v & Hn). exists np, c, v. by rewrite lookup_delete_ne.
Qed.

Lemma length_alive ctx : (length ctx <= length (alive ctx))%nat.
Proof.
  induction ctx as [|f ctx IH]; [done|].
  unfold alive in *. simpl. rewrite length_app. destruct f; simpl; lia.
Qed.

(** Where the [do ... while] of [clear] stops: at the first node on
    the way up that has the way in its left subtree; the nodes
    below it on the way are destroyed. *)
Fixpoint pop (ctx : list sframe) : list ptr * option (list sframe * ptr * tree) :=
  match ctx with
  | [] => ([], None)
  | SL p rp :: ctx' => ([], Some (ctx', p, rp))
  | SR p :: ctx' => (p :: (pop ctx').1, (pop ctx').2)
  end.

Definition pop_node (ctx : list sframe) : ptr :=
  match (pop ctx).2 with None => nl | Some (_, p, _) => p end.

End WithNil.

Lemma height_le_addrs (t : tree) : (height t <= length (addrs t))%nat.
Proof.
  pose proof (height_le_nodes t) as H. by rewrite <-nodes_addrs, length_fmap.
Qed.

(** The inner [while] of [clear]. *)
Lemma clear_descend_spec (w : World) (tr : RBTree) fuel' n :
  forall ctx x r fd,
  (length (addrs r) <= n)%nat ->
  st (nil (m_data tr)) (heap w) ctx x r ->
  (n < fd)%nat -> (n < fuel')%nat ->
  exists ctx' z,
    clear_descend fd fuel' tr x w = Done (z, w) /\
    st (nil (m_data tr)) (heap w) ctx' z Lf /\
    z :: alive ctx' ≡ₚ x :: addrs r ++ alive ctx.
Proof.
  induction n as [|n IH]; intros ctx x r fd Hlen Hst Hfd Hfuel.
  - destruct r; [|simpl in Hlen; rewrite length_app in Hlen; simpl in Hlen; lia].
    destruct fd as [|fd]; [lia|]. exists ctx, x. split_and!; try done.
    destruct Hst as [_ (lft & c & v & Hx) _ _ _]. simpl in Hx.
    cbn [clear_descend]. by repeat rstep.
  - destruct fd as [|fd]; [lia|].
    destruct r as [|cr rl y kvy rr].
    { exists ctx, x. split_and!; try done.
      destruct Hst as [_ (lft & c & v & Hx) _ _ _]. simpl in Hx.
      cbn [clear_descend]. by repeat rstep. }
    pose proof Hst as [Hnil (lft & c & v & Hx) Hr Hsp Hnd]. simpl in Hx.
    assert (y <> nil (m_data tr)) as Hy.
    { simpl in Hnd. apply NoDup_cons in Hnd as [Hnd _]. intros ->. apply Hnd. set_solver. }
    pose proof (height_le_addrs rl) as Hh.
    assert (length (addrs (Nd cr rl y kvy rr)) = length (addrs rl) + 1 + length (addrs rr))%nat
      as Hsz by (simpl; rewrite length_app; simpl; lia).
    assert (NoDup (nil (m_data tr) :: y :: addrs rl)) as Hnd1.
    { pose proof Hnd as Hnd'. simpl in Hnd'. nodup_split.
      apply NoDup_cons. split; [by apply not_elem_of_cons|].
      apply NoDup_cons. split; [|done]. done. }
    cbn [clear_descend]. repeat rstep.
    rewrite (bind_done _ _ _ _ _ (allLeft_rep (nil (m_data tr)) w x cr rl y kvy rr fuel' Hnil Hr
                                    Hnd1 ltac:(lia))).
    destruct (enter_left (nil (m_data tr)) (heap w) (SR x :: ctx) cr rl y kvy rr Hr)
      as (ctx' & rz & H1 & H2 & H3 & H4 & H5).
    { split; [by eexists _, _, _|done]. }
    destruct (IH ctx' (leftmost y rl) rz fd) as (ctx'' & z & Hrun & Hst' & Hperm);
      [lia| |lia|lia|].
    { split; try done. rewrite H4. unfold alive. simpl. fold (alive ctx).
      assert (nil (m_data tr) :: x :: addrs (Nd cr rl y kvy rr) ++ alive ctx ≡ₚ
              nil (m_data tr) :: addrs (Nd cr rl y kvy rr) ++ x :: alive ctx) as P
        by (apply perm_skip; by rewrite Permutation_middle).
      by rewrite <-P. }
    exists ctx'', z. split_and!; try done.
    rewrite Hperm, H4. unfold alive. simpl. fold (alive ctx).
    by rewrite Permutation_middle.
Qed.

Lemma nodup_drop2 {A} (a b : A) l : NoDup (a :: b :: l) -> NoDup (a :: l).
Proof.
  intros [Ha Hb]%NoDup_cons. apply NoDup_cons in Hb as [_ Hb].
  apply NoDup_cons. split; [|done]. by apply not_elem_of_cons in Ha as [_ Ha].
Qed.

(** On the way up: the node is there, whatever its [right] field holds. *)
Definition ast (nl : ptr) (h : gmap N Node) (ctx : list sframe) (z : ptr) : Prop :=
  nil_ok nl h /\
  (exists rgt, live_at h z (spar nl ctx) rgt) /\
  spine nl h ctx z /\
  NoDup (nl :: z :: alive ctx).

(** The [do ... while] of [clear]. *)
Lemma clear_ascend_spec (tr : RBTree) :
  forall ctx z (w : World) fa,
  ast (nil (m_data tr)) (heap w) ctx z ->
  can_deallocate w (m_allocator tr) ->
  (length ctx < fa)%nat ->
  clear_ascend fa tr z w =
    Done (pop_node (nil (m_data tr)) ctx, frees (m_allocator tr) (z :: (pop ctx).1) w) /\
  nil_ok (nil (m_data tr)) (heap (frees (m_allocator tr) (z :: (pop ctx).1) w)) /\
  match (pop ctx).2 with
  | None => alive ctx = (pop ctx).1
  | Some (ctx'', p, rp) =>
      st (nil (m_data tr)) (heap (frees (m_allocator tr) (z :: (pop ctx).1) w)) ctx'' p rp /\
      alive ctx ≡ₚ (pop ctx).1 ++ p :: addrs rp ++ alive ctx''
  end.
Proof.
  induction ctx as [|[p rp|p] ctx IH];
    intros z w fa (Hnil & (rgt & lft & c & v & Hz) & Hsp & Hnd) Hal Hfa;
    (destruct fa as [|fa]; [simpl in Hfa; lia|]);
    cbn [clear_ascend]; repeat rstep;
    rewrite (bind_done _ _ _ _ _ (destroyNode_free1 w tr z _ Hz Hal));
    pose proof Hnil as (np & cn & vn & Hn);
    assert (z <> nil (m_data tr)) as Hzn
      by (apply NoDup_cons in Hnd as [Hnd _]; intros ->; apply Hnd; by left);
    assert (heap (free1 (m_allocator tr) w z) !! nil (m_data tr) =
              Some (mkNode np (nil (m_data tr)) (nil (m_data tr)) cn vn)) as Hn'
      by (simpl; by rewrite lookup_delete_ne).
  - repeat rstep. split_and!; try done. by apply nil_ok_delete.
  - destruct Hsp as [[(lp & cp & vp & Hp) Hrp] Hsp].
    unfold alive in Hnd. simpl in Hnd. fold (alive ctx) in Hnd.
    pose proof (nodup_drop2 _ _ _ Hnd) as Hnd'. revert Hnd'. nodup_split. intros Hnd'.
    assert (heap (free1 (m_allocator tr) w z) !! p =
              Some (mkNode (spar (nil (m_data tr)) ctx) lp (ptr_of (nil (m_data tr)) rp) cp vp))
      as Hp' by (simpl; by rewrite lookup_delete_ne).
    assert (z <> ptr_of (nil (m_data tr)) rp) as Hne.
    { destruct rp; simpl in *; [done|]. intros ->. set_solver. }
    repeat rstep. split_and!; try done.
    + by apply nil_ok_delete.
    + split.
      * by apply nil_ok_delete.
      * by eexists _, _, _.
      * by apply rep_delete.
      * by apply spine_delete.
      * done.
  - destruct Hsp as [(lp & cp & vp & Hp) Hsp].
    unfold alive in Hnd. simpl in Hnd. fold (alive ctx) in Hnd.
    pose proof (nodup_drop2 _ _ _ Hnd) as Hnd'. revert Hnd'. nodup_split. intros Hnd'.
    assert (heap (free1 (m_allocator tr) w z) !! p =
              Some (mkNode (spar (nil (m_data tr)) ctx) lp z cp vp))
      as Hp' by (simpl; by rewrite lookup_delete_ne).
    repeat rstep.
    destruct (IH p (free1 (m_allocator tr) w z) fa) as (Hrun & Hnil' & Hrest).
    { split_and!.
      - by apply nil_ok_delete.
      - exists z. by eexists _, _, _.
      - by apply spine_delete.
      - done. }
    { by apply can_deallocate_free1. }
    { simpl in Hfa. lia. }
    split_and!; try done.
    unfold alive. simpl. fold (alive ctx).
    destruct ((pop ctx).2) as [[[ctx'' q] rq]|].
    + destruct Hrest as [Hst Hperm]. split; [done|]. by rewrite Hperm.
    + by rewrite Hrest.
Qed.

(** The outer [while] of [clear]: every node that is still there is
    destroyed, once. *)
Lemma clear_loop_spec (tr : RBTree) fuel' m :
  forall ctx x r (w : World) fuel,
  (length (x :: addrs r ++ alive ctx) <= m)%nat ->
  st (nil (m_data tr)) (heap w) ctx x r ->
  can_deallocate w (m_allocator tr) ->
  (m < fuel)%nat -> (m < fuel')%nat ->
  exists ds,
    ds ≡ₚ x :: addrs r ++ alive ctx /\
    clear_loop fuel fuel' tr x w = Done (tt, frees (m_allocator tr) ds w) /\
    nil_ok (nil (m_data tr)) (heap (frees (m_allocator tr) ds w)).
Proof.
  induction m as [|m IH]; intros ctx x r w fuel Hm Hst Hal Hfuel Hfuel'.
  { simpl in Hm. lia. }
  destruct fuel as [|fuel]; [lia|].
  assert (x <> nil (m_data tr)) as Hx.
  { destruct Hst as [_ _ _ _ Hnd]. apply NoDup_cons in Hnd as [Hnd _].
    intros ->. apply Hnd. by left. }
  destruct (clear_descend_spec w tr fuel' (length (addrs r)) ctx x r fuel' (le_n _) Hst)
    as (ctx' & z & Hrun1 & Hst' & Hperm1).
  { simpl in Hm. rewrite length_app in Hm. lia. }
  { simpl in Hm. rewrite length_app in Hm. lia. }
  assert (length (z :: alive ctx') <= S m)%nat as Hm' by by rewrite Hperm1.
  pose proof (length_alive ctx') as Hctx'.
  destruct (clear_ascend_spec tr ctx' z w fuel') as (Hrun2 & Hnil2 & Hrest); [|done| |].
  { destruct Hst' as [H1 H2 _ H4 H5]. simpl in H5. split_and!; try done. by eexists. }
  { simpl in Hm'. lia. }
  assert (forall w2,
            clear_loop fuel fuel' tr (pop_node (nil (m_data tr)) ctx')
              (frees (m_allocator tr) (z :: (pop ctx').1) w) = Done (tt, w2) ->
            clear_loop (S fuel) fuel' tr x w = Done (tt, w2)) as Hstep.
  { intros w2 H. cbn [clear_loop]. apply N.eqb_neq in Hx. rewrite Hx. cbn [negb].
    by rewrite (bind_done _ _ _ _ _ Hrun1), (bind_done _ _ _ _ _ Hrun2). }
  unfold pop_node in *.
  destruct ((pop ctx').2) as [[[ctx'' p] rp]|].
  - destruct Hrest as [Hst'' Hperm2].
    destruct (IH ctx'' p rp (frees (m_allocator tr) (z :: (pop ctx').1) w) fuel)
      as (ds & Hds & Hrun3 & Hnil3); [|done|by apply can_deallocate_frees|lia|lia|].
    { assert (length (alive ctx') = length ((pop ctx').1 ++ p :: addrs rp ++ alive ctx''))
        as E by by rewrite Hperm2.
      rewrite length_app in E. simpl in *. lia. }
    exists ((z :: (pop ctx').1) ++ ds). split_and!.
    + rewrite Hds, <-Hperm1, Hperm2. simpl. done.
    + apply Hstep. by rewrite frees_app.
    + by rewrite frees_app.
  - exists (z :: (pop ctx').1). split_and!; try done.
    + by rewrite <-Hperm1, Hrest.
    + apply Hstep. destruct fuel as [|fuel]; [lia|]. cbn [clear_loop]. by rewrite N.eqb_refl.
Qed.

Lemma clear_spec (w : World) (tr : RBTree) np nc t fuel :
  wf w (m_data tr) np nc t ->
  can_deallocate w (m_allocator tr) ->
  (length (addrs t) + 1 < fuel)%nat ->
  exists ds,
    ds ≡ₚ addrs t /\
    clear fuel tr w =
      Done (set_size (set_root tr (nil (m_data tr))) 0, frees (m_allocator tr) ds w).
Proof.
  intros Hwf Hal Hfuel. unfold clear.
  destruct fuel as [|fuel]; [lia|].
  destruct t as [|c l a kv r].
  - exists []. split; [done|].
    rewrite (wf_root _ _ _ _ _ Hwf). simpl ptr_of.
    rewrite (bind_done _ _ _ _ _ (allLeft_nil w _ np nc fuel Lf Hwf)).
    cbn [clear_loop]. by rewrite N.eqb_refl.
  - pose proof (height_le_addrs (Nd c l a kv r)) as Hh. cbn [height] in Hh.
    rewrite (wf_root _ _ _ _ _ Hwf). simpl ptr_of.
    rewrite (bind_done _ _ _ _ _ (allLeft_spec w _ np nc (S fuel) [] c l a kv r Hwf ltac:(lia))).
    destruct (enter_left (nil (m_data tr)) (heap w) [] c l a kv r (wf_rep _ _ _ _ _ Hwf) I)
      as (ctx' & rz & H1 & H2 & H3 & H4 & H5).
    unfold alive in H4 at 2. simpl in H4. rewrite app_nil_r in H4.
    destruct (clear_loop_spec tr (S fuel) (length (addrs (Nd c l a kv r)))
                ctx' (leftmost a l) rz w (S fuel)) as (ds & Hds & Hrun & _);
      [by rewrite H4| |done|lia|lia|].
    { split; try done.
      - exists np, nc, None. apply (wf_nil _ _ _ _ _ Hwf).
      - rewrite H4. apply NoDup_cons. split; [|apply (wf_nodup _ _ _ _ _ Hwf)].
        apply (wf_nil_fresh _ _ _ _ _ Hwf). }
    exists ds. split; [by rewrite Hds|].
    by rewrite (bind_done _ _ _ _ _ Hrun).
Qed.

(** X12: [clear] on any well-formed tree returns; every node of the
    tree is destroyed, exactly once (the allocator counts one
    deallocation for each), nothing else in the heap is touched, the
    sentinel stays, and what is left is a well-formed empty tree of
    size 0. *)
Theorem X12_clear_frees_every_node (w : World) (tr : RBTree) np nc t fuel :
  wf w (m_data tr) np nc t ->
  can_deallocate w (m_allocator tr) ->
  (length (inorder t) + 1 < fuel)%nat ->
  exists tr' w',
    clear fuel tr w = Done (tr', w') /\
    tr' = mkRBTree (mkTreeBase (nil (m_data tr)) (nil (m_data tr))) (m_allocator tr) 0 /\
    wf w' (m_data tr') np nc Lf /\
    (forall a, a ∈ addrs t -> heap w' !! a = None) /\
    (forall a, a ∉ addrs t -> heap w' !! a = heap w !! a) /\
    brk w' = brk w /\
    cells w' =
      (if m_deallocations (m_allocator tr) =? nullptr then cells w
       else Nat.iter (length (inorder t)) (bump_cell (m_deallocations (m_allocator tr)))
              (cells w)).
Proof.
  intros Hwf Hal Hfuel.
  rewrite inorder_length_addrs in *.
  destruct (clear_spec w tr np nc t fuel Hwf Hal Hfuel) as (ds & Hds & Hrun).
  assert (forall a, heap (frees (m_allocator tr) ds w) !! a =
                    if bool_decide (a ∈ addrs t) then None else heap w !! a) as Hlook.
  { intros a. rewrite frees_lookup.
    destruct (decide (a ∈ addrs t)) as [Hin|Hin].
    - rewrite !bool_decide_eq_true_2; [done..|by rewrite Hds].
    - rewrite !bool_decide_eq_false_2; [done..|by rewrite Hds]. }
  eexists _, _. split; [exact Hrun|]. split_and!.
  - done.
  - split; simpl; try done; [|apply NoDup_nil_2].
    rewrite Hlook, bool_decide_eq_false_2; [apply (wf_nil _ _ _ _ _ Hwf)|].
    apply (wf_nil_fresh _ _ _ _ _ Hwf).
  - intros a Ha. by rewrite Hlook, bool_decide_eq_true_2.
  - intros a Ha. by rewrite Hlook, bool_decide_eq_false_2.
  - apply frees_brk.
  - by rewrite frees_cells, (Permutation_length Hds).
Qed.

(** The destructor of a well-formed tree. *)
Lemma RBTree_destroy_spec (w : World) (tr : RBTree) np nc t fuel :
  wf w (m_data tr) np nc t ->
  heap w !! nullptr = None ->
  can_deallocate w (m_allocator tr) ->
  (length (inorder t) + 1 < fuel)%nat ->
  exists w',
    RBTree_destroy fuel tr w = Done (tt, w') /\
    (forall a, a ∈ nil (m_data tr) :: addrs t -> heap w' !! a = None) /\
    (forall a, a ∉ nil (m_data tr) :: addrs t -> heap w' !! a = heap w !! a) /\
    brk w' = brk w /\
    cells w' =
      (if m_deallocations (m_allocator tr) =? nullptr then cells w
       else Nat.iter (S (length (inorder t))) (bump_cell (m_deallocations (m_allocator tr)))
              (cells w)).
Proof.
  intros Hwf Hnull Hal Hfuel.
  rewrite inorder_length_addrs in *.
  destruct (clear_spec w tr np nc t fuel Hwf Hal Hfuel) as (ds & Hds & Hrun).
  pose proof (wf_nil _ _ _ _ _ Hwf) as Hn.
  assert (nil (m_data tr) <> nullptr) as Hnn by (intros E; rewrite E in Hn; congruence).
  assert (root (m_data tr) <> nullptr) as Hrn.
  { rewrite (wf_root _ _ _ _ _ Hwf). destruct t as [|c l a kv r]; [done|]. simpl.
    pose proof (wf_focus w _ np nc [] c l a kv r Hwf) as Ha. intros E. rewrite E in Ha.
    congruence. }
  assert (heap (frees (m_allocator tr) ds w) !! nil (m_data tr) =
            Some (sentinel (m_data tr) np nc)) as Hn'.
  { rewrite frees_lookup, bool_decide_eq_false_2; [done|].
    rewrite Hds. apply (wf_nil_fresh _ _ _ _ _ Hwf). }
  exists (frees (m_allocator tr) (ds ++ [nil (m_data tr)]) w). split_and!.
  - unfold RBTree_destroy.
    apply N.eqb_neq in Hrn. rewrite Hrn. cbn [negb].
    rewrite (bind_done _ _ _ _ _ Hrun).
    unfold destroyNil. simpl. apply N.eqb_neq in Hnn. rewrite Hnn. cbn [negb].
    rewrite frees_app.
    apply (destroyNode_free1 _ (set_size (set_root tr (nil (m_data tr))) 0) _ _ Hn').
    by apply can_deallocate_frees.
  - intros a Ha. rewrite frees_lookup, bool_decide_eq_true_2; [done|].
    rewrite Hds. set_solver.
  - intros a Ha. rewrite frees_lookup, bool_decide_eq_false_2; [done|].
    rewrite Hds. set_solver.
  - apply frees_brk.
  - rewrite frees_cells, length_app, (Permutation_length Hds). simpl. by rewrite Nat.add_1_r.
Qed.

(** X13: the destructor of a well-formed tree destroys every node
    and the sentinel, once each (the allocator counts one
    deallocation more than the tree has nodes), and touches nothing
    else. *)
Theorem X13_destructor_frees_the_tree (w : World) (tr : RBTree) np nc t fuel :
  wf w (m_data tr) np nc t ->
  heap w !! nullptr = None ->
  can_deallocate w (m_allocator tr) ->
  (length (inorder t) + 1 < fuel)%nat ->
  exists w',
    RBTree_destroy fuel tr w = Done (tt, w') /\
    (forall a, a ∈ nil (m_data tr) :: addrs t -> heap w' !! a = None) /\
    (forall a, a ∉ nil (m_data tr) :: addrs t -> heap w' !! a = heap w !! a) /\
    brk w' = brk w /\
    cells w' =
      (if m_deallocations (m_allocator tr) =? nullptr then cells w
       else Nat.iter (S (length (inorder t))) (bump_cell (m_deallocations (m_allocator tr)))
              (cells w)).
Proof. apply RBTree_destroy_spec. Qed.

End Clear.

Lemma X12_clear_witness :
  exists tr' w',
    clear 10 demo demo_world = Done (tr', w') /\
    size tr' = 0 /\
    wf w' (m_data tr') 3 Black Lf /\
    heap w' !! 2 = None /\ heap w' !! 3 = None /\ heap w' !! 4 = None.
Proof.
  destruct (X12_clear_frees_every_node demo_world demo 3 Black demo_tree 10 demo_wf
              demo_can_deallocate ltac:(simpl; lia))
    as (tr' & w' & H1 & H2 & H3 & H4 & _).
  exists tr', w'. split_and!; try done; [by rewrite H2|apply H4..]; simpl; set_solver.
Defined.

Lemma X13_destructor_witness :
  exists w',
    RBTree_destroy 10 demo demo_world = Done (tt, w') /\
    heap w' !! 1 = None /\ heap w' !! 2 = None /\ heap w' !! 3 = None /\ heap w' !! 4 = None.
Proof.
  destruct (X13_destructor_frees_the_tree demo_world demo 3 Black demo_tree 10 demo_wf
              eq_refl demo_can_deallocate ltac:(simpl; lia))
    as (w' & H1 & H2 & _).
  exists w'. split_and!; try done; apply H2; simpl; set_solver.
Defined.

(** ** Trees in worlds that agree *)

Section Agree.
Context {K T : Type}.
Local Abbreviation Node := (@Node K T).
Local Abbreviation World := (@World K T).
Local Abbreviation tree := (@tree K T).

(** A tree is what it is in every world that agrees on its nodes and
    its sentinel. *)
Lemma wf_agree (w w' : World) tb np nc (t : tree) :
  (forall a, a ∈ nil tb :: addrs t -> heap w' !! a = heap w !! a) ->
  wf w tb np nc t -> wf w' tb np nc t.
Proof.
  intros Hag [Hn Hrt Hrep Hnd]. split; try done.
  - rewrite Hag; [done|by left].
  - eapply rep_agree; [|exact Hrep]. intros x Hx. apply Hag. by right.
Qed.

End Agree.

(** ** Counting allocations *)

Section Counting.
Context {K T : Type}.
Local Abbreviation Node := (@Node K T).
Local Abbreviation World := (@World K T).
Local Abbreviation tree := (@tree K T).

(** What one [allocate] does to the counters. *)
Definition alloc_bump (al : Allocator) (cs : gmap N N) : gmap N N :=
  if m_allocations al =? nullptr then cs else bump_cell (m_allocations al) cs.

(** A program that neither allocates nor counts. *)
Definition quiet {A} (m : M World A) : Prop :=
  forall w a w', m w = Done (a, w') -> brk w' = brk w /\ cells w' = cells w.

Lemma quiet_ret {A} (a : A) : quiet (ret a).
Proof. by intros w a' w' [= <- <-]. Qed.

Lemma quiet_fault {A} : quiet (@fault World A).
Proof. by intros w a w' H. Qed.

Lemma quiet_timeout {A} : quiet (@timeout World A).
Proof. by intros w a w' H. Qed.

Lemma quiet_bind {A B} (m : M World A) (k : A -> M World B) :
  quiet m -> (forall a, quiet (k a)) -> quiet (bind m k).
Proof.
  intros Hm Hk w b w'. unfold bind.
  destruct (m w) as [[a w1]| |] eqn:E; [|done..]. intros Hrun.
  destruct (Hm w a w1 E) as [<- <-]. exact (Hk a w1 b w' Hrun).
Qed.

Lemma quiet_load p : quiet (@load K T p).
Proof.
  intros w n w'. unfold load.
  destruct (heap w !! p); [|done]. by intros [= <- <-].
Qed.

Lemma quiet_store p n : quiet (@store K T p n).
Proof.
  intros w u w'. unfold store.
  destruct (heap w !! p); [|done]. by intros [= <- <-].
Qed.

Lemma quiet_get_parent p : quiet (@get_parent K T p).
Proof. apply quiet_bind; [apply quiet_load|intros; apply quiet_ret]. Qed.
Lemma quiet_get_left p : quiet (@get_left K T p).
Proof. apply quiet_bind; [apply quiet_load|intros; apply quiet_ret]. Qed.
Lemma quiet_get_right p : quiet (@get_right K T p).
Proof. apply quiet_bind; [apply quiet_load|intros; apply quiet_ret]. Qed.
Lemma quiet_get_color p : quiet (@get_color K T p).
Proof. apply quiet_bind; [apply quiet_load|intros; apply quiet_ret]. Qed.
Lemma quiet_get_value p : quiet (@get_value K T p).
Proof.
  apply quiet_bind; [apply quiet_load|intros n].
  destruct (value n); [apply quiet_ret|apply quiet_fault].
Qed.
Lemma quiet_set_parent p v : quiet (@set_parent K T p v).
Proof. apply quiet_bind; [apply quiet_load|intros; apply quiet_store]. Qed.
Lemma quiet_set_left p v : quiet (@set_left K T p v).
Proof. apply quiet_bind; [apply quiet_load|intros; apply quiet_store]. Qed.
Lemma quiet_set_right p v : quiet (@set_right K T p v).
Proof. apply quiet_bind; [apply quiet_load|intros; apply quiet_store]. Qed.
Lemma quiet_set_color p c : quiet (@set_color K T p c).
Proof. apply quiet_bind; [apply quiet_load|intros; apply quiet_store]. Qed.
Lemma quiet_write_ref p v : quiet (@write_ref K T p v).
Proof.
  unfold write_ref, set_second. apply quiet_bind; [apply quiet_load|intros; apply quiet_store].
Qed.

End Counting.

Ltac quiet_step :=
  first
    [ apply quiet_ret | apply quiet_fault | apply quiet_timeout
    | apply quiet_get_parent | apply quiet_get_left | apply quiet_get_right
    | apply quiet_get_color | apply quiet_get_value
    | apply quiet_set_parent | apply quiet_set_left | apply quiet_set_right
    | apply quiet_set_color
    | assumption
    | apply quiet_bind; [|intros ?]
    | match goal with
      | |- quiet (if ?b then _ else _) => destruct b
      | |- quiet (match ?x with _ => _ end) => destruct x
      end ].

Section CountingInsert.
Context {K T : Type}.
Variable cmp : K -> K -> bool.
Variable key_eq : K -> K -> bool.
Variable T_default : T.
Local Abbreviation Node := (@Node K T).
Local Abbreviation World := (@World K T).
Local Abbreviation tree := (@tree K T).

Lemma quiet_isLeftChild p : quiet (@isLeftChild K T p).
Proof. unfold isLeftChild. repeat quiet_step. Qed.

Lemma quiet_isRightChild p : quiet (@isRightChild K T p).
Proof. unfold isRightChild. repeat quiet_step. Qed.

Lemma quiet_linkTo p : quiet (@linkTo K T p).
Proof.
  unfold linkTo.
  repeat first [apply quiet_isLeftChild | apply quiet_isRightChild | quiet_step].
Qed.

Lemma quiet_assign tb l v : quiet (@assign K T tb l v).
Proof. unfold assign. repeat quiet_step. Qed.

Lemma quiet_leftRotate tb x : quiet (@leftRotate K T tb x).
Proof.
  unfold leftRotate. repeat first [apply quiet_linkTo | apply quiet_assign | quiet_step].
Qed.

Lemma quiet_rightRotate tb x : quiet (@rightRotate K T tb x).
Proof.
  unfold rightRotate. repeat first [apply quiet_linkTo | apply quiet_assign | quiet_step].
Qed.

Lemma quiet_insertFixup fuel : forall tb x, quiet (@insertFixup K T fuel tb x).
Proof.
  induction fuel as [|fuel IH]; intros tb x; cbn [insertFixup]; [apply quiet_timeout|].
  repeat first
    [ apply IH | apply quiet_isLeftChild | apply quiet_isRightChild
    | apply quiet_leftRotate | apply quiet_rightRotate | quiet_step ].
Qed.

Lemma quiet_findNode_loop fuel : forall tb key node next,
  quiet (@findNode_loop K T cmp fuel tb key node next).
Proof.
  induction fuel as [|fuel IH]; intros tb key node next; cbn [findNode_loop];
    [apply quiet_timeout|].
  repeat first [apply IH | quiet_step].
Qed.

Lemma quiet_attach fuel (tr : RBTree) node newNode key :
  quiet (@attach K T cmp fuel tr node newNode key).
Proof.
  unfold attach, link_node. repeat first [apply quiet_insertFixup | quiet_step].
Qed.

(** [buildNode] allocates once. *)
Lemma buildNode_counts (tr : RBTree) (kv : K * T) (w : World) p w1 :
  buildNode tr kv w = Done (p, w1) ->
  brk w1 = brk w + 1 /\ cells w1 = alloc_bump (m_allocator tr) (cells w).
Proof.
  unfold buildNode, allocate, alloc_bump.
  assert (forall w0 : World,
            (_ <- construct (brk w0) (mkNode nullptr nullptr nullptr Red (Some kv)) ;;
             _ <- set_right (brk w0) (nil (m_data tr)) ;;
             _ <- set_left (brk w0) (nil (m_data tr)) ;;
             ret (brk w0)) (mkWorld (heap w0) (brk w0 + 1) (cells w0)) = Done (p, w1) ->
            brk w1 = brk w0 + 1 /\ cells w1 = cells w0) as Hrest.
  { intros w0. unfold bind at 1. unfold construct, set_heap. cbn [heap brk cells].
    intros Hrun.
    assert (quiet (_ <- set_right (brk w0) (nil (m_data tr)) ;;
                   _ <- set_left (brk w0) (nil (m_data tr)) ;;
                   @ret World _ (brk w0))) as Hq by repeat quiet_step.
    by apply Hq in Hrun. }
  rewrite bind_assoc.
  destruct (m_allocations (m_allocator tr) =? nullptr).
  - rewrite bind_ret. unfold bind at 1. by apply (Hrest w).
  - unfold bind at 1. unfold bump, bump_cell.
    destruct (cells w !! m_allocations (m_allocator tr)) as [v|]; [|done].
    unfold bind at 1.
    intros Hrun. by apply (Hrest (mkWorld (heap w) (brk w) _)) in Hrun.
Qed.

(** [insert] allocates once when it inserts, and not at all when the
    key is there. *)
Lemma insert_counts fuel (tr : RBTree) (kv : K * T) (w : World) it b tr' w' :
  insert cmp key_eq fuel tr kv w = Done ((it, b, tr'), w') ->
  brk w' = brk w + (if b then 1 else 0) /\
  cells w' = (if b then alloc_bump (m_allocator tr) (cells w) else cells w).
Proof.
  unfold insert, findNode. unfold bind at 1.
  destruct (findNode_loop cmp fuel (m_data tr) kv.1 _ _ w) as [[node w1]| |] eqn:E1; [|done..].
  destruct (quiet_findNode_loop _ _ _ _ _ _ _ _ E1) as [Hb1 Hc1].
  unfold bind at 1.
  destruct ((if negb (node =? nil (m_data tr))
             then kv' <- get_value node ;; ret (key_eq kv.1 kv'.1)
             else ret false) w1) as [[hit w2]| |] eqn:E2; [|done..].
  assert (quiet (if negb (node =? nil (m_data tr))
                 then kv' <- @get_value K T node ;; ret (key_eq kv.1 kv'.1)
                 else ret false)) as Hq by repeat quiet_step.
  destruct (Hq _ _ _ E2) as [Hb2 Hc2].
  destruct hit.
  - intros [= <- <- <- <-]. rewrite N.add_0_r. split; congruence.
  - unfold bind at 1.
    destruct (buildNode tr kv w2) as [[nn w3]| |] eqn:E3; [|done..].
    destruct (buildNode_counts _ _ _ _ _ E3) as [Hb3 Hc3].
    unfold bind at 1.
    destruct (attach cmp fuel tr node nn kv.1 w3) as [[t4 w4]| |] eqn:E4; [|done..].
    destruct (quiet_attach _ _ _ _ _ _ _ _ E4) as [Hb4 Hc4].
    intros [= <- <- <- <-]. split; congruence.
Qed.

End CountingInsert.

(** ** Objects beside the tree *)

Section Frame.
Context {K T : Type}.
Local Abbreviation Node := (@Node K T).
Local Abbreviation World := (@World K T).
Local Abbreviation tree := (@tree K T).

(** The world with the further objects [f] in its heap. *)
Definition ext (f : gmap N Node) (w : World) : World :=
  mkWorld (heap w ∪ f) (brk w) (cells w).

(** The objects [f] are apart from those of [w], and below the
    addresses that are handed out later. *)
Definition framed (f : gmap N Node) (w : World) : Prop :=
  forall a, a ∈ dom f -> (a ∉ dom (heap w)) /\ a < brk w.

(** A program that runs in [w] runs in the same way beside [f], and
    leaves [f] alone. *)
Definition local {A} (m : M World A) : Prop :=
  forall f w a w',
    framed f w -> m w = Done (a, w') ->
    framed f w' /\ m (ext f w) = Done (a, ext f w').

Lemma local_ret {A} (a : A) : local (ret a).
Proof. intros f w a' w' Hf [= <- <-]. done. Qed.

Lemma local_fault {A} : local (@fault World A).
Proof. intros f w a w' _ H. done. Qed.

Lemma local_timeout {A} : local (@timeout World A).
Proof. intros f w a w' _ H. done. Qed.

Lemma local_bind {A B} (m : M World A) (k : A -> M World B) :
  local m -> (forall a, local (k a)) -> local (bind m k).
Proof.
  intros Hm Hk f w b w' Hf. unfold bind.
  destruct (m w) as [[a w1]| |] eqn:E; [|done..]. intros Hrun.
  destruct (Hm f w a w1 Hf E) as [Hf1 ->].
  by apply Hk.
Qed.

Lemma local_load p : local (load p).
Proof.
  intros f w n w' Hf. unfold load.
  destruct (heap w !! p) as [n'|] eqn:E; [|done]. intros [= <- <-].
  split; [done|]. simpl. by rewrite (lookup_union_Some_l _ _ _ _ E).
Qed.

Lemma local_store p n : local (store p n).
Proof.
  intros f w u w' Hf. unfold store.
  destruct (heap w !! p) as [n'|] eqn:E; [|done]. intros [= <- <-].
  split.
  - intros a Ha. destruct (Hf a Ha) as [H1 H2]. split; [|done]. simpl.
    rewrite dom_insert_L. apply elem_of_dom_2 in E. set_solver.
  - simpl. rewrite (lookup_union_Some_l _ _ _ _ E). unfold ext, set_heap. simpl.
    by rewrite insert_union_l.
Qed.

Lemma local_get_parent p : local (get_parent p).
Proof. apply local_bind; [apply local_load|intros; apply local_ret]. Qed.
Lemma local_get_left p : local (get_left p).
Proof. apply local_bind; [apply local_load|intros; apply local_ret]. Qed.
Lemma local_get_right p : local (get_right p).
Proof. apply local_bind; [apply local_load|intros; apply local_ret]. Qed.
Lemma local_get_color p : local (get_color p).
Proof. apply local_bind; [apply local_load|intros; apply local_ret]. Qed.
Lemma local_get_value p : local (get_value p).
Proof.
  apply local_bind; [apply local_load|intros n].
  destruct (value n); [apply local_ret|apply local_fault].
Qed.
Lemma local_set_parent p v : local (set_parent p v).
Proof. apply local_bind; [apply local_load|intros; apply local_store]. Qed.
Lemma local_set_left p v : local (set_left p v).
Proof. apply local_bind; [apply local_load|intros; apply local_store]. Qed.
Lemma local_set_right p v : local (set_right p v).
Proof. apply local_bind; [apply local_load|intros; apply local_store]. Qed.
Lemma local_set_color p c : local (set_color p c).
Proof. apply local_bind; [apply local_load|intros; apply local_store]. Qed.

End Frame.

Ltac local_step :=
  first
    [ apply local_ret | apply local_fault | apply local_timeout
    | apply local_get_parent | apply local_get_left | apply local_get_right
    | apply local_get_color | apply local_get_value
    | apply local_set_parent | apply local_set_left | apply local_set_right
    | apply local_set_color
    | assumption
    | apply local_bind; [|intros ?]
    | match goal with
      | |- local (if ?b then _ else _) => destruct b
      | |- local (match ?x with _ => _ end) => destruct x
      end ].

Section FrameInsert.
Context {K T : Type}.
Variable cmp : K -> K -> bool.
Variable key_eq : K -> K -> bool.
Local Abbreviation Node := (@Node K T).
Local Abbreviation World := (@World K T).
Local Abbreviation tree := (@tree K T).

Lemma local_isLeftChild p : local (@isLeftChild K T p).
Proof. unfold isLeftChild. repeat local_step. Qed.

Lemma local_isRightChild p : local (@isRightChild K T p).
Proof. unfold isRightChild. repeat local_step. Qed.

Lemma local_linkTo p : local (@linkTo K T p).
Proof.
  unfold linkTo.
  repeat first [apply local_isLeftChild | apply local_isRightChild | local_step].
Qed.

Lemma local_assign tb l v : local (@assign K T tb l v).
Proof. unfold assign. repeat local_step. Qed.

Lemma local_leftRotate tb x : local (@leftRotate K T tb x).
Proof.
  unfold leftRotate. repeat first [apply local_linkTo | apply local_assign | local_step].
Qed.

Lemma local_rightRotate tb x : local (@rightRotate K T tb x).
Proof.
  unfold rightRotate. repeat first [apply local_linkTo | apply local_assign | local_step].
Qed.

Lemma local_insertFixup fuel : forall tb x, local (@insertFixup K T fuel tb x).
Proof.
  induction fuel as [|fuel IH]; intros tb x; cbn [insertFixup]; [apply local_timeout|].
  repeat first
    [ apply IH | apply local_isLeftChild | apply local_isRightChild
    | apply local_leftRotate | apply local_rightRotate | local_step ].
Qed.

Lemma local_findNode_loop fuel : forall tb key node next,
  local (@findNode_loop K T cmp fuel tb key node next).
Proof.
  induction fuel as [|fuel IH]; intros tb key node next; cbn [findNode_loop];
    [apply local_timeout|].
  repeat first [apply IH | local_step].
Qed.

(** A new object: the address is fresh, so the object does not
    fall onto one of those beside. *)
Lemma local_new {A} al n (k : ptr -> M World A) :
  (forall s, local (k s)) ->
  local (storage <- allocate al ;; _ <- construct storage n ;; k storage).
Proof.
  intros Hk f w a w' Hf.
  assert (forall w0 : World,
            framed f w0 ->
            framed f (mkWorld (<[brk w0 := n]> (heap w0)) (brk w0 + 1) (cells w0))) as Hfr.
  { intros w0 Hf0 x Hx. destruct (Hf0 x Hx) as [H1 H2]. split; simpl; [|lia].
    rewrite dom_insert_L. apply not_elem_of_union. split; [|done].
    apply not_elem_of_singleton. lia. }
  unfold allocate, construct, set_heap, bind.
  destruct (m_allocations al =? nullptr).
  - simpl. intros Hrun. destruct (Hk _ f _ a w' (Hfr w Hf) Hrun) as [H1 H2].
    split; [done|]. rewrite <-H2. unfold ext. simpl. by rewrite insert_union_l.
  - unfold bump. simpl. destruct (cells w !! m_allocations al) as [v|]; [|done]. simpl.
    intros Hrun.
    destruct (Hk _ f _ a w' (Hfr (mkWorld (heap w) (brk w) _) Hf) Hrun) as [H1 H2].
    split; [done|]. rewrite <-H2. unfold ext. simpl. by rewrite insert_union_l.
Qed.

Lemma local_buildNode (tr : RBTree) (kv : K * T) : local (buildNode tr kv).
Proof.
  unfold buildNode.
  apply (local_new _ _ (fun storage =>
           _ <- set_right storage (nil (m_data tr)) ;;
           _ <- set_left storage (nil (m_data tr)) ;;
           ret storage)).
  intros s. repeat local_step.
Qed.

Lemma local_insert fuel (tr : RBTree) (kv : K * T) : local (insert cmp key_eq fuel tr kv).
Proof.
  unfold insert, findNode.
  apply local_bind; [apply local_findNode_loop|intros node].
  apply local_bind; [repeat local_step|intros hit].
  destruct hit; [apply local_ret|].
  apply local_bind; [apply local_buildNode|intros s].
  unfold attach, link_node.
  repeat first [apply local_insertFixup | local_step].
Qed.

(** [insert] puts nothing at an address that was handed out
    before. *)
Lemma insert_keeps_free fuel (tr : RBTree) (kv : K * T) (w : World) r w1 a :
  insert cmp key_eq fuel tr kv w = Done (r, w1) ->
  a < brk w -> a ∉ dom (heap w) -> a ∉ dom (heap w1).
Proof.
  intros Hrun Ha Hfree.
  set (f := {[a := mkNode nullptr nullptr nullptr Black (@None (K * T))]} : gmap N Node).
  assert (framed f w) as Hf.
  { intros x Hx. unfold f in Hx. rewrite dom_singleton_L in Hx.
    by apply elem_of_singleton in Hx as ->. }
  destruct (local_insert fuel tr kv f w _ w1 Hf Hrun) as [Hf1 _].
  apply (Hf1 a). unfold f. rewrite dom_singleton_L. by apply elem_of_singleton.
Qed.

End FrameInsert.

(** ** The copy constructor *)

Section Copy.
Context {K T : Type}.
Variable cmp : K -> K -> bool.
Variable key_eq : K -> K -> bool.
Local Abbreviation Node := (@Node K T).
Local Abbreviation World := (@World K T).
Local Abbreviation tree := (@tree K T).

Hypothesis cmp_irrefl : forall a, cmp a a = false.
Hypothesis cmp_trans : forall a b c, cmp a b = true -> cmp b c = true -> cmp a c = true.
Hypothesis key_eq_equiv :
  forall a b, key_eq a b = true <-> cmp a b = false /\ cmp b a = false.

(** Entries in strictly increasing order are all kept. *)
Lemma kept_sorted (l old : list (K * T)) :
  StronglySorted (fun x y => cmp (fst x) (fst y) = true) l ->
  (forall x y, x ∈ l -> y ∈ old -> cmp (fst y) (fst x) = true) ->
  kept key_eq old l ≡ₚ l ++ old.
Proof.
  revert old. induction l as [|x l IH]; intros old Hs Hold; simpl; [done|].
  apply StronglySorted_inv in Hs as [Hs Hx].
  assert (existsb (fun y => key_eq (fst x) (fst y)) old = false) as ->.
  { apply not_true_is_false. intros (y & Hy & Hk)%existsb_exists.
    apply list_elem_of_In in Hy. apply key_eq_equiv in Hk as [_ Hk].
    rewrite (Hold x y) in Hk; [done|by left|done]. }
  rewrite IH; [by rewrite Permutation_middle|done|].
  intros z y Hz [->|Hy]%elem_of_cons.
  - rewrite Forall_forall in Hx. by apply Hx.
  - apply Hold; [by right|done].
Qed.

Lemma wf_ext (f : gmap N Node) (w : World) tb np nc (t : tree) :
  wf w tb np nc t -> wf (ext f w) tb np nc t.
Proof.
  intros Hwf. apply (wf_agree w); [|done]. intros a Ha. simpl.
  assert (is_Some (heap w !! a)) as [n Hn].
  { apply elem_of_cons in Ha as [->|Ha].
    - eexists. apply (wf_nil _ _ _ _ _ Hwf).
    - apply elem_of_dom. by apply (wf_live _ _ _ _ _ _ Hwf). }
  by rewrite (lookup_union_Some_l _ _ _ _ Hn).
Qed.

Lemma wf_beside (f : gmap N Node) (w : World) tb np nc (t : tree) br cs :
  framed f w -> wf (mkWorld f br cs) tb np nc t -> wf (ext f w) tb np nc t.
Proof.
  intros Hf Hwf. apply (wf_agree (mkWorld f br cs)); [|done]. intros a Ha. simpl.
  assert (a ∈ dom f) as Hd.
  { apply elem_of_cons in Ha as [->|Ha].
    - eapply elem_of_dom_2. apply (wf_nil _ _ _ _ _ Hwf).
    - by apply (wf_live (mkWorld f br cs) _ _ _ _ _ Hwf). }
  destruct (Hf a Hd) as [Hn _]. apply not_elem_of_dom in Hn.
  by rewrite lookup_union_r.
Qed.

(** [insert(first, last)] over the rest of another tree that lives
    beside the tree. *)
Lemma insert_range_spec (f : gmap N Node) other np2 nc2 (t2 : tree) fuel' :
  wf (mkWorld f 0 ∅) other np2 nc2 t2 ->
  f !! nullptr = None ->
  (length (nodes t2) + 1 < fuel')%nat ->
  forall post pre (w0 : World) tr t fuel,
  nodes t2 = pre ++ post ->
  invariants cmp w0 tr t ->
  fresh_ok w0 ->
  can_allocate w0 (m_allocator tr) ->
  framed f w0 ->
  (length (inorder t) + length post + 1 < fuel')%nat ->
  (length post < fuel)%nat ->
  exists tr' w0' t',
    insert_range cmp key_eq fuel fuel' tr other
      (mkIterator true (hd nullptr post.*1)) (mkIterator true nullptr) (ext f w0) =
      Done (tr', ext f w0') /\
    invariants cmp w0' tr' t' /\
    framed f w0' /\
    m_allocator tr' = m_allocator tr /\
    inorder t' ≡ₚ kept key_eq (inorder t) post.*2 /\
    fresh_ok w0' /\
    (forall x, x < brk w0 -> x ∉ dom (heap w0) -> x ∉ dom (heap w0')) /\
    (exists k,
       length (inorder t') = (length (inorder t) + k)%nat /\
       brk w0' = brk w0 + N.of_nat k /\
       cells w0' = Nat.iter k (alloc_bump (m_allocator tr)) (cells w0)).
Proof.
  intros Hwf2 Hnull Hfuel2.
  induction post as [|[a kv] post IH];
    intros pre w0 tr t fuel Heq Hinv Hfresh Hal Hfr Hfuel' Hfuel.
  - destruct fuel as [|fuel]; [simpl in Hfuel; lia|].
    exists tr, w0, t. split_and!; try done.
    exists 0%nat. split_and!; [lia|lia|done].
  - destruct fuel as [|fuel]; [simpl in Hfuel; lia|].
    pose proof (wf_beside f w0 other np2 nc2 t2 0 ∅ Hfr Hwf2) as Hwf2'.
    assert ((a, kv) ∈ nodes t2) as Hin by (rewrite Heq; set_solver).
    destruct (rep_node_live _ _ _ _ _ _ (wf_rep _ _ _ _ _ Hwf2) Hin) as (n & Hn & Hv).
    simpl in Hn.
    assert (a <> nullptr) as Hne by (intros ->; congruence).
    destruct (rep_node_live _ _ _ _ _ _ (wf_rep _ _ _ _ _ Hwf2') Hin) as (n' & Hn' & Hv').
    destruct (insert_invariants cmp key_eq cmp_trans key_eq_equiv w0 tr t (fst kv) (snd kv)
                fuel' Hinv Hfresh Hal ltac:(simpl in Hfuel'; lia))
      as (it & b & tr1 & w1 & t1 & Hrun & Hinv1 & Hfresh1 & Hal1 & Ha1 & Htrue & Hfalse).
    rewrite <-surjective_pairing in Hrun.
    destruct (local_insert cmp key_eq fuel' tr kv f w0 _ w1 Hfr Hrun) as [Hfr1 Hrun'].
    pose proof (wf_beside f w1 other np2 nc2 t2 0 ∅ Hfr1 Hwf2) as Hwf2''.
    assert ((length (inorder t1) + length post + 1 < fuel')%nat /\
            inorder t1 ≡ₚ (if b then kv :: inorder t else inorder t) /\
            existsb (fun x => key_eq (fst kv) (fst x)) (inorder t) = negb b) as (Hl1 & Hp1 & He).
    { destruct b.
      - destruct (Htrue eq_refl) as [Habs Hperm]. rewrite <-surjective_pairing in Hperm.
        split_and!; [rewrite Hperm; simpl in *; lia|done|].
        apply not_true_is_false. intros (x & Hx & Hk)%existsb_exists.
        rewrite Forall_forall in Habs. apply list_elem_of_In in Hx.
        specialize (Habs x Hx). congruence.
      - destruct (Hfalse eq_refl) as ((kv' & Hin' & Hk) & -> & -> & ->).
        split_and!; [simpl in *; lia|done|].
        apply existsb_exists. exists kv'. split; [by apply list_elem_of_In|done]. }
    destruct (insert_counts cmp key_eq fuel' tr kv w0 _ _ _ _ Hrun) as [Hbrk1 Hcells1].
    destruct (IH (pre ++ [(a, kv)]) w1 tr1 t1 fuel)
      as (tr' & w' & t' & H1 & H2 & H3 & H4 & H5 & H6 & H7 & (k & Hk1 & Hk2 & Hk3));
      [by rewrite <-app_assoc|done|done|done|done|done|simpl in Hfuel; lia|].
    exists tr', w', t'.
    split; [|split; [exact H2|split; [exact H3|split; [congruence|split; [|split; [exact H6|split]]]]]].
    + cbn [insert_range]. unfold Iterator_eqb, Iterator_deref, Iterator_next. simpl.
      apply N.eqb_neq in Hne. rewrite Hne.
      rewrite (bind_done _ _ _ _ _ (get_value_done _ _ _ _ Hn' Hv')).
      rewrite (bind_done _ _ _ _ _ Hrun'). simpl.
      rewrite bind_assoc.
      rewrite (bind_done _ _ _ _ _ (successor_next _ _ _ _ _ _ _ _ _ _ Hwf2'' Heq Hfuel2)).
      rewrite bind_ret. exact H1.
    + rewrite H5. simpl. rewrite He. destruct b; simpl; by apply kept_perm.
    + intros x Hx Hfree. apply H7.
      * rewrite Hbrk1. lia.
      * by apply (insert_keeps_free cmp key_eq fuel' tr kv w0 _ w1 x Hrun).
    + exists (k + (if b then 1 else 0))%nat. split_and!.
      * rewrite Hk1, Hp1. destruct b; simpl; lia.
      * rewrite Hk2, Hbrk1. destruct b; lia.
      * rewrite Hk3, Hcells1, Ha1. destruct b.
        -- by rewrite Nat.add_1_r, Nat.iter_succ_r.
        -- by rewrite Nat.add_0_r.
Qed.

Lemma bst_inorder_sorted (t : tree) :
  bst cmp t -> StronglySorted (fun x y => cmp (fst x) (fst y) = true) (inorder t).
Proof.
  intros Hbst. apply (bst_sorted cmp cmp_trans) in Hbst.
  rewrite <-nodes_inorder.
  induction Hbst as [|x l _ IH Hx]; simpl; constructor; [done|].
  rewrite Forall_fmap. exact Hx.
Qed.

(** The copy constructor: the copy, the source beside it, and what
    the allocator has counted. *)
Lemma RBTree_copy_spec (w : World) (other : RBTree) np nc t fuel :
  wf w (m_data other) np nc t ->
  t <> Lf ->
  bst cmp t ->
  heap w !! nullptr = None ->
  fresh_ok w ->
  can_allocate w (m_allocator other) ->
  (length (inorder t) + 2 < fuel)%nat ->
  exists tr' w' t',
    RBTree_copy cmp key_eq fuel other w = Done (tr', w') /\
    invariants cmp w' tr' t' /\
    inorder t' = inorder t /\
    m_allocator tr' = m_allocator other /\
    wf w' (m_data other) np nc t /\
    (forall a, a ∈ dom (heap w) -> heap w' !! a = heap w !! a) /\
    (forall a, a ∈ nil (m_data tr') :: addrs t' -> a ∉ dom (heap w)) /\
    heap w' !! nullptr = None /\
    fresh_ok w' /\
    brk w' = brk w + N.of_nat (S (length (inorder t))) /\
    cells w' = Nat.iter (S (length (inorder t))) (alloc_bump (m_allocator other)) (cells w).
Proof.
  intros Hwf Hne Hbst Hnull Hfresh Hal Hfuel.
  assert (length (nodes t) = length (inorder t)) as Hlen
    by by rewrite <-nodes_inorder, length_fmap.
  assert (0 < brk w) as Hpos.
  { destruct t as [|c l a kv r]; [done|].
    pose proof (wf_focus w _ np nc [] c l a kv r Hwf) as Ha.
    apply elem_of_dom_2, Hfresh in Ha. lia. }
  unfold RBTree_copy.
  destruct (RBTree_new_spec w (m_allocator other) Hal) as (cs & Hnew & Hcs0 & Hcs1).
  rewrite (bind_done _ _ _ _ _ Hnew).
  set (s := mkNode nullptr (brk w) (brk w) Black (@None (K * T))).
  set (w0 := mkWorld (<[brk w := s]> ∅) (brk w + 1) cs).
  set (tr0 := mkRBTree (mkTreeBase (brk w) (brk w)) (m_allocator other) 0).
  assert (mkWorld (<[brk w := s]> (heap w)) (brk w + 1) cs = ext (heap w) w0) as ->.
  { unfold ext, w0. simpl. f_equal. by rewrite <-insert_union_l, (left_id_L ∅ (∪)). }
  assert (framed (heap w) w0) as Hfr.
  { intros a Ha. apply Hfresh in Ha. split; simpl; [|lia].
    rewrite dom_insert_L, dom_empty_L. set_unfold. lia. }
  assert (wf (mkWorld (heap w) 0 ∅) (m_data other) np nc t) as Hwf2
    by (destruct Hwf; by split).
  assert (cs = alloc_bump (m_allocator other) (cells w)) as Hcs.
  { unfold alloc_bump, bump_cell.
    destruct (m_allocations (m_allocator other) =? nullptr) eqn:E.
    - apply N.eqb_eq in E. by apply Hcs0.
    - apply N.eqb_neq in E. destruct Hal as [Hz|[v Hv]]; [done|].
      rewrite Hv. by apply Hcs1. }
  rewrite (bind_done _ _ _ _ _
             (begin_spec (ext (heap w) w0) other np nc fuel t
                (wf_beside _ _ _ _ _ _ _ _ Hfr Hwf2) Hne ltac:(lia))).
  destruct (insert_range_spec (heap w) (m_data other) np nc t fuel Hwf2 Hnull ltac:(lia)
              (nodes t) [] w0 tr0 Lf fuel eq_refl)
    as (tr' & w0' & t' & Hrun & Hinv & Hfr' & Hal' & Hperm & Hfresh' & Hfree &
        (k & Hk1 & Hk2 & Hk3)).
  { split_and!; try done. exists nullptr. apply (wf_new (mkWorld ∅ 0 ∅)). }
  { intros a. simpl. rewrite dom_insert_L, dom_empty_L. set_unfold. lia. }
  { unfold w0, tr0. simpl. destruct Hal as [Hz|[v Hv]]; [by left|right].
    destruct (decide (m_allocations (m_allocator other) = nullptr)) as [Hz|Hnz].
    - rewrite (Hcs0 Hz). by exists v.
    - rewrite (Hcs1 v Hnz Hv). cbn [cells]. rewrite lookup_insert_eq. by eexists. }
  { done. }
  { simpl. lia. }
  { lia. }
  assert (inorder t' = inorder t) as Hsame.
  { destruct Hinv as (_ & Hbst' & _).
    apply (StronglySorted_unique_strong (fun x y => cmp (fst x) (fst y) = true)).
    + intros x y _ _ H1 H2. pose proof (cmp_trans _ _ _ H1 H2) as H3.
      by rewrite cmp_irrefl in H3.
    + by apply bst_inorder_sorted.
    + by apply bst_inorder_sorted.
    + rewrite Hperm, nodes_inorder. simpl.
      rewrite (kept_sorted (inorder t) []); [by rewrite app_nil_r|by apply bst_inorder_sorted|].
      intros x y _ Hy. by apply elem_of_nil in Hy. }
  assert (k = length (inorder t)) as -> by (rewrite Hsame in Hk1; simpl in Hk1; lia).
  exists tr', (ext (heap w) w0'), t'.
  split; [exact Hrun|]. split; [|split; [exact Hsame|split; [exact Hal'|split; [|split; [|split; [|split; [|split; [|split]]]]]]]].
  - destruct Hinv as ((np' & Hwf') & H2). split; [|exact H2]. exists np'. by apply wf_ext.
  - by apply (wf_beside _ _ _ _ _ _ 0 ∅).
  - intros a Ha. simpl. destruct (Hfr' a Ha) as [Hn _].
    apply not_elem_of_dom in Hn. by rewrite lookup_union_r.
  - intros a Ha Hin. destruct (Hfr' a Hin) as [Hn _]. apply Hn.
    destruct Hinv as ((np' & Hwf') & _).
    apply elem_of_cons in Ha as [->|Ha].
    + eapply elem_of_dom_2. apply (wf_nil _ _ _ _ _ Hwf').
    + by apply (wf_live _ _ _ _ _ _ Hwf').
  - simpl. apply lookup_union_None. split; [|done].
    apply not_elem_of_dom. apply Hfree; [unfold w0, nullptr; simpl; lia|].
    unfold w0, nullptr. simpl. rewrite dom_insert_L, dom_empty_L. set_unfold. lia.
  - intros a. simpl. rewrite dom_union_L. intros [Ha|Ha]%elem_of_union.
    + by apply Hfresh'.
    + apply Hfresh in Ha. rewrite Hk2. simpl. lia.
  - cbn [brk ext]. rewrite Hk2. unfold w0. cbn [brk]. lia.
  - cbn [cells ext]. rewrite Hk3. unfold w0, tr0. cbn [cells m_allocator]. rewrite Hcs.
    by rewrite Nat.iter_succ_r.
Qed.

(** X15: the copy constructor, applied to a well-formed search tree
    that is not empty, returns a tree with a sentinel and nodes of
    its own that satisfies I1 to I5 (whatever the colours of the
    source were) and holds the same entries in the same order, with
    the allocator of the source; the source and every other object
    that was in the heap are untouched. *)
Theorem X15_copy_constructor (w : World) (other : RBTree) np nc t fuel :
  wf w (m_data other) np nc t ->
  t <> Lf ->
  bst cmp t ->
  heap w !! nullptr = None ->
  fresh_ok w ->
  can_allocate w (m_allocator other) ->
  (length (inorder t) + 2 < fuel)%nat ->
  exists tr' w' t',
    RBTree_copy cmp key_eq fuel other w = Done (tr', w') /\
    invariants cmp w' tr' t' /\
    inorder t' = inorder t /\
    m_allocator tr' = m_allocator other /\
    wf w' (m_data other) np nc t /\
    (forall a, a ∈ dom (heap w) -> heap w' !! a = heap w !! a).
Proof.
  intros Hwf Hne Hbst Hnull Hfresh Hal Hfuel.
  destruct (RBTree_copy_spec w other np nc t fuel Hwf Hne Hbst Hnull Hfresh Hal Hfuel)
    as (tr' & w' & t' & H1 & H2 & H3 & H4 & H5 & H6 & _).
  exists tr', w', t'. split; [exact H1|]. split; [exact H2|]. split; [exact H3|].
  split; [exact H4|]. split; [exact H5|exact H6].
Qed.

End Copy.

Lemma X15_copy_witness :
  exists tr' w' t',
    RBTree_copy int_less Z.eqb 10 demo demo_world = Done (tr', w') /\
    invariants int_less w' tr' t' /\
    inorder t' = inorder demo_tree /\
    wf w' (m_data demo) 3 Black demo_tree.
Proof.
  destruct (X15_copy_constructor int_less Z.eqb int_less_irrefl int_less_trans int_eq_equiv
              demo_world demo 3 Black demo_tree 10 demo_wf ltac:(done) demo_bst eq_refl
              demo_fresh demo_can_allocate ltac:(simpl; lia))
    as (tr' & w' & t' & H1 & H2 & H3 & _ & H4 & _).
  exists tr', w', t'. split; [exact H1|]. split; [exact H2|]. split; [exact H3|exact H4].
Defined.

(** ** Counting by iteration *)

Section Distance.
Context {K T : Type}.
Local Abbreviation Node := (@Node K T).
Local Abbreviation World := (@World K T).
Local Abbreviation tree := (@tree K T).

Lemma distance_spec (w : World) tb np nc fuel' (t : tree) :
  wf w tb np nc t ->
  heap w !! nullptr = None ->
  (length (nodes t) + 1 < fuel')%nat ->
  forall post fuel pre,
  nodes t = pre ++ post ->
  (length post < fuel)%nat ->
  distance fuel fuel' tb (mkIterator true (hd nullptr post.*1)) (mkIterator true nullptr) w =
    Done (N.of_nat (length post), w).
Proof.
  intros Hwf Hnull Hfuel'.
  induction post as [|[a kv] post IH]; intros fuel pre Heq Hfuel.
  - destruct fuel as [|fuel]; [simpl in Hfuel; lia|]. done.
  - destruct fuel as [|fuel]; [simpl in Hfuel; lia|].
    assert ((a, kv) ∈ nodes t) as Hin by (rewrite Heq; set_solver).
    destruct (rep_node_live _ _ _ _ _ _ (wf_rep _ _ _ _ _ Hwf) Hin) as (n & Hn & Hv).
    assert (a <> nullptr) as Hne by (intros ->; congruence).
    cbn [distance]. unfold Iterator_eqb, Iterator_next. simpl.
    apply N.eqb_neq in Hne. rewrite Hne.
    rewrite bind_assoc.
    rewrite (bind_done _ _ _ _ _ (successor_next _ _ _ _ _ _ _ _ _ _ Hwf Heq Hfuel')).
    rewrite bind_ret.
    rewrite (bind_done _ _ _ _ _ (IH fuel (pre ++ [(a, kv)]) ltac:(by rewrite <-app_assoc)
                                    ltac:(simpl in Hfuel; lia))).
    unfold ret. do 2 f_equal. lia.
Qed.

(** X16: on a well-formed tree that is not empty,
    [std::distance(begin(), end())] returns the number of entries
    and leaves the world as it is; so it equals [size()] when
    [m_size] counts the entries (fewer than [2^64]). *)
Theorem X16_distance_counts_entries (w : World) (tr : RBTree) np nc t fuel :
  wf w (m_data tr) np nc t ->
  heap w !! nullptr = None ->
  t <> Lf ->
  (length (inorder t) + 1 < fuel)%nat ->
  exists first,
    begin_ fuel tr w = Done (first, w) /\
    distance fuel fuel (m_data tr) first (end_ tr) w =
      Done (N.of_nat (length (inorder t)), w) /\
    (m_size tr = N.of_nat (length (inorder t)) mod size_t_max ->
     N.of_nat (length (inorder t)) < size_t_max ->
     distance fuel fuel (m_data tr) first (end_ tr) w = Done (size tr, w)).
Proof.
  intros Hwf Hnull Hne Hfuel.
  assert (length (nodes t) = length (inorder t)) as Hlen
    by by rewrite <-nodes_inorder, length_fmap.
  pose proof (begin_spec w tr np nc fuel t Hwf Hne ltac:(lia)) as Hb.
  pose proof (distance_spec w _ np nc fuel t Hwf Hnull ltac:(lia) (nodes t) fuel []
                eq_refl ltac:(lia)) as Hd.
  rewrite Hlen in Hd.
  eexists. split; [exact Hb|]. split; [exact Hd|].
  intros Hsize Hsmall. unfold size. rewrite Hsize, N.mod_small by done. exact Hd.
Qed.

End Distance.

Lemma X16_distance_witness :
  exists first,
    begin_ 10 demo demo_world = Done (first, demo_world) /\
    distance 10 10 (m_data demo) first (end_ demo) demo_world = Done (size demo, demo_world).
Proof.
  destruct (X16_distance_counts_entries demo_world demo 3 Black demo_tree 10 demo_wf eq_refl
              ltac:(done) ltac:(simpl; lia)) as (first & H1 & _ & H3).
  exists first. split; [exact H1|]. apply H3; [reflexivity|]. vm_compute. reflexivity.
Defined.

(** ** [insert] and then [erase] *)

Section RoundTrip.
Context {K T : Type}.
Variable cmp : K -> K -> bool.
Variable key_eq : K -> K -> bool.
Local Abbreviation Node := (@Node K T).
Local Abbreviation World := (@World K T).
Local Abbreviation tree := (@tree K T).

Hypothesis cmp_irrefl : forall a, cmp a a = false.
Hypothesis cmp_trans : forall a b c, cmp a b = true -> cmp b c = true -> cmp a c = true.
Hypothesis key_eq_equiv :
  forall a b, key_eq a b = true <-> cmp a b = false /\ cmp b a = false.

(** X17: on a tree that satisfies I1 to I5 with a black sentinel,
    [insert(k, v)] of a key that is absent followed by [erase(k)]
    gives back a well-formed tree with exactly the nodes it had, at
    their addresses and in their order, and with the size it had;
    the node of [k] is destroyed. *)
Theorem X17_insert_then_erase (w : World) tr t k v fuel :
  invariants cmp w tr t ->
  fresh_ok w ->
  heap w !! nullptr = None ->
  (0 < brk w) ->
  can_allocate w (m_allocator tr) ->
  can_deallocate w (m_allocator tr) ->
  Forall (fun x => key_eq k (fst x) = false) (inorder t) ->
  (length (inorder t) + 2 < fuel)%nat ->
  exists it tr1 w1 tr2 w2 np2 nc2 t2,
    insert cmp key_eq fuel tr (k, v) w = Done ((it, true, tr1), w1) /\
    erase cmp key_eq fuel tr1 k w1 = Done (tr2, w2) /\
    wf w2 (m_data tr2) np2 nc2 t2 /\
    nodes t2 = nodes t /\
    size tr2 = size tr /\
    heap w2 !! m_node it = None.
Proof.
  intros (Hwf & Hbst & Hnrr & Hbh & Hrb & Hsize) Hfresh Hnull Hbrk Hal Hdl Habs Hfuel.
  destruct Hwf as [np Hwf].
  assert (length (nodes t) = length (inorder t)) as Hlen
    by by rewrite <-nodes_inorder, length_fmap.
  pose proof (absent_miss cmp key_eq key_eq_equiv k t Habs) as Hhit.
  pose proof (miss_at_leaf cmp key_eq key_eq_equiv k t Hhit) as Hleaf.
  destruct (insert_miss_balanced cmp key_eq w tr np t (k, v) fuel Hwf Hrb Hfresh Hal Hhit Hleaf
              ltac:(lia))
    as (w1 & tr1 & np1 & Hrun & Hwf1 & Hfresh1 & Hcells & Halloc & Hsz).
  pose proof (descend_plug cmp k [] t) as Hplug.
  pose proof (descend_ins cmp (brk w) (k, v) [] t Hleaf) as Hins.
  destruct (ins_split cmp (brk w) (k, v) t Hleaf) as (pre & post & Hpre & Hpost).
  simpl in *. destruct (descend cmp k [] t) as [ctx0 t0] eqn:Hd. simpl in *. subst t0.
  set (t1 := ins_fixup ctx0 (Nd Red Lf (brk w) (k, v) Lf)) in *.
  assert (nodes t1 = pre ++ (brk w, (k, v)) :: post) as Hnodes.
  { unfold t1. by rewrite (nodes_ins_fixup (length ctx0)), Hins. }
  (* the invariants that [erase] relies on *)
  rewrite <-Hplug in Hnrr, Hbh, Hrb.
  apply nrr_plug in Hnrr as (_ & Hctx & _).
  destruct Hbh as [N0 HN]. destruct (bh_plug _ _ _ HN) as (m & Hm & Hhole).
  injection Hm as <-.
  destruct (ins_fixup_rb (length ctx0) ctx0 (Nd Red Lf (brk w) (k, v) Lf) 0%nat)
    as (Hn1 & Hr1 & [N1 Hb1]); try done.
  { intros Hne. destruct ctx0 as [|f ctx0]; [done|].
    unfold root_black in *. by rewrite (color_of_plug _ f ctx0 _ Lf). }
  fold t1 in Hn1, Hr1, Hb1.
  assert (bst cmp t1) as Hbst1.
  { apply (bst_nodes cmp cmp_trans (ins cmp (brk w) (k, v) t)).
    - rewrite Hnodes. symmetry. exact Hpost.
    - by apply (bst_ins cmp key_eq key_eq_equiv). }
  assert (heap w1 !! nullptr = None) as Hnull1.
  { set (f := {[nullptr := mkNode nullptr nullptr nullptr Black (@None (K * T))]}
           : gmap N Node).
    assert (framed f w) as Hf.
    { intros a Ha. unfold f in Ha. rewrite dom_singleton_L in Ha.
      apply elem_of_singleton in Ha as ->. split; [by apply not_elem_of_dom|done]. }
    destruct (local_insert cmp key_eq fuel tr (k, v) f w _ w1 Hf Hrun) as [Hf1 _].
    apply not_elem_of_dom. apply (Hf1 nullptr). unfold f. rewrite dom_singleton_L.
    by apply elem_of_singleton. }
  destruct (focus_split t1 pre (brk w) (k, v) post (wf_nodup _ _ _ _ _ Hwf1) Hnodes)
    as (ctx & c & l & r & Ht1 & Hpre1 & Hpost1).
  assert (hit cmp key_eq k t1 = Some (brk w)) as Hhit1.
  { apply (hit_present cmp key_eq cmp_irrefl cmp_trans key_eq_equiv t1 (brk w) (k, v) Hbst1).
    rewrite Hnodes. set_solver. }
  rewrite Ht1 in Hwf1, Hb1, Hhit1.
  destruct (erase_hit_spec cmp key_eq w1 tr1 np1 ctx c l (brk w) (k, v) r k fuel N1
              Hwf1 Hb1 Hnull1)
    as (w2 & tr2 & np2 & nc2 & t2 & Hrun2 & Hwf2 & Hnodes2 & Hsz2 & _ & _ & Hgone & _).
  { destruct Hdl as [Hz|Hc]; [left|right]; rewrite Halloc; [done|by apply Hcells]. }
  { exact Hhit1. }
  { rewrite <-Ht1, Hnodes, length_app. simpl. rewrite Hpre, length_app in Hlen. lia. }
  exists (mkIterator true (brk w)), tr1, w1, tr2, w2, np2, nc2, t2.
  split; [exact Hrun|]. split; [exact Hrun2|]. split; [exact Hwf2|].
  split; [|split; [|exact Hgone]].
  - rewrite Hnodes2, Hpre, Hpre1, Hpost1. by rewrite <-!app_assoc.
  - unfold size. rewrite Hsz2, Hsz, Hsize.
    assert (0 < size_t_max) as HM by done.
    generalize dependent size_t_max. intros M _ _ _ HM.
    pose proof (N.mod_upper_bound (N.of_nat (length (inorder t))) M ltac:(lia)) as Hx.
    set (x := N.of_nat (length (inorder t)) mod M) in *.
    destruct (decide (x + 1 = M)) as [E|E].
    + rewrite E, N.Div0.mod_same, N.add_0_l, N.mod_small by lia. lia.
    + rewrite (N.mod_small (x + 1) M) by lia.
      replace (x + 1 + M - 1) with (x + 1 * M) by lia.
      rewrite N.Div0.mod_add. apply N.mod_small. lia.
Qed.

End RoundTrip.

Lemma X17_round_trip_witness :
  exists it tr1 w1 tr2 w2 np2 nc2 t2,
    insert int_less Z.eqb 10 demo (5%Z, "e"%string) demo_world = Done ((it, true, tr1), w1) /\
    erase int_less Z.eqb 10 tr1 5%Z w1 = Done (tr2, w2) /\
    wf w2 (m_data tr2) np2 nc2 t2 /\
    nodes t2 = nodes demo_tree /\
    size tr2 = size demo.
Proof.
  destruct (X17_insert_then_erase int_less Z.eqb int_less_irrefl int_less_trans int_eq_equiv
              demo_world demo demo_tree 5%Z "e"%string 10
              demo_invariants demo_fresh eq_refl eq_refl demo_can_allocate demo_can_deallocate)
    as (it & tr1 & w1 & tr2 & w2 & np2 & nc2 & t2 & H1 & H2 & H3 & H4 & H5 & _).
  - by repeat constructor.
  - simpl. lia.
  - exists it, tr1, w1, tr2, w2, np2, nc2, t2.
    split; [exact H1|]. split; [exact H2|]. split; [exact H3|]. split; [exact H4|exact H5].
Defined.

(** ** What [extractFixup] computes *)

Section ExtractBalance.
Context {K T : Type}.
Local Abbreviation Node := (@Node K T).
Local Abbreviation World := (@World K T).
Local Abbreviation tree := (@tree K T).
Local Abbreviation frame := (@frame K T).

(** One turn of the loop at a left child [x] of [p], after the test
    for a red sibling: the subtree that takes the place of [p], and
    whether the loop is left.  With a red far nephew the parent is
    rotated to the left; with a red near nephew and a black far one
    the sibling is first rotated to the right; with two black nephews
    the sibling becomes red and the loop goes on at [p].  The colour
    of the sibling is overwritten in every case. *)
Definition ext_step_left (cp : Color) (x : tree) (p : ptr) (kvp : K * T) (sib : tree)
  : tree * bool :=
  match sib with
  | Lf => (Nd cp x p kvp Lf, true)
  | Nd _ sn s kvs sf =>
      match color_of Black sf with
      | Red => (Nd cp (Nd Black x p kvp sn) s kvs (blacken sf), true)
      | Black =>
          match color_of Black sn with
          | Red =>
              match sn with
              | Nd _ nn e kve nf =>
                  (Nd cp (Nd Black x p kvp nn) e kve (Nd Black nf s kvs sf), true)
              | Lf => (Nd cp x p kvp sib, true)
              end
          | Black => (Nd cp x p kvp (Nd Red sn s kvs sf), false)
          end
      end
  end.

(** The same at a right child. *)
Definition ext_step_right (cp : Color) (sib : tree) (p : ptr) (kvp : K * T) (x : tree)
  : tree * bool :=
  match sib with
  | Lf => (Nd cp Lf p kvp x, true)
  | Nd _ sf s kvs sn =>
      match color_of Black sf with
      | Red => (Nd cp (blacken sf) s kvs (Nd Black sn p kvp x), true)
      | Black =>
          match color_of Black sn with
          | Red =>
              match sn with
              | Nd _ nf e kve nn =>
                  (Nd cp (Nd Black sf s kvs nf) e kve (Nd Black nn p kvp x), true)
              | Lf => (Nd cp sib p kvp x, true)
              end
          | Black => (Nd cp (Nd Red sf s kvs sn) p kvp x, false)
          end
      end
  end.

(** The tree [extractFixup] leaves, from the context of the node and
    the subtree at the node.  A red sibling is first rotated above the
    parent, which becomes red; the turn then goes on with the near
    nephew as sibling, and if the loop is not left by it, the red
    parent ends it.  The siblings are nodes wherever the black heights
    are uniform; a sibling that is the sentinel ends the function. *)
Fixpoint ext_fixup (ctx : list frame) (x : tree) : tree :=
  match ctx with
  | [] => blacken x
  | f :: rest =>
      match color_of Black x with
      | Red => plug ctx (blacken x)
      | Black =>
          match f with
          | FL cp p kvp sib =>
              match sib with
              | Nd Red sn s kvs sf =>
                  let '(t, fin) := ext_step_left Red x p kvp sn in
                  if fin then blacken (plug (FL Black s kvs sf :: rest) t)
                  else plug (FL Black s kvs sf :: rest) (blacken t)
              | _ =>
                  let '(t, fin) := ext_step_left cp x p kvp sib in
                  if fin then blacken (plug rest t) else ext_fixup rest t
              end
          | FR cp sib p kvp =>
              match sib with
              | Nd Red sf s kvs sn =>
                  let '(t, fin) := ext_step_right Red sn p kvp x in
                  if fin then blacken (plug (FR Black sf s kvs :: rest) t)
                  else plug (FR Black sf s kvs :: rest) (blacken t)
              | _ =>
                  let '(t, fin) := ext_step_right cp sib p kvp x in
                  if fin then blacken (plug rest t) else ext_fixup rest t
              end
          end
      end
  end.

(** [extractFixup] at a node [x] whose siblings, up to the root, have
    the black height of a hole that is one black node short: the call
    returns, and the tree it leaves is [ext_fixup]. *)
Lemma extractFixup_refines fuel :
  forall (w : World) tb np ctx (x : tree) n,
  wf w tb np Black (plug ctx x) ->
  (x = Lf -> np = ctx_par (nil tb) ctx) ->
  hole_bh ctx (S n) ->
  (length ctx < fuel)%nat ->
  exists w' tb' np',
    extractFixup fuel tb (ptr_of (nil tb) x) w = Done (tb', w') /\
    nil tb' = nil tb /\
    same_domain w w' /\
    wf w' tb' np' Black (ext_fixup ctx x).
Proof.
  induction fuel as [|fuel IH]; intros w tb np ctx x n Hwf Hnp Hbh Hfuel; [lia|].
  destruct ctx as [|f rest].
  { destruct (extractFixup_exit w tb np fuel [] x Hwf (or_introl eq_refl)) as (w' & Hrun & Hdom & Hwf').
    exists w', tb, np. by split_and!. }
  destruct (color_of Black x) eqn:Hcx.
  { destruct (extractFixup_exit w tb np fuel (f :: rest) x Hwf (or_intror Hcx)) as (w' & Hrun & Hdom & Hwf').
    exists w', tb, np. split_and!; try done. cbn [ext_fixup]. by rewrite Hcx. }
  destruct Hbh as [Hsib Hbh]. cbn [length] in Hfuel.
  rewrite (extractFixup_enter w tb np fuel f rest x Hwf Hnp Hcx)
    by (destruct (bh_pos_Nd _ _ Hsib) as (? & ? & ? & ? & ? & ->); done).
  destruct f as [cp p kvp S0|cp S0 p kvp]; cbn [frame_sibling frame_color] in *.
  - (* the node is a left child *)
    destruct (bh_pos_Nd _ _ Hsib) as (cs & sn & s & kvs & sf & ->).
    apply bh_Nd in Hsib as (m & Hsn & Hsf & Hm).
    wf_facts Hwf rest. repeat rstep.
    destruct cs; cbn [Color_eqb].
    + (* red sibling *)
      subst m. destruct (bh_pos_Nd _ _ Hsn) as (cn & nn & e & kve & nf & ->).
      repeat rstep.
      paint Hwf (FR cp x p kvp :: rest) s Black.
      paint Hwf rest p Red.
      rotate_left Hwf rest.
      wf_facts Hwf rest. repeat rstep.
      rewrite (bind_done _ _ _ _ _ (wf_color_of _ _ _ _
        (FL cn e kve nf :: FR Red x p kvp :: FL Black s kvs sf :: rest) nn Hwf)).
      pose proof (wf_color_of _ _ _ _
        (FR cn nn e kve :: FR Red x p kvp :: FL Black s kvs sf :: rest) nf Hwf) as Hfar.
      destruct (color_of Black nf) eqn:Hcf.
      * (* the far nephew is red *)
        apply red_Nd in Hcf as (fn & d & kvd & ff & ->).
        cbn [ptr_of] in *. wf_facts Hwf rest.
        match type of Hwf with wf ?w0 _ _ _ _ =>
          assert (forall B (k : bool -> M World B),
            bind (if Color_eqb (color_of Black nn) Black
                  then bind (get_right e) (fun q => bind (get_color q) (fun c => ret (Color_eqb c Black)))
                  else ret false) k w0 = k false w0) as Hboth
        end.
        { intros B k. destruct (color_of Black nn); cbn [Color_eqb]; [by rewrite bind_ret|].
          by repeat rstep. }
        rewrite Hboth. clear Hboth. repeat rstep.
        paint Hwf (FR Red x p kvp :: FL Black s kvs sf :: rest) e Red.
        paint Hwf (FL Black s kvs sf :: rest) p Black.
        wf_facts Hwf rest. repeat rstep.
        paint Hwf (FR Red nn e kve :: FR Black x p kvp :: FL Black s kvs sf :: rest) d Black.
        rotate_left Hwf (FL Black s kvs sf :: rest).
        destruct fuel as [|fuel']; [lia|].
        rewrite (wf_root _ _ _ _ _ Hwf).
        destruct (extractFixup_exit _ _ _ fuel' [] _ Hwf (or_introl eq_refl)) as (w' & Hrun & Hdom' & Hwf').
        eexists w', _, _. split_and!; [exact Hrun|congruence|dom_chain|].
        cbn [ext_fixup ext_step_left ext_step_right]; repeat (match goal with H : color_of Black _ = _ |- _ => rewrite H end; cbn [ext_fixup ext_step_left ext_step_right color_of]); exact Hwf'.
      * destruct (color_of Black nn) eqn:Hcn; cbn [Color_eqb].
        -- (* the near nephew is red, the far one black *)
          apply red_Nd in Hcn as (nnn & g & kvg & nnf & ->).
          cbn [ptr_of] in *. wf_facts Hwf rest. repeat rstep.
          rewrite (bind_done _ _ _ _ _ Hfar). cbn [Color_eqb]. repeat rstep.
          paint Hwf (FL cn e kve nf :: FR Red x p kvp :: FL Black s kvs sf :: rest) g Black.
          paint Hwf (FR Red x p kvp :: FL Black s kvs sf :: rest) e Red.
          rotate_right Hwf (FR Red x p kvp :: FL Black s kvs sf :: rest).
          wf_facts Hwf rest. repeat rstep.
          paint Hwf (FR Red x p kvp :: FL Black s kvs sf :: rest) g Red.
          paint Hwf (FL Black s kvs sf :: rest) p Black.
          wf_facts Hwf rest. repeat rstep.
          paint Hwf (FR Red nnn g kvg :: FR Black x p kvp :: FL Black s kvs sf :: rest) e Black.
          rotate_left Hwf (FL Black s kvs sf :: rest).
          destruct fuel as [|fuel']; [lia|].
          rewrite (wf_root _ _ _ _ _ Hwf).
          destruct (extractFixup_exit _ _ _ fuel' [] _ Hwf (or_introl eq_refl)) as (w' & Hrun & Hdom' & Hwf').
          eexists w', _, _. split_and!; [exact Hrun|congruence|dom_chain|].
          cbn [ext_fixup ext_step_left ext_step_right]; repeat (match goal with H : color_of Black _ = _ |- _ => rewrite H end; cbn [ext_fixup ext_step_left ext_step_right color_of]); exact Hwf'.
        -- (* both nephews are black *)
          repeat rstep. rewrite (bind_done _ _ _ _ _ Hfar). cbn [Color_eqb]. repeat rstep.
          paint Hwf (FR Red x p kvp :: FL Black s kvs sf :: rest) e Red.
          destruct fuel as [|fuel']; [lia|].
          destruct (extractFixup_exit _ _ _ fuel' (FL Black s kvs sf :: rest)
                      (Nd Red x p kvp (Nd Red nn e kve nf)) Hwf (or_intror eq_refl))
            as (w' & Hrun & Hdom' & Hwf').
          eexists w', _, _. split_and!; [exact Hrun|congruence|dom_chain|].
          cbn [ext_fixup ext_step_left ext_step_right]; repeat (match goal with H : color_of Black _ = _ |- _ => rewrite H end; cbn [ext_fixup ext_step_left ext_step_right color_of]); exact Hwf'.
    + (* black sibling *)
      repeat rstep.
      rewrite (bind_done _ _ _ _ _ (wf_color_of _ _ _ _
        (FL Black s kvs sf :: FR cp x p kvp :: rest) sn Hwf)).
      pose proof (wf_color_of _ _ _ _
        (FR Black sn s kvs :: FR cp x p kvp :: rest) sf Hwf) as Hfar.
      destruct (color_of Black sf) eqn:Hcf.
      * (* the far nephew is red *)
        apply red_Nd in Hcf as (fn & d & kvd & ff & ->).
        cbn [ptr_of] in *. wf_facts Hwf rest.
        match type of Hwf with wf ?w0 _ _ _ _ =>
          assert (forall B (k : bool -> M World B),
            bind (if Color_eqb (color_of Black sn) Black
                  then bind (get_right s) (fun q => bind (get_color q) (fun c => ret (Color_eqb c Black)))
                  else ret false) k w0 = k false w0) as Hboth
        end.
        { intros B k. destruct (color_of Black sn); cbn [Color_eqb]; [by rewrite bind_ret|].
          by repeat rstep. }
        rewrite Hboth. clear Hboth. repeat rstep.
        paint Hwf (FR cp x p kvp :: rest) s cp.
        paint Hwf rest p Black.
        wf_facts Hwf rest. repeat rstep.
        paint Hwf (FR cp sn s kvs :: FR Black x p kvp :: rest) d Black.
        rotate_left Hwf rest.
        destruct fuel as [|fuel']; [lia|].
        rewrite (wf_root _ _ _ _ _ Hwf).
        destruct (extractFixup_exit _ _ _ fuel' [] _ Hwf (or_introl eq_refl)) as (w' & Hrun & Hdom' & Hwf').
        eexists w', _, _. split_and!; [exact Hrun|congruence|dom_chain|].
        cbn [ext_fixup ext_step_left ext_step_right]; repeat (match goal with H : color_of Black _ = _ |- _ => rewrite H end; cbn [ext_fixup ext_step_left ext_step_right color_of]); exact Hwf'.
      * destruct (color_of Black sn) eqn:Hcn; cbn [Color_eqb].
        -- (* the near nephew is red, the far one black *)
          apply red_Nd in Hcn as (nn & e & kve & nf & ->).
          cbn [ptr_of] in *. wf_facts Hwf rest. repeat rstep.
          rewrite (bind_done _ _ _ _ _ Hfar). cbn [Color_eqb]. repeat rstep.
          paint Hwf (FL Black s kvs sf :: FR cp x p kvp :: rest) e Black.
          paint Hwf (FR cp x p kvp :: rest) s Red.
          rotate_right Hwf (FR cp x p kvp :: rest).
          wf_facts Hwf rest. repeat rstep.
          paint Hwf (FR cp x p kvp :: rest) e cp.
          paint Hwf rest p Black.
          wf_facts Hwf rest. repeat rstep.
          paint Hwf (FR cp nn e kve :: FR Black x p kvp :: rest) s Black.
          rotate_left Hwf rest.
          destruct fuel as [|fuel']; [lia|].
          rewrite (wf_root _ _ _ _ _ Hwf).
          destruct (extractFixup_exit _ _ _ fuel' [] _ Hwf (or_introl eq_refl)) as (w' & Hrun & Hdom' & Hwf').
          eexists w', _, _. split_and!; [exact Hrun|congruence|dom_chain|].
          cbn [ext_fixup ext_step_left ext_step_right]; repeat (match goal with H : color_of Black _ = _ |- _ => rewrite H end; cbn [ext_fixup ext_step_left ext_step_right color_of]); exact Hwf'.
        -- (* both nephews are black *)
          repeat rstep. rewrite (bind_done _ _ _ _ _ Hfar). cbn [Color_eqb]. repeat rstep.
          paint Hwf (FR cp x p kvp :: rest) s Red.
          destruct (IH _ _ _ rest (Nd cp x p kvp (Nd Red sn s kvs sf))
                      (match cp with Red => n | Black => S n end) Hwf)
            as (w' & tb' & np' & Hrun & Hnil & Hdom' & Hwf');
            [done|by destruct cp|lia|].
          exists w', tb', np'. split_and!; [exact Hrun|done|dom_chain|].
          cbn [ext_fixup ext_step_left ext_step_right]; repeat (match goal with H : color_of Black _ = _ |- _ => rewrite H end; cbn [ext_fixup ext_step_left ext_step_right color_of]); exact Hwf'.
  - (* the node is a right child *)
    destruct (bh_pos_Nd _ _ Hsib) as (cs & sf & s & kvs & sn & ->).
    apply bh_Nd in Hsib as (m & Hsf & Hsn & Hm).
    wf_facts Hwf rest. repeat rstep.
    destruct cs; cbn [Color_eqb].
    + (* red sibling *)
      subst m. destruct (bh_pos_Nd _ _ Hsn) as (cn & nf & e & kve & nn & ->).
      repeat rstep.
      paint Hwf (FL cp p kvp x :: rest) s Black.
      paint Hwf rest p Red.
      rotate_right Hwf rest.
      wf_facts Hwf rest. repeat rstep.
      rewrite (bind_done _ _ _ _ _ (wf_color_of _ _ _ _
        (FR cn nf e kve :: FL Red p kvp x :: FR Black sf s kvs :: rest) nn Hwf)).
      pose proof (wf_color_of _ _ _ _
        (FL cn e kve nn :: FL Red p kvp x :: FR Black sf s kvs :: rest) nf Hwf) as Hfar.
      destruct (color_of Black nf) eqn:Hcf.
      * (* the far nephew is red *)
        apply red_Nd in Hcf as (ff & d & kvd & fn & ->).
        cbn [ptr_of] in *. wf_facts Hwf rest.
        match type of Hwf with wf ?w0 _ _ _ _ =>
          assert (forall B (k : bool -> M World B),
            bind (if Color_eqb (color_of Black nn) Black
                  then bind (get_left e) (fun q => bind (get_color q) (fun c => ret (Color_eqb c Black)))
                  else ret false) k w0 = k false w0) as Hboth
        end.
        { intros B k. destruct (color_of Black nn); cbn [Color_eqb]; [by rewrite bind_ret|].
          by repeat rstep. }
        rewrite Hboth. clear Hboth. repeat rstep.
        paint Hwf (FL Red p kvp x :: FR Black sf s kvs :: rest) e Red.
        paint Hwf (FR Black sf s kvs :: rest) p Black.
        wf_facts Hwf rest. repeat rstep.
        paint Hwf (FL Red e kve nn :: FL Black p kvp x :: FR Black sf s kvs :: rest) d Black.
        rotate_right Hwf (FR Black sf s kvs :: rest).
        destruct fuel as [|fuel']; [lia|].
        rewrite (wf_root _ _ _ _ _ Hwf).
        destruct (extractFixup_exit _ _ _ fuel' [] _ Hwf (or_introl eq_refl)) as (w' & Hrun & Hdom' & Hwf').
        eexists w', _, _. split_and!; [exact Hrun|congruence|dom_chain|].
        cbn [ext_fixup ext_step_left ext_step_right]; repeat (match goal with H : color_of Black _ = _ |- _ => rewrite H end; cbn [ext_fixup ext_step_left ext_step_right color_of]); exact Hwf'.
      * destruct (color_of Black nn) eqn:Hcn; cbn [Color_eqb].
        -- (* the near nephew is red, the far one black *)
          apply red_Nd in Hcn as (nnf & g & kvg & nnn & ->).
          cbn [ptr_of] in *. wf_facts Hwf rest. repeat rstep.
          rewrite (bind_done _ _ _ _ _ Hfar). cbn [Color_eqb]. repeat rstep.
          paint Hwf (FR cn nf e kve :: FL Red p kvp x :: FR Black sf s kvs :: rest) g Black.
          paint Hwf (FL Red p kvp x :: FR Black sf s kvs :: rest) e Red.
          rotate_left Hwf (FL Red p kvp x :: FR Black sf s kvs :: rest).
          wf_facts Hwf rest. repeat rstep.
          paint Hwf (FL Red p kvp x :: FR Black sf s kvs :: rest) g Red.
          paint Hwf (FR Black sf s kvs :: rest) p Black.
          wf_facts Hwf rest. repeat rstep.
          paint Hwf (FL Red g kvg nnn :: FL Black p kvp x :: FR Black sf s kvs :: rest) e Black.
          rotate_right Hwf (FR Black sf s kvs :: rest).
          destruct fuel as [|fuel']; [lia|].
          rewrite (wf_root _ _ _ _ _ Hwf).
          destruct (extractFixup_exit _ _ _ fuel' [] _ Hwf (or_introl eq_refl)) as (w' & Hrun & Hdom' & Hwf').
          eexists w', _, _. split_and!; [exact Hrun|congruence|dom_chain|].
          cbn [ext_fixup ext_step_left ext_step_right]; repeat (match goal with H : color_of Black _ = _ |- _ => rewrite H end; cbn [ext_fixup ext_step_left ext_step_right color_of]); exact Hwf'.
        -- (* both nephews are black *)
          repeat rstep. rewrite (bind_done _ _ _ _ _ Hfar). cbn [Color_eqb]. repeat rstep.
          paint Hwf (FL Red p kvp x :: FR Black sf s kvs :: rest) e Red.
          destruct fuel as [|fuel']; [lia|].
          destruct (extractFixup_exit _ _ _ fuel' (FR Black sf s kvs :: rest)
                      (Nd Red (Nd Red nf e kve nn) p kvp x) Hwf (or_intror eq_refl))
            as (w' & Hrun & Hdom' & Hwf').
          eexists w', _, _. split_and!; [exact Hrun|congruence|dom_chain|].
          cbn [ext_fixup ext_step_left ext_step_right]; repeat (match goal with H : color_of Black _ = _ |- _ => rewrite H end; cbn [ext_fixup ext_step_left ext_step_right color_of]); exact Hwf'.
    + (* black sibling *)
      repeat rstep.
      rewrite (bind_done _ _ _ _ _ (wf_color_of _ _ _ _
        (FR Black sf s kvs :: FL cp p kvp x :: rest) sn Hwf)).
      pose proof (wf_color_of _ _ _ _
        (FL Black s kvs sn :: FL cp p kvp x :: rest) sf Hwf) as Hfar.
      destruct (color_of Black sf) eqn:Hcf.
      * (* the far nephew is red *)
        apply red_Nd in Hcf as (ff & d & kvd & fn & ->).
        cbn [ptr_of] in *. wf_facts Hwf rest.
        match type of Hwf with wf ?w0 _ _ _ _ =>
          assert (forall B (k : bool -> M World B),
            bind (if Color_eqb (color_of Black sn) Black
                  then bind (get_left s) (fun q => bind (get_color q) (fun c => ret (Color_eqb c Black)))
                  else ret false) k w0 = k false w0) as Hboth
        end.
        { intros B k. destruct (color_of Black sn); cbn [Color_eqb]; [by rewrite bind_ret|].
          by repeat rstep. }
        rewrite Hboth. clear Hboth. repeat rstep.
        paint Hwf (FL cp p kvp x :: rest) s cp.
        paint Hwf rest p Black.
        wf_facts Hwf rest. repeat rstep.
        paint Hwf (FL cp s kvs sn :: FL Black p kvp x :: rest) d Black.
        rotate_right Hwf rest.
        destruct fuel as [|fuel']; [lia|].
        rewrite (wf_root _ _ _ _ _ Hwf).
        destruct (extractFixup_exit _ _ _ fuel' [] _ Hwf (or_introl eq_refl)) as (w' & Hrun & Hdom' & Hwf').
        eexists w', _, _. split_and!; [exact Hrun|congruence|dom_chain|].
        cbn [ext_fixup ext_step_left ext_step_right]; repeat (match goal with H : color_of Black _ = _ |- _ => rewrite H end; cbn [ext_fixup ext_step_left ext_step_right color_of]); exact Hwf'.
      * destruct (color_of Black sn) eqn:Hcn; cbn [Color_eqb].
        -- (* the near nephew is red, the far one black *)
          apply red_Nd in Hcn as (nf & e & kve & nn & ->).
          cbn [ptr_of] in *. wf_facts Hwf rest. repeat rstep.
          rewrite (bind_done _ _ _ _ _ Hfar). cbn [Color_eqb]. repeat rstep.
          paint Hwf (FR Black sf s kvs :: FL cp p kvp x :: rest) e Black.
          paint Hwf (FL cp p kvp x :: rest) s Red.
          rotate_left Hwf (FL cp p kvp x :: rest).
          wf_facts Hwf rest. repeat rstep.
          paint Hwf (FL cp p kvp x :: rest) e cp.
          paint Hwf rest p Black.
          wf_facts Hwf rest. repeat rstep.
          paint Hwf (FL cp e kve nn :: FL Black p kvp x :: rest) s Black.
          rotate_right Hwf rest.
          destruct fuel as [|fuel']; [lia|].
          rewrite (wf_root _ _ _ _ _ Hwf).
          destruct (extractFixup_exit _ _ _ fuel' [] _ Hwf (or_introl eq_refl)) as (w' & Hrun & Hdom' & Hwf').
          eexists w', _, _. split_and!; [exact Hrun|congruence|dom_chain|].
          cbn [ext_fixup ext_step_left ext_step_right]; repeat (match goal with H : color_of Black _ = _ |- _ => rewrite H end; cbn [ext_fixup ext_step_left ext_step_right color_of]); exact Hwf'.
        -- (* both nephews are black *)
          repeat rstep. rewrite (bind_done _ _ _ _ _ Hfar). cbn [Color_eqb]. repeat rstep.
          paint Hwf (FL cp p kvp x :: rest) s Red.
          destruct (IH _ _ _ rest (Nd cp (Nd Red sf s kvs sn) p kvp x)
                      (match cp with Red => n | Black => S n end) Hwf)
            as (w' & tb' & np' & Hrun & Hnil & Hdom' & Hwf');
            [done|by destruct cp|lia|].
          exists w', tb', np'. split_and!; [exact Hrun|done|dom_chain|].
          cbn [ext_fixup ext_step_left ext_step_right]; repeat (match goal with H : color_of Black _ = _ |- _ => rewrite H end; cbn [ext_fixup ext_step_left ext_step_right color_of]); exact Hwf'.
Qed.

End ExtractBalance.

(** ** The red-black invariants under [extractFixup] *)

Section ExtractRedBlack.
Context {K T : Type}.
Local Abbreviation Node := (@Node K T).
Local Abbreviation World := (@World K T).
Local Abbreviation tree := (@tree K T).
Local Abbreviation frame := (@frame K T).

Lemma nodes_ext_step_left cp (x : tree) p kvp (sib : tree) :
  nodes (ext_step_left cp x p kvp sib).1 = nodes x ++ (p, kvp) :: nodes sib.
Proof.
  destruct sib as [|cs sn s kvs sf]; [done|]. cbn [ext_step_left].
  destruct (color_of Black sf).
  { simpl. rewrite nodes_blacken. by repeat (rewrite <-app_assoc; simpl). }
  destruct (color_of Black sn); [|done].
  destruct sn; [done|]. simpl. by repeat (rewrite <-app_assoc; simpl).
Qed.

Lemma nodes_ext_step_right cp (sib : tree) p kvp (x : tree) :
  nodes (ext_step_right cp sib p kvp x).1 = nodes sib ++ (p, kvp) :: nodes x.
Proof.
  destruct sib as [|cs sf s kvs sn]; [done|]. cbn [ext_step_right].
  destruct (color_of Black sf).
  { simpl. rewrite nodes_blacken. by repeat (rewrite <-app_assoc; simpl). }
  destruct (color_of Black sn); [|done].
  destruct sn; [done|]. simpl. by repeat (rewrite <-app_assoc; simpl).
Qed.

(** [extractFixup] keeps the nodes and their order. *)
Lemma nodes_ext_fixup ctx :
  forall x : tree, nodes (ext_fixup ctx x) = nodes (plug ctx x).
Proof.
  induction ctx as [|f rest IH]; intros x; [apply nodes_blacken|].
  cbn [ext_fixup].
  destruct (color_of Black x); [apply nodes_plug_congr, nodes_blacken|].
  destruct f as [cp p kvp sib|cp sib p kvp].
  - assert (nodes (let '(t, fin) := ext_step_left cp x p kvp sib in
                   if fin then blacken (plug rest t) else ext_fixup rest t) =
            nodes (plug (FL cp p kvp sib :: rest) x)) as Hplain.
    { pose proof (nodes_ext_step_left cp x p kvp sib) as Hs.
      destruct (ext_step_left cp x p kvp sib) as [t []]; simpl in Hs.
      - rewrite nodes_blacken. by apply (nodes_plug_congr rest).
      - rewrite IH. by apply (nodes_plug_congr rest). }
    destruct sib as [|[] sn s kvs sf]; try exact Hplain.
    pose proof (nodes_ext_step_left Red x p kvp sn) as Hs.
    destruct (ext_step_left Red x p kvp sn) as [t []]; simpl in Hs.
    + rewrite nodes_blacken. apply (nodes_plug_congr rest). simpl. rewrite Hs.
      by repeat (rewrite <-app_assoc; simpl).
    + apply (nodes_plug_congr rest). simpl. rewrite nodes_blacken, Hs.
      by repeat (rewrite <-app_assoc; simpl).
  - assert (nodes (let '(t, fin) := ext_step_right cp sib p kvp x in
                   if fin then blacken (plug rest t) else ext_fixup rest t) =
            nodes (plug (FR cp sib p kvp :: rest) x)) as Hplain.
    { pose proof (nodes_ext_step_right cp sib p kvp x) as Hs.
      destruct (ext_step_right cp sib p kvp x) as [t []]; simpl in Hs.
      - rewrite nodes_blacken. by apply (nodes_plug_congr rest).
      - rewrite IH. by apply (nodes_plug_congr rest). }
    destruct sib as [|[] sf s kvs sn]; try exact Hplain.
    pose proof (nodes_ext_step_right Red sn p kvp x) as Hs.
    destruct (ext_step_right Red sn p kvp x) as [t []]; simpl in Hs.
    + rewrite nodes_blacken. apply (nodes_plug_congr rest). simpl. rewrite Hs.
      by repeat (rewrite <-app_assoc; simpl).
    + apply (nodes_plug_congr rest). simpl. rewrite nodes_blacken, Hs.
      by repeat (rewrite <-app_assoc; simpl).
Qed.

Lemma black_nrr (x : tree) :
  color_of Black x = Black -> no_red_red (blacken x) -> no_red_red x.
Proof. by destruct x as [|[] l a kv r]. Qed.

Lemma color_blacken (x : tree) : color_of Black (blacken x) = Black.
Proof. by destruct x. Qed.

(** One turn at a left child that is one black node short, beside a
    black sibling: when the loop is left, the subtree has the black
    height and the colour the parent had; otherwise it is one short
    and only its root can be a red node with a red child. *)
Lemma ext_step_left_ok cp (x : tree) p kvp (sib : tree) n :
  no_red_red x -> no_red_red sib ->
  color_of Black x = Black -> color_of Black sib = Black ->
  bh x = Some n -> bh sib = Some (S n) ->
  match ext_step_left cp x p kvp sib with
  | (t, true) =>
      no_red_red t /\ color_of Black t = cp /\
      bh t = Some (match cp with Black => S (S n) | Red => S n end)
  | (t, false) =>
      no_red_red (blacken t) /\ color_of Black t = cp /\
      bh t = Some (match cp with Black => S n | Red => n end)
  end.
Proof.
  intros Hx Hs Cx Cs Bx Bs.
  destruct sib as [|[] sn s kvs sf]; try done.
  apply bh_Nd in Bs as (m & Bn & Bf & [= ->]).
  destruct Hs as (_ & Hn & Hf).
  cbn [ext_step_left].
  destruct (color_of Black sf) eqn:Cf.
  { pose proof (bh_blacken_red _ _ Cf Bf) as Bf'.
    split_and!; [|done|].
    - simpl. rewrite color_blacken. split_and!; try done. by apply nrr_blacken.
    - apply (bh_node cp); [|done]. by apply (bh_node Black). }
  destruct (color_of Black sn) eqn:Cn.
  - apply red_Nd in Cn as (nn & e & kve & nf & ->).
    apply bh_Nd in Bn as (k & Bnn & Bnf & ->).
    destruct Hn as (Hc & Hnn & Hnf). destruct (Hc eq_refl) as [Cnn Cnf].
    split_and!; [|done|].
    + simpl. by split_and!.
    + apply (bh_node cp); by apply (bh_node Black).
  - split_and!; [|done|].
    + simpl. by split_and!.
    + apply (bh_node cp); [done|]. by apply (bh_node Red).
Qed.

Lemma ext_step_right_ok cp (sib : tree) p kvp (x : tree) n :
  no_red_red x -> no_red_red sib ->
  color_of Black x = Black -> color_of Black sib = Black ->
  bh x = Some n -> bh sib = Some (S n) ->
  match ext_step_right cp sib p kvp x with
  | (t, true) =>
      no_red_red t /\ color_of Black t = cp /\
      bh t = Some (match cp with Black => S (S n) | Red => S n end)
  | (t, false) =>
      no_red_red (blacken t) /\ color_of Black t = cp /\
      bh t = Some (match cp with Black => S n | Red => n end)
  end.
Proof.
  intros Hx Hs Cx Cs Bx Bs.
  destruct sib as [|[] sf s kvs sn]; try done.
  apply bh_Nd in Bs as (m & Bf & Bn & [= ->]).
  destruct Hs as (_ & Hf & Hn).
  cbn [ext_step_right].
  destruct (color_of Black sf) eqn:Cf.
  { pose proof (bh_blacken_red _ _ Cf Bf) as Bf'.
    split_and!; [|done|].
    - simpl. rewrite color_blacken. split_and!; try done. by apply nrr_blacken.
    - apply (bh_node cp); [done|]. by apply (bh_node Black). }
  destruct (color_of Black sn) eqn:Cn.
  - apply red_Nd in Cn as (nf & e & kve & nn & ->).
    apply bh_Nd in Bn as (k & Bnf & Bnn & ->).
    destruct Hn as (Hc & Hnf & Hnn). destruct (Hc eq_refl) as [Cnf Cnn].
    split_and!; [|done|].
    + simpl. by split_and!.
    + apply (bh_node cp); by apply (bh_node Black).
  - split_and!; [|done|].
    + simpl. by split_and!.
    + apply (bh_node cp); [|done]. by apply (bh_node Red).
Qed.

(** [extractFixup] at a place that is one black node short, in a tree
    that satisfies I2 and I3 everywhere else: the result satisfies I2
    and I3 and has a black root.  The node at the place may be red
    below a red parent. *)
Lemma ext_fixup_rb ctx :
  forall (x : tree) n,
  no_red_red (blacken x) ->
  bh x = Some n ->
  ctx_nrr ctx ->
  hole_bh ctx (S n) ->
  (ctx <> [] -> root_black (plug ctx x)) ->
  no_red_red (ext_fixup ctx x) /\ root_black (ext_fixup ctx x) /\
  is_Some (bh (ext_fixup ctx x)).
Proof.
  assert (forall t : tree, no_red_red t -> is_Some (bh t) ->
            no_red_red (blacken t) /\ root_black (blacken t) /\ is_Some (bh (blacken t)))
    as Hfin.
  { intros t Ht Bt. split_and!; [by apply nrr_blacken|apply root_black_blacken|by apply bh_blacken]. }
  induction ctx as [|f rest IH]; intros x n Hx Bx Hctx Hh Hroot.
  { simpl. split_and!; [done|apply root_black_blacken|apply bh_blacken; by eexists]. }
  specialize (Hroot ltac:(done)). cbn [ext_fixup].
  destruct (color_of Black x) eqn:Cx.
  { split_and!.
    - apply nrr_plug. split_and!; [done|done|]. simpl. intros _. apply color_blacken.
    - unfold root_black in *. by rewrite (color_of_plug _ f rest _ x).
    - apply (bh_plug_intro _ _ (S n)); [by apply bh_blacken_red|done]. }
  pose proof (black_nrr x Cx Hx) as Hx'.
  destruct Hctx as (Hsib & Hred & Hrest). destruct Hh as [Bs Hh].
  assert (rest <> [] -> forall t t' : tree,
            root_black (plug rest t) -> root_black (plug rest t')) as Hkeep.
  { intros Hne t t'. destruct rest as [|g rest']; [done|].
    unfold root_black. by rewrite (color_of_plug _ g rest' t t'). }
  destruct f as [cp p kvp sib|cp sib p kvp]; cbn [frame_sibling frame_color] in *.
  - destruct (bh_pos_Nd _ _ Bs) as (cs & sn & s & kvs & sf & ->).
    destruct cs.
    + (* a red sibling *)
      assert (cp = Black) as -> by (destruct cp; [by destruct (Hred eq_refl)|done]).
      apply bh_Nd in Bs as (m & Bn & Bf & <-).
      destruct Hsib as (Hc & Hn & Hf). destruct (Hc eq_refl) as [Cn Cf].
      pose proof (ext_step_left_ok Red x p kvp sn n Hx' Hn Cx Cn Bx Bn) as Hstep.
      destruct (ext_step_left Red x p kvp sn) as [t []].
      * destruct Hstep as (Ht & Ct & Bt). apply Hfin.
        -- apply nrr_plug. split_and!; [done| |done]. simpl. by split_and!.
        -- apply (bh_plug_intro _ _ (S n)); [done|]. by split.
      * destruct Hstep as (Ht & Ct & Bt). split_and!.
        -- apply nrr_plug. split_and!; [done| |done]. simpl. by split_and!.
        -- destruct rest as [|g rest']; [done|].
           apply (Hkeep ltac:(done) (fill (FL Black p kvp (Nd Red sn s kvs sf)) x)). exact Hroot.
        -- apply (bh_plug_intro _ _ (S n)); [by apply bh_blacken_red|]. by split.
    + (* a black sibling *)
      pose proof (ext_step_left_ok cp x p kvp (Nd Black sn s kvs sf) n Hx' Hsib Cx eq_refl Bx Bs)
        as Hstep.
      cbv iota beta.
      destruct (ext_step_left cp x p kvp (Nd Black sn s kvs sf)) as [t []].
      * destruct Hstep as (Ht & Ct & Bt). apply Hfin.
        -- apply nrr_plug. split_and!; [done|done|].
           destruct rest as [|g rest']; simpl; [done|]. intros Hg. rewrite Ct.
           destruct cp; [|done]. destruct (Hred eq_refl) as [_ Hb]. congruence.
        -- by apply (bh_plug_intro _ _ _ Bt).
      * destruct Hstep as (Ht & Ct & Bt).
        apply (IH t (match cp with Black => S n | Red => n end)); [done|done|done| |].
        -- by destruct cp.
        -- intros Hne. by apply (Hkeep Hne (fill (FL cp p kvp (Nd Black sn s kvs sf)) x)).
  - destruct (bh_pos_Nd _ _ Bs) as (cs & sf & s & kvs & sn & ->).
    destruct cs.
    + (* a red sibling *)
      assert (cp = Black) as -> by (destruct cp; [by destruct (Hred eq_refl)|done]).
      apply bh_Nd in Bs as (m & Bf & Bn & <-).
      destruct Hsib as (Hc & Hf & Hn). destruct (Hc eq_refl) as [Cf Cn].
      pose proof (ext_step_right_ok Red sn p kvp x n Hx' Hn Cx Cn Bx Bn) as Hstep.
      destruct (ext_step_right Red sn p kvp x) as [t []].
      * destruct Hstep as (Ht & Ct & Bt). apply Hfin.
        -- apply nrr_plug. split_and!; [done| |done]. simpl. by split_and!.
        -- apply (bh_plug_intro _ _ (S n)); [done|]. by split.
      * destruct Hstep as (Ht & Ct & Bt). split_and!.
        -- apply nrr_plug. split_and!; [done| |done]. simpl. by split_and!.
        -- destruct rest as [|g rest']; [done|].
           apply (Hkeep ltac:(done) (fill (FR Black (Nd Red sf s kvs sn) p kvp) x)). exact Hroot.
        -- apply (bh_plug_intro _ _ (S n)); [by apply bh_blacken_red|]. by split.
    + (* a black sibling *)
      pose proof (ext_step_right_ok cp (Nd Black sf s kvs sn) p kvp x n Hx' Hsib Cx eq_refl Bx Bs)
        as Hstep.
      cbv iota beta.
      destruct (ext_step_right cp (Nd Black sf s kvs sn) p kvp x) as [t []].
      * destruct Hstep as (Ht & Ct & Bt). apply Hfin.
        -- apply nrr_plug. split_and!; [done|done|].
           destruct rest as [|g rest']; simpl; [done|]. intros Hg. rewrite Ct.
           destruct cp; [|done]. destruct (Hred eq_refl) as [_ Hb]. congruence.
        -- by apply (bh_plug_intro _ _ _ Bt).
      * destruct Hstep as (Ht & Ct & Bt).
        apply (IH t (match cp with Black => S n | Red => n end)); [done|done|done| |].
        -- by destruct cp.
        -- intros Hne. by apply (Hkeep Hne (fill (FR cp (Nd Black sf s kvs sn) p kvp) x)).
Qed.

End ExtractRedBlack.

(** ** [extractNode] where it keeps the red-black invariants *)

Section ExtractBalanced.
Context {K T : Type}.
Local Abbreviation Node := (@Node K T).
Local Abbreviation World := (@World K T).
Local Abbreviation tree := (@tree K T).
Local Abbreviation frame := (@frame K T).

Lemma ctx_nrr_frame ctx1 (f g : frame) ctx2 :
  frame_color f = frame_color g -> frame_sibling f = frame_sibling g ->
  ctx_nrr (ctx1 ++ f :: ctx2) -> ctx_nrr (ctx1 ++ g :: ctx2).
Proof.
  intros Hc Hs. induction ctx1 as [|h ctx1 IH]; simpl.
  - by rewrite Hc, Hs.
  - intros (H1 & H2 & H3). split_and!; [done| |by apply IH].
    intros Hh. destruct (H2 Hh) as [H4 H5]. split; [done|].
    destruct ctx1 as [|h' ctx1]; simpl in *; [by rewrite <-Hc|done].
Qed.

Lemma root_black_frame ctx c (l : tree) a kv (r l' : tree) a' kv' (r' : tree) :
  root_black (plug ctx (Nd c l a kv r)) -> root_black (plug ctx (Nd c l' a' kv' r')).
Proof.
  destruct ctx as [|f ctx]; [done|]. unfold root_black.
  by rewrite (color_of_plug _ f ctx _ (Nd c l' a' kv' r')).
Qed.

(** [extractNode] of a node with two children, of a black leaf, or of
    the root, in a tree that satisfies I2 to I4 with a black sentinel:
    the call returns; the tree has the other nodes, in the same
    order, and satisfies I2 to I4 with a black sentinel again. *)
Lemma extractNode_balanced (w : World) tb np ctx cz (l : tree) z kvz (r : tree) fuel :
  wf w tb np Black (plug ctx (Nd cz l z kvz r)) ->
  no_red_red (plug ctx (Nd cz l z kvz r)) ->
  is_Some (bh (plug ctx (Nd cz l z kvz r))) ->
  root_black (plug ctx (Nd cz l z kvz r)) ->
  heap w !! nullptr = None ->
  (l <> Lf /\ r <> Lf) \/ (l = Lf /\ r = Lf /\ cz = Black) \/ ctx = [] ->
  (length (nodes (plug ctx (Nd cz l z kvz r))) < fuel)%nat ->
  exists w' tb' np' t',
    extractNode fuel tb z w = Done (tb', w') /\
    nil tb' = nil tb /\
    same_domain w w' /\
    wf w' tb' np' Black t' /\
    nodes t' = before_ctx ctx ++ nodes l ++ nodes r ++ after_ctx ctx /\
    no_red_red t' /\ root_black t' /\ is_Some (bh t').
Proof.
  intros Hwf Hnrr [N Hbh] Hroot Hnull Hgood Hfuel.
  destruct (bh_plug _ _ _ Hbh) as (m & Hm & Hhole).
  apply bh_Nd in Hm as (k & Hkl & Hkr & ->).
  pose proof (length_ctx_nodes ctx (Nd cz l z kvz r)) as Hlen.
  pose proof (wf_focus_neq_nil _ _ _ _ _ _ _ _ _ _ Hwf) as Hz.
  pose proof Hnrr as Hnrr0.
  apply nrr_plug in Hnrr as ((Hcz & Hnl & Hnr) & Hctx & Hhb).
  assert (cz = Red -> l <> Lf /\ r <> Lf) as Hredz.
  { intros ->. destruct Hgood as [Hq|[(_ & _ & Hq)| ->]]; [done|done|done]. }
  unfold extractNode.
  destruct r as [|cr rl d kvd rr].
  - (* no right child *)
    destruct (transplant_left _ _ _ _ _ _ _ _ _ Hwf) as (w1 & tb1 & Hrun & Hnil & Hdom & Hwf1).
    wf_facts Hwf ctx.
    destruct cz; [by destruct (Hredz eq_refl)|].
    assert (wf w1 tb1 (match l with Lf => ctx_par (nil tb) ctx | Nd _ _ _ _ _ => np end) Black
              (plug ctx (recolor Black l))) as Hwf1' by (by destruct l).
    destruct (extractFixup_refines fuel w1 tb1 _ ctx (recolor Black l) k Hwf1')
      as (w2 & tb2 & np2 & Hrun2 & Hnil2 & Hdom2 & Hwf2);
      [destruct l; [by rewrite Hnil|done]|done|lia|].
    pose proof (focus_not_null _ _ _ _ _ _ Hwf1' (same_domain_null _ _ Hdom Hnull)) as Hnn.
    assert (no_red_red (ext_fixup ctx (recolor Black l)) /\
            root_black (ext_fixup ctx (recolor Black l)) /\
            is_Some (bh (ext_fixup ctx (recolor Black l)))) as (R1 & R2 & R3).
    { destruct l as [|cl ll b kvb lr].
      - injection Hkl as <-.
        apply (ext_fixup_rb ctx Lf 0%nat); try done.
        intros Hne. destruct ctx as [|f ctx]; [done|].
        unfold root_black in *. by rewrite (color_of_plug _ f ctx _ (Nd Black Lf z kvz Lf)).
      - destruct Hgood as [[_ Hq]|[(Hq & _)| ->]]; [done|done|].
        cbn [ext_fixup recolor blacken]. split_and!.
        + simpl. split; [done|]. by destruct Hnl as (_ & ? & ?).
        + done.
        + apply (bh_blacken (Nd cl ll b kvb lr)). by eexists. }
    exists w2, tb2, np2, (ext_fixup ctx (recolor Black l)).
    split; [|split_and!; [congruence|by eapply same_domain_trans|exact Hwf2| |exact R1|exact R2|exact R3]].
    + destruct l as [|cl ll b kvb lr]; simpl in *.
      * repeat rstep. rewrite Hrun. rewrite ?Hnil in *.
        rewrite ?(proj2 (N.eqb_neq _ _) Hnn). exact Hrun2.
      * pose proof (wf_focus_neq_nil _ _ _ _ (FL Black z kvz Lf :: ctx) _ _ _ _ _ Hwf).
        repeat rstep. rewrite Hrun. rewrite ?Hnil in *.
        rewrite ?(proj2 (N.eqb_neq _ _) Hnn). exact Hrun2.
    + by rewrite nodes_ext_fixup, nodes_plug, nodes_recolor.
  - destruct l as [|cl ll b kvb lr].
    + (* no left child *)
      destruct (transplant_right _ _ _ _ _ _ _ _ _ Hwf) as (w1 & tb1 & Hrun & Hnil & Hdom & Hwf1).
      pose proof (wf_focus_neq_nil _ _ _ _ (FR cz Lf z kvz :: ctx) _ _ _ _ _ Hwf).
      wf_facts Hwf ctx. cbn [recolor] in *.
      destruct cz; [by destruct (Hredz eq_refl)|].
      destruct Hgood as [[Hq _]|[(_ & Hq & _)| ->]]; [done|done|].
      destruct (extractFixup_refines fuel w1 tb1 _ [] (Nd Black rl d kvd rr) k Hwf1)
        as (w2 & tb2 & np2 & Hrun2 & Hnil2 & Hdom2 & Hwf2);
        [done|done|lia|].
      pose proof (focus_not_null _ _ _ _ _ _ Hwf1 (same_domain_null _ _ Hdom Hnull)) as Hnn.
      exists w2, tb2, np2, (Nd Black rl d kvd rr).
      split; [|split_and!; [congruence|by eapply same_domain_trans|exact Hwf2| | |done|]].
      * repeat rstep. rewrite Hrun. simpl in Hnn.
        rewrite ?(proj2 (N.eqb_neq _ _) Hnn). exact Hrun2.
      * simpl. by rewrite app_nil_r.
      * simpl. split; [done|]. by destruct Hnr as (_ & ? & ?).
      * apply (bh_blacken (Nd cr rl d kvd rr)). by eexists.
    + (* two children: the successor [y] of [z] takes its place *)
      destruct (leftmost_focus cr rl d kvd rr) as (ctxr & cy & kvy & ry & Heq & Hfl).
      assert (allLeft fuel d w = Done (leftmost d rl, w)) as Hall.
      { apply (allLeft_spec w tb np Black fuel (FR cz (Nd cl ll b kvb lr) z kvz :: ctx) cr rl d kvd rr Hwf).
        pose proof (height_plug ctx (Nd cz (Nd cl ll b kvb lr) z kvz (Nd cr rl d kvd rr))) as Hh.
        pose proof (height_le_nodes (plug ctx (Nd cz (Nd cl ll b kvb lr) z kvz (Nd cr rl d kvd rr)))).
        cbn [height] in Hh. lia. }
      pose proof (wf_focus_neq_nil _ _ _ _ (FR cz _ z kvz :: ctx) _ _ _ _ _ Hwf) as Hd.
      pose proof (wf_focus_neq_nil _ _ _ _ (FL cz z kvz _ :: ctx) _ _ _ _ _ Hwf) as Hb.
      remember (leftmost d rl) as y eqn:Hy.
      set (L := Nd cl ll b kvb lr) in *.
      assert (plug ctx (Nd cz L z kvz (Nd cr rl d kvd rr)) =
              plug (ctxr ++ FR cz L z kvz :: ctx) (Nd cy Lf y kvy ry)) as Hsplit.
      { rewrite plug_app. simpl. by rewrite <-Heq. }
      assert (wf w tb np Black (plug (ctxr ++ FR cz L z kvz :: ctx) (Nd cy Lf y kvy ry))) as Hwfy.
      { by rewrite <-Hsplit. }
      (* the invariants around the successor *)
      rewrite Hsplit in Hbh, Hnrr0.
      destruct (bh_plug _ _ _ Hbh) as (m' & Hm' & Hh').
      apply bh_Nd in Hm' as (k' & Hk' & Hry & ->). injection Hk' as <-.
      apply nrr_plug in Hnrr0 as ((Hcy & _ & Hnry) & Hctxy & Hhby).
      assert (hole_bh (ctxr ++ FR cz L y kvy :: ctx)
                (match cy with Black => 1 | Red => 0 end)%nat) as Hholey.
      { by apply (hole_bh_frame _ (FR cz L z kvz)). }
      assert (ctx_nrr (ctxr ++ FR cz L y kvy :: ctx)) as Hctxy'.
      { by apply (ctx_nrr_frame _ (FR cz L z kvz)). }
      assert (root_black (plug (ctxr ++ FR cz L y kvy :: ctx) ry)) as Hrooty.
      { rewrite plug_app. simpl. exact (root_black_frame _ _ _ _ _ _ _ _ _ _ Hroot). }
      pose proof (successor_fresh _ _ _ _ _ _ _ _ _ Hwfy) as Hfresh.
      assert (length (ctxr ++ FR cz L y kvy :: ctx) < fuel)%nat as Hfuel'.
      { pose proof (length_ctx_nodes (ctxr ++ FR cz L z kvz :: ctx) (Nd cy Lf y kvy ry)) as Hl.
        rewrite <-Hsplit in Hl.
        rewrite length_app in *. simpl in *. lia. }
      assert (exists w1,
        (if y =? d
         then rr <- get_right y ;; _ <- set_right z rr ;; nr <- get_right z ;; set_parent nr z
         else rr <- get_right y ;; rp <- get_parent y ;; _ <- set_left rp rr ;;
              rp <- get_parent y ;; rp' <- get_parent y ;; rpl <- get_left rp' ;;
              set_parent rpl rp) w = Done (tt, w1) /\
        same_domain w w1 /\
        (exists py, heap w1 !! y = Some (mkNode py (nil tb) (ptr_of (nil tb) ry) cy (Some kvy))) /\
        wf w1 tb (match ry with
                  | Lf => ctx_par (nil tb) (ctxr ++ FR cz L z kvz :: ctx)
                  | Nd _ _ _ _ _ => np
                  end) Black
           (plug (ctxr ++ FR cz L z kvz :: ctx) ry)) as (w1 & Hrun1 & Hdom1 & (py & Hy1) & Hwf1).
      { destruct ctxr as [|[cp p kvp rp|] ctxr'].
        - simpl in Heq. injection Heq as -> -> -> -> ->. clear Hy.
          destruct (splice_right_child _ _ _ _ _ _ _ _ _ _ _ _ _ Hwfy) as (w1 & Hrun1 & Hdom1 & Hy1 & Hwf1).
          exists w1. rewrite N.eqb_refl.
          split; [done|]. split; [done|]. split; [by eexists|]. by destruct ry.
        - assert (y <> d) as Hne.
          { pose proof (root_in_ctx (nil tb) (FL cp p kvp rp) ctxr' (Nd cy Lf y kvy ry)) as Hin.
            rewrite <-Heq in Hin. simpl in Hin.
            apply wf_plug_elim in Hwfy as (_ & _ & _ & Hnd & _).
            simpl in Hnd. nodup_split. intros ->.
            match goal with H : d ∉ ctx_addrs _ |- _ => apply H end.
            rewrite app_comm_cons, ctx_addrs_app. apply elem_of_app. by left. }
          destruct (splice_left_child _ _ _ _ _ _ _ _ _ _ _ _ _ Hwfy) as (w1 & Hrun1 & Hdom1 & Hy1 & Hwf1).
          exists w1. rewrite (proj2 (N.eqb_neq _ _) Hne).
          split; [done|]. split; [done|]. split; [by eexists|]. by destruct ry.
        - by apply Forall_cons in Hfl as [[] _]. }
      assert (wf w1 tb (match ry with
                  | Lf => ctx_par (nil tb) (ctxr ++ FR cz L z kvz :: ctx)
                  | Nd _ _ _ _ _ => np
                  end) Black
                (plug ctx (Nd cz L z kvz (plug ctxr ry)))) as Hwf1'.
      { rewrite plug_app in Hwf1. exact Hwf1. }
      assert (y ∉ nil tb :: addrs (Nd cz L z kvz (plug ctxr ry)) ++ ctx_addrs ctx) as Hfr.
      { rewrite <-addrs_plug. rewrite plug_app in Hfresh. exact Hfresh. }
      destruct (replace_node _ _ _ _ _ _ _ _ _ _ _ _ _ _ y _ kvy Hwf1' Hfr Hy1 eq_refl)
        as (w2 & tb2 & Hrun2 & Hnil2 & Hdom2 & Hwf2).
      assert (wf w2 tb2 (match ry with
                  | Lf => ctx_par (nil tb) (ctxr ++ FR cz L y kvy :: ctx)
                  | Nd _ _ _ _ _ => match plug ctxr ry with Lf => y | Nd _ _ _ _ _ => np end
                  end) Black
                (plug (ctxr ++ FR cz L y kvy :: ctx) ry)) as Hwf2'.
      { rewrite plug_app. simpl. destruct ry; [|exact Hwf2].
        destruct ctxr as [|f ctxr']; [exact Hwf2|].
        destruct f as [c a kv t|c t a kv]; simpl in *.
        - destruct (plug_Nd ctxr' c Lf a kv t) as (? & ? & ? & ? & ? & E).
          rewrite E in Hwf2 at 1. exact Hwf2.
        - destruct (plug_Nd ctxr' c t a kv Lf) as (? & ? & ? & ? & ? & E).
          rewrite E in Hwf2 at 1. exact Hwf2. }
      assert (nodes (plug (ctxr ++ FR cz L y kvy :: ctx) ry) =
              before_ctx ctx ++ nodes L ++ nodes (Nd cr rl d kvd rr) ++ after_ctx ctx)
        as Hnodes.
      { rewrite plug_app. cbn [plug fill].
        rewrite nodes_plug, Heq, (nodes_successor _ _ _ _ _ Hfl). cbn [nodes].
        by repeat (rewrite <-app_assoc; simpl). }
      wf_facts Hwf ctx.
      destruct cy.
      * (* a red successor: nothing to repair *)
        destruct (Hcy eq_refl) as [_ Cry].
        eexists w2, tb2, _, (plug (ctxr ++ FR cz L y kvy :: ctx) ry).
        split; [|split_and!; [done|exact (same_domain_trans _ _ _ Hdom1 Hdom2)|
                              rewrite plug_app; exact Hwf2|exact Hnodes| |exact Hrooty|]].
        -- repeat rstep. rewrite (bind_done _ _ _ _ _ Hall). cbv beta.
           repeat rstep. rewrite (bind_done _ _ _ _ _ Hrun1). cbv beta.
           rewrite bind_assoc, (bind_done _ _ _ _ _ (get_color_done _ _ _ Hy1)). cbn [color Color_eqb].
           rewrite bind_assoc, bind_ret.
           by rewrite Hrun2.
        -- apply nrr_plug. split_and!; [done|done|].
           unfold hole_black. destruct (ctxr ++ FR cz L y kvy :: ctx); done.
        -- by apply (bh_plug_intro _ _ 0%nat).
      * (* a black successor: its place is one black node short *)
        destruct (extractFixup_refines fuel w2 tb2 _ _ ry 0%nat Hwf2')
          as (w3 & tb3 & np3 & Hrun3 & Hnil3 & Hdom3 & Hwf3);
          [by intros ->; rewrite Hnil2|exact Hholey|exact Hfuel'|].
        assert (heap w2 !! nullptr = None) as Hnull2.
        { apply (same_domain_null w w2); [|exact Hnull]. exact (same_domain_trans _ _ _ Hdom1 Hdom2). }
        pose proof (focus_not_null _ _ _ _ _ _ Hwf2' Hnull2) as Hnn.
        rewrite Hnil2 in Hrun3, Hnn.
        destruct (ext_fixup_rb (ctxr ++ FR cz L y kvy :: ctx) ry 0%nat) as (R1 & R2 & R3);
          [by apply nrr_blacken|done|done|done|done|].
        exists w3, tb3, np3, (ext_fixup (ctxr ++ FR cz L y kvy :: ctx) ry).
        split; [|split_and!; [congruence|exact (same_domain_trans _ _ _ Hdom1 (same_domain_trans _ _ _ Hdom2 Hdom3))|exact Hwf3| |done|done|done]].
        -- repeat rstep. rewrite (bind_done _ _ _ _ _ Hall). cbv beta.
           repeat rstep. rewrite (bind_done _ _ _ _ _ Hrun1). cbv beta.
           rewrite bind_assoc, (bind_done _ _ _ _ _ (get_color_done _ _ _ Hy1)). cbn [color Color_eqb].
           rewrite bind_assoc, (bind_done _ _ _ _ _ (get_right_done _ _ _ Hy1)). cbn [right].
           rewrite Hrun2.
           by rewrite (proj2 (N.eqb_neq _ _) Hnn).
        -- by rewrite nodes_ext_fixup.
Qed.

End ExtractBalanced.

(** ** [erase] where it keeps the invariants *)

Section EraseInvariants.
Context {K T : Type}.
Variable cmp : K -> K -> bool.
Local Abbreviation Node := (@Node K T).
Local Abbreviation World := (@World K T).
Local Abbreviation tree := (@tree K T).
Local Abbreviation frame := (@frame K T).

Hypothesis cmp_trans : forall a b c, cmp a b = true -> cmp b c = true -> cmp a c = true.

(** The size after one entry has left, modulo [2^64]. *)
Lemma size_pred (n : nat) :
  (N.of_nat (S n) mod size_t_max + size_t_max - 1) mod size_t_max =
  N.of_nat n mod size_t_max.
Proof.
  assert (0 < size_t_max) as HM by done.
  generalize dependent size_t_max. intros M HM.
  rewrite <-N.add_sub_assoc by lia.
  rewrite N.Div0.add_mod_idemp_l.
  replace (N.of_nat (S n) + (M - 1)) with (N.of_nat n + 1 * M) by lia.
  by rewrite N.Div0.mod_add.
Qed.

(** X18: [erase(iterator)] on a tree that satisfies I1 to I5 with a
    black sentinel, for an iterator at a node that has two children,
    or is a black leaf, or is the root: the call returns, the tree
    satisfies I1 to I5 with a black sentinel again, [m_size] counts
    its entries, the other nodes keep their addresses and their order,
    and the node is destroyed. *)
Theorem X18_erase_keeps_invariants (w : World) tr ctx c (l : tree) a kv (r : tree) b fuel :
  invariants cmp w tr (plug ctx (Nd c l a kv r)) ->
  heap w !! nullptr = None ->
  can_deallocate w (m_allocator tr) ->
  (l <> Lf /\ r <> Lf) \/ (l = Lf /\ r = Lf /\ c = Black) \/ ctx = [] ->
  (length (inorder (plug ctx (Nd c l a kv r))) < fuel)%nat ->
  exists tr' w' t',
    erase_at fuel tr (mkIterator b a) w = Done (tr', w') /\
    invariants cmp w' tr' t' /\
    nodes t' = before_ctx ctx ++ nodes l ++ nodes r ++ after_ctx ctx /\
    heap w' !! a = None /\
    dom (heap w') = dom (heap w) ∖ {[a]} /\
    nil (m_data tr') = nil (m_data tr) /\
    m_allocator tr' = m_allocator tr.
Proof.
  intros ([np Hwf] & Hbst & Hnrr & Hbh & Hrb & Hsize) Hnull Hal Hgood Hfuel.
  assert (nodes (plug ctx (Nd c l a kv r)) =
          (before_ctx ctx ++ nodes l) ++ (a, kv) :: nodes r ++ after_ctx ctx) as Heq.
  { rewrite nodes_plug. simpl. by rewrite <-!app_assoc. }
  assert (length (nodes (plug ctx (Nd c l a kv r))) =
          length (inorder (plug ctx (Nd c l a kv r)))) as Hlen
    by by rewrite <-nodes_inorder, length_fmap.
  unfold erase_at. simpl m_node.
  destruct (extractNode_balanced w (m_data tr) np ctx c l a kv r fuel Hwf Hnrr Hbh Hrb Hnull Hgood
              ltac:(lia))
    as (w1 & tb1 & np1 & t1 & Hrun1 & Hnil1 & Hdom1 & Hwf1 & Hnodes1 & R1 & R2 & R3).
  rewrite (bind_done _ _ _ _ _ Hrun1).
  assert (is_Some (heap w1 !! a)) as [nd Hn].
  { apply elem_of_dom. destruct Hdom1 as (_ & _ & ->). apply elem_of_dom.
    eexists. apply (wf_focus _ _ _ _ _ _ _ _ _ _ Hwf). }
  destruct (destroyNode_spec w1 (set_data tr tb1) a nd Hn) as (cs & Hrun2).
  { destruct Hdom1 as (_ & Hc & _). unfold can_deallocate in *. simpl. by rewrite Hc. }
  rewrite (bind_done _ _ _ _ _ Hrun2).
  destruct (removed_fresh (plug ctx (Nd c l a kv r)) t1 (before_ctx ctx ++ nodes l) a kv
              (nodes r ++ after_ctx ctx)) as [Hfresh _].
  { apply (wf_nodup _ _ _ _ _ Hwf). }
  { exact Heq. }
  { by rewrite Hnodes1, <-!app_assoc. }
  assert (wf (mkWorld (delete a (heap w1)) (brk w1) cs) tb1 np1 Black t1) as Hwf2.
  { apply wf_delete; [done|done|]. rewrite Hnil1.
    apply (wf_focus_neq_nil _ _ _ _ _ _ _ _ _ _ Hwf). }
  eexists _, _, t1. split; [reflexivity|]. cbn [heap m_data m_allocator set_size set_data].
  split; [|split_and!; [exact Hnodes1|apply lookup_delete_eq| |exact Hnil1|done]].
  - split_and!; [by exists np1| |exact R1|exact R3|exact R2|].
    + apply (bst_sorted cmp cmp_trans). apply (bst_sorted cmp cmp_trans) in Hbst.
      rewrite Heq in Hbst. apply sorted_remove in Hbst.
      by rewrite Hnodes1, app_assoc.
    + cbn [m_size set_size set_data]. rewrite Hsize.
      assert (length (inorder (plug ctx (Nd c l a kv r))) = S (length (inorder t1))) as ->.
      { rewrite <-!nodes_inorder, !length_fmap, Heq, Hnodes1, !length_app. simpl.
        rewrite !length_app. lia. }
      apply size_pred.
  - rewrite dom_delete_L. by destruct Hdom1 as (_ & _ & ->).
Qed.

End EraseInvariants.

Lemma X18_erase_witness :
  exists tr' w' t',
    erase_at 10 demo (mkIterator false 2) demo_world = Done (tr', w') /\
    invariants int_less w' tr' t' /\
    nodes t' = [(3, (1%Z, "a"%string)); (4, (3%Z, "c"%string))].
Proof.
  destruct (X18_erase_keeps_invariants int_less int_less_trans demo_world demo []
              Black (Nd Red Lf 3 (1%Z, "a"%string) Lf) 2 (2%Z, "b"%string)
              (Nd Red Lf 4 (3%Z, "c"%string) Lf) false 10
              demo_invariants eq_refl demo_can_deallocate
              ltac:(by left) ltac:(simpl; lia))
    as (tr' & w' & t' & H1 & H2 & H3 & _).
  exists tr', w', t'. split; [exact H1|]. split; [exact H2|exact H3].
Defined.

(** ** The allocator scenario *)

Section AllocatorScenario.
Context {K T : Type}.
Variable cmp : K -> K -> bool.
Variable key_eq : K -> K -> bool.
Variable T_default : T.
Local Abbreviation Node := (@Node K T).
Local Abbreviation World := (@World K T).
Local Abbreviation tree := (@tree K T).
Local Abbreviation frame := (@frame K T).

(** An element is inserted by [insert(value_type &&)], or, as the
    test suite does, by [tree[k] = v]. *)
Definition add (by_index : bool) (fuel : nat) (t : RBTree) (kv : K * T) : M World RBTree :=
  if by_index then assign_index cmp key_eq T_default fuel t (fst kv) (snd kv)
  else '(_, _, t) <- insert cmp key_eq fuel t kv ;; ret t.

Fixpoint add_all (by_index : bool) (fuel : nat) (t : RBTree) (kvs : list (K * T))
  : M World RBTree :=
  match kvs with
  | [] => ret t
  | kv :: kvs => t <- add by_index fuel t kv ;; add_all by_index fuel t kvs
  end.

(** No two of the entries have [==]-equal keys. *)
Fixpoint distinct_keys (kvs : list (K * T)) : Prop :=
  match kvs with
  | [] => True
  | kv :: kvs =>
      Forall (fun x => key_eq (fst x) (fst kv) = false) kvs /\ distinct_keys kvs
  end.

(** The counters after [k] counts. *)
Lemma iter_bump_lookup c (cs : gmap N N) v k :
  cs !! c = Some v -> (0 < k)%nat ->
  Nat.iter k (bump_cell c) cs !! c = Some ((v + N.of_nat k) mod unsigned_max).
Proof.
  intros Hv Hk. destruct k as [|k]; [lia|]. clear Hk.
  induction k as [|k IH].
  - simpl. unfold bump_cell. rewrite Hv, lookup_insert_eq. done.
  - rewrite Nat.iter_succ. unfold bump_cell at 1. rewrite IH, lookup_insert_eq.
    f_equal. rewrite N.Div0.add_mod_idemp_l. f_equal. lia.
Qed.

Lemma iter_bump_other c c' (cs : gmap N N) k :
  c' <> c -> Nat.iter k (bump_cell c) cs !! c' = cs !! c'.
Proof.
  intros Hne. induction k as [|k IH]; [done|].
  rewrite Nat.iter_succ. unfold bump_cell at 1.
  destruct (_ !! c); [|done]. by rewrite lookup_insert_ne.
Qed.

Lemma bh_plug_congr ctx (t t' : tree) : bh t = bh t' -> bh (plug ctx t) = bh (plug ctx t').
Proof.
  revert t t'. induction ctx as [|f ctx IH]; intros t t' Heq; simpl; [done|].
  apply IH. destruct f; simpl; by rewrite Heq.
Qed.

(** The invariants do not look at the mapped values. *)
Lemma invariants_relabel (w w' : World) tr np ctx c (l : tree) a k v (r : tree) v' :
  invariants cmp w tr (plug ctx (Nd c l a (k, v) r)) ->
  wf w' (m_data tr) np Black (plug ctx (Nd c l a (k, v') r)) ->
  bst cmp (plug ctx (Nd c l a (k, v') r)) ->
  invariants cmp w' tr (plug ctx (Nd c l a (k, v') r)).
Proof.
  intros (_ & _ & Hnrr & Hbh & Hrb & Hsize) Hwf Hbst.
  split_and!; [by exists np|done| | | |].
  - apply nrr_plug in Hnrr as (Hn & Hctx & Hhb). apply nrr_plug. by split_and!.
  - by rewrite (bh_plug_congr ctx _ (Nd c l a (k, v) r)).
  - exact (root_black_frame _ _ _ _ _ _ _ _ _ _ Hrb).
  - rewrite Hsize, !inorder_length_addrs.
    by rewrite (addrs_plug_congr ctx (Nd c l a (k, v') r) (Nd c l a (k, v) r)).
Qed.

Hypothesis cmp_irrefl : forall a, cmp a a = false.
Hypothesis cmp_trans : forall a b c, cmp a b = true -> cmp b c = true -> cmp a c = true.
Hypothesis key_eq_equiv :
  forall a b, key_eq a b = true <-> cmp a b = false /\ cmp b a = false.

(** Adding an entry whose key no entry has, in either way: the
    invariants are kept, the entry is there, and the allocator has
    counted once. *)
Lemma add_spec by_index (w : World) tr t k v fuel :
  invariants cmp w tr t ->
  fresh_ok w ->
  can_allocate w (m_allocator tr) ->
  heap w !! nullptr = None ->
  0 < brk w ->
  Forall (fun x => key_eq k (fst x) = false) (inorder t) ->
  (length (inorder t) + 1 < fuel)%nat ->
  exists tr' w' t',
    add by_index fuel tr (k, v) w = Done (tr', w') /\
    invariants cmp w' tr' t' /\
    fresh_ok w' /\
    can_allocate w' (m_allocator tr') /\
    m_allocator tr' = m_allocator tr /\
    heap w' !! nullptr = None /\
    inorder t' ≡ₚ (k, v) :: inorder t /\
    brk w' = brk w + 1 /\
    cells w' = alloc_bump (m_allocator tr) (cells w).
Proof.
  intros Hinv Hfresh Hal Hnull Hpos Habs Hfuel.
  assert (forall v0, exists it tr1 w1 t1 pre post,
            insert cmp key_eq fuel tr (k, v0) w = Done ((it, true, tr1), w1) /\
            invariants cmp w1 tr1 t1 /\
            fresh_ok w1 /\
            can_allocate w1 (m_allocator tr1) /\
            m_allocator tr1 = m_allocator tr /\
            heap w1 !! nullptr = None /\
            inorder t1 ≡ₚ (k, v0) :: inorder t /\
            brk w1 = brk w + 1 /\
            cells w1 = alloc_bump (m_allocator tr) (cells w) /\
            nodes t = pre ++ post /\
            nodes t1 = pre ++ (m_node it, (k, v0)) :: post) as Hins.
  { intros v0.
    destruct (insert_invariants_at cmp key_eq cmp_trans key_eq_equiv w tr t k v0 fuel
                Hinv Hfresh Hal Hfuel)
      as (it & b & tr1 & w1 & t1 & Hrun & Hinv1 & Hfresh1 & Hal1 & Ha1 & Htrue & Hfalse & Hat).
    destruct b; cycle 1.
    { destruct (Hfalse eq_refl) as ((kv & Hin & Hk) & _).
      rewrite Forall_forall in Habs. specialize (Habs kv Hin). congruence. }
    destruct (Htrue eq_refl) as [_ Hperm].
    destruct (Hat eq_refl) as (pre & post & Hpre & Hpost).
    destruct (insert_counts cmp key_eq fuel tr (k, v0) w _ _ _ _ Hrun) as [Hb Hc].
    exists it, tr1, w1, t1, pre, post.
    split; [exact Hrun|]. split; [exact Hinv1|]. split; [exact Hfresh1|].
    split; [exact Hal1|]. split; [exact Ha1|]. split; [|by split_and!].
    apply not_elem_of_dom.
    apply (insert_keeps_free cmp key_eq fuel tr (k, v0) w _ w1 nullptr Hrun); [done|].
    by apply not_elem_of_dom. }
  destruct by_index; cbn [add fst snd].
  - destruct (Hins T_default)
      as (it & tr1 & w1 & t1 & pre & post & Hrun & Hinv1 & Hfresh1 & Hal1 & Ha1 & Hnull1 &
          Hperm & Hb & Hc & Hpre & Hpost).
    pose proof Hinv1 as ([np1 Hwf1] & Hbst1 & _).
    destruct (focus_split t1 pre (m_node it) (k, T_default) post
                (wf_nodup _ _ _ _ _ Hwf1) Hpost) as (ctx & c & l & r & -> & -> & ->).
    destruct (write_ref_spec cmp w1 (m_data tr1) np1 Black ctx c l (m_node it) k T_default r v
                cmp_trans Hwf1) as (w2 & Hw & Hwf2 & _ & (Hd1 & Hd2 & Hd3) & _ & Hbst2).
    exists tr1, w2, (plug ctx (Nd c l (m_node it) (k, v) r)).
    split; [|split; [|split; [|split; [|split; [exact Ha1|split; [|split; [|split]]]]]]].
    + unfold assign_index, bind. rewrite index_as_insert, Hrun. cbv beta iota. by rewrite Hw.
    + apply (invariants_relabel w1 w2 tr1 np1 ctx c l (m_node it) k T_default r v Hinv1 Hwf2).
      by apply Hbst2.
    + intros a Ha. rewrite Hd1. apply Hfresh1. by rewrite <-Hd3.
    + destruct Hal1 as [Hz|Hs]; [by left|right]. by rewrite Hd2.
    + apply not_elem_of_dom. rewrite Hd3. by apply not_elem_of_dom.
    + assert (nodes (plug ctx (Nd c l (m_node it) (k, v) r)) =
              (before_ctx ctx ++ nodes l) ++ (m_node it, (k, v)) :: nodes r ++ after_ctx ctx)
        as Hn by (rewrite nodes_plug; simpl; by rewrite <-!app_assoc).
      rewrite <-!nodes_inorder, Hn, Hpre. rewrite ?fmap_app, ?fmap_cons, ?fmap_app. simpl.
      symmetry. apply Permutation_middle.
    + by rewrite Hd1.
    + by rewrite Hd2.
  - destruct (Hins v)
      as (it & tr1 & w1 & t1 & pre & post & Hrun & Hinv1 & Hfresh1 & Hal1 & Ha1 & Hnull1 &
          Hperm & Hb & Hc & _).
    exists tr1, w1, t1. split; [|by split_and!].
    unfold bind. by rewrite Hrun.
Qed.

Lemma add_all_spec by_index fuel :
  forall kvs (w : World) tr t,
  invariants cmp w tr t ->
  fresh_ok w ->
  can_allocate w (m_allocator tr) ->
  heap w !! nullptr = None ->
  0 < brk w ->
  distinct_keys kvs ->
  Forall (fun kv => Forall (fun x => key_eq (fst kv) (fst x) = false) (inorder t)) kvs ->
  (length (inorder t) + length kvs + 1 < fuel)%nat ->
  exists tr' w' t',
    add_all by_index fuel tr kvs w = Done (tr', w') /\
    invariants cmp w' tr' t' /\
    fresh_ok w' /\
    m_allocator tr' = m_allocator tr /\
    heap w' !! nullptr = None /\
    inorder t' ≡ₚ kvs ++ inorder t /\
    brk w' = brk w + N.of_nat (length kvs) /\
    cells w' = Nat.iter (length kvs) (alloc_bump (m_allocator tr)) (cells w).
Proof.
  induction kvs as [|[k v] kvs IH]; intros w tr t Hinv Hfresh Hal Hnull Hpos Hdist Hold Hfuel.
  { exists tr, w, t. split_and!; try done. simpl. lia. }
  destruct Hdist as [Hhead Hdist].
  apply Forall_cons in Hold as [Habs Hold].
  destruct (add_spec by_index w tr t k v fuel Hinv Hfresh Hal Hnull Hpos Habs
              ltac:(simpl in Hfuel; lia))
    as (tr1 & w1 & t1 & Hrun & Hinv1 & Hfresh1 & Hal1 & Ha1 & Hnull1 & Hperm & Hb & Hc).
  destruct (IH w1 tr1 t1 Hinv1 Hfresh1 Hal1 Hnull1 ltac:(lia) Hdist)
    as (tr' & w' & t' & Hrun' & Hinv' & Hfresh' & Ha' & Hnull' & Hperm' & Hb' & Hc').
  { rewrite Forall_forall in Hhead, Hold. apply Forall_forall. intros kv Hkv.
    apply Forall_forall. intros x Hx. rewrite Hperm in Hx.
    apply elem_of_cons in Hx as [->|Hx]; [by apply Hhead|].
    specialize (Hold kv Hkv). rewrite Forall_forall in Hold. by apply Hold. }
  { rewrite Hperm. simpl in *. lia. }
  exists tr', w', t'. split; [|split_and!; try done].
  - cbn [add_all]. unfold bind at 1. by rewrite Hrun.
  - congruence.
  - rewrite Hperm', Hperm. simpl. by rewrite Permutation_middle.
  - rewrite Hb', Hb. simpl length. lia.
  - rewrite Hc', Hc, Ha1. simpl length. by rewrite Nat.iter_succ_r.
Qed.

(** The destructor of a moved-from tree does nothing. *)
Lemma destroy_moved_from (other : RBTree) fuel (w : World) :
  RBTree_destroy fuel (snd (RBTree_move other)) w = Done (tt, w).
Proof. reflexivity. Qed.

(** Two trees that share no node are destroyed one after the
    other. *)
Lemma destroy_two (w : World) (X Y : RBTree) npX ncX tX npY ncY tY fuel v :
  wf w (m_data X) npX ncX tX ->
  wf w (m_data Y) npY ncY tY ->
  (forall a, a ∈ nil (m_data X) :: addrs tX -> a ∉ nil (m_data Y) :: addrs tY) ->
  heap w !! nullptr = None ->
  m_allocator Y = m_allocator X ->
  m_deallocations (m_allocator X) <> nullptr ->
  cells w !! m_deallocations (m_allocator X) = Some v ->
  (length (inorder tX) + 1 < fuel)%nat ->
  (length (inorder tY) + 1 < fuel)%nat ->
  exists w1 w2,
    RBTree_destroy fuel X w = Done (tt, w1) /\
    RBTree_destroy fuel Y w1 = Done (tt, w2) /\
    cells w2 =
      Nat.iter (S (length (inorder tY)) + S (length (inorder tX)))
        (bump_cell (m_deallocations (m_allocator X))) (cells w).
Proof.
  intros HwfX HwfY Hdisj Hnull Hal Hpd Hv HfX HfY.
  apply N.eqb_neq in Hpd.
  assert (forall (w0 : World) tb np nc (t0 : tree) a,
            wf w0 tb np nc t0 -> a ∈ nil tb :: addrs t0 -> a ∈ dom (heap w0)) as Hlive.
  { intros w0 tb np nc t0 a Hwf [->|Ha]%elem_of_cons.
    - eapply elem_of_dom_2. apply (wf_nil _ _ _ _ _ Hwf).
    - by apply (wf_live _ _ _ _ _ _ Hwf). }
  destruct (RBTree_destroy_spec w X npX ncX tX fuel HwfX Hnull ltac:(right; by eexists) HfX)
    as (w1 & Hrun1 & Hdead1 & Hsame1 & Hbrk1 & Hcells1).
  rewrite Hpd in Hcells1.
  assert (wf w1 (m_data Y) npY ncY tY) as HwfY1.
  { apply (wf_agree w); [|done]. intros a Ha. apply Hsame1.
    intros HaX. by apply (Hdisj a HaX). }
  assert (heap w1 !! nullptr = None) as Hnull1.
  { rewrite Hsame1; [done|]. intros Hin. apply (Hlive _ _ _ _ _ _ HwfX) in Hin.
    by apply not_elem_of_dom in Hnull. }
  destruct (RBTree_destroy_spec w1 Y npY ncY tY fuel HwfY1 Hnull1) as
    (w2 & Hrun2 & _ & _ & _ & Hcells2); [|done|].
  { right. rewrite Hal, Hcells1, (iter_bump_lookup _ _ v); [by eexists|done|lia]. }
  rewrite Hal, Hpd in Hcells2.
  exists w1, w2. split; [exact Hrun1|]. split; [exact Hrun2|].
  by rewrite Hcells2, Hcells1, Nat.iter_add.
Qed.

(** C4, as amended: with a counting allocator whose counters stand at
    [A] and [D], constructing a tree and inserting [n >= 1] entries
    with pairwise different keys (by [insert], or by [tree[k] = v])
    takes [n + 1] allocations, the sentinel being allocated through
    the allocator as well; copy construction takes [n + 1] more, so
    that the count that started at 0 doubles; move construction (a
    function that does not touch the world), from the copy or from
    the original, allocates nothing; and when the three trees are
    destroyed, the deallocations are [2 (n + 1)] as the allocations
    are.  For four entries the counts are 5, 10, 10 and 10. *)
Theorem C4_allocator_scenario_amended (by_index from_copy : bool) (w : World) al A D
    (kvs : list (K * T)) fuel :
  m_allocations al <> nullptr ->
  m_deallocations al <> nullptr ->
  m_allocations al <> m_deallocations al ->
  cells w !! m_allocations al = Some A ->
  cells w !! m_deallocations al = Some D ->
  fresh_ok w ->
  heap w !! nullptr = None ->
  0 < brk w ->
  kvs <> [] ->
  distinct_keys kvs ->
  (length kvs + 2 < fuel)%nat ->
  exists tree w1 treeB w2 w3,
    (t <- RBTree_new al ;; add_all by_index fuel t kvs) w = Done (tree, w1) /\
    size tree = N.of_nat (length kvs) mod size_t_max /\
    cells w1 !! m_allocations al = Some ((A + N.of_nat (length kvs + 1)) mod unsigned_max) /\
    cells w1 !! m_deallocations al = Some D /\
    RBTree_copy cmp key_eq fuel tree w1 = Done (treeB, w2) /\
    cells w2 !! m_allocations al =
      Some ((A + N.of_nat (2 * (length kvs + 1))) mod unsigned_max) /\
    cells w2 !! m_deallocations al = Some D /\
    (let '(treeC, rest) := RBTree_move (if from_copy then treeB else tree) in
     (_ <- RBTree_destroy fuel treeC ;;
      _ <- RBTree_destroy fuel (if from_copy then rest else treeB) ;;
      RBTree_destroy fuel (if from_copy then tree else rest)) w2 = Done (tt, w3)) /\
    cells w3 !! m_allocations al =
      Some ((A + N.of_nat (2 * (length kvs + 1))) mod unsigned_max) /\
    cells w3 !! m_deallocations al =
      Some ((D + N.of_nat (2 * (length kvs + 1))) mod unsigned_max).
Proof.
  intros Hpa Hpd Hne HA HD Hfresh Hnull Hpos Hkvs Hdist Hfuel.
  assert (alloc_bump al = bump_cell (m_allocations al)) as Hbump.
  { unfold alloc_bump. apply N.eqb_neq in Hpa. by rewrite Hpa. }
  (* the constructor *)
  destruct (RBTree_new_spec w al ltac:(right; by eexists)) as (cs & Hnew & _ & Hcs).
  specialize (Hcs A Hpa HA).
  set (tree0 := mkRBTree (mkTreeBase (brk w) (brk w)) al 0) in *.
  set (w0 := mkWorld (<[brk w := mkNode nullptr (brk w) (brk w) Black None]> (heap w))
                     (brk w + 1) cs) in *.
  assert (invariants cmp w0 tree0 Lf) as Hinv0.
  { split_and!; try done. exists nullptr. apply (wf_new w). }
  assert (fresh_ok w0) as Hfresh0.
  { intros a. unfold w0. simpl. rewrite dom_insert_L.
    intros [Ha|Ha]%elem_of_union; [apply elem_of_singleton in Ha; lia|].
    apply Hfresh in Ha. lia. }
  assert (heap w0 !! nullptr = None) as Hnull0.
  { unfold w0. simpl. rewrite lookup_insert_ne; [done|]. unfold nullptr. lia. }
  (* the insertions *)
  destruct (add_all_spec by_index fuel kvs w0 tree0 Lf Hinv0 Hfresh0)
    as (tree & w1 & t & Hrun1 & Hinv1 & Hfresh1 & Hal1 & Hnull1 & Hperm1 & Hbrk1 & Hcells1).
  { right. unfold w0, tree0. simpl. rewrite Hcs, lookup_insert_eq. by eexists. }
  { done. }
  { unfold w0. simpl. lia. }
  { done. }
  { apply Forall_forall. intros kv _. apply Forall_nil_2. }
  { simpl. lia. }
  rewrite app_nil_r in Hperm1.
  pose proof (Permutation_length Hperm1) as Hlen1.
  change (m_allocator tree0) with al in *. rewrite Hbump in Hcells1.
  assert (cells w1 = Nat.iter (S (length kvs)) (bump_cell (m_allocations al)) (cells w))
    as Hc1.
  { assert (bump_cell (m_allocations al) (cells w) =
            <[m_allocations al := (A + 1) mod unsigned_max]> (cells w)) as Hb1
      by (unfold bump_cell; by rewrite HA).
    rewrite Hcells1. unfold w0. cbn [cells]. by rewrite Hcs, Nat.iter_succ_r, Hb1. }
  pose proof Hinv1 as ([np1 Hwf1] & Hbst1 & _ & _ & _ & Hsize1).
  assert (t <> Lf) as Ht.
  { intros ->. simpl in Hlen1. destruct kvs; [done|simpl in Hlen1; lia]. }
  (* the copy *)
  destruct (RBTree_copy_spec cmp key_eq cmp_irrefl cmp_trans key_eq_equiv w1 tree np1 Black t
              fuel Hwf1 Ht Hbst1 Hnull1 Hfresh1)
    as (treeB & w2 & tB & Hrun2 & Hinv2 & HinB & HalB & Hwf1' & _ & Hnew2 & Hnull2 & _ &
        _ & Hcells2); [|lia|].
  { right. rewrite Hal1, Hc1, (iter_bump_lookup _ _ A); [by eexists|done|lia]. }
  rewrite Hal1, Hbump, Hc1, <-Nat.iter_add, Hlen1 in Hcells2.
  pose proof Hinv2 as ([npB HwfB] & _).
  (* the counters *)
  assert (cells w1 !! m_allocations al =
            Some ((A + N.of_nat (length kvs + 1)) mod unsigned_max)) as Ha1.
  { rewrite Hc1, (iter_bump_lookup _ _ A); [|done|lia]. do 3 f_equal. lia. }
  assert (cells w1 !! m_deallocations al = Some D) as Hd1.
  { rewrite Hc1, iter_bump_other; [done|congruence]. }
  assert (cells w2 !! m_allocations al =
            Some ((A + N.of_nat (2 * (length kvs + 1))) mod unsigned_max)) as Ha2.
  { rewrite Hcells2, (iter_bump_lookup _ _ A); [|done|lia]. do 3 f_equal. lia. }
  assert (cells w2 !! m_deallocations al = Some D) as Hd2.
  { rewrite Hcells2, iter_bump_other; [done|congruence]. }
  assert (forall a, a ∈ nil (m_data treeB) :: addrs tB ->
                    a ∉ nil (m_data tree) :: addrs t) as Hdisj.
  { intros a Ha Hin. apply (Hnew2 a Ha).
    apply elem_of_cons in Hin as [->|Hin].
    - eapply elem_of_dom_2. apply (wf_nil _ _ _ _ _ Hwf1).
    - by apply (wf_live _ _ _ _ _ _ Hwf1). }
  assert (forall w3 : World,
            cells w3 =
              Nat.iter (S (length kvs) + S (length kvs))
                (bump_cell (m_deallocations al)) (cells w2) ->
            cells w3 !! m_allocations al =
              Some ((A + N.of_nat (2 * (length kvs + 1))) mod unsigned_max) /\
            cells w3 !! m_deallocations al =
              Some ((D + N.of_nat (2 * (length kvs + 1))) mod unsigned_max)) as Hend.
  { intros w3 ->. split.
    - by rewrite iter_bump_other.
    - rewrite (iter_bump_lookup _ _ D); [|done|lia]. do 3 f_equal. lia. }
  (* the destructors *)
  destruct from_copy.
  - destruct (destroy_two w2 (mkRBTree (m_data treeB) al (m_size treeB)) tree
                npB Black tB np1 Black t fuel D HwfB Hwf1' Hdisj Hnull2)
      as (w3 & w4 & Hr3 & Hr4 & Hc4); [done|done|done|rewrite HinB; lia|lia|].
    cbn [m_allocator] in Hc4. rewrite HinB, Hlen1 in Hc4.
    exists tree, w1, treeB, w2, w4.
    split; [by rewrite (bind_done _ _ _ _ _ Hnew)|]. split; [unfold size; by rewrite Hsize1, Hlen1|].
    split; [exact Ha1|]. split; [exact Hd1|]. split; [exact Hrun2|].
    split; [exact Ha2|]. split; [exact Hd2|]. split; [|by apply Hend].
    unfold RBTree_move. cbn [RBTreeData_init m_allocator m_data m_size]. rewrite HalB, Hal1.
    rewrite (bind_done _ _ _ _ _ Hr3). unfold bind. cbn. exact Hr4.
  - destruct (destroy_two w2 (mkRBTree (m_data tree) al (m_size tree)) treeB
                np1 Black t npB Black tB fuel D Hwf1' HwfB)
      as (w3 & w4 & Hr3 & Hr4 & Hc4);
      [intros a Ha Hin; by apply (Hdisj a Hin)|done|by rewrite HalB|done|done|lia|
       rewrite HinB; lia|].
    cbn [m_allocator] in Hc4. rewrite HinB, Hlen1 in Hc4.
    exists tree, w1, treeB, w2, w4.
    split; [by rewrite (bind_done _ _ _ _ _ Hnew)|]. split; [unfold size; by rewrite Hsize1, Hlen1|].
    split; [exact Ha1|]. split; [exact Hd1|]. split; [exact Hrun2|].
    split; [exact Ha2|]. split; [exact Hd2|]. split; [|by apply Hend].
    unfold RBTree_move. cbn [RBTreeData_init m_allocator m_data m_size]. rewrite Hal1.
    rewrite (bind_done _ _ _ _ _ Hr3). rewrite (bind_done _ _ _ _ _ Hr4). reflexivity.
Qed.

End AllocatorScenario.

Lemma C4_allocator_scenario_witness :
  exists tree w1 treeB w2 w3,
    (t <- RBTree_new counting ;;
     add_all int_less Z.eqb ""%string true 20 t
       [(1%Z, "hello1"%string); (2%Z, "hello2"%string);
        (3%Z, "hello3"%string); (4%Z, "hello4"%string)]) counting_world = Done (tree, w1) /\
    size tree = 4 /\
    cells w1 !! 1 = Some 5 /\
    RBTree_copy int_less Z.eqb 20 tree w1 = Done (treeB, w2) /\
    cells w2 !! 1 = Some 10 /\
    (let '(treeC, rest) := RBTree_move tree in
     (_ <- RBTree_destroy 20 treeC ;;
      _ <- RBTree_destroy 20 treeB ;;
      RBTree_destroy 20 rest) w2 = Done (tt, w3)) /\
    cells w3 !! 1 = Some 10 /\
    cells w3 !! 2 = Some 10.
Proof.
  destruct (C4_allocator_scenario_amended int_less Z.eqb ""%string
              int_less_irrefl int_less_trans int_eq_equiv true false
              counting_world counting 0 0
              [(1%Z, "hello1"%string); (2%Z, "hello2"%string);
               (3%Z, "hello3"%string); (4%Z, "hello4"%string)] 20)
    as (tree & w1 & treeB & w2 & w3 & H1 & H2 & H3 & _ & H5 & H6 & _ & H8 & H9 & H10).
  - done.
  - done.
  - done.
  - reflexivity.
  - reflexivity.
  - intros a Ha. simpl in Ha. by rewrite dom_empty_L in Ha.
  - reflexivity.
  - reflexivity.
  - done.
  - simpl. by repeat constructor.
  - simpl. lia.
  - exists tree, w1, treeB, w2, w3.
    split; [exact H1|]. split; [exact H2|]. split; [exact H3|]. split; [exact H5|].
    split; [exact H6|]. split; [exact H8|]. split; [exact H9|exact H10].
Defined.
